(** * jason: a permissive JSON lexer, parser and serialiser (json.h, json.cc)

    A shallow embedding of the C++ sources.  Text ([std::string],
    [std::string_view]) is a list of bytes ([ascii]); a pointer into the
    source buffer is the offset it points at; [size_t] counters are natural
    numbers (a counter never exceeds the length of the buffer plus one, so
    the 64-bit wrap-around is out of reach); a thrown [ParsingError] is the
    [Throw] outcome of a computation. *)

From Stdlib Require Import Ascii String DecimalString SpecFloat.
From Stdlib Require Import List Bool Arith NArith ZArith Lia Permutation.
Import ListNotations.

Set Warnings "-register-all".

(** ** Characters *)

Definition NUL : ascii := "000"%char.
Definition TAB : ascii := "009"%char.
Definition LF : ascii := "010"%char.
Definition CR : ascii := "013"%char.
Definition SPACE : ascii := " "%char.
Definition DQUOTE : ascii := "034"%char.
Definition BACKSLASH : ascii := "092"%char.

(** A literal of the sources as a list of bytes. *)
Definition chars (s : string) : list ascii := list_ascii_of_string s.

(** [std::string(n, ' ')]. *)
Definition spaces (n : nat) : list ascii := repeat SPACE n.

(** ** What the sources use of the C and C++ standard libraries *)

Module Std.

(** [std::isdigit] and [std::isalpha] in the "C" locale.  A [char] above 127
    is neither. *)
Definition isdigit (c : ascii) : bool :=
  (48 <=? nat_of_ascii c) && (nat_of_ascii c <=? 57).

Definition isalpha (c : ascii) : bool :=
  ((65 <=? nat_of_ascii c) && (nat_of_ascii c <=? 90))
  || ((97 <=? nat_of_ascii c) && (nat_of_ascii c <=? 122)).

Definition isspace (c : ascii) : bool :=
  ((9 <=? nat_of_ascii c) && (nat_of_ascii c <=? 13)) || (nat_of_ascii c =? 32).

Definition iscntrl (c : ascii) : bool :=
  (nat_of_ascii c <? 32) || (nat_of_ascii c =? 127).

(** [std::to_string] of a [size_t]. *)
Definition to_string (n : nat) : string :=
  NilZero.string_of_uint (Nat.to_uint n).

(** A [double] is an IEEE 754 binary64 number: 53 bits of precision, the
    exponent of infinity 1024. *)
Definition double : Type := spec_float.
Definition prec : Z := 53.
Definition emax : Z := 1024.

Definition is_finite (d : double) : bool :=
  match d with
  | S754_zero _ | S754_finite _ _ _ => true
  | S754_infinity _ | S754_nan => false
  end.

Definition double_eqb (x y : double) : bool :=
  match x, y with
  | S754_zero a, S754_zero b => Bool.eqb a b
  | S754_infinity a, S754_infinity b => Bool.eqb a b
  | S754_nan, S754_nan => true
  | S754_finite a m e, S754_finite b n f =>
      Bool.eqb a b && Pos.eqb m n && Z.eqb e f
  | _, _ => false
  end.

(** The double nearest to the integer [n] (ties to even). *)
Definition of_Z (n : Z) : double := binary_normalize prec emax n 0 false.

(** *** Decimal digits *)

Definition digit_of (c : ascii) : N := N.of_nat (nat_of_ascii c - 48).

Definition digits_value (ds : list ascii) : N :=
  fold_left (fun acc c => (10 * acc + digit_of c)%N) ds 0%N.

Definition digits_of_N (n : N) : list ascii :=
  chars (NilZero.string_of_uint (N.to_uint n)).

(** The longest prefix of digits, and what follows it. *)
Fixpoint span_digits (s : list ascii) : list ascii * list ascii :=
  match s with
  | c :: r =>
      if isdigit c then let (ds, r') := span_digits r in (c :: ds, r')
      else ([], s)
  | [] => ([], [])
  end.

Fixpoint skip_spaces (s : list ascii) : list ascii :=
  match s with
  | c :: r => if isspace c then skip_spaces r else s
  | [] => []
  end.

(** *** [std::stod]

    [std::stod(str, &pos)] calls [strtod]: leading white space, an optional
    sign, then the longest decimal floating literal (digits with an optional
    radix point, at least one digit, and an optional exponent that needs at
    least one digit).  It throws [std::invalid_argument] when no conversion
    could be made and [std::out_of_range] when [strtod] reports [ERANGE];
    otherwise it returns the correctly rounded value and stores in [pos]
    the number of characters read.  The hexadecimal, infinity and NaN forms
    of [strtod] all need a letter other than [e]; the lexer hands over none
    (see [Lexer_numberToken]), and they are not modelled. *)

Inductive stod_result : Type :=
  | StodOk (value : double) (pos : nat)
  | StodInvalidArgument
  | StodOutOfRange.

(** The shortest suffix left by an optional exponent part read at [s], and
    the exponent read: [e] or [E], an optional sign, digits.  Without a digit
    nothing is read. *)
Definition read_exponent (s : list ascii) : Z * list ascii :=
  match s with
  | c :: r =>
      if (c =? "e")%char || (c =? "E")%char then
        let '(neg, r1) :=
          match r with
          | "-"%char :: r1 => (true, r1)
          | "+"%char :: r1 => (false, r1)
          | _ => (false, r)
          end in
        let (ds, r2) := span_digits r1 in
        match ds with
        | [] => (0%Z, s)
        | _ :: _ =>
            let x := Z.of_N (digits_value ds) in
            ((if neg then - x else x)%Z, r2)
        end
      else (0%Z, s)
  | [] => (0%Z, s)
  end.

(** The magnitude [m * 10 ^ k], with [m] positive, rounded to the nearest
    double, ties to even. *)
Definition round_decimal (m : positive) (k : Z) : double :=
  match k with
  | Zneg p =>
      SFdiv prec emax (S754_finite false m 0)
            (S754_finite false (Pos.pow 10 p) 0)
  | _ => binary_normalize prec emax (Zpos m * 10 ^ k) 0 false
  end.

(** Whether the finite double [d] is exactly [m * 10 ^ k]. *)
Definition exactly (d : double) (m : positive) (k : Z) : bool :=
  match d with
  | S754_finite _ md ed =>
      let lhs := (Zpos md * 2 ^ Z.max ed 0 * 10 ^ Z.max (- k) 0)%Z in
      let rhs := (Zpos m * 2 ^ Z.max (- ed) 0 * 10 ^ Z.max k 0)%Z in
      Z.eqb lhs rhs
  | _ => false
  end.

(** Whether the magnitude [m * 10 ^ k] is tiny: rounded to 53 bits with
    an exponent as low as need be, it is still below the least normal
    double [2 ^ -1022].  That is the case below [2 ^ -1022 - 2 ^ -1076],
    half-way between the two 53-bit numbers [2 ^ -1022 - 2 ^ -1075] and
    [2 ^ -1022], where the tie goes to the even [2 ^ -1022]. *)
Definition tiny (m : positive) (k : Z) : bool :=
  match k with
  | Zneg p => (Zpos m * 2 ^ 1076 <? (2 ^ 54 - 1) * Zpos (Pos.pow 10 p))%Z
  | _ => false
  end.

(** [strtod] sets [ERANGE] on overflow, and on underflow: a tiny value
    whose result is not exact (glibc on x86-64, where tininess is found
    after rounding: [round_and_return] in [strtod_l.c]; the C standard
    leaves the case to the implementation).  The result of a tiny value
    is subnormal, zero, or, from [2 ^ -1022 - 2 ^ -1075] on, the least
    normal double itself, still with [ERANGE]. *)
Definition erange (d : double) (m : positive) (k : Z) : bool :=
  match d with
  | S754_infinity _ | S754_nan => true
  | S754_zero _ => true
  | S754_finite _ _ _ => tiny m k && negb (exactly d m k)
  end.

Definition stod (str : list ascii) : stod_result :=
  let s0 := skip_spaces str in
  let '(neg, s1) :=
    match s0 with
    | "-"%char :: r => (true, r)
    | "+"%char :: r => (false, r)
    | _ => (false, s0)
    end in
  let (ip, s2) := span_digits s1 in
  let (fp, s3) :=
    match s2 with
    | "."%char :: r =>
        let (fp, r') := span_digits r in
        match ip, fp with
        | [], [] => ([], s2)
        | _, _ => (fp, r')
        end
    | _ => ([], s2)
    end in
  match ip ++ fp with
  | [] => StodInvalidArgument
  | _ :: _ =>
      let (ex, s4) := read_exponent s3 in
      let pos := length str - length s4 in
      match digits_value (ip ++ fp) with
      | N0 => StodOk (S754_zero neg) pos
      | Npos m =>
          let k := (ex - Z.of_nat (length fp))%Z in
          let d := round_decimal m k in
          if erange d m k then StodOutOfRange
          else StodOk (if neg then SFopp d else d) pos
      end
  end.

(** *** [operator<<(std::ostream&, double)]

    On a stream in its initial state ([precision() == 6], no [floatfield]
    flag) the insertion of a [double] is [printf] with [%g]: the value is
    rounded to six significant digits (to nearest, ties to even, of the
    exact binary value); with [X] the decimal exponent after rounding,
    fixed notation is used when [-4 <= X < 6] and scientific notation with
    an exponent of at least two digits otherwise; trailing zeros of the
    fraction and a radix point left bare are dropped. *)

Definition precision : nat := 6.

(** Every finite double is an exact decimal: [(n, k)] with [m * 2 ^ e =
    n * 10 ^ k] and [k <= 0]. *)
Definition exact_decimal (m : positive) (e : Z) : N * Z :=
  match e with
  | Zneg p => (Npos (m * Pos.pow 5 p), e)
  | _ => (Npos m * 2 ^ Z.to_N e, 0%Z)%N
  end.

Fixpoint all_zero (ds : list ascii) : bool :=
  match ds with
  | c :: r => (c =? "0")%char && all_zero r
  | [] => true
  end.

(** Whether the digits cut off are more than half a unit of the last digit
    kept ([Gt]), exactly half ([Eq]) or less ([Lt]). *)
Definition cut_vs_half (cut : list ascii) : comparison :=
  match cut with
  | [] => Lt
  | c :: r =>
      match N.compare (digit_of c) 5 with
      | Lt => Lt
      | Gt => Gt
      | Eq => if all_zero r then Eq else Gt
      end
  end.

(** The digits of [n] rounded to [precision] significant digits: the
    [precision] digits kept and the decimal exponent of the first one, for
    [n * 10 ^ k]. *)
Definition round_significant (n : N) (k : Z) : list ascii * Z :=
  let ds := digits_of_N n in
  let x0 := (Z.of_nat (length ds) - 1 + k)%Z in
  if length ds <=? precision then
    (ds ++ repeat "0"%char (precision - length ds), x0)
  else
    let kept := digits_value (firstn precision ds) in
    let up :=
      match cut_vs_half (skipn precision ds) with
      | Lt => false
      | Gt => true
      | Eq => N.odd kept
      end in
    let kept' := if up then (kept + 1)%N else kept in
    let ds' := digits_of_N kept' in
    if length ds' <=? precision then (ds', x0)
    else (firstn precision ds', (x0 + 1)%Z).

Fixpoint strip_zeros_rev (rev_ds : list ascii) : list ascii :=
  match rev_ds with
  | c :: r => if (c =? "0")%char then strip_zeros_rev r else rev_ds
  | [] => []
  end.

(** Trailing zeros dropped. *)
Definition strip_zeros (ds : list ascii) : list ascii :=
  rev (strip_zeros_rev (rev ds)).

Definition with_fraction (int_part frac : list ascii) : list ascii :=
  match strip_zeros frac with
  | [] => int_part
  | f => int_part ++ "."%char :: f
  end.

Definition exponent_digits (x : Z) : list ascii :=
  let ds := digits_of_N (Z.to_N (Z.abs x)) in
  (if (x <? 0)%Z then "-"%char else "+"%char)
    :: (if length ds <? 2 then "0"%char :: ds else ds).

Definition put_magnitude (m : positive) (e : Z) : list ascii :=
  let (n, k) := exact_decimal m e in
  let (ds, x) := round_significant n k in
  if ((-4 <=? x) && (x <? Z.of_nat precision))%Z then
    if (0 <=? x)%Z then
      with_fraction (firstn (Z.to_nat x + 1) ds) (skipn (Z.to_nat x + 1) ds)
    else
      with_fraction (chars "0") (repeat "0"%char (Z.to_nat (- x - 1)) ++ ds)
  else
    with_fraction (firstn 1 ds) (skipn 1 ds) ++ "e"%char :: exponent_digits x.

Definition put_double (d : double) : list ascii :=
  match d with
  | S754_zero s => if s then chars "-0" else chars "0"
  | S754_infinity s => if s then chars "-inf" else chars "inf"
  | S754_nan => chars "nan"
  | S754_finite s m e =>
      (if s then chars "-" else []) ++ put_magnitude m e
  end.

(** [std::basic_string::compare]: lexicographic on the bytes, as unsigned
    values; a proper prefix comes first. *)
Fixpoint string_compare (a b : list ascii) : comparison :=
  match a, b with
  | [], [] => Eq
  | [], _ :: _ => Lt
  | _ :: _, [] => Gt
  | x :: a', y :: b' =>
      match Nat.compare (nat_of_ascii x) (nat_of_ascii y) with
      | Eq => string_compare a' b'
      | c => c
      end
  end.

(** [operator==] of two strings. *)
Definition string_eqb (a b : list ascii) : bool :=
  match string_compare a b with
  | Eq => true
  | _ => false
  end.

(** [std::string_view::substr(pos, n)]. *)
Definition substr (s : list ascii) (pos n : nat) : list ascii :=
  firstn n (skipn pos s).

End Std.

(** ** The document model (json.h) *)

(** [JsonValue]: the variant over [nullptr_t], [bool], [double],
    [std::string], [JsonArray] ([std::vector<JsonValue>]) and [JsonObject]
    ([std::map<std::string, JsonValue>]).  A [std::map] is the list of its
    nodes in iteration order, which [std::less<std::string>] keeps strictly
    increasing in the key. *)
Inductive JsonValue : Type :=
  | JNull
  | JBool (b : bool)
  | JNumber (d : Std.double)
  | JString (s : list ascii)
  | JArray (a : list JsonValue)
  | JObject (o : list (list ascii * JsonValue)).

Definition JsonArray : Type := list JsonValue.
Definition JsonObject : Type := list (list ascii * JsonValue).

(** [object[key] = value] on a [std::map]: the node of an equal key is
    assigned to, otherwise a node is inserted at its place in the order. *)
Fixpoint map_assign {V : Type} (key : list ascii) (value : V)
    (object : list (list ascii * V)) : list (list ascii * V) :=
  match object with
  | [] => [(key, value)]
  | (k, v) :: rest =>
      match Std.string_compare key k with
      | Lt => (key, value) :: object
      | Eq => (k, value) :: rest
      | Gt => (k, v) :: map_assign key value rest
      end
  end.

Definition isNull (v : JsonValue) : bool :=
  match v with JNull => true | _ => false end.
Definition isBool (v : JsonValue) : bool :=
  match v with JBool _ => true | _ => false end.
Definition isNumber (v : JsonValue) : bool :=
  match v with JNumber _ => true | _ => false end.
Definition isString (v : JsonValue) : bool :=
  match v with JString _ => true | _ => false end.
Definition isArray (v : JsonValue) : bool :=
  match v with JArray _ => true | _ => false end.
Definition isObject (v : JsonValue) : bool :=
  match v with JObject _ => true | _ => false end.

(** ** [ParsingError] *)

Module ParsingError.

Record t : Type := mk { message : string; lineNum : nat; colNum : nat }.

Definition line (e : t) : nat := lineNum e.
Definition col (e : t) : nat := colNum e.

(** The text of the [std::runtime_error] the constructor builds. *)
Definition what (e : t) : string :=
  (message e ++ " (at line " ++ Std.to_string (lineNum e)
     ++ ", col " ++ Std.to_string (colNum e) ++ ")")%string.

End ParsingError.

(** ** Tokens *)

Module TokenType.

Inductive t : Type :=
  | LeftBrace
  | RightBrace
  | LeftBracket
  | RightBracket
  | Comma
  | Colon
  | String
  | Number
  | True
  | False
  | Null
  | EndOfFile
  | Unknown.

(** The [uint8_t] under the enumeration. *)
Definition tag (x : t) : nat :=
  match x with
  | LeftBrace => 0
  | RightBrace => 1
  | LeftBracket => 2
  | RightBracket => 3
  | Comma => 4
  | Colon => 5
  | String => 6
  | Number => 7
  | True => 8
  | False => 9
  | Null => 10
  | EndOfFile => 11
  | Unknown => 12
  end.

Definition eqb (x y : t) : bool := Nat.eqb (tag x) (tag y).

End TokenType.

Module Token.

Record t : Type :=
  mk { type : TokenType.t; lexeme : list ascii; line : nat; col : nat }.

End Token.

(** ** The lexer *)

Module Lexer.

(** [start] and [current] are offsets into [source]: the pointer
    [source.data() + n] is [n], the end of the buffer is
    [length source]. *)
Record t : Type :=
  mk { source : list ascii;
       start : nat;
       current : nat;
       lineNum : nat;
       colNum : nat;
       lineStart : nat;
       colStart : nat }.

(** [Lexer(source)]. *)
Definition new (source : list ascii) : t := mk source 0 0 1 1 1 1.

Definition isAtEnd (lx : t) : bool := length (source lx) <=? current lx.

Definition advance (lx : t) : ascii * t :=
  if isAtEnd lx then (NUL, lx)
  else
    (nth (current lx) (source lx) NUL,
     mk (source lx) (start lx) (S (current lx)) (lineNum lx)
        (S (colNum lx)) (lineStart lx) (colStart lx)).

(** [advance();] as a statement. *)
Definition advance_ (lx : t) : t := snd (advance lx).

Definition peek (lx : t) : ascii :=
  if isAtEnd lx then NUL else nth (current lx) (source lx) NUL.

Definition peekNext (lx : t) : ascii :=
  if length (source lx) <=? current lx + 1 then NUL
  else nth (current lx + 1) (source lx) NUL.

(** [lineNum++; colNum = 1;]. *)
Definition newline (lx : t) : t :=
  mk (source lx) (start lx) (current lx) (S (lineNum lx)) 1
     (lineStart lx) (colStart lx).

(** [while (cond) body]: every loop of the lexer stops at the end of the
    buffer at the latest and moves [current] forward otherwise, so the
    characters left bound the number of iterations. *)
Fixpoint while_fuel (cond : t -> bool) (body : t -> t) (fuel : nat) (lx : t)
    : t :=
  match fuel with
  | O => lx
  | S fuel' =>
      if cond lx then while_fuel cond body fuel' (body lx) else lx
  end.

Definition while (cond : t -> bool) (body : t -> t) (lx : t) : t :=
  while_fuel cond body (length (source lx) - current lx) lx.

(** [peek() != '\n' && !isAtEnd()]. *)
Definition lineComment_cond (lx : t) : bool :=
  negb (peek lx =? LF)%char && negb (isAtEnd lx).

(** [(peek() != '*' || peekNext() != '/') && !isAtEnd()]. *)
Definition blockComment_cond (lx : t) : bool :=
  (negb (peek lx =? "*")%char || negb (peekNext lx =? "/")%char)
  && negb (isAtEnd lx).

Definition blockComment_body (lx : t) : t :=
  let lx := if (peek lx =? LF)%char then newline lx else lx in
  advance_ lx.

Definition lineComment_loop : t -> t := while lineComment_cond advance_.
Definition blockComment_loop : t -> t :=
  while blockComment_cond blockComment_body.

(** One turn of the [while (true)] of [skipWhitespaceAndComments] per unit
    of fuel. *)
Fixpoint skip_fuel (fuel : nat) (lx : t) : t :=
  match fuel with
  | O => lx
  | S fuel' =>
      let c := peek lx in
      if (c =? SPACE)%char || (c =? CR)%char || (c =? TAB)%char then
        skip_fuel fuel' (advance_ lx)
      else if (c =? LF)%char then
        skip_fuel fuel' (newline (advance_ lx))
      else if (c =? "/")%char then
        if (peekNext lx =? "/")%char then
          skip_fuel fuel' (lineComment_loop lx)
        else if (peekNext lx =? "*")%char then
          let lx := advance_ lx in
          let lx := advance_ lx in
          let lx := blockComment_loop lx in
          let lx := if negb (isAtEnd lx) then advance_ lx else lx in
          let lx := if negb (isAtEnd lx) then advance_ lx else lx in
          skip_fuel fuel' lx
        else lx
      else lx
  end.

Definition skipWhitespaceAndComments (lx : t) : t :=
  skip_fuel (length (source lx) - current lx) lx.

Definition makeToken (lx : t) (type : TokenType.t) : Token.t :=
  Token.mk type
    (Std.substr (source lx) (start lx) (current lx - start lx))
    (lineStart lx) (colStart lx).

(** [peek() != DQUOTE && !isAtEnd()]. *)
Definition stringToken_cond (lx : t) : bool :=
  negb (peek lx =? DQUOTE)%char && negb (isAtEnd lx).

Definition stringToken_body (lx : t) : t :=
  let lx := if (peek lx =? LF)%char then newline lx else lx in
  let lx := if (peek lx =? BACKSLASH)%char then advance_ lx else lx in
  advance_ lx.

Definition stringToken_loop : t -> t :=
  while stringToken_cond stringToken_body.

Definition stringToken (lx : t) : Token.t * t :=
  let lx := stringToken_loop lx in
  if isAtEnd lx then
    (Token.mk TokenType.Unknown (chars "Unterminated string.")
       (lineStart lx) (colStart lx), lx)
  else
    let lx := advance_ lx in
    (makeToken lx TokenType.String, lx).

(** [std::isdigit(peek()) != 0]. *)
Definition digit_cond (lx : t) : bool := Std.isdigit (peek lx).

Definition digit_loop : t -> t := while digit_cond advance_.

Definition numberToken (lx : t) : Token.t * t :=
  let lx := digit_loop lx in
  let lx :=
    if (peek lx =? ".")%char && Std.isdigit (peekNext lx) then
      let lx := advance_ lx in
      digit_loop lx
    else lx in
  let lx :=
    if (peek lx =? "e")%char || (peek lx =? "E")%char then
      let lx := advance_ lx in
      let lx :=
        if (peek lx =? "+")%char || (peek lx =? "-")%char then advance_ lx
        else lx in
      digit_loop lx
    else lx in
  (makeToken lx TokenType.Number, lx).

(** [std::isalpha(peek()) != 0]. *)
Definition alpha_cond (lx : t) : bool := Std.isalpha (peek lx).

Definition alpha_loop : t -> t := while alpha_cond advance_.

Definition identifierToken (lx : t) : Token.t * t :=
  let lx := alpha_loop lx in
  let text := Std.substr (source lx) (start lx) (current lx - start lx) in
  if Std.string_eqb text (chars "true") then
    (makeToken lx TokenType.True, lx)
  else if Std.string_eqb text (chars "false") then
    (makeToken lx TokenType.False, lx)
  else if Std.string_eqb text (chars "null") then
    (makeToken lx TokenType.Null, lx)
  else (makeToken lx TokenType.Unknown, lx).

Definition nextToken (lx : t) : Token.t * t :=
  let lx := skipWhitespaceAndComments lx in
  let lx :=
    mk (source lx) (current lx) (current lx) (lineNum lx) (colNum lx)
       (lineNum lx) (colNum lx) in
  if isAtEnd lx then (makeToken lx TokenType.EndOfFile, lx)
  else
    let (c, lx) := advance lx in
    if (c =? "{")%char then (makeToken lx TokenType.LeftBrace, lx)
    else if (c =? "}")%char then (makeToken lx TokenType.RightBrace, lx)
    else if (c =? "[")%char then (makeToken lx TokenType.LeftBracket, lx)
    else if (c =? "]")%char then (makeToken lx TokenType.RightBracket, lx)
    else if (c =? ",")%char then (makeToken lx TokenType.Comma, lx)
    else if (c =? ":")%char then (makeToken lx TokenType.Colon, lx)
    else if (c =? DQUOTE)%char then stringToken lx
    else if Std.isdigit c || (c =? "-")%char then numberToken lx
    else if Std.isalpha c then identifierToken lx
    else (makeToken lx TokenType.Unknown, lx).

End Lexer.

(** ** The parser *)

(** What a call comes to: a value, a thrown [ParsingError], or fuel that
    ran out ([parse_total] shows the fuel [parse] starts with never
    does). *)
Inductive result (A : Type) : Type :=
  | Ok (a : A)
  | Throw (e : ParsingError.t)
  | OutOfFuel.

Arguments Ok {A} a.
Arguments Throw {A} e.
Arguments OutOfFuel {A}.

Module Parser.

Record t : Type :=
  mk { lexer : Lexer.t;
       currentToken : Token.t;
       previousToken : Token.t }.

(** A member function: it reads and writes the parser, and returns or
    throws. *)
Definition M (A : Type) : Type := t -> result (A * t).

Definition ret {A : Type} (a : A) : M A := fun p => Ok (a, p).

Definition bind {A B : Type} (m : M A) (k : A -> M B) : M B :=
  fun p =>
    match m p with
    | Ok (a, p') => k a p'
    | Throw e => Throw e
    | OutOfFuel => OutOfFuel
    end.

Notation "x <- m ;; k" := (bind m (fun x => k))
  (at level 61, m at next level, right associativity).
Notation "m ;;; k" := (bind m (fun _ => k))
  (at level 61, right associativity).

(** [throw ParsingError(message, currentToken.line, currentToken.col)]. *)
Definition throw {A : Type} (message : string) : M A :=
  fun p =>
    Throw (ParsingError.mk message (Token.line (currentToken p))
             (Token.col (currentToken p))).

(** [currentToken.type == type]. *)
Definition currentIs (type : TokenType.t) (p : t) : bool :=
  TokenType.eqb (Token.type (currentToken p)) type.

Definition advance : M unit :=
  fun p =>
    let (token, lx) := Lexer.nextToken (lexer p) in
    let p := mk lx token (currentToken p) in
    if currentIs TokenType.Unknown p then
      throw "Unexpected character or unterminated literal" p
    else ret tt p.

Definition consume (type : TokenType.t) (message : string) : M unit :=
  fun p => if currentIs type p then advance p else throw message p.

(** The [switch] of [parseString] on the escaped character. *)
Definition unescape (c : ascii) : ascii :=
  if (c =? DQUOTE)%char then DQUOTE
  else if (c =? BACKSLASH)%char then BACKSLASH
  else if (c =? "/")%char then "/"%char
  else if (c =? "b")%char then "008"%char
  else if (c =? "f")%char then "012"%char
  else if (c =? "n")%char then LF
  else if (c =? "r")%char then CR
  else if (c =? "t")%char then TAB
  else c.

(** The [for] loop of [parseString], from index [i] on, one turn per unit
    of fuel: [i] grows with every turn and stays below the length of
    [view].  (The lexeme of a String token holds its two quotes, so
    [view.length() - 2] does not wrap.) *)
Fixpoint parseString_loop (fuel : nat) (view : list ascii) (i : nat)
    (result : list ascii) : list ascii :=
  match fuel with
  | O => result
  | S fuel' =>
      if i <? length view - 1 then
        if (nth i view NUL =? BACKSLASH)%char && (i + 1 <? length view - 1)
        then
          let i := i + 1 in
          parseString_loop fuel' view (i + 1)
            (result ++ [unescape (nth i view NUL)])
        else parseString_loop fuel' view (i + 1) (result ++ [nth i view NUL])
      else result
  end.

Definition parseString : M JsonValue :=
  fun p =>
    let view := Token.lexeme (currentToken p) in
    let result := parseString_loop (length view) view 1 [] in
    (advance ;;; ret (JString result)) p.

Definition parseNumber : M JsonValue :=
  fun p =>
    let numStr := Token.lexeme (currentToken p) in
    match Std.stod numStr with
    | Std.StodOk value pos =>
        if negb (pos =? length numStr) then
          throw "Invalid characters in number literal." p
        else (advance ;;; ret (JNumber value)) p
    | Std.StodInvalidArgument => throw "Invalid number format." p
    | Std.StodOutOfRange => throw "Number is out of range for a double." p
    end.

(** [parseValue], [parseObject] and [parseArray] call each other, and the
    two [while (true)] loops turn once per member or element; every call
    and every turn takes one unit of fuel. *)
Fixpoint parseValue (fuel : nat) : M JsonValue :=
  match fuel with
  | O => fun _ => OutOfFuel
  | S fuel' =>
      fun p =>
        match Token.type (currentToken p) with
        | TokenType.LeftBrace =>
            (o <- parseObject fuel' ;; ret (JObject o)) p
        | TokenType.LeftBracket =>
            (a <- parseArray fuel' ;; ret (JArray a)) p
        | TokenType.String => parseString p
        | TokenType.Number => parseNumber p
        | TokenType.True => (advance ;;; ret (JBool true)) p
        | TokenType.False => (advance ;;; ret (JBool false)) p
        | TokenType.Null => (advance ;;; ret JNull) p
        | _ =>
            throw
              "Expected a value (object, array, string, number, true, false, or null)."
              p
        end
  end

with parseObject (fuel : nat) : M JsonObject :=
  match fuel with
  | O => fun _ => OutOfFuel
  | S fuel' =>
      consume TokenType.LeftBrace "Expected '{' to start an object." ;;;
      object <-
        (fun p =>
           if negb (currentIs TokenType.RightBrace p) then
             parseObject_loop fuel' [] p
           else ret [] p) ;;
      consume TokenType.RightBrace "Expected '}' to end an object." ;;;
      ret object
  end

with parseObject_loop (fuel : nat) (object : JsonObject) : M JsonObject :=
  match fuel with
  | O => fun _ => OutOfFuel
  | S fuel' =>
      fun p =>
        if negb (currentIs TokenType.String p) then
          throw "Expected a string key for object member." p
        else
          let lexeme := Token.lexeme (currentToken p) in
          let key := Std.substr lexeme 1 (length lexeme - 2) in
          (advance ;;;
           consume TokenType.Colon "Expected ':' after object key." ;;;
           value <- parseValue fuel' ;;
           let object := map_assign key value object in
           fun p =>
             if currentIs TokenType.RightBrace p then ret object p
             else
               (consume TokenType.Comma
                  "Expected ',' or '}' after object member." ;;;
                parseObject_loop fuel' object) p) p
  end

with parseArray (fuel : nat) : M JsonArray :=
  match fuel with
  | O => fun _ => OutOfFuel
  | S fuel' =>
      consume TokenType.LeftBracket "Expected '[' to start an array." ;;;
      array <-
        (fun p =>
           if negb (currentIs TokenType.RightBracket p) then
             parseArray_loop fuel' [] p
           else ret [] p) ;;
      consume TokenType.RightBracket "Expected ']' to end an array." ;;;
      ret array
  end

with parseArray_loop (fuel : nat) (array : JsonArray) : M JsonArray :=
  match fuel with
  | O => fun _ => OutOfFuel
  | S fuel' =>
      value <- parseValue fuel' ;;
      let array := array ++ [value] in
      fun p =>
        if currentIs TokenType.RightBracket p then ret array p
        else
          (consume TokenType.Comma "Expected ',' or ']' after array element." ;;;
           parseArray_loop fuel' array) p
  end.

(** The members [currentToken] and [previousToken] before the first
    [advance()]: default-initialised, read by nothing but the copy into
    [previousToken]. *)
Definition noToken : Token.t := Token.mk TokenType.Unknown [] 0 0.

(** [Parser(source)]: the lexer, then [advance()] for the first token. *)
Definition new (source : list ascii) : result t :=
  match advance (mk (Lexer.new source) noToken noToken) with
  | Ok (_, p) => Ok p
  | Throw e => Throw e
  | OutOfFuel => OutOfFuel
  end.

(** The byte order mark of UTF-8: [EF BB BF]. *)
Definition hasBOM (source : list ascii) : bool :=
  match source with
  | a :: b :: c :: _ =>
      (nat_of_ascii a =? 239) && (nat_of_ascii b =? 187)
      && (nat_of_ascii c =? 191)
  | _ => false
  end.

(** [source.remove_prefix(3)] when the mark is there. *)
Definition stripBOM (source : list ascii) : list ascii :=
  if hasBOM source then skipn 3 source else source.

(** Fuel for a whole parse: three units per character and four more. *)
Definition fuelFor (source : list ascii) : nat := 3 * length source + 4.

(** [Parser::parse], with the parser it leaves behind. *)
Definition run (source : list ascii) : result (JsonValue * t) :=
  let source := stripBOM source in
  match new source with
  | Ok parser => parseValue (fuelFor source) parser
  | Throw e => Throw e
  | OutOfFuel => OutOfFuel
  end.

Definition parse (source : list ascii) : result JsonValue :=
  match run source with
  | Ok (v, _) => Ok v
  | Throw e => Throw e
  | OutOfFuel => OutOfFuel
  end.

End Parser.

(** [json::parse]. *)
Definition parse (source : list ascii) : result JsonValue :=
  Parser.parse source.

(** ** The serialiser *)

(** [serialise(val, os, indent)]: the characters written to [os], a stream
    in its initial formatting state.  The [int indent] is a natural
    number here: [operator<<] passes 0, and the nested calls add 2; a
    negative indent, which makes [std::string(indent, ' ')] throw, and an
    [indent + 2] beyond [INT_MAX] are outside the model (see
    [indent_fits]). *)
Fixpoint serialise (val : JsonValue) (indent : nat) : list ascii :=
  match val with
  | JNull => chars "null"
  | JBool arg => if arg then chars "true" else chars "false"
  | JNumber arg => Std.put_double arg
  | JString arg => DQUOTE :: arg ++ [DQUOTE]
  | JArray arg =>
      chars "[" ++ [LF]
      ++ (fix elements (l : list JsonValue) : list ascii :=
            match l with
            | [] => []
            | x :: l' =>
                spaces (indent + 2) ++ serialise x (indent + 2)
                ++ (match l' with [] => [] | _ :: _ => chars "," end)
                ++ [LF] ++ elements l'
            end) arg
      ++ spaces indent ++ chars "]"
  | JObject arg =>
      chars "{" ++ [LF]
      ++ (fix members (l : list (list ascii * JsonValue)) : list ascii :=
            match l with
            | [] => []
            | (key, value) :: l' =>
                spaces (indent + 2)
                ++ DQUOTE :: key ++ DQUOTE :: chars ": "
                ++ serialise value (indent + 2)
                ++ (match l' with [] => [] | _ :: _ => chars "," end)
                ++ [LF] ++ members l'
            end) arg
      ++ spaces indent ++ chars "}"
  end.

(** [operator<<(std::ostream&, const JsonValue&)]. *)
Definition put (val : JsonValue) : list ascii := serialise val 0.

(** ** Notions the statements use *)

(** The characters from [current] on: what the lexer has not read yet. *)
Definition unread (lx : Lexer.t) : list ascii :=
  skipn (Lexer.current lx) (Lexer.source lx).

(** A loop body or a scanning function moves [current] forward inside the
    buffer and leaves the buffer alone. *)
Definition forward (lx lx' : Lexer.t) : Prop :=
  Lexer.source lx' = Lexer.source lx
  /\ Lexer.current lx <= Lexer.current lx'
  /\ (Lexer.current lx <= length (Lexer.source lx) ->
      Lexer.current lx' <= length (Lexer.source lx)).

(** [lx'] is [lx] after exactly [n] more characters, the token under
    construction still starting at the same place. *)
Definition moved (n : nat) (lx lx' : Lexer.t) : Prop :=
  Lexer.source lx' = Lexer.source lx
  /\ Lexer.start lx' = Lexer.start lx
  /\ Lexer.current lx' = Lexer.current lx + n
  /\ Lexer.lineStart lx' = Lexer.lineStart lx
  /\ Lexer.colStart lx' = Lexer.colStart lx.

(** One turn of a loop: at least one character read, inside the buffer. *)
Definition step (lx lx' : Lexer.t) : Prop :=
  Lexer.source lx' = Lexer.source lx
  /\ Lexer.current lx < Lexer.current lx'
  /\ Lexer.current lx' <= length (Lexer.source lx).

(** One turn of the [while (true)] of [skipWhitespaceAndComments]: the
    lexer the next turn starts with, or [None] at a [return]. *)
Definition skip_next (lx : Lexer.t) : option Lexer.t :=
  let c := Lexer.peek lx in
  if (c =? SPACE)%char || (c =? CR)%char || (c =? TAB)%char then
    Some (Lexer.advance_ lx)
  else if (c =? LF)%char then Some (Lexer.newline (Lexer.advance_ lx))
  else if (c =? "/")%char then
    if (Lexer.peekNext lx =? "/")%char then Some (Lexer.lineComment_loop lx)
    else if (Lexer.peekNext lx =? "*")%char then
      let lx := Lexer.advance_ lx in
      let lx := Lexer.advance_ lx in
      let lx := Lexer.blockComment_loop lx in
      let lx := if negb (Lexer.isAtEnd lx) then Lexer.advance_ lx else lx in
      let lx := if negb (Lexer.isAtEnd lx) then Lexer.advance_ lx else lx in
      Some lx
    else None
  else None.

(** Setting the start of the token to [current]. *)
Definition mark (lx : Lexer.t) : Lexer.t :=
  Lexer.mk (Lexer.source lx) (Lexer.current lx) (Lexer.current lx)
    (Lexer.lineNum lx) (Lexer.colNum lx) (Lexer.lineNum lx) (Lexer.colNum lx).

(** [nextToken] after the white space and the comments. *)
Definition scanToken (lx : Lexer.t) : Token.t * Lexer.t :=
  if Lexer.isAtEnd lx then (Lexer.makeToken lx TokenType.EndOfFile, lx)
  else
    let (c, lx) := Lexer.advance lx in
    if (c =? "{")%char then (Lexer.makeToken lx TokenType.LeftBrace, lx)
    else if (c =? "}")%char then (Lexer.makeToken lx TokenType.RightBrace, lx)
    else if (c =? "[")%char then (Lexer.makeToken lx TokenType.LeftBracket, lx)
    else if (c =? "]")%char then (Lexer.makeToken lx TokenType.RightBracket, lx)
    else if (c =? ",")%char then (Lexer.makeToken lx TokenType.Comma, lx)
    else if (c =? ":")%char then (Lexer.makeToken lx TokenType.Colon, lx)
    else if (c =? DQUOTE)%char then Lexer.stringToken lx
    else if Std.isdigit c || (c =? "-")%char then Lexer.numberToken lx
    else if Std.isalpha c then Lexer.identifierToken lx
    else (Lexer.makeToken lx TokenType.Unknown, lx).

(** The characters the lexer of a parser has not read, and one more while
    the current token is not EndOfFile: what [parseValue] can still
    consume. *)
Definition left (p : Parser.t) : nat :=
  length (Lexer.source (Parser.lexer p)) - Lexer.current (Parser.lexer p).

Definition weight (p : Parser.t) : nat :=
  left p + (if Parser.currentIs TokenType.EndOfFile p then 0 else 1).

(** The parser went on over the same buffer. *)
Definition nogrow (p p' : Parser.t) : Prop :=
  Lexer.source (Parser.lexer p') = Lexer.source (Parser.lexer p)
  /\ weight p' <= weight p.

Definition shrinks (p p' : Parser.t) : Prop :=
  Lexer.source (Parser.lexer p') = Lexer.source (Parser.lexer p)
  /\ weight p' < weight p.

(** A string literal of JSON text: [s] between two double quotes. *)
Definition quoted (s : list ascii) : list ascii := DQUOTE :: s ++ [DQUOTE].

(** White space: what [skipWhitespaceAndComments] passes over one
    character at a time. *)
Definition is_blank (c : ascii) : bool :=
  (c =? SPACE)%char || (c =? CR)%char || (c =? TAB)%char || (c =? LF)%char.

(** A character at which [skipWhitespaceAndComments] returns whatever
    follows it: neither white space nor a slash.  [NUL] stands for the end
    of the buffer. *)
Definition token_start (c : ascii) : bool :=
  negb (is_blank c) && negb (c =? "/")%char.

(** No [*/] in the text. *)
Fixpoint no_block_end (body : list ascii) : bool :=
  match body with
  | [] => true
  | c :: r =>
      negb ((c =? "*")%char
            && match r with d :: _ => (d =? "/")%char | [] => false end)
      && no_block_end r
  end.

(** The inside of a string literal that the double quote after it closes:
    no double quote but after a backslash, and no backslash left alone at
    the end. *)
Fixpoint closed_body (s : list ascii) : bool :=
  match s with
  | [] => true
  | c :: r =>
      if (c =? BACKSLASH)%char then
        match r with
        | [] => false
        | _ :: r' => closed_body r'
        end
      else negb (c =? DQUOTE)%char && closed_body r
  end.

(** Text after an opening double quote in which the end of the input comes
    before a double quote that no backslash escapes. *)
Fixpoint unterminated (s : list ascii) : bool :=
  match s with
  | [] => true
  | c :: r =>
      if (c =? BACKSLASH)%char then
        match r with
        | [] => true
        | _ :: r' => unterminated r'
        end
      else negb (c =? DQUOTE)%char && unterminated r
  end.

(** No double quote and no backslash. *)
Definition plain (s : list ascii) : bool :=
  forallb (fun c => negb (c =? DQUOTE)%char && negb (c =? BACKSLASH)%char) s.

(** The lexer after [n] calls of [advance()] inside the buffer. *)
Definition advanced (n : nat) (lx : Lexer.t) : Lexer.t :=
  Lexer.mk (Lexer.source lx) (Lexer.start lx) (Lexer.current lx + n)
    (Lexer.lineNum lx) (Lexer.colNum lx + n) (Lexer.lineStart lx)
    (Lexer.colStart lx).

(** [numberToken] on the text [s] after the first character of the token:
    what it reads and what it leaves, in three parts as the function has
    them: digits, a point with digits after it, an exponent. *)
Definition frac_scan (s : list ascii) : list ascii * list ascii :=
  match s with
  | c :: d :: _ =>
      if (c =? ".")%char && Std.isdigit d then
        let (ds, r) := Std.span_digits (tl s) in (c :: ds, r)
      else ([], s)
  | _ => ([], s)
  end.

Definition exp_scan (s : list ascii) : list ascii * list ascii :=
  match s with
  | c :: r =>
      if (c =? "e")%char || (c =? "E")%char then
        let (sign, r1) :=
          match r with
          | g :: r1 =>
              if (g =? "+")%char || (g =? "-")%char then ([g], r1)
              else ([], r)
          | [] => ([], r)
          end in
        let (ds, r2) := Std.span_digits r1 in
        (c :: sign ++ ds, r2)
      else ([], s)
  | [] => ([], s)
  end.

Definition number_scan (s : list ascii) : list ascii * list ascii :=
  let (ds, s1) := Std.span_digits s in
  let (f, s2) := frac_scan s1 in
  let (e, s3) := exp_scan s2 in
  (ds ++ f ++ e, s3).

(** The token of a single character. *)
Definition punct_type (c : ascii) : option TokenType.t :=
  if (c =? "{")%char then Some TokenType.LeftBrace
  else if (c =? "}")%char then Some TokenType.RightBrace
  else if (c =? "[")%char then Some TokenType.LeftBracket
  else if (c =? "]")%char then Some TokenType.RightBracket
  else if (c =? ",")%char then Some TokenType.Comma
  else if (c =? ":")%char then Some TokenType.Colon
  else None.

(** The lexer has just set the start of a token. *)
Definition fresh (lx : Lexer.t) : Prop := Lexer.start lx = Lexer.current lx.

(** With [text] unread, [nextToken] returns a token of type [ty] and text
    [lexeme] and leaves [rest] unread, wherever in a buffer [text] stands. *)
Definition next_is (text : list ascii) (ty : TokenType.t)
    (lexeme rest : list ascii) : Prop :=
  forall lx, unread lx = text ->
    exists tok lx',
      Lexer.nextToken lx = (tok, lx')
      /\ Token.type tok = ty /\ Token.lexeme tok = lexeme
      /\ Lexer.source lx' = Lexer.source lx /\ unread lx' = rest.

(** The token [identifierToken] makes of the letters read. *)
Definition word_type (text : list ascii) : TokenType.t :=
  if Std.string_eqb text (chars "true") then TokenType.True
  else if Std.string_eqb text (chars "false") then TokenType.False
  else if Std.string_eqb text (chars "null") then TokenType.Null
  else TokenType.Unknown.

(** The parser is at a token of type [ty] and text [lexeme], with [rest]
    unread behind it. *)
Definition at_token (p : Parser.t) (ty : TokenType.t)
    (lexeme rest : list ascii) : Prop :=
  Token.type (Parser.currentToken p) = ty
  /\ Token.lexeme (Parser.currentToken p) = lexeme
  /\ unread (Parser.lexer p) = rest.

(** The message of [Parser::advance] on an Unknown token. *)
Definition unexpected : string :=
  "Unexpected character or unterminated literal".

(** What [parseString] makes of the inside of a string literal: the
    character after a backslash goes through [unescape], a backslash at
    the very end stays. *)
Fixpoint decode (s : list ascii) : list ascii :=
  match s with
  | [] => []
  | c :: r =>
      if (c =? BACKSLASH)%char then
        match r with
        | [] => [c]
        | e :: r' => Parser.unescape e :: decode r'
        end
      else c :: decode r
  end.

(** A character that ends a number and a word: no digit, no letter, no
    point and no sign.  [NUL] stands for the end of the buffer. *)
Definition delimiter (c : ascii) : bool :=
  negb (Std.isdigit c) && negb (Std.isalpha c) && negb (c =? ".")%char
  && negb (c =? "+")%char && negb (c =? "-")%char.

(** A string without control characters, backslashes and double quotes. *)
Definition string_ok (s : list ascii) : bool :=
  forallb
    (fun c =>
       negb (Std.iscntrl c) && negb (c =? BACKSLASH)%char
       && negb (c =? DQUOTE)%char) s.

(** A double that the text [serialise] writes for it gives back: the
    text is one Number token for the lexer, and [stod] reads all of it as
    the same double. *)
Definition number_ok (d : Std.double) : bool :=
  match Std.put_double d with
  | c :: t =>
      (Std.isdigit c || (c =? "-")%char)
      && match number_scan t with
         | (_, []) => true
         | _ => false
         end
      && match Std.stod (c :: t) with
         | Std.StodOk value pos =>
             Std.double_eqb value d && (pos =? length (c :: t))
         | _ => false
         end
  | [] => false
  end.

(** The keys of a [std::map] in iteration order: each less than the
    next. *)
Fixpoint increasing (keys : list (list ascii)) : bool :=
  match keys with
  | k :: (k' :: _) as rest =>
      match Std.string_compare k k' with
      | Lt => increasing rest
      | _ => false
      end
  | _ => true
  end.

(** Every object in the value is a [std::map]. *)
Fixpoint well_formed (v : JsonValue) : bool :=
  match v with
  | JArray a => forallb well_formed a
  | JObject o =>
      forallb (fun kv => let '(_, x) := kv in well_formed x) o
      && increasing (map fst o)
  | _ => true
  end.

(** Strings and keys without control characters, backslashes and double
    quotes, and the numbers as [number] wants them. *)
Fixpoint payloads (number : Std.double -> bool) (v : JsonValue) : bool :=
  match v with
  | JNull | JBool _ => true
  | JNumber d => number d
  | JString s => string_ok s
  | JArray a => forallb (payloads number) a
  | JObject o =>
      forallb (fun kv => let '(k, x) := kv in string_ok k && payloads number x)
        o
  end.

(** Fuel enough to parse the text of a value. *)
Fixpoint need (v : JsonValue) : nat :=
  match v with
  | JArray a => 2 + list_sum (map (fun x => S (need x)) a)
  | JObject o =>
      2 + list_sum (map (fun kv => let '(_, x) := kv in S (need x)) o)
  | _ => 1
  end.

(** Every key of [o] is less than [k]. *)
Definition below (k : list ascii) (o : JsonObject) : Prop :=
  Forall (fun kv => Std.string_compare (fst kv) k = Lt) o.

(** The lines [serialise] writes for the elements of an array and for the
    members of an object. *)
Fixpoint elements (indent : nat) (l : list JsonValue) : list ascii :=
  match l with
  | [] => []
  | x :: l' =>
      spaces (indent + 2) ++ serialise x (indent + 2)
      ++ (match l' with [] => [] | _ :: _ => chars "," end)
      ++ [LF] ++ elements indent l'
  end.

Fixpoint members (indent : nat) (l : JsonObject) : list ascii :=
  match l with
  | [] => []
  | (key, value) :: l' =>
      spaces (indent + 2)
      ++ DQUOTE :: key ++ DQUOTE :: chars ": "
      ++ serialise value (indent + 2)
      ++ (match l' with [] => [] | _ :: _ => chars "," end)
      ++ [LF] ++ members indent l'
  end.

(** The text of [v], wherever it stands as a value (after white space,
    before a delimiter and a token the parser accepts), is parsed back to
    [v], and the parser is left at the token after it. *)
Definition parses (v : JsonValue) : Prop :=
  forall indent w tail ty lexeme rest fuel p,
    forallb is_blank w = true ->
    delimiter (hd NUL tail) = true ->
    next_is tail ty lexeme rest -> ty <> TokenType.Unknown ->
    need v <= fuel ->
    unread (Parser.lexer p) = w ++ serialise v indent ++ tail ->
    exists p',
      Parser.bind Parser.advance (fun _ => Parser.parseValue fuel) p
      = Ok (v, p')
      /\ at_token p' ty lexeme rest.

(** Induction on a value, through its elements and members. *)
Section JsonValue_induction.

Variable P : JsonValue -> Prop.
Hypothesis Hnull : P JNull.
Hypothesis Hbool : forall b, P (JBool b).
Hypothesis Hnumber : forall d, P (JNumber d).
Hypothesis Hstring : forall s, P (JString s).
Hypothesis Harray : forall a, Forall P a -> P (JArray a).
Hypothesis Hobject : forall o, Forall (fun kv => P (snd kv)) o -> P (JObject o).

Fixpoint JsonValue_induction (v : JsonValue) : P v :=
  match v with
  | JNull => Hnull
  | JBool b => Hbool b
  | JNumber d => Hnumber d
  | JString s => Hstring s
  | JArray a =>
      Harray a
        ((fix all (l : list JsonValue) : Forall P l :=
            match l with
            | [] => Forall_nil P
            | x :: l' => Forall_cons x (JsonValue_induction x) (all l')
            end) a)
  | JObject o =>
      Hobject o
        ((fix all (l : JsonObject) : Forall (fun kv => P (snd kv)) l :=
            match l with
            | [] => Forall_nil _
            | (k, x) :: l' =>
                Forall_cons (k, x) (JsonValue_induction x) (all l')
            end) o)
  end.

End JsonValue_induction.

(** The parser [Parser(source)] starts from. *)
Definition initial (source : list ascii) : Parser.t :=
  Parser.mk (Lexer.new source) Parser.noToken Parser.noToken.

(** The double 1234567: finite, and written with six significant digits. *)
Definition d1234567 : Std.double := Std.of_Z 1234567.

(** A value with every kind of payload. *)
Definition sample : JsonValue :=
  JObject
    [ (chars "list",
       JArray [JNumber (Std.of_Z 30); JNumber (Std.of_Z (-5)); JArray [];
               JString (chars "John Doe"); JNull]);
      (chars "none", JObject []);
      (chars "ok", JBool true) ].

(** The text [{"b":1,"a":2}]. *)
Definition text_b_a : list ascii :=
  chars "{" ++ quoted (chars "b") ++ chars ":1," ++ quoted (chars "a")
  ++ chars ":2}".

(** The eight escapes of the specification: the character after the
    backslash and the character it stands for. *)
Definition escapes : list (ascii * ascii) :=
  [ (DQUOTE, DQUOTE); (BACKSLASH, BACKSLASH); ("/"%char, "/"%char);
    ("b"%char, "008"%char); ("f"%char, "012"%char); ("n"%char, LF);
    ("r"%char, CR); ("t"%char, TAB) ].

(** What an escaped character stands for: as the table says, and itself
    when the table does not list it. *)
Definition escaped (c : ascii) : ascii :=
  match find (fun e => (fst e =? c)%char) escapes with
  | Some (_, x) => x
  | None => c
  end.

(** A backslash and [u0041]: the inside of the string literal that the
    specification names. *)
Definition u0041 : list ascii := BACKSLASH :: chars "u0041".

(** The string literal with [a], a line feed and [b] between the
    quotes. *)
Definition a_LF_b : list ascii := [ "a"%char; LF; "b"%char ].

(** The message of [parseValue] at a token that starts no value. *)
Definition expected_value : string :=
  "Expected a value (object, array, string, number, true, false, or null).".

(** The message of [parseObject] at a token that is no key. *)
Definition expected_key : string :=
  "Expected a string key for object member.".

(** The parser of an array at the comma before the closing bracket of the
    text [,]] (the first element read), and the parser of an object at the
    comma of the text [,}]. *)
Definition at_comma (close : string) : Parser.t :=
  Parser.mk (Lexer.mk ("," :: chars close)%char 0 1 1 2 1 1)
    (Token.mk TokenType.Comma (chars ",") 1 1) Parser.noToken.

(** The text [{"a":1,}]. *)
Definition text_a_comma : list ascii :=
  chars "{" ++ quoted (chars "a") ++ chars ":1,}".

(** The text of the specification with the string literal [no close] that
    nothing closes as the value of the key [a], and the same text with an
    at sign in the place of the literal. *)
Definition text_no_close : list ascii :=
  chars "{" ++ quoted (chars "a") ++ chars ": " ++ DQUOTE :: chars "no close".

Definition text_at_sign : list ascii :=
  chars "{" ++ quoted (chars "a") ++ chars ": @".

(** A complete value, a second one, and then a string literal that nothing
    closes. *)
Definition text_beyond : list ascii := chars "1 2 " ++ DQUOTE :: chars "abc".

(** Line and column, counted from 1, of the character at [offset] in
    [source]: a line feed ends a line, every other character takes one
    column. *)
Fixpoint position_from (source : list ascii) (offset line col : nat)
    : nat * nat :=
  match offset, source with
  | S n, c :: r =>
      if (c =? LF)%char then position_from r n (S line) 1
      else position_from r n line (S col)
  | _, _ => (line, col)
  end.

Definition position (source : list ascii) (offset : nat) : nat * nat :=
  position_from source offset 1 1.

(** A block comment over two lines and an at sign after it; a string
    literal with a backslash before a line feed and an at sign after it;
    the text of the specification with the error on its second line. *)
Definition text_comment_at : list ascii :=
  chars "/*" ++ LF :: chars "*/@".

Definition text_string_at : list ascii :=
  quoted (chars "a" ++ BACKSLASH :: LF :: chars "b") ++ chars " @".

Definition text_line_2 : list ascii :=
  chars "{" ++ LF :: chars "  " ++ quoted (chars "a") ++ chars ": }".

(** What [parseValue] makes of a Number token that starts the input, from
    what [stod] makes of its text of [len] characters. *)
Definition number_outcome (r : Std.stod_result) (len : nat)
    : result JsonValue :=
  match r with
  | Std.StodOk value pos =>
      if pos =? len then Ok (JNumber value)
      else Throw (ParsingError.mk "Invalid characters in number literal." 1 1)
  | Std.StodInvalidArgument =>
      Throw (ParsingError.mk "Invalid number format." 1 1)
  | Std.StodOutOfRange =>
      Throw (ParsingError.mk "Number is out of range for a double." 1 1)
  end.

(** The lexer and the parser over another buffer, every offset and every
    counter as it is. *)
Definition lexer_on (source : list ascii) (lx : Lexer.t) : Lexer.t :=
  Lexer.mk source (Lexer.start lx) (Lexer.current lx) (Lexer.lineNum lx)
    (Lexer.colNum lx) (Lexer.lineStart lx) (Lexer.colStart lx).

Definition parser_on (source : list ascii) (p : Parser.t) : Parser.t :=
  Parser.mk (lexer_on source (Parser.lexer p)) (Parser.currentToken p)
    (Parser.previousToken p).

(** Two buffers with the same first [n] characters (and the same end, if
    one of them ends before). *)
Definition agree (n : nat) (s s' : list ascii) : Prop :=
  firstn n s' = firstn n s.

(** How many characters of [source] the lexer of [p] has gone past, the
    byte order mark with them. *)
Definition read (source : list ascii) (p : Parser.t) : nat :=
  (if Parser.hasBOM source then 3 else 0) + Lexer.current (Parser.lexer p).

(** A piece of the lexer that moves forward and, with [n] characters of
    the buffer known, needs to know no more than the two characters after
    the place it stops at; and the same for a function that returns a
    token. *)
Definition near (s' : list ascii) (n : nat) (f : Lexer.t -> Lexer.t) : Prop :=
  (forall lx, forward lx (f lx))
  /\ (forall lx,
        agree n (Lexer.source lx) s' -> Lexer.current (f lx) + 2 <= n ->
        f (lexer_on s' lx) = lexer_on s' (f lx)).

Definition near_token (s' : list ascii) (n : nat)
    (f : Lexer.t -> Token.t * Lexer.t) : Prop :=
  forall lx,
    agree n (Lexer.source lx) s' -> Lexer.current (snd (f lx)) + 2 <= n ->
    f (lexer_on s' lx) = (fst (f lx), lexer_on s' (snd (f lx))).

(** A member function of the parser that, when it returns, has moved the
    lexer forward, has left no Unknown token as the current one if there
    was none, and has needed to know no more of the buffer than the two
    characters after the place its lexer stopped at. *)
Definition reads_near (A : Type) (m : Parser.M A) : Prop :=
  forall p a p1,
    m p = Ok (a, p1) ->
    forward (Parser.lexer p) (Parser.lexer p1)
    /\ (Token.type (Parser.currentToken p) <> TokenType.Unknown ->
        Token.type (Parser.currentToken p1) <> TokenType.Unknown)
    /\ (forall s' n,
          agree n (Lexer.source (Parser.lexer p)) s' ->
          Lexer.current (Parser.lexer p1) + 2 <= n ->
          m (parser_on s' p) = Ok (a, parser_on s' p1)).

(** The lexer after [n] calls of [nextToken]. *)
Fixpoint lexer_after (n : nat) (lx : Lexer.t) : Lexer.t :=
  match n with
  | O => lx
  | S n' => snd (Lexer.nextToken (lexer_after n' lx))
  end.

(** What [skipWhitespaceAndComments] passes over: a character of white
    space, a line comment with the line feed that ends it, a block comment
    with the [*/] that ends it. *)
Inductive Gap : Type :=
  | Blank (c : ascii)
  | LineComment (body : list ascii)
  | BlockComment (body : list ascii).

Definition no_LF (s : list ascii) : bool :=
  forallb (fun c => negb (c =? LF)%char) s.

Definition gap_ok (g : Gap) : bool :=
  match g with
  | Blank c => is_blank c
  | LineComment body => no_LF body
  | BlockComment body => no_block_end body
  end.

Definition gap_text (g : Gap) : list ascii :=
  match g with
  | Blank c => [c]
  | LineComment body => "/"%char :: "/"%char :: body ++ [LF]
  | BlockComment body =>
      "/"%char :: "*"%char :: body ++ [ "*"%char; "/"%char ]
  end.

Definition gaps_text (gs : list Gap) : list ascii :=
  concat (map gap_text gs).

(** The lexer after the body of a block comment, as the loop in
    [skipWhitespaceAndComments] counts lines and columns: at a line feed
    [lineNum++; colNum = 1;] comes before [advance()]. *)
Fixpoint counted (body : list ascii) (lx : Lexer.t) : Lexer.t :=
  match body with
  | [] => lx
  | c :: r =>
      counted r
        (advanced 1 (if (c =? LF)%char then Lexer.newline lx else lx))
  end.

(** The lexer after a gap. *)
Definition passed (lx : Lexer.t) (g : Gap) : Lexer.t :=
  match g with
  | Blank c =>
      if (c =? LF)%char then Lexer.newline (advanced 1 lx) else advanced 1 lx
  | LineComment body =>
      Lexer.newline (advanced 1 (advanced (2 + length body) lx))
  | BlockComment body => advanced 2 (counted body (advanced 2 lx))
  end.

(** No line feed inside a block comment. *)
Definition one_line (g : Gap) : bool :=
  match g with
  | BlockComment body => no_LF body
  | _ => true
  end.

(** Where the token under construction starts: the offset, the line and
    the column [nextToken] noted. *)
Definition origin (lx : Lexer.t) : nat * nat * nat :=
  (Lexer.start lx, Lexer.lineStart lx, Lexer.colStart lx).

(** A character that starts no token and is no white space: none of the
    six punctuation marks, no double quote, no digit, no minus sign, no
    letter, no slash. *)
Definition stray (c : ascii) : bool :=
  token_start c
  && match punct_type c with Some _ => false | None => true end
  && negb (c =? DQUOTE)%char
  && negb (Std.isdigit c || (c =? "-")%char)
  && negb (Std.isalpha c).

(** ** JSON texts

    A text the parser accepts, with its layout: the words, a number by its
    characters, a string by the characters between its quotes, an array by
    the gap after its bracket and its elements, an object by the gap after
    its brace and its members (the gap before the key, the characters
    between the quotes of the key, the gap before the colon, the value),
    and any of these with gaps around it. *)
Inductive Doc : Type :=
  | DNull
  | DTrue
  | DFalse
  | DNumber (text : list ascii)
  | DString (body : list ascii)
  | DArray (inner : list Gap) (items : list Doc)
  | DObject (inner : list Gap)
      (members : list (list Gap * list ascii * list Gap * Doc))
  | DGap (before : list Gap) (d : Doc) (after : list Gap).

(** The characters of a text: elements and members are separated by
    commas. *)
Fixpoint doc_text (d : Doc) : list ascii :=
  match d with
  | DNull => chars "null"
  | DTrue => chars "true"
  | DFalse => chars "false"
  | DNumber text => text
  | DString body => quoted body
  | DArray inner items =>
      "["%char :: gaps_text inner
      ++ (fix items_text (l : list Doc) : list ascii :=
            match l with
            | [] => []
            | x :: l' =>
                doc_text x
                ++ match l' with
                   | [] => []
                   | _ :: _ => ","%char :: items_text l'
                   end
            end) items
      ++ chars "]"
  | DObject inner members =>
      "{"%char :: gaps_text inner
      ++ (fix members_text (l : list (list Gap * list ascii * list Gap * Doc))
            : list ascii :=
            match l with
            | [] => []
            | (before, key, mid, x) :: l' =>
                gaps_text before ++ quoted key ++ gaps_text mid
                ++ ":"%char :: doc_text x
                ++ match l' with
                   | [] => []
                   | _ :: _ => ","%char :: members_text l'
                   end
            end) members
      ++ chars "}"
  | DGap before d after => gaps_text before ++ doc_text d ++ gaps_text after
  end.

Fixpoint items_text (l : list Doc) : list ascii :=
  match l with
  | [] => []
  | x :: l' =>
      doc_text x
      ++ match l' with
         | [] => []
         | _ :: _ => ","%char :: items_text l'
         end
  end.

Fixpoint members_text (l : list (list Gap * list ascii * list Gap * Doc))
    : list ascii :=
  match l with
  | [] => []
  | (before, key, mid, x) :: l' =>
      gaps_text before ++ quoted key ++ gaps_text mid
      ++ ":"%char :: doc_text x
      ++ match l' with
         | [] => []
         | _ :: _ => ","%char :: members_text l'
         end
  end.

(** The value a text stands for: a number is what [std::stod] makes of
    its characters, a string has its escapes decoded, a key is taken as it
    is written, and the members are assigned one after the other, a later
    one over an earlier one of the same key. *)
Fixpoint doc_value (d : Doc) : JsonValue :=
  match d with
  | DNull => JNull
  | DTrue => JBool true
  | DFalse => JBool false
  | DNumber text =>
      match Std.stod text with
      | Std.StodOk value _ => JNumber value
      | _ => JNull
      end
  | DString body => JString (decode body)
  | DArray _ items => JArray (map doc_value items)
  | DObject _ members =>
      JObject
        (fold_left
           (fun object m =>
              let '(_, key, _, x) := m in
              map_assign key (doc_value x) object)
           members [])
  | DGap _ d _ => doc_value d
  end.

(** What makes a text one: a number is one Number token that [stod]
    converts whole, a string and a key are closed by their second quote,
    and nothing but white space and comments stands between the tokens. *)
Fixpoint doc_ok (d : Doc) : bool :=
  match d with
  | DNull | DTrue | DFalse => true
  | DNumber text =>
      match text with
      | c :: t =>
          (Std.isdigit c || (c =? "-")%char)
          && match number_scan t with
             | (_, []) => true
             | _ => false
             end
          && match Std.stod text with
             | Std.StodOk _ pos => pos =? length text
             | _ => false
             end
      | [] => false
      end
  | DString body => closed_body body
  | DArray inner items => forallb gap_ok inner && forallb doc_ok items
  | DObject inner members =>
      forallb gap_ok inner
      && forallb
           (fun m =>
              let '(before, key, mid, x) := m in
              forallb gap_ok before && closed_body key
              && forallb gap_ok mid && doc_ok x)
           members
  | DGap before d after =>
      forallb gap_ok before && doc_ok d && forallb gap_ok after
  end.

(** Fuel enough to parse a text. *)
Fixpoint doc_need (d : Doc) : nat :=
  match d with
  | DArray _ items => 2 + list_sum (map (fun x => S (doc_need x)) items)
  | DObject _ members =>
      2 + list_sum
            (map (fun m => let '(_, _, _, x) := m in S (doc_need x)) members)
  | DGap _ d _ => doc_need d
  | _ => 1
  end.

(** The text of [d], wherever it stands as a value (after gaps, before a
    delimiter and a token the parser accepts), is parsed to the value of
    [d], and the parser is left at the token after it. *)
Definition reads (d : Doc) : Prop :=
  forall gs tail ty lexeme rest fuel p,
    forallb gap_ok gs = true ->
    delimiter (hd NUL tail) = true ->
    next_is tail ty lexeme rest -> ty <> TokenType.Unknown ->
    doc_need d <= fuel ->
    unread (Parser.lexer p) = gaps_text gs ++ doc_text d ++ tail ->
    exists p',
      Parser.bind Parser.advance (fun _ => Parser.parseValue fuel) p
      = Ok (doc_value d, p')
      /\ at_token p' ty lexeme rest.

(** Induction on a text, through its elements and members. *)
Section Doc_induction.

Variable P : Doc -> Prop.
Hypothesis Hnull : P DNull.
Hypothesis Htrue : P DTrue.
Hypothesis Hfalse : P DFalse.
Hypothesis Hnumber : forall text, P (DNumber text).
Hypothesis Hstring : forall body, P (DString body).
Hypothesis Harray :
  forall inner items, Forall P items -> P (DArray inner items).
Hypothesis Hobject :
  forall inner members,
    Forall (fun m => P (snd m)) members -> P (DObject inner members).
Hypothesis Hgap : forall before d after, P d -> P (DGap before d after).

Fixpoint Doc_induction (d : Doc) : P d :=
  match d with
  | DNull => Hnull
  | DTrue => Htrue
  | DFalse => Hfalse
  | DNumber text => Hnumber text
  | DString body => Hstring body
  | DArray inner items =>
      Harray inner items
        ((fix all (l : list Doc) : Forall P l :=
            match l with
            | [] => Forall_nil P
            | x :: l' => Forall_cons x (Doc_induction x) (all l')
            end) items)
  | DObject inner members =>
      Hobject inner members
        ((fix all (l : list (list Gap * list ascii * list Gap * Doc))
            : Forall (fun m => P (snd m)) l :=
            match l with
            | [] => Forall_nil _
            | (b, k, m, x) :: l' =>
                Forall_cons (b, k, m, x) (Doc_induction x) (all l')
            end) members)
  | DGap before d' after => Hgap before d' after (Doc_induction d')
  end.

End Doc_induction.

(** The assignment [object[key] = value] of a member, and what makes a
    member one. *)
Definition member_assign (object : JsonObject)
    (m : list Gap * list ascii * list Gap * Doc) : JsonObject :=
  let '(_, key, _, x) := m in map_assign key (doc_value x) object.

Definition member_ok (m : list Gap * list ascii * list Gap * Doc) : bool :=
  let '(before, key, mid, x) := m in
  forallb gap_ok before && closed_body key && forallb gap_ok mid && doc_ok x.

(** ** Reading a document (json.h)

    What an accessor comes to: the reference it returns, or the exception
    of the standard library it lets through, [std::bad_variant_access]
    from [std::get] and [std::out_of_range] from [std::map::at]. *)
Inductive access (A : Type) : Type :=
  | Got (a : A)
  | BadVariantAccess
  | OutOfRange.

Arguments Got {A} a.
Arguments BadVariantAccess {A}.
Arguments OutOfRange {A}.

Definition asBool (v : JsonValue) : access bool :=
  match v with JBool b => Got b | _ => BadVariantAccess end.
Definition asNumber (v : JsonValue) : access Std.double :=
  match v with JNumber d => Got d | _ => BadVariantAccess end.
Definition asString (v : JsonValue) : access (list ascii) :=
  match v with JString s => Got s | _ => BadVariantAccess end.
Definition asArray (v : JsonValue) : access JsonArray :=
  match v with JArray a => Got a | _ => BadVariantAccess end.
Definition asObject (v : JsonValue) : access JsonObject :=
  match v with JObject o => Got o | _ => BadVariantAccess end.

(** [object.at(key)] on a [std::map]: the value of the node with an equal
    key. *)
Fixpoint map_at (key : list ascii) (object : JsonObject)
    : access JsonValue :=
  match object with
  | [] => OutOfRange
  | (k, v) :: rest =>
      if Std.string_eqb k key then Got v else map_at key rest
  end.

(** The value of the last member of a text of an object that has the key
    [key]. *)
Fixpoint last_member (key : list ascii)
    (members : list (list Gap * list ascii * list Gap * Doc))
    : option JsonValue :=
  match members with
  | [] => None
  | (_, k, _, x) :: rest =>
      match last_member key rest with
      | Some v => Some v
      | None => if Std.string_eqb k key then Some (doc_value x) else None
      end
  end.

(** A text in the manner of the first example of [main.cc]: an object over
    several lines with a line comment, a block comment and a nested
    array. *)
Definition example_doc : Doc :=
  DObject
    [Blank LF; Blank " "; LineComment (chars " This is a test JSON file.");
     Blank " "]
    [ ([], chars "name", [], DGap [Blank " "] (DString (chars "John Doe")) []);
      ([Blank LF; Blank " "], chars "age", [],
       DGap [Blank " "] (DNumber (chars "30")) []);
      ([Blank LF; Blank " "], chars "isStudent", [Blank " "], DFalse);
      ([Blank LF; Blank " "], chars "courses", [],
       DArray [Blank LF; BlockComment (chars " Block comment for courses ")]
         [ DObject []
             [ ([], chars "title", [],
                DGap [Blank " "] (DString (chars "History")) []);
               ([Blank " "], chars "credits", [],
                DGap [Blank " "] (DNumber (chars "3")) []) ];
           DGap [Blank LF] (DArray [] []) [Blank LF] ]);
      ([Blank LF; Blank " "], chars "address", [],
       DGap [Blank " "] DNull [Blank LF]) ].

(** What the loop of [parseArray] does after an element, and the loop of
    [parseObject] after a member: [break] at the closing token, and
    otherwise a comma and the next turn. *)
Definition after_element (fuel : nat) (array : JsonArray)
    : Parser.M JsonArray :=
  fun p =>
    if Parser.currentIs TokenType.RightBracket p then Parser.ret array p
    else
      Parser.bind
        (Parser.consume TokenType.Comma
           "Expected ',' or ']' after array element.")
        (fun _ => Parser.parseArray_loop fuel array) p.

Definition after_member (fuel : nat) (object : JsonObject)
    : Parser.M JsonObject :=
  fun p =>
    if Parser.currentIs TokenType.RightBrace p then Parser.ret object p
    else
      Parser.bind
        (Parser.consume TokenType.Comma
           "Expected ',' or '}' after object member.")
        (fun _ => Parser.parseObject_loop fuel object) p.

(** A token that starts no value: [parseValue] throws at it. *)
Definition starts_no_value (ty : TokenType.t) : bool :=
  match ty with
  | TokenType.RightBrace | TokenType.RightBracket | TokenType.Comma
  | TokenType.Colon | TokenType.EndOfFile => true
  | _ => false
  end.

(** The elements read so far and the comma after them, where the next
    element is expected; nothing when no element has been read. *)
Definition items_then (l : list Doc) : list ascii :=
  match l with
  | [] => []
  | _ :: _ => items_text l ++ chars ","
  end.

Definition members_then (l : list (list Gap * list ascii * list Gap * Doc))
    : list ascii :=
  match l with
  | [] => []
  | _ :: _ => members_text l ++ chars ","
  end.

(** ** Positions and messages of the errors *)

(** The line feeds of a text. *)
Definition count_LF (s : list ascii) : nat :=
  length (filter (fun c => (c =? LF)%char) s).

(** The counters of a lexer stay within the text read: the line within
    the line feeds passed, the column within the characters passed. *)
Definition placed (lx : Lexer.t) : Prop :=
  1 <= Lexer.lineNum lx
  /\ Lexer.lineNum lx
     <= 1 + count_LF (firstn (Lexer.current lx) (Lexer.source lx))
  /\ 1 <= Lexer.colNum lx
  /\ Lexer.colNum lx <= 1 + Lexer.current lx
  /\ Lexer.current lx <= length (Lexer.source lx).

(** A line and a column of a text, its end included. *)
Definition in_text (source : list ascii) (line col : nat) : Prop :=
  1 <= line /\ line <= 1 + count_LF source
  /\ 1 <= col /\ col <= 1 + length source.

(** The messages [parse] throws. *)
Definition parse_messages : list string :=
  [ unexpected; expected_value; expected_key;
    "Expected ':' after object key.";
    "Expected ',' or '}' after object member.";
    "Expected ',' or ']' after array element.";
    "Invalid characters in number literal.";
    "Invalid number format.";
    "Number is out of range for a double." ]%string.

(** A parser over [source] whose current token lies in it. *)
Definition sited (source : list ascii) (p : Parser.t) : Prop :=
  Lexer.source (Parser.lexer p) = source
  /\ placed (Parser.lexer p)
  /\ in_text source (Token.line (Parser.currentToken p))
       (Token.col (Parser.currentToken p)).

Definition sound (source : list ascii) (e : ParsingError.t) : Prop :=
  In (ParsingError.message e) parse_messages
  /\ in_text source (ParsingError.line e) (ParsingError.col e).

(** What a call comes to: a parser that satisfies [Q], or an error that
    satisfies [E]. *)
Definition outcome {A : Type} (r : result (A * Parser.t))
    (Q : Parser.t -> Prop) (E : ParsingError.t -> Prop) : Prop :=
  match r with
  | Ok (_, p') => Q p'
  | Throw e => E e
  | OutOfFuel => True
  end.

(** From a parser that satisfies [P], [m] returns in a parser that
    satisfies [Q] or throws an error that satisfies [E]. *)
Definition triple {A : Type} (P : Parser.t -> Prop) (m : Parser.M A)
    (Q : Parser.t -> Prop) (E : ParsingError.t -> Prop) : Prop :=
  forall p, P p -> outcome (m p) Q E.

(** Whether the column counter is one ahead after a gap, from whether it
    was before it: a line feed in white space and the one that ends a
    line comment set it right ([advance()] before [colNum = 1]), a line
    feed in a block comment sets it one ahead ([colNum = 1] before
    [advance()]). *)
Definition drift (ahead : bool) (g : Gap) : bool :=
  match g with
  | Blank c => if (c =? LF)%char then false else ahead
  | LineComment _ => false
  | BlockComment body => if no_LF body then ahead else true
  end.

Definition ahead_by (b : bool) : nat := if b then 1 else 0.

(** The byte order mark: the three bytes [Parser::parse] looks for. *)
Definition BOM : list ascii :=
  [ascii_of_nat 239; ascii_of_nat 187; ascii_of_nat 191].

(** The text of [d], wherever it stands as a value, and after it an
    Unknown token: the [advance()] that leaves the last token of the text
    throws. *)
Definition refused (d : Doc) : Prop :=
  forall gs tail lexeme rest fuel p,
    forallb gap_ok gs = true ->
    delimiter (hd NUL tail) = true ->
    next_is tail TokenType.Unknown lexeme rest ->
    doc_need d <= fuel ->
    unread (Parser.lexer p) = gaps_text gs ++ doc_text d ++ tail ->
    exists line col,
      Parser.bind Parser.advance (fun _ => Parser.parseValue fuel) p
      = Throw (ParsingError.mk unexpected line col).

(** ** The order of the members *)

(** The key of a member of a text. *)
Definition member_key (m : list Gap * list ascii * list Gap * Doc)
    : list ascii :=
  let '(_, key, _, _) := m in key.

(** [INT_MAX] of a 32-bit [int], for the [int indent] of [serialise]. *)
Definition INT_MAX : Z := 2147483647.

(** What stands on the line of a member in the text of an object written
    at [indent]: the indent of the members, the key between quotes, a
    colon and a space, the text of the value. *)
Definition member_line (indent : nat) (kv : list ascii * JsonValue)
    : list ascii :=
  spaces (indent + 2) ++ quoted (fst kv) ++ chars ": "
  ++ serialise (snd kv) (indent + 2).

(** Lines one after the other: a comma after each but the last, a line
    feed after each. *)
Definition joined (lines : list (list ascii)) : list ascii :=
  match lines with
  | [] => []
  | first :: others =>
      first ++ concat (map (fun l => ","%char :: LF :: l) others) ++ [LF]
  end.

(** How deep the arrays and objects of a value that have an element or a
    member are nested: [serialise] at [indent] computes [indent + 2] once
    for each level. *)
Fixpoint depth (v : JsonValue) : nat :=
  match v with
  | JArray a =>
      (fix deepest (l : list JsonValue) : nat :=
         match l with
         | [] => 0
         | x :: l' => Nat.max (S (depth x)) (deepest l')
         end) a
  | JObject o =>
      (fix deepest (l : list (list ascii * JsonValue)) : nat :=
         match l with
         | [] => 0
         | (_, x) :: l' => Nat.max (S (depth x)) (deepest l')
         end) o
  | _ => 0
  end.

(** The [int indent] of [serialise] is a natural number in the model: an
    indent that is not negative, and low enough for every [indent + 2] of
    the nested calls to stay an [int].  (A negative indent makes
    [std::string(indent, ' ')] throw [std::length_error].) *)
Definition indent_fits (v : JsonValue) (indent : nat) : Prop :=
  (Z.of_nat indent + 2 * Z.of_nat (depth v) <= INT_MAX)%Z.

(** * Properties *)

(** ** The lexer's view of the buffer *)

Lemma hd_skipn_nth (A : Type) (d : A) (n : nat) (l : list A) :
  hd d (skipn n l) = nth n l d.
Proof.
  rewrite <- (Nat.add_0_r n) at 2. rewrite <- nth_skipn.
  now destruct (skipn n l).
Qed.

Lemma tl_skipn (A : Type) (n : nat) (l : list A) :
  tl (skipn n l) = skipn (S n) l.
Proof.
  revert l; induction n as [|n IH]; intros [|x l]; simpl; auto.
Qed.

Lemma isAtEnd_unread lx : Lexer.isAtEnd lx = true <-> unread lx = [].
Proof.
  unfold Lexer.isAtEnd, unread. rewrite Nat.leb_le. apply skipn_all_iff.
Qed.

Lemma isAtEnd_false lx c r : unread lx = c :: r -> Lexer.isAtEnd lx = false.
Proof.
  intros H. destruct (Lexer.isAtEnd lx) eqn:E; auto.
  apply isAtEnd_unread in E. congruence.
Qed.

Lemma isAtEnd_true lx : unread lx = [] -> Lexer.isAtEnd lx = true.
Proof. apply isAtEnd_unread. Qed.

Lemma peek_unread lx : Lexer.peek lx = hd NUL (unread lx).
Proof.
  unfold Lexer.peek. destruct (Lexer.isAtEnd lx) eqn:E.
  - apply isAtEnd_unread in E. now rewrite E.
  - unfold unread. now rewrite hd_skipn_nth.
Qed.

Lemma peekNext_unread lx : Lexer.peekNext lx = hd NUL (tl (unread lx)).
Proof.
  unfold Lexer.peekNext, unread. rewrite tl_skipn, hd_skipn_nth.
  rewrite Nat.add_1_r.
  destruct (length (Lexer.source lx) <=? S (Lexer.current lx)) eqn:E; auto.
  apply Nat.leb_le in E. now rewrite nth_overflow.
Qed.

Lemma unread_length lx :
  length (unread lx) = length (Lexer.source lx) - Lexer.current lx.
Proof. unfold unread. apply length_skipn. Qed.

Lemma unread_cons_bound lx c r :
  unread lx = c :: r -> Lexer.current lx < length (Lexer.source lx).
Proof.
  intros H. pose proof (unread_length lx) as L. rewrite H in L. simpl in L.
  lia.
Qed.

(** Moving [current] on by the length of a prefix of what is unread leaves
    the rest of it unread. *)
Lemma unread_moved lx lx' a b :
  unread lx = a ++ b ->
  Lexer.source lx' = Lexer.source lx ->
  Lexer.current lx' = Lexer.current lx + length a ->
  unread lx' = b.
Proof.
  unfold unread. intros H Hs Hc. rewrite Hs, Hc.
  rewrite Nat.add_comm, <- skipn_skipn, H.
  now rewrite skipn_app, skipn_all, Nat.sub_diag.
Qed.

Lemma advance_unread lx c r :
  unread lx = c :: r ->
  Lexer.advance lx =
    (c, Lexer.mk (Lexer.source lx) (Lexer.start lx) (S (Lexer.current lx))
          (Lexer.lineNum lx) (S (Lexer.colNum lx)) (Lexer.lineStart lx)
          (Lexer.colStart lx)).
Proof.
  intros H. unfold Lexer.advance. rewrite (isAtEnd_false _ _ _ H).
  f_equal. rewrite <- hd_skipn_nth. fold (unread lx). now rewrite H.
Qed.

Lemma advance_end lx : unread lx = [] -> Lexer.advance lx = (NUL, lx).
Proof.
  intros H. unfold Lexer.advance. now rewrite (isAtEnd_true _ H).
Qed.

Lemma unread_advance lx : unread (Lexer.advance_ lx) = tl (unread lx).
Proof.
  unfold Lexer.advance_. destruct (unread lx) as [|c r] eqn:E.
  - now rewrite (advance_end _ E).
  - rewrite (advance_unread _ _ _ E). simpl.
    eapply unread_moved with (a := [c]); eauto. simpl. lia.
Qed.

Lemma unread_newline lx : unread (Lexer.newline lx) = unread lx.
Proof. reflexivity. Qed.

(** ** Loops of the lexer *)

Lemma forward_refl lx : forward lx lx.
Proof. unfold forward; auto. Qed.

Lemma forward_trans a b c : forward a b -> forward b c -> forward a c.
Proof.
  unfold forward. intros (S1 & C1 & B1) (S2 & C2 & B2).
  rewrite S1 in *. repeat split; auto; try lia.
Qed.

Lemma forward_advance lx : forward lx (Lexer.advance_ lx).
Proof.
  unfold forward, Lexer.advance_, Lexer.advance.
  destruct (Lexer.isAtEnd lx) eqn:E; simpl; auto.
  unfold Lexer.isAtEnd in E. apply Nat.leb_gt in E.
  repeat split; auto; lia.
Qed.

Lemma forward_newline lx : forward lx (Lexer.newline lx).
Proof. unfold forward; simpl; auto. Qed.

(** Off the end of the buffer [advance] reads one character. *)
Lemma advance_progress lx :
  Lexer.isAtEnd lx = false ->
  Lexer.source (Lexer.advance_ lx) = Lexer.source lx
  /\ Lexer.current (Lexer.advance_ lx) = S (Lexer.current lx)
  /\ S (Lexer.current lx) <= length (Lexer.source lx).
Proof.
  intros E. unfold Lexer.advance_, Lexer.advance. rewrite E. simpl.
  unfold Lexer.isAtEnd in E. apply Nat.leb_gt in E. auto.
Qed.

Section While.

Variable cond : Lexer.t -> bool.
Variable body : Lexer.t -> Lexer.t.

(** A turn of the loop reads at least one character. *)
Hypothesis progress :
  forall lx, cond lx = true ->
    Lexer.source (body lx) = Lexer.source lx
    /\ Lexer.current lx < Lexer.current (body lx)
    /\ Lexer.current (body lx) <= length (Lexer.source lx).

Lemma while_fuel_enough n : forall m lx,
  length (Lexer.source lx) - Lexer.current lx <= n ->
  length (Lexer.source lx) - Lexer.current lx <= m ->
  Lexer.while_fuel cond body n lx = Lexer.while_fuel cond body m lx.
Proof.
  induction n as [|n IH]; intros [|m] lx Hn Hm; simpl; auto;
    destruct (cond lx) eqn:C; auto;
    destruct (progress _ C) as (S1 & C1 & B1); try lia.
  apply IH; rewrite S1; lia.
Qed.

(** The loop as the sources have it. *)
Lemma while_unfold lx :
  Lexer.while cond body lx =
    if cond lx then Lexer.while cond body (body lx) else lx.
Proof.
  unfold Lexer.while.
  destruct (length (Lexer.source lx) - Lexer.current lx) as [|n] eqn:E;
    simpl; destruct (cond lx) eqn:C; auto;
    destruct (progress _ C) as (S1 & C1 & B1); try lia.
  apply while_fuel_enough; rewrite S1; lia.
Qed.

Lemma while_fuel_inv (P : Lexer.t -> Prop) :
  (forall lx, cond lx = true -> P lx -> P (body lx)) ->
  forall n lx, P lx -> P (Lexer.while_fuel cond body n lx).
Proof.
  intros step. induction n as [|n IH]; intros lx H; simpl; auto.
  destruct (cond lx) eqn:C; auto.
Qed.

Lemma while_forward lx : forward lx (Lexer.while cond body lx).
Proof.
  unfold Lexer.while. apply while_fuel_inv; [|apply forward_refl].
  intros l C F. eapply forward_trans; [exact F|].
  destruct (progress _ C) as (S1 & C1 & B1). unfold forward.
  repeat split; auto; lia.
Qed.

(** The loop is left because its condition fails. *)
Lemma while_exit lx : cond (Lexer.while cond body lx) = false.
Proof.
  unfold Lexer.while.
  remember (length (Lexer.source lx) - Lexer.current lx) as n eqn:E.
  assert (Hn : length (Lexer.source lx) - Lexer.current lx <= n) by lia.
  clear E. revert lx Hn.
  induction n as [|n IH]; intros lx Hn; simpl;
    destruct (cond lx) eqn:C; auto;
    destruct (progress _ C) as (S1 & C1 & B1); try lia.
  apply IH. rewrite S1. lia.
Qed.

End While.

Lemma step_advance lx : Lexer.isAtEnd lx = false -> step lx (Lexer.advance_ lx).
Proof.
  intros E. destruct (advance_progress lx E) as (S1 & C1 & B1).
  unfold step. rewrite S1, C1. auto.
Qed.

Lemma step_forward a b c : step a b -> forward b c -> step a c.
Proof.
  unfold step, forward. intros (S1 & C1 & B1) (S2 & C2 & B2).
  rewrite S1 in *. repeat split; auto; lia.
Qed.

Lemma forward_step a b c : forward a b -> step b c -> step a c.
Proof.
  unfold step, forward. intros (S1 & C1 & B1) (S2 & C2 & B2).
  rewrite S1 in *. repeat split; auto; lia.
Qed.

Lemma step_is_forward a b : step a b -> forward a b.
Proof. unfold step, forward. intros (S1 & C1 & B1). repeat split; auto; lia. Qed.

Lemma isAtEnd_newline lx : Lexer.isAtEnd (Lexer.newline lx) = Lexer.isAtEnd lx.
Proof. reflexivity. Qed.

Lemma peek_not_end lx : Lexer.peek lx <> NUL -> Lexer.isAtEnd lx = false.
Proof. unfold Lexer.peek. destruct (Lexer.isAtEnd lx); congruence. Qed.

Lemma digit_not_end lx : Lexer.digit_cond lx = true -> Lexer.isAtEnd lx = false.
Proof.
  unfold Lexer.digit_cond. intros H. apply peek_not_end. intros E.
  rewrite E in H. discriminate.
Qed.

Lemma alpha_not_end lx : Lexer.alpha_cond lx = true -> Lexer.isAtEnd lx = false.
Proof.
  unfold Lexer.alpha_cond. intros H. apply peek_not_end. intros E.
  rewrite E in H. discriminate.
Qed.

Lemma lineComment_progress lx :
  Lexer.lineComment_cond lx = true -> step lx (Lexer.advance_ lx).
Proof.
  unfold Lexer.lineComment_cond. intros H. apply andb_prop in H as [_ H].
  apply step_advance. now apply negb_true_iff.
Qed.

Lemma blockComment_progress lx :
  Lexer.blockComment_cond lx = true -> step lx (Lexer.blockComment_body lx).
Proof.
  unfold Lexer.blockComment_cond, Lexer.blockComment_body. intros H.
  apply andb_prop in H as [_ H]. apply negb_true_iff in H.
  destruct (Lexer.peek lx =? LF)%char.
  - apply (step_advance (Lexer.newline lx) H).
  - now apply step_advance.
Qed.

Lemma stringToken_progress lx :
  Lexer.stringToken_cond lx = true -> step lx (Lexer.stringToken_body lx).
Proof.
  unfold Lexer.stringToken_cond, Lexer.stringToken_body. intros H.
  apply andb_prop in H as [_ H]. apply negb_true_iff in H.
  set (l1 := if (Lexer.peek lx =? LF)%char then Lexer.newline lx else lx).
  assert (E1 : Lexer.isAtEnd l1 = false) by (subst l1; now destruct (_ =? _)%char).
  assert (F1 : forward lx l1)
    by (subst l1; destruct (_ =? _)%char;
        [apply forward_newline | apply forward_refl]).
  eapply forward_step; [exact F1|].
  destruct (Lexer.peek l1 =? BACKSLASH)%char.
  - eapply step_forward; [apply (step_advance _ E1) | apply forward_advance].
  - apply (step_advance _ E1).
Qed.

Lemma digit_progress lx :
  Lexer.digit_cond lx = true -> step lx (Lexer.advance_ lx).
Proof. intros H. apply step_advance. now apply digit_not_end. Qed.

Lemma alpha_progress lx :
  Lexer.alpha_cond lx = true -> step lx (Lexer.advance_ lx).
Proof. intros H. apply step_advance. now apply alpha_not_end. Qed.

Lemma lineComment_unfold lx :
  Lexer.lineComment_loop lx =
    if Lexer.lineComment_cond lx then Lexer.lineComment_loop (Lexer.advance_ lx)
    else lx.
Proof. apply while_unfold, lineComment_progress. Qed.

Lemma blockComment_unfold lx :
  Lexer.blockComment_loop lx =
    if Lexer.blockComment_cond lx
    then Lexer.blockComment_loop (Lexer.blockComment_body lx)
    else lx.
Proof. apply while_unfold, blockComment_progress. Qed.

Lemma stringToken_unfold lx :
  Lexer.stringToken_loop lx =
    if Lexer.stringToken_cond lx
    then Lexer.stringToken_loop (Lexer.stringToken_body lx)
    else lx.
Proof. apply while_unfold, stringToken_progress. Qed.

Lemma digit_unfold lx :
  Lexer.digit_loop lx =
    if Lexer.digit_cond lx then Lexer.digit_loop (Lexer.advance_ lx) else lx.
Proof. apply while_unfold, digit_progress. Qed.

Lemma alpha_unfold lx :
  Lexer.alpha_loop lx =
    if Lexer.alpha_cond lx then Lexer.alpha_loop (Lexer.advance_ lx) else lx.
Proof. apply while_unfold, alpha_progress. Qed.

Lemma forward_lineComment lx : forward lx (Lexer.lineComment_loop lx).
Proof. apply while_forward, lineComment_progress. Qed.
Lemma forward_blockComment lx : forward lx (Lexer.blockComment_loop lx).
Proof. apply while_forward, blockComment_progress. Qed.
Lemma forward_stringToken_loop lx : forward lx (Lexer.stringToken_loop lx).
Proof. apply while_forward, stringToken_progress. Qed.
Lemma forward_digit lx : forward lx (Lexer.digit_loop lx).
Proof. apply while_forward, digit_progress. Qed.
Lemma forward_alpha lx : forward lx (Lexer.alpha_loop lx).
Proof. apply while_forward, alpha_progress. Qed.

(** ** [skipWhitespaceAndComments] *)

Lemma skip_fuel_S fuel lx :
  Lexer.skip_fuel (S fuel) lx =
    match skip_next lx with
    | Some lx' => Lexer.skip_fuel fuel lx'
    | None => lx
    end.
Proof.
  unfold skip_next. simpl.
  repeat match goal with |- context [if ?b then _ else _] =>
    destruct b; try reflexivity end.
Qed.

Lemma forward_cond_advance lx :
  forward lx (if negb (Lexer.isAtEnd lx) then Lexer.advance_ lx else lx).
Proof.
  destruct (negb _); [apply forward_advance | apply forward_refl].
Qed.

Lemma skip_next_step lx lx' : skip_next lx = Some lx' -> step lx lx'.
Proof.
  unfold skip_next. intros H.
  assert (E : Lexer.peek lx <> NUL -> Lexer.isAtEnd lx = false)
    by apply peek_not_end.
  destruct (Lexer.peek lx =? SPACE)%char eqn:C1;
    [apply Ascii.eqb_eq in C1|];
  [|destruct (Lexer.peek lx =? CR)%char eqn:C2;
    [apply Ascii.eqb_eq in C2|]];
  [| |destruct (Lexer.peek lx =? TAB)%char eqn:C3;
    [apply Ascii.eqb_eq in C3|]];
  simpl in H.
  1-3: injection H as <-; apply step_advance, E; rewrite ?C1, ?C2, ?C3;
       discriminate.
  destruct (Lexer.peek lx =? LF)%char eqn:C4.
  { apply Ascii.eqb_eq in C4. injection H as <-.
    eapply step_forward; [apply step_advance, E; rewrite C4; discriminate|].
    apply forward_newline. }
  destruct (Lexer.peek lx =? "/")%char eqn:C5; [|discriminate].
  apply Ascii.eqb_eq in C5.
  assert (E' : Lexer.isAtEnd lx = false) by (apply E; rewrite C5; discriminate).
  destruct (Lexer.peekNext lx =? "/")%char.
  { injection H as <-. rewrite lineComment_unfold.
    unfold Lexer.lineComment_cond. rewrite C4, E'. simpl.
    eapply step_forward; [apply step_advance, E'|apply forward_lineComment]. }
  destruct (Lexer.peekNext lx =? "*")%char; [|discriminate].
  injection H as <-.
  eapply step_forward; [apply step_advance, E'|].
  eapply forward_trans; [apply forward_advance|].
  eapply forward_trans; [apply forward_blockComment|].
  eapply forward_trans; apply forward_cond_advance.
Qed.

Lemma skip_fuel_enough n : forall m lx,
  length (Lexer.source lx) - Lexer.current lx <= n ->
  length (Lexer.source lx) - Lexer.current lx <= m ->
  Lexer.skip_fuel n lx = Lexer.skip_fuel m lx.
Proof.
  induction n as [|n IH]; intros [|m] lx Hn Hm; auto;
    rewrite ?skip_fuel_S; simpl;
    destruct (skip_next lx) as [lx'|] eqn:C; auto;
    destruct (skip_next_step _ _ C) as (S1 & C1 & B1); try lia.
  apply IH; rewrite S1; lia.
Qed.

(** The loop as the sources have it. *)
Lemma skip_unfold lx :
  Lexer.skipWhitespaceAndComments lx =
    match skip_next lx with
    | Some lx' => Lexer.skipWhitespaceAndComments lx'
    | None => lx
    end.
Proof.
  unfold Lexer.skipWhitespaceAndComments.
  destruct (length (Lexer.source lx) - Lexer.current lx) as [|n] eqn:E;
    rewrite ?skip_fuel_S; simpl;
    destruct (skip_next lx) as [lx'|] eqn:C; auto;
    destruct (skip_next_step _ _ C) as (S1 & C1 & B1); try lia.
  apply skip_fuel_enough; rewrite S1; lia.
Qed.

Lemma forward_skip_fuel n : forall lx, forward lx (Lexer.skip_fuel n lx).
Proof.
  induction n as [|n IH]; intros lx; [apply forward_refl|].
  rewrite skip_fuel_S. destruct (skip_next lx) as [lx'|] eqn:C;
    [|apply forward_refl].
  eapply forward_trans; [apply step_is_forward, (skip_next_step _ _ C)|apply IH].
Qed.

Lemma forward_skip lx : forward lx (Lexer.skipWhitespaceAndComments lx).
Proof. apply forward_skip_fuel. Qed.

(** The loop is left at a [return]. *)
Lemma skip_exit lx : skip_next (Lexer.skipWhitespaceAndComments lx) = None.
Proof.
  unfold Lexer.skipWhitespaceAndComments.
  remember (length (Lexer.source lx) - Lexer.current lx) as n eqn:E.
  assert (Hn : length (Lexer.source lx) - Lexer.current lx <= n) by lia.
  clear E. revert lx Hn.
  induction n as [|n IH]; intros lx Hn; rewrite ?skip_fuel_S; simpl;
    destruct (skip_next lx) as [lx'|] eqn:C; auto;
    destruct (skip_next_step _ _ C) as (S1 & C1 & B1); try lia.
  apply IH. rewrite S1. lia.
Qed.

(** ** The scanning functions move forward *)

(** Peels the calls of a scanning function off its result, outermost
    first. *)
Ltac forward_tac :=
  repeat first
    [ apply forward_refl
    | match goal with
      | |- forward _ (if ?b then _ else _) => destruct b
      | |- forward _ (Lexer.advance_ _) =>
          eapply forward_trans; [|apply forward_advance]
      | |- forward _ (Lexer.newline _) =>
          eapply forward_trans; [|apply forward_newline]
      | |- forward _ (Lexer.digit_loop _) =>
          eapply forward_trans; [|apply forward_digit]
      | |- forward _ (Lexer.alpha_loop _) =>
          eapply forward_trans; [|apply forward_alpha]
      | |- forward _ (Lexer.stringToken_loop _) =>
          eapply forward_trans; [|apply forward_stringToken_loop]
      | |- forward _ (Lexer.lineComment_loop _) =>
          eapply forward_trans; [|apply forward_lineComment]
      | |- forward _ (Lexer.blockComment_loop _) =>
          eapply forward_trans; [|apply forward_blockComment]
      end ].

Lemma forward_stringToken lx : forward lx (snd (Lexer.stringToken lx)).
Proof.
  unfold Lexer.stringToken. cbv zeta.
  destruct (Lexer.isAtEnd _); simpl; forward_tac.
Qed.

Lemma forward_numberToken lx : forward lx (snd (Lexer.numberToken lx)).
Proof. unfold Lexer.numberToken. cbv zeta. simpl snd. forward_tac. Qed.

Lemma forward_identifierToken lx : forward lx (snd (Lexer.identifierToken lx)).
Proof.
  unfold Lexer.identifierToken. cbv zeta.
  repeat match goal with |- context [if ?b then _ else _] => destruct b end;
    simpl; forward_tac.
Qed.

Lemma forward_mark lx : forward lx (mark lx).
Proof. unfold forward; simpl; auto. Qed.

Lemma nextToken_scan lx :
  Lexer.nextToken lx = scanToken (mark (Lexer.skipWhitespaceAndComments lx)).
Proof. reflexivity. Qed.

Lemma forward_scanToken lx : forward lx (snd (scanToken lx)).
Proof.
  unfold scanToken. destruct (Lexer.isAtEnd lx) eqn:E; [apply forward_refl|].
  pose proof (forward_advance lx) as F. unfold Lexer.advance_ in F.
  destruct (Lexer.advance lx) as [c l1]. simpl in F.
  repeat match goal with |- context [if ?b then _ else _] => destruct b end;
    simpl; auto;
    (eapply forward_trans; [exact F|]);
    auto using forward_stringToken, forward_numberToken,
      forward_identifierToken.
Qed.

Lemma forward_nextToken lx : forward lx (snd (Lexer.nextToken lx)).
Proof.
  rewrite nextToken_scan.
  eapply forward_trans; [apply forward_skip|].
  eapply forward_trans; [apply forward_mark|apply forward_scanToken].
Qed.

Lemma scanToken_type_end lx :
  Lexer.isAtEnd lx = false ->
  Token.type (fst (scanToken lx)) <> TokenType.EndOfFile.
Proof.
  intros E. unfold scanToken. rewrite E.
  destruct (Lexer.advance lx) as [c l1].
  unfold Lexer.stringToken, Lexer.numberToken, Lexer.identifierToken.
  cbv zeta.
  repeat match goal with |- context [if ?b then _ else _] => destruct b end;
    simpl; discriminate.
Qed.

(** A token other than EndOfFile takes at least one character. *)
Lemma nextToken_progress lx :
  Token.type (fst (Lexer.nextToken lx)) <> TokenType.EndOfFile ->
  step lx (snd (Lexer.nextToken lx)).
Proof.
  rewrite nextToken_scan.
  set (l0 := mark (Lexer.skipWhitespaceAndComments lx)).
  assert (F0 : forward lx l0).
  { eapply forward_trans; [apply forward_skip|apply forward_mark]. }
  intros H. eapply forward_step; [exact F0|].
  unfold scanToken in *. destruct (Lexer.isAtEnd l0) eqn:E.
  { simpl in H. congruence. }
  clear H. pose proof (step_advance l0 E) as S0.
  unfold Lexer.advance_ in S0.
  destruct (Lexer.advance l0) as [c l1]. simpl in S0.
  repeat match goal with |- context [if ?b then _ else _] => destruct b end;
    simpl; auto;
    (eapply step_forward; [exact S0|]);
    auto using forward_stringToken, forward_numberToken,
      forward_identifierToken.
Qed.

Lemma nextToken_end lx :
  Token.type (fst (Lexer.nextToken lx)) = TokenType.EndOfFile ->
  Lexer.isAtEnd (snd (Lexer.nextToken lx)) = true.
Proof.
  rewrite nextToken_scan.
  set (l0 := mark (Lexer.skipWhitespaceAndComments lx)).
  intros H. destruct (Lexer.isAtEnd l0) eqn:E.
  - unfold scanToken. rewrite E. exact E.
  - now apply scanToken_type_end in E.
Qed.

(** ** The parser consumes its input *)

Lemma TokenType_eqb_eq x y : TokenType.eqb x y = true <-> x = y.
Proof.
  unfold TokenType.eqb. rewrite Nat.eqb_eq. split; [|now intros ->].
  destruct x, y; simpl; intros H; try reflexivity; discriminate.
Qed.

Lemma TokenType_eqb_neq x y : TokenType.eqb x y = false <-> x <> y.
Proof.
  rewrite <- TokenType_eqb_eq. destruct (TokenType.eqb x y); split; congruence.
Qed.

Lemma currentIs_true ty p :
  Parser.currentIs ty p = true <-> Token.type (Parser.currentToken p) = ty.
Proof. apply TokenType_eqb_eq. Qed.

Lemma currentIs_false ty p :
  Parser.currentIs ty p = false <-> Token.type (Parser.currentToken p) <> ty.
Proof. apply TokenType_eqb_neq. Qed.

Lemma bind_Ok A B (m : Parser.M A) (k : A -> Parser.M B) p b p2 :
  Parser.bind m k p = Ok (b, p2) ->
  exists a p1, m p = Ok (a, p1) /\ k a p1 = Ok (b, p2).
Proof.
  unfold Parser.bind. destruct (m p) as [[a p1]| |]; try discriminate.
  eauto.
Qed.

Lemma shrinks_nogrow a b c : shrinks a b -> nogrow b c -> shrinks a c.
Proof.
  unfold shrinks, nogrow. intros (S1 & W1) (S2 & W2). split; [congruence|lia].
Qed.

Lemma nogrow_shrinks a b c : nogrow a b -> shrinks b c -> shrinks a c.
Proof.
  unfold shrinks, nogrow. intros (S1 & W1) (S2 & W2). split; [congruence|lia].
Qed.

Lemma shrinks_trans a b c : shrinks a b -> shrinks b c -> shrinks a c.
Proof.
  unfold shrinks. intros (S1 & W1) (S2 & W2). split; [congruence|lia].
Qed.

Lemma shrinks_is_nogrow a b : shrinks a b -> nogrow a b.
Proof. unfold shrinks, nogrow. intros (S1 & W1). split; [congruence|lia]. Qed.

Lemma nogrow_refl a : nogrow a a.
Proof. unfold nogrow. auto. Qed.

(** After [advance] no more is left than was unread before. *)
Lemma advance_left p u p' :
  Parser.advance p = Ok (u, p') ->
  Lexer.source (Parser.lexer p') = Lexer.source (Parser.lexer p)
  /\ weight p' <= left p.
Proof.
  unfold Parser.advance.
  pose proof (forward_nextToken (Parser.lexer p)) as F.
  pose proof (nextToken_progress (Parser.lexer p)) as S.
  destruct (Lexer.nextToken (Parser.lexer p)) as [tok lx]. simpl in F, S.
  destruct (Parser.currentIs TokenType.Unknown _); [discriminate|].
  unfold Parser.ret. intros H. injection H as _ <-.
  unfold weight, left. simpl.
  destruct (Parser.currentIs TokenType.EndOfFile _) eqn:E.
  - destruct F as (S1 & C1 & B1). rewrite S1. split; [auto|lia].
  - apply currentIs_false in E. simpl in E. destruct (S E) as (S1 & C1 & B1).
    rewrite S1. split; [auto|lia].
Qed.

Lemma advance_nogrow p u p' : Parser.advance p = Ok (u, p') -> nogrow p p'.
Proof.
  intros H. apply advance_left in H as (S1 & W1). split; auto.
  unfold weight in *. lia.
Qed.

Lemma advance_shrinks p u p' :
  Parser.currentIs TokenType.EndOfFile p = false ->
  Parser.advance p = Ok (u, p') -> shrinks p p'.
Proof.
  intros E H. apply advance_left in H as (S1 & W1). split; auto.
  unfold weight at 2. rewrite E. lia.
Qed.

Lemma consume_shrinks ty msg p u p' :
  ty <> TokenType.EndOfFile ->
  Parser.consume ty msg p = Ok (u, p') -> shrinks p p'.
Proof.
  unfold Parser.consume. intros N.
  destruct (Parser.currentIs ty p) eqn:E; [|discriminate].
  apply advance_shrinks. apply currentIs_true in E. apply currentIs_false.
  congruence.
Qed.

Lemma parseString_shrinks p v p' :
  Parser.currentIs TokenType.EndOfFile p = false ->
  Parser.parseString p = Ok (v, p') -> shrinks p p'.
Proof.
  unfold Parser.parseString. intros E H.
  apply bind_Ok in H as (u & p1 & H1 & H2). injection H2 as _ <-.
  eapply advance_shrinks; eauto.
Qed.

Lemma parseNumber_shrinks p v p' :
  Parser.currentIs TokenType.EndOfFile p = false ->
  Parser.parseNumber p = Ok (v, p') -> shrinks p p'.
Proof.
  unfold Parser.parseNumber. intros E H.
  destruct (Std.stod _); try discriminate.
  destruct (negb _); try discriminate.
  apply bind_Ok in H as (u & p1 & H1 & H2). injection H2 as _ <-.
  eapply advance_shrinks; eauto.
Qed.

Lemma advance_ret_shrinks A (a : A) p v p' :
  Parser.currentIs TokenType.EndOfFile p = false ->
  Parser.bind Parser.advance (fun _ => Parser.ret a) p = Ok (v, p') ->
  shrinks p p'.
Proof.
  intros E H.
  apply bind_Ok in H as (u & p1 & H1 & H2). injection H2 as _ <-.
  eapply advance_shrinks; eauto.
Qed.

Lemma type_not_end p ty :
  Token.type (Parser.currentToken p) = ty -> ty <> TokenType.EndOfFile ->
  Parser.currentIs TokenType.EndOfFile p = false.
Proof. intros H N. apply currentIs_false. congruence. Qed.

(** A value, an object, an array and every turn of the two loops take at
    least one token. *)
Lemma parse_shrinks fuel :
  (forall p v p', Parser.parseValue fuel p = Ok (v, p') -> shrinks p p')
  /\ (forall p v p', Parser.parseObject fuel p = Ok (v, p') -> shrinks p p')
  /\ (forall o p v p',
        Parser.parseObject_loop fuel o p = Ok (v, p') -> shrinks p p')
  /\ (forall p v p', Parser.parseArray fuel p = Ok (v, p') -> shrinks p p')
  /\ (forall a p v p',
        Parser.parseArray_loop fuel a p = Ok (v, p') -> shrinks p p').
Proof.
  induction fuel as [|fuel (IHv & IHo & IHol & IHa & IHal)].
  { repeat split; intros; discriminate. }
  split; [|split; [|split; [|split]]].
  - intros p v p' H. simpl in H.
    destruct (Token.type (Parser.currentToken p)) eqn:T; try discriminate;
      assert (E := type_not_end p _ T ltac:(discriminate)).
    + apply bind_Ok in H as (o & p1 & H1 & H2). injection H2 as _ <-. eauto.
    + apply bind_Ok in H as (o & p1 & H1 & H2). injection H2 as _ <-. eauto.
    + eapply parseString_shrinks; eauto.
    + eapply parseNumber_shrinks; eauto.
    + eapply advance_ret_shrinks; eauto.
    + eapply advance_ret_shrinks; eauto.
    + eapply advance_ret_shrinks; eauto.
  - intros p v p' H. simpl in H.
    apply bind_Ok in H as (u & p1 & H1 & H).
    apply consume_shrinks in H1; [|discriminate].
    apply bind_Ok in H as (o & p2 & H2 & H).
    apply bind_Ok in H as (u' & p3 & H3 & H). injection H as _ <-.
    apply consume_shrinks in H3; [|discriminate].
    eapply shrinks_trans; [exact H1|]. eapply nogrow_shrinks; [|exact H3].
    destruct (negb _).
    + apply shrinks_is_nogrow. eauto.
    + injection H2 as _ <-. apply nogrow_refl.
  - intros o p v p' H. simpl in H.
    destruct (negb (Parser.currentIs TokenType.String p)) eqn:T;
      [discriminate|].
    apply negb_false_iff, currentIs_true in T.
    apply bind_Ok in H as (u & p1 & H1 & H).
    apply advance_shrinks in H1;
      [|eapply type_not_end; eauto; discriminate].
    eapply shrinks_nogrow; [exact H1|].
    apply bind_Ok in H as (u' & p2 & H2 & H).
    apply consume_shrinks in H2; [|discriminate].
    apply bind_Ok in H as (val & p3 & H3 & H).
    apply IHv in H3. apply shrinks_is_nogrow.
    eapply shrinks_trans; [exact H2|]. eapply shrinks_nogrow; [exact H3|].
    destruct (Parser.currentIs TokenType.RightBrace p3).
    + injection H as _ <-. apply nogrow_refl.
    + apply bind_Ok in H as (u3 & p4 & H4 & H).
      apply consume_shrinks in H4; [|discriminate].
      apply shrinks_is_nogrow. eapply shrinks_trans; eauto.
  - intros p v p' H. simpl in H.
    apply bind_Ok in H as (u & p1 & H1 & H).
    apply consume_shrinks in H1; [|discriminate].
    apply bind_Ok in H as (o & p2 & H2 & H).
    apply bind_Ok in H as (u' & p3 & H3 & H). injection H as _ <-.
    apply consume_shrinks in H3; [|discriminate].
    eapply shrinks_trans; [exact H1|]. eapply nogrow_shrinks; [|exact H3].
    destruct (negb _).
    + apply shrinks_is_nogrow. eauto.
    + injection H2 as _ <-. apply nogrow_refl.
  - intros a p v p' H. simpl in H.
    apply bind_Ok in H as (val & p3 & H3 & H).
    apply IHv in H3. eapply shrinks_nogrow; [exact H3|].
    destruct (Parser.currentIs TokenType.RightBracket p3).
    + injection H as _ <-. apply nogrow_refl.
    + apply bind_Ok in H as (u3 & p4 & H4 & H).
      apply consume_shrinks in H4; [|discriminate].
      apply shrinks_is_nogrow. eapply shrinks_trans; eauto.
Qed.

(** ** The fuel of [parse] never runs out *)

Lemma bind_fuel A B (m : Parser.M A) (k : A -> Parser.M B) p :
  m p <> OutOfFuel ->
  (forall a p1, m p = Ok (a, p1) -> k a p1 <> OutOfFuel) ->
  Parser.bind m k p <> OutOfFuel.
Proof.
  unfold Parser.bind. intros Hm Hk. destruct (m p) as [[a p1]| |]; auto.
  discriminate.
Qed.

Lemma advance_fuel p : Parser.advance p <> OutOfFuel.
Proof.
  unfold Parser.advance. destruct (Lexer.nextToken _).
  destruct (Parser.currentIs _ _); discriminate.
Qed.

Lemma consume_fuel ty msg p : Parser.consume ty msg p <> OutOfFuel.
Proof.
  unfold Parser.consume. destruct (Parser.currentIs _ _);
    [apply advance_fuel|discriminate].
Qed.

Lemma parseString_fuel p : Parser.parseString p <> OutOfFuel.
Proof.
  unfold Parser.parseString. apply bind_fuel; [apply advance_fuel|].
  discriminate.
Qed.

Lemma parseNumber_fuel p : Parser.parseNumber p <> OutOfFuel.
Proof.
  unfold Parser.parseNumber. destruct (Std.stod _); try discriminate.
  destruct (negb _); try discriminate.
  apply bind_fuel; [apply advance_fuel|]. discriminate.
Qed.

Lemma weight_pos p ty :
  Token.type (Parser.currentToken p) = ty -> ty <> TokenType.EndOfFile ->
  1 <= weight p.
Proof.
  intros T N. unfold weight. rewrite (type_not_end p _ T N). lia.
Qed.

Lemma parse_fuel fuel :
  (forall p, 3 * weight p + 1 <= fuel ->
     Parser.parseValue fuel p <> OutOfFuel)
  /\ (forall p, 3 * weight p <= fuel -> 1 <= fuel ->
        Parser.parseObject fuel p <> OutOfFuel)
  /\ (forall o p, 3 * weight p + 2 <= fuel ->
        Parser.parseObject_loop fuel o p <> OutOfFuel)
  /\ (forall p, 3 * weight p <= fuel -> 1 <= fuel ->
        Parser.parseArray fuel p <> OutOfFuel)
  /\ (forall a p, 3 * weight p + 2 <= fuel ->
        Parser.parseArray_loop fuel a p <> OutOfFuel).
Proof.
  induction fuel as [|fuel (IHv & IHo & IHol & IHa & IHal)].
  { repeat split; intros; lia. }
  split; [|split; [|split; [|split]]].
  - intros p W. simpl.
    destruct (Token.type (Parser.currentToken p)) eqn:T; try discriminate;
      try (apply bind_fuel; [apply advance_fuel|discriminate]);
      try apply parseString_fuel; try apply parseNumber_fuel;
      pose proof (weight_pos p _ T ltac:(discriminate));
      (apply bind_fuel; [|discriminate]); [apply IHo|apply IHa]; lia.
  - intros p W _. simpl.
    apply bind_fuel; [apply consume_fuel|]. intros u p1 H1.
    apply consume_shrinks in H1 as (S1 & W1); [|discriminate].
    apply bind_fuel.
    + destruct (negb _); [apply IHol; lia|discriminate].
    + intros o p2 _. apply bind_fuel; [apply consume_fuel|discriminate].
  - intros o p W. simpl.
    destruct (negb (Parser.currentIs TokenType.String p)) eqn:T;
      [discriminate|].
    apply negb_false_iff, currentIs_true in T.
    apply bind_fuel; [apply advance_fuel|]. intros u p1 H1.
    apply advance_shrinks in H1 as (S1 & W1);
      [|eapply type_not_end; eauto; discriminate].
    apply bind_fuel; [apply consume_fuel|]. intros u2 p2 H2.
    apply consume_shrinks in H2 as (S2 & W2); [|discriminate].
    apply bind_fuel; [apply IHv; lia|]. intros val p3 H3.
    apply parse_shrinks in H3 as (S3 & W3).
    destruct (Parser.currentIs TokenType.RightBrace p3); [discriminate|].
    apply bind_fuel; [apply consume_fuel|]. intros u4 p4 H4.
    apply consume_shrinks in H4 as (S4 & W4); [|discriminate].
    apply IHol. lia.
  - intros p W _. simpl.
    apply bind_fuel; [apply consume_fuel|]. intros u p1 H1.
    apply consume_shrinks in H1 as (S1 & W1); [|discriminate].
    apply bind_fuel.
    + destruct (negb _); [apply IHal; lia|discriminate].
    + intros o p2 _. apply bind_fuel; [apply consume_fuel|discriminate].
  - intros a p W. simpl.
    apply bind_fuel; [apply IHv; lia|]. intros val p3 H3.
    apply parse_shrinks in H3 as (S3 & W3).
    destruct (Parser.currentIs TokenType.RightBracket p3); [discriminate|].
    apply bind_fuel; [apply consume_fuel|]. intros u4 p4 H4.
    apply consume_shrinks in H4 as (S4 & W4); [|discriminate].
    apply IHal. lia.
Qed.

Lemma new_weight source p :
  Parser.new source = Ok p ->
  Lexer.source (Parser.lexer p) = source /\ weight p <= length source.
Proof.
  unfold Parser.new.
  destruct (Parser.advance _) as [[u p1]| |] eqn:H; try discriminate.
  intros E. injection E as <-.
  apply advance_left in H as (S1 & W1). simpl in S1. split; auto.
  unfold left in W1. simpl in W1. lia.
Qed.

(** The fuel of [parse] is enough for every source. *)
Lemma run_total source : Parser.run source <> OutOfFuel.
Proof.
  unfold Parser.run.
  destruct (Parser.new (Parser.stripBOM source)) as [p| |] eqn:N;
    try discriminate.
  - apply new_weight in N as (S1 & W1).
    apply (parse_fuel (Parser.fuelFor (Parser.stripBOM source))).
    unfold Parser.fuelFor. lia.
  - unfold Parser.new in N. destruct (Parser.advance _) as [[u p1]| |] eqn:H;
      try discriminate.
    now apply advance_fuel in H.
Qed.

Lemma parse_total source : parse source <> OutOfFuel.
Proof.
  unfold parse, Parser.parse. pose proof (run_total source) as T.
  destruct (Parser.run source) as [[v p]| |]; congruence.
Qed.

(** ** More fuel changes nothing *)

Lemma bind_mono A B (m m' : Parser.M A) (k k' : A -> Parser.M B) p :
  (m p <> OutOfFuel -> m' p = m p) ->
  (forall a p1, m p = Ok (a, p1) -> k a p1 <> OutOfFuel ->
     k' a p1 = k a p1) ->
  Parser.bind m k p <> OutOfFuel ->
  Parser.bind m' k' p = Parser.bind m k p.
Proof.
  unfold Parser.bind. intros Hm Hk H.
  destruct (m p) as [[a p1]| |] eqn:E.
  - rewrite Hm by discriminate. auto.
  - rewrite Hm by discriminate. auto.
  - congruence.
Qed.

Lemma parse_mono fuel :
  forall fuel', fuel <= fuel' ->
  (forall p, Parser.parseValue fuel p <> OutOfFuel ->
     Parser.parseValue fuel' p = Parser.parseValue fuel p)
  /\ (forall p, Parser.parseObject fuel p <> OutOfFuel ->
        Parser.parseObject fuel' p = Parser.parseObject fuel p)
  /\ (forall o p, Parser.parseObject_loop fuel o p <> OutOfFuel ->
        Parser.parseObject_loop fuel' o p = Parser.parseObject_loop fuel o p)
  /\ (forall p, Parser.parseArray fuel p <> OutOfFuel ->
        Parser.parseArray fuel' p = Parser.parseArray fuel p)
  /\ (forall a p, Parser.parseArray_loop fuel a p <> OutOfFuel ->
        Parser.parseArray_loop fuel' a p = Parser.parseArray_loop fuel a p).
Proof.
  induction fuel as [|fuel IH]; intros fuel' L.
  { repeat split; intros; simpl in *; congruence. }
  destruct fuel' as [|fuel']; [lia|].
  destruct (IH fuel' ltac:(lia)) as (IHv & IHo & IHol & IHa & IHal).
  split; [|split; [|split; [|split]]].
  - intros p H. simpl in *.
    destruct (Token.type (Parser.currentToken p)); auto;
      apply bind_mono; auto.
  - intros p H. simpl in *.
    apply bind_mono; auto. intros u p1 _ H1.
    apply bind_mono; auto. intros H2. destruct (negb _); auto.
  - intros o p H. simpl in *.
    destruct (negb (Parser.currentIs TokenType.String p)); auto.
    apply bind_mono; auto. intros u p1 _ H1.
    apply bind_mono; auto. intros u2 p2 _ H2.
    apply bind_mono; auto. intros val p3 _ H3.
    destruct (Parser.currentIs TokenType.RightBrace p3); auto.
    apply bind_mono; auto.
  - intros p H. simpl in *.
    apply bind_mono; auto. intros u p1 _ H1.
    apply bind_mono; auto. intros H2. destruct (negb _); auto.
  - intros a p H. simpl in *.
    apply bind_mono; auto. intros val p3 _ H3.
    destruct (Parser.currentIs TokenType.RightBracket p3); auto.
    apply bind_mono; auto.
Qed.

(** Two runs of [parseValue] that both have fuel enough agree. *)
Lemma parseValue_fuel_any f1 f2 p :
  Parser.parseValue f1 p <> OutOfFuel ->
  Parser.parseValue f2 p <> OutOfFuel ->
  Parser.parseValue f1 p = Parser.parseValue f2 p.
Proof.
  intros H1 H2. destruct (Nat.le_ge_cases f1 f2) as [L|L].
  - symmetry. now apply (parse_mono _ _ L).
  - now apply (parse_mono _ _ L).
Qed.

(** ** Reading known text *)

Lemma peek_cons lx c r : unread lx = c :: r -> Lexer.peek lx = c.
Proof. intros H. now rewrite peek_unread, H. Qed.

Lemma peek_nil lx : unread lx = [] -> Lexer.peek lx = NUL.
Proof. intros H. now rewrite peek_unread, H. Qed.

Lemma peekNext_cons lx c r : unread lx = c :: r -> Lexer.peekNext lx = hd NUL r.
Proof. intros H. now rewrite peekNext_unread, H. Qed.

Lemma advance_cons lx c r :
  unread lx = c :: r -> Lexer.advance_ lx = advanced 1 lx.
Proof.
  intros H. unfold Lexer.advance_. rewrite (advance_unread _ _ _ H). simpl.
  unfold advanced. now rewrite !Nat.add_1_r.
Qed.

Lemma unread_advanced lx a b :
  unread lx = a ++ b -> unread (advanced (length a) lx) = b.
Proof. intros H. eapply unread_moved; eauto. Qed.

Lemma advanced_advanced n m lx : advanced m (advanced n lx) = advanced (n + m) lx.
Proof. unfold advanced. simpl. now rewrite !Nat.add_assoc. Qed.

Lemma advanced_0 lx : advanced 0 lx = lx.
Proof. unfold advanced. rewrite !Nat.add_0_r. now destruct lx. Qed.

Lemma moved_refl lx : moved 0 lx lx.
Proof. unfold moved. repeat split; auto. Qed.

Lemma moved_trans n m a b c : moved n a b -> moved m b c -> moved (n + m) a c.
Proof.
  unfold moved. intros (S1 & T1 & C1 & L1 & K1) (S2 & T2 & C2 & L2 & K2).
  repeat split; try congruence. lia.
Qed.

Lemma moved_advanced n lx : moved n lx (advanced n lx).
Proof. unfold moved, advanced. simpl. repeat split; auto. Qed.

Lemma moved_newline lx : moved 0 lx (Lexer.newline lx).
Proof. unfold moved. simpl. repeat split; auto. Qed.

Lemma unread_after n lx lx' a b :
  moved n lx lx' -> unread lx = a ++ b -> n = length a -> unread lx' = b.
Proof.
  intros (S1 & T1 & C1 & _) H ->. eapply unread_moved; eauto.
Qed.

(** The text of a token is what was read since its start. *)
Lemma lexeme_moved lx lx' ty a b :
  Lexer.start lx = Lexer.current lx ->
  moved (length a) lx lx' -> unread lx = a ++ b ->
  Token.lexeme (Lexer.makeToken lx' ty) = a.
Proof.
  intros St (S1 & T1 & C1 & _) H. unfold Lexer.makeToken, Std.substr. simpl.
  rewrite S1, T1, C1, St. fold (unread lx). rewrite H.
  replace (Lexer.current lx + length a - Lexer.current lx) with (length a + 0)
    by lia.
  rewrite firstn_app_2. simpl. apply app_nil_r.
Qed.

Section Span.

Variable pred : ascii -> bool.
Hypothesis pred_NUL : pred NUL = false.

Let cond (lx : Lexer.t) : bool := pred (Lexer.peek lx).

Lemma span_progress lx : cond lx = true -> step lx (Lexer.advance_ lx).
Proof.
  unfold cond. intros H. apply step_advance, peek_not_end. intros E.
  rewrite E in H. congruence.
Qed.

(** [while (pred(peek())) advance();] reads the characters that satisfy
    [pred], up to the first that does not. *)
Lemma span_loop a : forall lx b,
  unread lx = a ++ b -> forallb pred a = true -> pred (hd NUL b) = false ->
  Lexer.while cond Lexer.advance_ lx = advanced (length a) lx.
Proof.
  induction a as [|c a IH]; intros lx b H A B;
    (rewrite while_unfold; [|exact span_progress]);
    change (cond lx) with (pred (Lexer.peek lx)).
  - simpl in H. rewrite peek_unread, H, B. now rewrite advanced_0.
  - simpl in *. apply andb_prop in A as [A1 A2].
    rewrite (peek_cons _ _ _ H), A1, (advance_cons _ _ _ H).
    rewrite (IH (advanced 1 lx) b); auto.
    + now rewrite advanced_advanced.
    + now apply (unread_advanced lx [c]).
Qed.

End Span.

Lemma digit_loop_span lx a b :
  unread lx = a ++ b -> forallb Std.isdigit a = true ->
  Std.isdigit (hd NUL b) = false ->
  Lexer.digit_loop lx = advanced (length a) lx.
Proof. apply (span_loop Std.isdigit); reflexivity. Qed.

Lemma alpha_loop_span lx a b :
  unread lx = a ++ b -> forallb Std.isalpha a = true ->
  Std.isalpha (hd NUL b) = false ->
  Lexer.alpha_loop lx = advanced (length a) lx.
Proof. apply (span_loop Std.isalpha); reflexivity. Qed.

Lemma span_digits_spec s :
  let (a, b) := Std.span_digits s in
  s = a ++ b /\ forallb Std.isdigit a = true /\ Std.isdigit (hd NUL b) = false.
Proof.
  induction s as [|c s IH]; simpl; [auto|].
  destruct (Std.isdigit c) eqn:D.
  - destruct (Std.span_digits s) as [a b]. destruct IH as (-> & A & B).
    simpl. rewrite D. auto.
  - simpl. auto.
Qed.

(** The digits loop in terms of [span_digits]. *)
Lemma digit_loop_rest lx :
  Lexer.digit_loop lx =
    advanced (length (fst (Std.span_digits (unread lx)))) lx
  /\ unread (Lexer.digit_loop lx) = snd (Std.span_digits (unread lx)).
Proof.
  pose proof (span_digits_spec (unread lx)) as H.
  destruct (Std.span_digits (unread lx)) as [a b]. destruct H as (E & A & B).
  simpl. rewrite (digit_loop_span _ _ _ E A B). split; auto.
  now apply unread_advanced.
Qed.

(** *** White space and comments *)

Lemma skip_next_stop lx :
  token_start (hd NUL (unread lx)) = true -> skip_next lx = None.
Proof.
  unfold token_start, is_blank, skip_next. rewrite <- peek_unread.
  intros H. apply andb_prop in H as [H1 H2].
  apply negb_true_iff in H1, H2.
  apply orb_false_elim in H1 as [H1 H4].
  rewrite H1, H4, H2. reflexivity.
Qed.

Lemma skip_stop lx :
  token_start (hd NUL (unread lx)) = true ->
  Lexer.skipWhitespaceAndComments lx = lx.
Proof. intros H. rewrite skip_unfold. now rewrite skip_next_stop. Qed.

Lemma skip_next_blank lx c r :
  unread lx = c :: r -> is_blank c = true ->
  exists lx', skip_next lx = Some lx' /\ moved 1 lx lx'.
Proof.
  intros H B. unfold skip_next. rewrite (peek_cons _ _ _ H), (advance_cons _ _ _ H).
  unfold is_blank in B. apply orb_prop in B as [B|B].
  - rewrite B. eexists; split; eauto using moved_advanced.
  - destruct (_ || _ || _); [eexists; split; eauto using moved_advanced|].
    rewrite B. eexists; split; eauto.
    apply (moved_trans _ _ _ _ _ (moved_advanced 1 lx) (moved_newline _)).
Qed.

(** White space before a token is passed over. *)
Lemma skip_blank w : forall lx r,
  unread lx = w ++ r -> forallb is_blank w = true ->
  token_start (hd NUL r) = true ->
  exists lx', Lexer.skipWhitespaceAndComments lx = lx'
              /\ moved (length w) lx lx'.
Proof.
  induction w as [|c w IH]; intros lx r H B T.
  - rewrite skip_stop by now rewrite H. eauto using moved_refl.
  - simpl in *. apply andb_prop in B as [B1 B2].
    destruct (skip_next_blank _ _ _ H B1) as (l1 & N & M).
    rewrite skip_unfold, N.
    destruct (IH l1 r) as (l2 & E & M2); auto.
    + apply (unread_after _ _ _ [c] _ M H eq_refl).
    + exists l2. split; auto. apply (moved_trans _ _ _ _ _ M M2).
Qed.

Lemma blockComment_to_end body : forall lx,
  unread lx = body -> no_block_end body = true ->
  exists lx', Lexer.blockComment_loop lx = lx'
              /\ moved (length body) lx lx'.
Proof.
  induction body as [|c body IH]; intros lx H N;
    rewrite blockComment_unfold; unfold Lexer.blockComment_cond.
  - rewrite (isAtEnd_true _ H), andb_false_r. eauto using moved_refl.
  - simpl in N. apply andb_prop in N as [N1 N2].
    rewrite (peek_cons _ _ _ H), (peekNext_cons _ _ _ H), (isAtEnd_false _ _ _ H).
    assert (C : negb (c =? "*")%char || negb (hd NUL body =? "/")%char = true).
    { apply negb_true_iff, andb_false_iff in N1 as [N1|N1].
      - now rewrite N1.
      - destruct body; simpl in *; rewrite ?N1; apply orb_true_r. }
    rewrite C. simpl.
    assert (M : moved 1 lx (Lexer.blockComment_body lx)).
    { unfold Lexer.blockComment_body.
      destruct (Lexer.peek lx =? LF)%char.
      - rewrite (advance_cons (Lexer.newline lx) _ _ H).
        apply (moved_trans _ _ _ _ _ (moved_newline lx) (moved_advanced 1 _)).
      - rewrite (advance_cons _ _ _ H). apply moved_advanced. }
    destruct (IH (Lexer.blockComment_body lx)) as (l2 & E & M2); auto.
    + apply (unread_after _ _ _ [c] _ M H eq_refl).
    + exists l2. split; auto. apply (moved_trans _ _ _ _ _ M M2).
Qed.

(** A block comment that nothing closes is read to the end of the
    buffer. *)
Lemma skip_next_open_comment lx body :
  unread lx = "/"%char :: "*"%char :: body -> no_block_end body = true ->
  exists lx', skip_next lx = Some lx' /\ moved (2 + length body) lx lx'
              /\ unread lx' = [].
Proof.
  intros H N. unfold skip_next.
  rewrite (peek_cons _ _ _ H), (peekNext_cons _ _ _ H). simpl.
  rewrite (advance_cons _ _ _ H).
  assert (H1 : unread (advanced 1 lx) = "*"%char :: body)
    by apply (unread_advanced lx ["/"%char] _ H).
  rewrite (advance_cons _ _ _ H1), advanced_advanced.
  assert (H2 : unread (advanced 2 lx) = body)
    by apply (unread_advanced lx ["/"%char; "*"%char] _ H).
  destruct (blockComment_to_end _ _ H2 N) as (l2 & E & M2). simpl. rewrite E.
  assert (U : unread l2 = []).
  { apply (unread_after _ _ _ body [] M2); auto.
    now rewrite app_nil_r. }
  rewrite (isAtEnd_true _ U). simpl. rewrite (isAtEnd_true _ U). simpl.
  exists l2. split; [reflexivity|]. split; [|exact U].
  apply (moved_trans _ _ _ _ _ (moved_advanced 2 lx) M2).
Qed.

Lemma skip_open_comment w lx body :
  unread lx = w ++ "/"%char :: "*"%char :: body ->
  forallb is_blank w = true -> no_block_end body = true ->
  exists lx', Lexer.skipWhitespaceAndComments lx = lx'
              /\ Lexer.source lx' = Lexer.source lx /\ unread lx' = [].
Proof.
  revert lx. induction w as [|c w IH]; intros lx H B N.
  - simpl in H. destruct (skip_next_open_comment _ _ H N) as (l1 & S1 & M & U).
    rewrite skip_unfold, S1, skip_stop by now rewrite U.
    exists l1. repeat split; auto. apply M.
  - simpl in *. apply andb_prop in B as [B1 B2].
    destruct (skip_next_blank _ _ _ H B1) as (l1 & S1 & M).
    rewrite skip_unfold, S1.
    destruct (IH l1) as (l2 & E & S2 & U); auto.
    + apply (unread_after _ _ _ [c] _ M H eq_refl).
    + exists l2. repeat split; auto. rewrite S2. apply M.
Qed.

(** *** String literals *)

Lemma peek_newline lx : Lexer.peek (Lexer.newline lx) = Lexer.peek lx.
Proof. reflexivity. Qed.

Lemma stringToken_body_plain lx c r :
  unread lx = c :: r -> (c =? BACKSLASH)%char = false ->
  moved 1 lx (Lexer.stringToken_body lx).
Proof.
  intros H B. unfold Lexer.stringToken_body.
  destruct (Lexer.peek lx =? LF)%char.
  - rewrite peek_newline, (peek_cons _ _ _ H), B.
    rewrite (advance_cons (Lexer.newline lx) _ _ H).
    apply (moved_trans _ _ _ _ _ (moved_newline lx) (moved_advanced 1 _)).
  - rewrite (peek_cons _ _ _ H), B, (advance_cons _ _ _ H). apply moved_advanced.
Qed.

Lemma stringToken_body_escape lx e r :
  unread lx = BACKSLASH :: e :: r ->
  moved 2 lx (Lexer.stringToken_body lx).
Proof.
  intros H. unfold Lexer.stringToken_body.
  rewrite (peek_cons _ _ _ H). simpl. rewrite (peek_cons _ _ _ H). simpl.
  rewrite (advance_cons _ _ _ H).
  assert (H1 : unread (advanced 1 lx) = e :: r)
    by apply (unread_advanced lx [BACKSLASH] _ H).
  rewrite (advance_cons _ _ _ H1), advanced_advanced. apply moved_advanced.
Qed.

Lemma stringToken_body_last lx :
  unread lx = [BACKSLASH] ->
  moved 1 lx (Lexer.stringToken_body lx).
Proof.
  intros H. unfold Lexer.stringToken_body.
  rewrite (peek_cons _ _ _ H). simpl. rewrite (peek_cons _ _ _ H). simpl.
  rewrite (advance_cons _ _ _ H).
  assert (H1 : unread (advanced 1 lx) = [])
    by apply (unread_advanced lx [BACKSLASH] _ H).
  unfold Lexer.advance_ at 1. rewrite (advance_end _ H1).
  apply moved_advanced.
Qed.

Lemma stringToken_cond_cons lx c r :
  unread lx = c :: r ->
  Lexer.stringToken_cond lx = negb (c =? DQUOTE)%char.
Proof.
  intros H. unfold Lexer.stringToken_cond.
  rewrite (peek_cons _ _ _ H), (isAtEnd_false _ _ _ H). apply andb_true_r.
Qed.

(** The loop of [stringToken] stops at the double quote that closes the
    literal. *)
Lemma stringToken_loop_closed n : forall s lx r,
  length s <= n -> closed_body s = true -> unread lx = s ++ DQUOTE :: r ->
  exists lx', Lexer.stringToken_loop lx = lx' /\ moved (length s) lx lx'.
Proof.
  induction n as [|n IH]; intros s lx r L C H;
    rewrite stringToken_unfold, (stringToken_cond_cons _ (hd DQUOTE (s ++ [DQUOTE])) (tl (s ++ DQUOTE :: r)))
      by (rewrite H; now destruct s);
    destruct s as [|c s]; simpl in *; eauto using moved_refl; try lia.
  destruct (c =? BACKSLASH)%char eqn:B.
  - apply Ascii.eqb_eq in B. subst c. simpl.
    destruct s as [|e s]; [discriminate|].
    pose proof (stringToken_body_escape _ _ _ H) as M.
    destruct (IH s (Lexer.stringToken_body lx) r) as (l2 & E & M2); auto.
    + simpl in L. lia.
    + apply (unread_after _ _ _ [BACKSLASH; e] _ M H eq_refl).
    + exists l2. split; auto. apply (moved_trans _ _ _ _ _ M M2).
  - apply andb_prop in C as [C1 C2]. rewrite C1.
    pose proof (stringToken_body_plain _ _ _ H B) as M.
    destruct (IH s (Lexer.stringToken_body lx) r) as (l2 & E & M2); auto.
    + lia.
    + apply (unread_after _ _ _ [c] _ M H eq_refl).
    + exists l2. split; auto. apply (moved_trans _ _ _ _ _ M M2).
Qed.

(** Without such a double quote it runs to the end of the buffer. *)
Lemma stringToken_loop_open n : forall s lx,
  length s <= n -> unterminated s = true -> unread lx = s ->
  exists lx', Lexer.stringToken_loop lx = lx' /\ moved (length s) lx lx'.
Proof.
  induction n as [|n IH]; intros s lx L C H; rewrite stringToken_unfold;
    (destruct s as [|c s];
     [unfold Lexer.stringToken_cond; rewrite (isAtEnd_true _ H), andb_false_r;
      eauto using moved_refl|]);
    simpl in L; try lia.
  rewrite (stringToken_cond_cons _ _ _ H). simpl in C.
  destruct (c =? BACKSLASH)%char eqn:B.
  - apply Ascii.eqb_eq in B. subst c. simpl.
    destruct s as [|e s].
    + pose proof (stringToken_body_last _ H) as M.
      destruct (IH [] (Lexer.stringToken_body lx)) as (l2 & E & M2); auto.
      * simpl; lia.
      * apply (unread_after _ _ _ [BACKSLASH] _ M); auto.
      * exists l2. split; auto. apply (moved_trans _ _ _ _ _ M M2).
    + pose proof (stringToken_body_escape _ _ _ H) as M.
      destruct (IH s (Lexer.stringToken_body lx)) as (l2 & E & M2); auto.
      * simpl in L. lia.
      * apply (unread_after _ _ _ [BACKSLASH; e] _ M); auto.
      * exists l2. split; auto. apply (moved_trans _ _ _ _ _ M M2).
  - apply andb_prop in C as [C1 C2]. rewrite C1.
    pose proof (stringToken_body_plain _ _ _ H B) as M.
    destruct (IH s (Lexer.stringToken_body lx)) as (l2 & E & M2); auto.
    + lia.
    + apply (unread_after _ _ _ [c] _ M); auto.
    + exists l2. split; auto. apply (moved_trans _ _ _ _ _ M M2).
Qed.

Lemma stringToken_closed lx s r :
  closed_body s = true -> unread lx = s ++ DQUOTE :: r ->
  exists lx', Lexer.stringToken lx = (Lexer.makeToken lx' TokenType.String, lx')
              /\ moved (length s + 1) lx lx'.
Proof.
  intros C H.
  destruct (stringToken_loop_closed (length s) s lx r (le_n _) C H)
    as (l1 & E & M).
  unfold Lexer.stringToken. rewrite E.
  assert (U : unread l1 = DQUOTE :: r)
    by apply (unread_after _ _ _ s _ M H eq_refl).
  rewrite (isAtEnd_false _ _ _ U), (advance_cons _ _ _ U).
  eexists. split; [reflexivity|].
  apply (moved_trans _ _ _ _ _ M (moved_advanced 1 _)).
Qed.

Lemma stringToken_open lx s :
  unterminated s = true -> unread lx = s ->
  exists lx',
    Lexer.stringToken lx =
      (Token.mk TokenType.Unknown (chars "Unterminated string.")
         (Lexer.lineStart lx) (Lexer.colStart lx), lx')
    /\ Lexer.source lx' = Lexer.source lx /\ unread lx' = [].
Proof.
  intros C H.
  destruct (stringToken_loop_open (length s) s lx (le_n _) C H)
    as (l1 & E & M).
  unfold Lexer.stringToken. rewrite E.
  assert (U : unread l1 = []).
  { apply (unread_after _ _ _ s [] M); auto. now rewrite app_nil_r. }
  rewrite (isAtEnd_true _ U). destruct M as (S1 & T1 & C1 & L1 & K1).
  rewrite L1, K1. eauto.
Qed.

(** *** Numbers *)

Lemma frac_phase l :
  let (f, s2) := frac_scan (unread l) in
  unread l = f ++ s2
  /\ (if (Lexer.peek l =? ".")%char && Std.isdigit (Lexer.peekNext l)
      then Lexer.digit_loop (Lexer.advance_ l) else l)
     = advanced (length f) l.
Proof.
  unfold frac_scan. rewrite peek_unread, peekNext_unread.
  destruct (unread l) as [|c [|d s]] eqn:U; simpl hd; simpl tl.
  - simpl. now rewrite advanced_0.
  - rewrite andb_false_r. simpl. now rewrite advanced_0.
  - destruct ((c =? ".")%char && Std.isdigit d) eqn:C.
    + pose proof (span_digits_spec (d :: s)) as H.
      destruct (Std.span_digits (d :: s)) as [ds r]. destruct H as (E & A & B).
      rewrite (advance_cons _ _ _ U).
      assert (U1 : unread (advanced 1 l) = ds ++ r).
      { rewrite <- E. apply (unread_advanced l [c] _ U). }
      rewrite (digit_loop_span _ _ _ U1 A B), advanced_advanced.
      simpl. now rewrite E.
    + simpl. now rewrite advanced_0.
Qed.

Lemma exp_phase l :
  let (e, s3) := exp_scan (unread l) in
  unread l = e ++ s3
  /\ (if (Lexer.peek l =? "e")%char || (Lexer.peek l =? "E")%char then
        Lexer.digit_loop
          (let lx := Lexer.advance_ l in
           if (Lexer.peek lx =? "+")%char || (Lexer.peek lx =? "-")%char
           then Lexer.advance_ lx else lx)
      else l)
     = advanced (length e) l.
Proof.
  unfold exp_scan. rewrite peek_unread.
  destruct (unread l) as [|c r] eqn:U; simpl hd.
  - simpl. now rewrite advanced_0.
  - destruct ((c =? "e")%char || (c =? "E")%char) eqn:C;
      [|simpl; now rewrite advanced_0].
    rewrite (advance_cons _ _ _ U). cbv zeta.
    assert (U1 : unread (advanced 1 l) = r)
      by apply (unread_advanced l [c] _ U).
    rewrite peek_unread, U1.
    destruct r as [|g r1]; simpl hd.
    + simpl. rewrite (digit_loop_span (advanced 1 l) [] [] U1); auto.
      now rewrite advanced_advanced.
    + destruct ((g =? "+")%char || (g =? "-")%char) eqn:G.
      * pose proof (span_digits_spec r1) as H.
        destruct (Std.span_digits r1) as [ds r2]. destruct H as (E & A & B).
        rewrite (advance_cons _ _ _ U1), advanced_advanced.
        change (1 + 1) with 2.
        assert (U2 : unread (advanced 2 l) = ds ++ r2).
        { rewrite <- E. apply (unread_advanced l [c; g] _ U). }
        rewrite (digit_loop_span _ _ _ U2 A B), advanced_advanced.
        simpl. now rewrite E.
      * pose proof (span_digits_spec (g :: r1)) as H.
        destruct (Std.span_digits (g :: r1)) as [ds r2].
        destruct H as (E & A & B).
        assert (U2 : unread (advanced 1 l) = ds ++ r2) by now rewrite <- E.
        rewrite (digit_loop_span _ _ _ U2 A B), advanced_advanced.
        simpl. now rewrite E.
Qed.

(** [numberToken] reads what [number_scan] says. *)
Lemma numberToken_scan lx :
  let (a, b) := number_scan (unread lx) in
  unread lx = a ++ b
  /\ Lexer.numberToken lx =
       (Lexer.makeToken (advanced (length a) lx) TokenType.Number,
        advanced (length a) lx).
Proof.
  unfold number_scan, Lexer.numberToken.
  pose proof (span_digits_spec (unread lx)) as H.
  destruct (Std.span_digits (unread lx)) as [ds s1]. destruct H as (E & A & B).
  rewrite (digit_loop_span _ _ _ E A B). cbv zeta.
  set (l1 := advanced (length ds) lx).
  assert (U1 : unread l1 = s1) by apply (unread_advanced lx ds _ E).
  pose proof (frac_phase l1) as H. rewrite U1 in H.
  destruct (frac_scan s1) as [f s2]. destruct H as (E2 & ->).
  set (l2 := advanced (length f) l1).
  assert (U2 : unread l2 = s2).
  { apply (unread_advanced l1 f). now rewrite U1. }
  pose proof (exp_phase l2) as H. rewrite U2 in H.
  destruct (exp_scan s2) as [e s3]. destruct H as (E3 & H).
  cbv zeta in H. rewrite H. subst l2 l1.
  rewrite !advanced_advanced, !length_app, Nat.add_assoc.
  split; auto. rewrite E, E2, E3. now rewrite <- !app_assoc.
Qed.

(** *** Tokens *)

Lemma fresh_mark lx : fresh (mark lx).
Proof. reflexivity. Qed.

Lemma unread_mark lx : unread (mark lx) = unread lx.
Proof. reflexivity. Qed.

Lemma advance_pair lx c r :
  unread lx = c :: r -> Lexer.advance lx = (c, advanced 1 lx).
Proof.
  intros H. rewrite (advance_unread _ _ _ H). unfold advanced.
  now rewrite !Nat.add_1_r.
Qed.

Lemma scan_end l :
  unread l = [] -> scanToken l = (Lexer.makeToken l TokenType.EndOfFile, l).
Proof. intros H. unfold scanToken. now rewrite (isAtEnd_true _ H). Qed.

Lemma lexeme_end l ty : fresh l -> Token.lexeme (Lexer.makeToken l ty) = [].
Proof.
  unfold fresh, Lexer.makeToken, Std.substr. intros ->. simpl.
  now rewrite Nat.sub_diag.
Qed.

Lemma scan_punct l c r ty :
  unread l = c :: r -> punct_type c = Some ty ->
  scanToken l = (Lexer.makeToken (advanced 1 l) ty, advanced 1 l).
Proof.
  intros H P. unfold scanToken.
  rewrite (isAtEnd_false _ _ _ H), (advance_pair _ _ _ H).
  unfold punct_type in P.
  repeat match type of P with
  | (if ?b then _ else _) = _ => destruct b; [now injection P as <-|]
  end.
  discriminate.
Qed.

Lemma scan_string l s r :
  unread l = DQUOTE :: s ++ DQUOTE :: r -> closed_body s = true ->
  exists l', scanToken l = (Lexer.makeToken l' TokenType.String, l')
             /\ moved (length s + 2) l l'.
Proof.
  intros H C. unfold scanToken.
  rewrite (isAtEnd_false _ _ _ H), (advance_pair _ _ _ H).
  change (DQUOTE =? "{")%char with false. cbv iota.
  change (DQUOTE =? "}")%char with false. cbv iota.
  change (DQUOTE =? "[")%char with false. cbv iota.
  change (DQUOTE =? "]")%char with false. cbv iota.
  change (DQUOTE =? ",")%char with false. cbv iota.
  change (DQUOTE =? ":")%char with false. cbv iota.
  change (DQUOTE =? DQUOTE)%char with true. cbv iota.
  assert (U : unread (advanced 1 l) = s ++ DQUOTE :: r)
    by apply (unread_advanced l [DQUOTE] _ H).
  destruct (stringToken_closed _ _ _ C U) as (l' & E & M).
  exists l'. split; auto.
  replace (length s + 2) with (1 + (length s + 1)) by lia.
  apply (moved_trans _ _ _ _ _ (moved_advanced 1 l) M).
Qed.

Lemma scan_unterminated l s :
  unread l = DQUOTE :: s -> unterminated s = true ->
  exists l',
    scanToken l =
      (Token.mk TokenType.Unknown (chars "Unterminated string.")
         (Lexer.lineStart l) (Lexer.colStart l), l')
    /\ Lexer.source l' = Lexer.source l /\ unread l' = [].
Proof.
  intros H C. unfold scanToken.
  rewrite (isAtEnd_false _ _ _ H), (advance_pair _ _ _ H).
  change (DQUOTE =? "{")%char with false. cbv iota.
  change (DQUOTE =? "}")%char with false. cbv iota.
  change (DQUOTE =? "[")%char with false. cbv iota.
  change (DQUOTE =? "]")%char with false. cbv iota.
  change (DQUOTE =? ",")%char with false. cbv iota.
  change (DQUOTE =? ":")%char with false. cbv iota.
  change (DQUOTE =? DQUOTE)%char with true. cbv iota.
  assert (U : unread (advanced 1 l) = s)
    by apply (unread_advanced l [DQUOTE] _ H).
  destruct (stringToken_open _ _ C U) as (l' & E & S1 & U1).
  exists l'. split; auto.
Qed.

(** A digit or a minus sign is none of the characters tested before. *)
Lemma number_first c :
  Std.isdigit c || (c =? "-")%char = true ->
  punct_type c = None /\ (c =? DQUOTE)%char = false.
Proof.
  destruct c as [[] [] [] [] [] [] [] []]; intros H; try discriminate H;
    split; reflexivity.
Qed.

Lemma alpha_first c :
  Std.isalpha c = true ->
  punct_type c = None /\ (c =? DQUOTE)%char = false
  /\ Std.isdigit c || (c =? "-")%char = false.
Proof.
  destruct c as [[] [] [] [] [] [] [] []]; intros H; try discriminate H;
    repeat split; reflexivity.
Qed.

Lemma scan_other l c r :
  unread l = c :: r -> punct_type c = None ->
  scanToken l =
    if (c =? DQUOTE)%char then Lexer.stringToken (advanced 1 l)
    else if Std.isdigit c || (c =? "-")%char
         then Lexer.numberToken (advanced 1 l)
    else if Std.isalpha c then Lexer.identifierToken (advanced 1 l)
    else (Lexer.makeToken (advanced 1 l) TokenType.Unknown, advanced 1 l).
Proof.
  intros H P. unfold scanToken.
  rewrite (isAtEnd_false _ _ _ H), (advance_pair _ _ _ H).
  unfold punct_type in P.
  repeat match type of P with
  | (if ?b then _ else _) = _ => destruct b; [discriminate P|]
  end.
  reflexivity.
Qed.

Lemma scan_number l c s :
  unread l = c :: s -> Std.isdigit c || (c =? "-")%char = true ->
  let (a, b) := number_scan s in
  s = a ++ b
  /\ scanToken l =
       (Lexer.makeToken (advanced (1 + length a) l) TokenType.Number,
        advanced (1 + length a) l).
Proof.
  intros H D. destruct (number_first _ D) as (P & Q).
  rewrite (scan_other _ _ _ H P), Q, D.
  assert (U : unread (advanced 1 l) = s)
    by apply (unread_advanced l [c] _ H).
  pose proof (numberToken_scan (advanced 1 l)) as N. rewrite U in N.
  destruct (number_scan s) as [a b]. destruct N as (E & ->).
  now rewrite advanced_advanced.
Qed.

Lemma identifierToken_word l :
  Lexer.identifierToken l =
    let l' := Lexer.alpha_loop l in
    (Lexer.makeToken l'
       (word_type (Token.lexeme (Lexer.makeToken l' TokenType.Unknown))), l').
Proof.
  unfold Lexer.identifierToken, word_type. cbv zeta.
  change (Token.lexeme (Lexer.makeToken (Lexer.alpha_loop l) TokenType.Unknown))
    with (Std.substr (Lexer.source (Lexer.alpha_loop l))
            (Lexer.start (Lexer.alpha_loop l))
            (Lexer.current (Lexer.alpha_loop l)
             - Lexer.start (Lexer.alpha_loop l))).
  repeat match goal with |- context [if ?b then _ else _] => destruct b end;
    reflexivity.
Qed.

Lemma scan_word l c a r :
  fresh l -> unread l = c :: a ++ r ->
  Std.isalpha c = true -> forallb Std.isalpha a = true ->
  Std.isalpha (hd NUL r) = false ->
  scanToken l =
    (Lexer.makeToken (advanced (1 + length a) l) (word_type (c :: a)),
     advanced (1 + length a) l).
Proof.
  intros F H C A R. destruct (alpha_first _ C) as (P & Q & D).
  rewrite (scan_other _ _ _ H P), Q, D, C, identifierToken_word.
  assert (U : unread (advanced 1 l) = a ++ r)
    by apply (unread_advanced l [c] _ H).
  rewrite (alpha_loop_span _ _ _ U A R), advanced_advanced. cbv zeta.
  rewrite (lexeme_moved l _ _ (c :: a) r F (moved_advanced _ l) H).
  reflexivity.
Qed.

(** *** [nextToken] on known text *)

Lemma nextToken_at lx :
  token_start (hd NUL (unread lx)) = true ->
  Lexer.nextToken lx = scanToken (mark lx).
Proof. intros T. now rewrite nextToken_scan, skip_stop. Qed.

Lemma nextToken_blank lx c r :
  unread lx = c :: r -> is_blank c = true ->
  exists lx', Lexer.nextToken lx = Lexer.nextToken lx'
              /\ Lexer.source lx' = Lexer.source lx /\ unread lx' = r.
Proof.
  intros H B. destruct (skip_next_blank _ _ _ H B) as (l1 & N & M).
  exists l1. rewrite !nextToken_scan, (skip_unfold lx), N.
  repeat split; [apply M|].
  apply (unread_after _ _ _ [c] _ M H eq_refl).
Qed.

Lemma next_is_blanks w text ty lexeme rest :
  forallb is_blank w = true ->
  next_is text ty lexeme rest -> next_is (w ++ text) ty lexeme rest.
Proof.
  intros B N. induction w as [|c w IH]; [exact N|].
  simpl in B. apply andb_prop in B as [B1 B2]. intros lx H.
  destruct (nextToken_blank _ _ _ H B1) as (l1 & E & S1 & U1).
  destruct (IH B2 l1 U1) as (tok & l2 & E2 & T & X & S2 & U2).
  exists tok, l2. rewrite E, E2, S2, S1. auto.
Qed.

Lemma next_is_end : next_is [] TokenType.EndOfFile [] [].
Proof.
  intros lx H. rewrite nextToken_at by now rewrite H.
  rewrite scan_end by now rewrite unread_mark.
  eexists _, _. split; [reflexivity|]. repeat split; auto.
  apply lexeme_end, fresh_mark.
Qed.

Lemma next_is_open_comment body :
  no_block_end body = true ->
  next_is ("/"%char :: "*"%char :: body) TokenType.EndOfFile [] [].
Proof.
  intros N lx H.
  destruct (skip_open_comment [] lx body H eq_refl N) as (l1 & E & S1 & U1).
  rewrite nextToken_scan, E, scan_end by now rewrite unread_mark.
  eexists _, _. split; [reflexivity|]. repeat split; auto.
  apply lexeme_end, fresh_mark.
Qed.

Lemma next_is_punct c r ty :
  punct_type c = Some ty -> next_is (c :: r) ty [c] r.
Proof.
  intros P lx H.
  assert (T : token_start c = true).
  { destruct c as [[] [] [] [] [] [] [] []]; try discriminate P; reflexivity. }
  rewrite nextToken_at by now rewrite H.
  rewrite (scan_punct (mark lx) c r ty H P).
  eexists _, _. split; [reflexivity|]. repeat split; auto.
  - apply (lexeme_moved (mark lx) _ _ [c] r (fresh_mark lx)
             (moved_advanced 1 _) H).
  - apply (unread_advanced (mark lx) [c] r H).
Qed.

Lemma next_is_string s r :
  closed_body s = true ->
  next_is (DQUOTE :: s ++ DQUOTE :: r) TokenType.String (quoted s) r.
Proof.
  intros C lx H. rewrite nextToken_at by now rewrite H.
  destruct (scan_string (mark lx) s r H C) as (l' & E & M).
  rewrite E. exists (Lexer.makeToken l' TokenType.String), l'.
  assert (H' : unread (mark lx) = quoted s ++ r).
  { rewrite unread_mark, H. unfold quoted. simpl.
    now rewrite <- app_assoc. }
  assert (L : length s + 2 = length (quoted s)).
  { unfold quoted. simpl. rewrite length_app. simpl. lia. }
  rewrite L in M.
  split; [reflexivity|]. split; [reflexivity|]. split; [|split].
  - apply (lexeme_moved (mark lx) _ _ _ r (fresh_mark lx) M H').
  - apply M.
  - apply (unread_after _ _ _ _ _ M H' eq_refl).
Qed.

Lemma next_is_unterminated s :
  unterminated s = true ->
  next_is (DQUOTE :: s) TokenType.Unknown (chars "Unterminated string.") [].
Proof.
  intros C lx H. rewrite nextToken_at by now rewrite H.
  destruct (scan_unterminated (mark lx) s H C) as (l' & E & S1 & U1).
  rewrite E. eexists _, _. split; [reflexivity|]. repeat split; auto.
Qed.

Lemma next_is_number c s a b :
  Std.isdigit c || (c =? "-")%char = true -> number_scan s = (a, b) ->
  next_is (c :: s) TokenType.Number (c :: a) b.
Proof.
  intros D N lx H.
  assert (T : token_start c = true).
  { destruct c as [[] [] [] [] [] [] [] []]; try discriminate D; reflexivity. }
  rewrite nextToken_at by now rewrite H.
  pose proof (scan_number (mark lx) c s H D) as Sc. rewrite N in Sc.
  destruct Sc as (E & ->).
  assert (H' : unread (mark lx) = (c :: a) ++ b) by (rewrite unread_mark, H; simpl; now f_equal).
  eexists _, _. split; [reflexivity|]. repeat split; auto.
  - apply (lexeme_moved (mark lx) _ _ (c :: a) b (fresh_mark lx)
             (moved_advanced _ _) H').
  - apply (unread_advanced (mark lx) (c :: a) b H').
Qed.

Lemma next_is_word c a r :
  Std.isalpha c = true -> forallb Std.isalpha a = true ->
  Std.isalpha (hd NUL r) = false ->
  next_is (c :: a ++ r) (word_type (c :: a)) (c :: a) r.
Proof.
  intros C A R lx H.
  assert (T : token_start c = true).
  { destruct c as [[] [] [] [] [] [] [] []]; try discriminate C; reflexivity. }
  rewrite nextToken_at by now rewrite H.
  rewrite (scan_word (mark lx) c a r (fresh_mark lx) H C A R).
  eexists _, _. split; [reflexivity|]. repeat split; auto.
  - apply (lexeme_moved (mark lx) _ _ (c :: a) r (fresh_mark lx)
             (moved_advanced _ _) H).
  - apply (unread_advanced (mark lx) (c :: a) r H).
Qed.

(** *** [Parser::advance] on known text *)

Lemma advance_next p text ty lexeme rest :
  next_is text ty lexeme rest -> ty <> TokenType.Unknown ->
  unread (Parser.lexer p) = text ->
  exists p', Parser.advance p = Ok (tt, p')
             /\ at_token p' ty lexeme rest
             /\ Lexer.source (Parser.lexer p')
                = Lexer.source (Parser.lexer p).
Proof.
  intros N K H. destruct (N _ H) as (tok & lx & E & T & X & S1 & U1).
  unfold Parser.advance. rewrite E.
  assert (C : Parser.currentIs TokenType.Unknown
                (Parser.mk lx tok (Parser.currentToken p)) = false).
  { apply currentIs_false. simpl. congruence. }
  rewrite C. eexists. split; [reflexivity|]. unfold at_token. simpl. auto.
Qed.

Lemma advance_unknown p text lexeme rest :
  next_is text TokenType.Unknown lexeme rest ->
  unread (Parser.lexer p) = text ->
  exists line col,
    Parser.advance p = Throw (ParsingError.mk unexpected line col).
Proof.
  intros N H. destruct (N _ H) as (tok & lx & E & T & X & S1 & U1).
  unfold Parser.advance. rewrite E.
  assert (C : Parser.currentIs TokenType.Unknown
                (Parser.mk lx tok (Parser.currentToken p)) = true).
  { apply currentIs_true. simpl. congruence. }
  rewrite C. unfold Parser.throw. eauto.
Qed.

(** ** Strings as keys *)

Lemma string_compare_refl a : Std.string_compare a a = Eq.
Proof.
  induction a as [|x a IH]; simpl; auto. now rewrite Nat.compare_refl.
Qed.

Lemma string_compare_eq a : forall b, Std.string_compare a b = Eq -> a = b.
Proof.
  induction a as [|x a IH]; intros [|y b] H; simpl in H; try discriminate;
    auto.
  destruct (Nat.compare_spec (nat_of_ascii x) (nat_of_ascii y)) as [E| |];
    try discriminate.
  f_equal; auto.
  rewrite <- (ascii_nat_embedding x), <- (ascii_nat_embedding y). now rewrite E.
Qed.

Lemma string_compare_antisym a : forall b,
  Std.string_compare b a = CompOpp (Std.string_compare a b).
Proof.
  induction a as [|x a IH]; intros [|y b]; simpl; auto.
  rewrite (Nat.compare_antisym (nat_of_ascii x) (nat_of_ascii y)).
  destruct (nat_of_ascii x ?= nat_of_ascii y); simpl; auto.
Qed.

Lemma string_compare_trans a : forall b c,
  Std.string_compare a b = Lt -> Std.string_compare b c = Lt ->
  Std.string_compare a c = Lt.
Proof.
  induction a as [|x a IH]; intros [|y b] [|z c] H1 H2; simpl in *;
    try discriminate; auto.
  destruct (Nat.compare_spec (nat_of_ascii x) (nat_of_ascii y)) as [E|L|G];
    try discriminate;
    destruct (Nat.compare_spec (nat_of_ascii y) (nat_of_ascii z)) as [E'|L'|G'];
    try discriminate.
  - rewrite E, E', Nat.compare_refl. eauto.
  - rewrite E. now apply Nat.compare_lt_iff in L' as ->.
  - rewrite <- E'. now apply Nat.compare_lt_iff in L as ->.
  - assert (L2 : nat_of_ascii x < nat_of_ascii z) by lia.
    now apply Nat.compare_lt_iff in L2 as ->.
Qed.

(** ** [std::map] *)

(** A key above all the others goes to the end. *)
Lemma map_assign_last k v o :
  below k o -> map_assign k v o = o ++ [(k, v)].
Proof.
  induction 1 as [|[k' v'] o H _ IH]; simpl; auto.
  simpl in H. rewrite string_compare_antisym, H. simpl. now rewrite IH.
Qed.

Lemma increasing_cons k keys :
  increasing (k :: keys) = true ->
  increasing keys = true
  /\ Forall (fun k' => Std.string_compare k k' = Lt) keys.
Proof.
  revert k. induction keys as [|k' keys IH]; intros k H; simpl in *; auto.
  destruct (Std.string_compare k k') eqn:C; try discriminate.
  split; auto. constructor; auto.
  destruct (IH _ H) as (_ & F). eapply Forall_impl; [|exact F].
  intros k2 H2. simpl in H2. eapply string_compare_trans; eauto.
Qed.

Lemma increasing_app_below acc k keys :
  increasing (acc ++ k :: keys) = true ->
  Forall (fun k' => Std.string_compare k' k = Lt) acc.
Proof.
  induction acc as [|a acc IH]; intros H; [constructor|].
  simpl app in H. destruct (increasing_cons _ _ H) as (H1 & F).
  constructor; auto.
  rewrite Forall_app in F. destruct F as (_ & F). now inversion F.
Qed.

(** ** [parseString] decodes *)

Lemma parseString_test (pre s : list ascii) (q : ascii) :
  (length pre <? length (pre ++ s ++ [q]) - 1) = negb (length s =? 0).
Proof.
  rewrite !length_app. simpl. destruct s; simpl.
  - apply Nat.ltb_ge. lia.
  - apply Nat.ltb_lt. lia.
Qed.

Lemma parseString_nth (pre : list ascii) (c : ascii) (s : list ascii) :
  nth (length pre) (pre ++ c :: s) NUL = c.
Proof. rewrite app_nth2, Nat.sub_diag by lia. reflexivity. Qed.

Lemma parseString_decode n : forall s pre q acc fuel,
  length s <= n -> length s <= fuel ->
  Parser.parseString_loop fuel (pre ++ s ++ [q]) (length pre) acc
  = acc ++ decode s.
Proof.
  induction n as [|n IH]; intros s pre q acc fuel Ln Lf.
  - destruct s; [|simpl in Ln; lia].
    destruct fuel; cbn [Parser.parseString_loop decode];
      rewrite ?parseString_test; simpl; now rewrite app_nil_r.
  - destruct s as [|c s]; [apply (IH [] pre q acc fuel); simpl; lia|].
    destruct fuel as [|fuel]; [simpl in Lf; lia|].
    simpl in Ln, Lf. cbn [Parser.parseString_loop].
    rewrite parseString_test. simpl negb.
    change (pre ++ (c :: s) ++ [q]) with (pre ++ c :: s ++ [q]).
    rewrite parseString_nth. cbn [decode].
    assert (E1 : length pre + 1 = length (pre ++ [c]))
      by (rewrite length_app; simpl; lia).
    assert (A1 : pre ++ c :: s ++ [q] = (pre ++ [c]) ++ s ++ [q])
      by (now rewrite <- app_assoc).
    destruct (c =? BACKSLASH)%char eqn:B; cbn [andb].
    + rewrite E1, A1, parseString_test.
      destruct s as [|e s]; simpl negb.
      * rewrite (IH [] (pre ++ [c]) q); simpl; try lia. apply app_nil_r.
      * change ((pre ++ [c]) ++ (e :: s) ++ [q])
          with ((pre ++ [c]) ++ e :: s ++ [q]).
        rewrite parseString_nth.
        replace (length (pre ++ [c]) + 1) with (length (pre ++ [c; e]))
          by (rewrite !length_app; simpl; lia).
        replace ((pre ++ [c]) ++ e :: s ++ [q])
          with ((pre ++ [c; e]) ++ s ++ [q])
          by (now rewrite <- !app_assoc).
        rewrite (IH s (pre ++ [c; e]) q); simpl in *; try lia.
        now rewrite <- app_assoc.
    + rewrite E1, A1.
      rewrite (IH s (pre ++ [c]) q); simpl in *; try lia.
      now rewrite <- app_assoc.
Qed.

Lemma parseString_quoted s :
  Parser.parseString_loop (length (quoted s)) (quoted s) 1 [] = decode s.
Proof.
  unfold quoted.
  apply (parseString_decode (length s) s [DQUOTE] DQUOTE [] _ (le_n _)).
  simpl. rewrite length_app. lia.
Qed.

Lemma decode_plain s : plain s = true -> decode s = s.
Proof.
  induction s as [|c s IH]; simpl; auto. intros H.
  apply andb_prop in H as [H1 H2]. apply andb_prop in H1 as [_ H1].
  apply negb_true_iff in H1. rewrite H1. f_equal. auto.
Qed.

Lemma closed_plain s : plain s = true -> closed_body s = true.
Proof.
  induction s as [|c s IH]; simpl; auto. intros H.
  apply andb_prop in H as [H1 H2]. apply andb_prop in H1 as [H0 H1].
  apply negb_true_iff in H1. rewrite H1, H0. simpl. auto.
Qed.

Lemma string_ok_plain s : string_ok s = true -> plain s = true.
Proof.
  unfold string_ok, plain. rewrite !forallb_forall. intros H c I.
  specialize (H c I). apply andb_prop in H as [H1 H2].
  apply andb_prop in H1 as [_ H1]. now rewrite H1, H2.
Qed.

(** ** Numbers in front of a delimiter *)

Lemma span_digits_app s tail :
  Std.isdigit (hd NUL tail) = false ->
  Std.span_digits (s ++ tail)
  = (fst (Std.span_digits s), snd (Std.span_digits s) ++ tail).
Proof.
  intros D. induction s as [|c s IH]; simpl.
  - destruct tail as [|t tail]; simpl in *; auto. now rewrite D.
  - destruct (Std.isdigit c); auto. rewrite IH.
    now destruct (Std.span_digits s).
Qed.

Lemma delimiter_digit c : delimiter c = true -> Std.isdigit c = false.
Proof.
  unfold delimiter. intros H. repeat (apply andb_prop in H as [H _]).
  now apply negb_true_iff.
Qed.

Lemma frac_scan_app s tail :
  delimiter (hd NUL tail) = true ->
  frac_scan (s ++ tail) = (fst (frac_scan s), snd (frac_scan s) ++ tail).
Proof.
  intros D. pose proof (delimiter_digit _ D) as Dd.
  assert (Dp : (hd NUL tail =? ".")%char = false).
  { unfold delimiter in D. repeat (apply andb_prop in D as [D ?]).
    now apply negb_true_iff. }
  unfold frac_scan. destruct s as [|c [|d s]].
  - destruct tail as [|t [|u tail]]; simpl in *; auto. now rewrite Dp.
  - destruct tail as [|t tail]; simpl in *; auto.
    rewrite Dd, andb_false_r. reflexivity.
  - change ((c :: d :: s) ++ tail) with (c :: d :: (s ++ tail)).
    cbv beta iota.
    destruct ((c =? ".")%char && Std.isdigit d) eqn:C; [|reflexivity].
    change (tl (c :: d :: s ++ tail)) with ((d :: s) ++ tail).
    change (tl (c :: d :: s)) with (d :: s).
    rewrite (span_digits_app (d :: s) tail Dd).
    destruct (Std.span_digits (d :: s)); reflexivity.
Qed.

Lemma exp_scan_app s tail :
  delimiter (hd NUL tail) = true ->
  exp_scan (s ++ tail) = (fst (exp_scan s), snd (exp_scan s) ++ tail).
Proof.
  intros D. pose proof (delimiter_digit _ D) as Dd.
  assert (De : (hd NUL tail =? "e")%char || (hd NUL tail =? "E")%char = false).
  { unfold delimiter in D. repeat (apply andb_prop in D as [D ?]).
    destruct (hd NUL tail) as [[] [] [] [] [] [] [] []];
      try reflexivity; discriminate. }
  assert (Ds : (hd NUL tail =? "+")%char || (hd NUL tail =? "-")%char = false).
  { unfold delimiter in D. repeat (apply andb_prop in D as [D ?]).
    apply orb_false_intro; now apply negb_true_iff. }
  unfold exp_scan. destruct s as [|c r].
  - destruct tail as [|t tail]; simpl in *; auto. now rewrite De.
  - change ((c :: r) ++ tail) with (c :: (r ++ tail)). cbv beta iota.
    destruct ((c =? "e")%char || (c =? "E")%char); [|reflexivity].
    destruct r as [|g r1].
    + destruct tail as [|t tail]; simpl in *; auto.
      rewrite Ds. simpl. rewrite Dd. reflexivity.
    + change ((g :: r1) ++ tail) with (g :: (r1 ++ tail)). cbv beta iota.
      destruct ((g =? "+")%char || (g =? "-")%char).
      * rewrite (span_digits_app r1 tail Dd).
        destruct (Std.span_digits r1); reflexivity.
      * change (g :: r1 ++ tail) with ((g :: r1) ++ tail).
        rewrite (span_digits_app (g :: r1) tail Dd).
        destruct (Std.span_digits (g :: r1)); reflexivity.
Qed.

Lemma number_scan_app s tail :
  delimiter (hd NUL tail) = true ->
  number_scan (s ++ tail)
  = (fst (number_scan s), snd (number_scan s) ++ tail).
Proof.
  intros D. unfold number_scan.
  rewrite (span_digits_app s tail (delimiter_digit _ D)).
  destruct (Std.span_digits s) as [ds s1]. simpl fst; simpl snd.
  rewrite (frac_scan_app s1 tail D).
  destruct (frac_scan s1) as [f s2]. simpl fst; simpl snd.
  rewrite (exp_scan_app s2 tail D).
  now destruct (exp_scan s2) as [e s3].
Qed.

Lemma unread_new s : unread (Lexer.new s) = s.
Proof. reflexivity. Qed.

Lemma number_scan_split s :
  s = fst (number_scan s) ++ snd (number_scan s).
Proof.
  pose proof (numberToken_scan (Lexer.new s)) as H. rewrite unread_new in H.
  destruct (number_scan s) as [a b]. apply H.
Qed.

(** A text that is one number, in front of a delimiter. *)
Lemma number_scan_whole t tail :
  snd (number_scan t) = [] -> delimiter (hd NUL tail) = true ->
  number_scan (t ++ tail) = (t, tail).
Proof.
  intros E D. rewrite (number_scan_app t tail D), E. simpl. f_equal.
  pose proof (number_scan_split t) as S. rewrite E, app_nil_r in S. auto.
Qed.

Lemma double_eqb_eq x y : Std.double_eqb x y = true -> x = y.
Proof.
  destruct x, y; simpl; intros H; try discriminate; auto.
  - now apply Bool.eqb_prop in H as ->.
  - now apply Bool.eqb_prop in H as ->.
  - apply andb_prop in H as [H H3]. apply andb_prop in H as [H1 H2].
    apply Bool.eqb_prop in H1 as ->. apply Pos.eqb_eq in H2 as ->.
    now apply Z.eqb_eq in H3 as ->.
Qed.

(** What [number_ok] says. *)
Lemma number_ok_spec d :
  number_ok d = true ->
  exists c t,
    Std.put_double d = c :: t
    /\ Std.isdigit c || (c =? "-")%char = true
    /\ snd (number_scan t) = []
    /\ Std.stod (c :: t) = Std.StodOk d (length (c :: t)).
Proof.
  unfold number_ok. destruct (Std.put_double d) as [|c t]; [discriminate|].
  intros H. apply andb_prop in H as [H H3]. apply andb_prop in H as [H1 H2].
  exists c, t. repeat split; auto.
  - destruct (number_scan t) as [a [|? ?]]; [reflexivity|discriminate].
  - destruct (Std.stod (c :: t)) as [v pos| |]; try discriminate.
    apply andb_prop in H3 as [E1 E2].
    apply double_eqb_eq in E1 as ->. now apply Nat.eqb_eq in E2 as ->.
Qed.

(** ** Parsing what [serialise] wrote *)

Lemma serialise_elements indent a :
  serialise (JArray a) indent
  = chars "[" ++ [LF] ++ elements indent a ++ spaces indent ++ chars "]".
Proof.
  simpl. do 3 f_equal. induction a as [|x a IH]; simpl; auto.
  now rewrite IH.
Qed.

Lemma serialise_members indent o :
  serialise (JObject o) indent
  = chars "{" ++ [LF] ++ members indent o ++ spaces indent ++ chars "}".
Proof.
  simpl. do 3 f_equal. induction o as [|[k x] o IH]; simpl; auto.
  now rewrite IH.
Qed.

Lemma bind_assoc A B C (m : Parser.M A) (k : A -> Parser.M B)
    (h : B -> Parser.M C) p :
  Parser.bind (Parser.bind m k) h p
  = Parser.bind m (fun a => Parser.bind (k a) h) p.
Proof. unfold Parser.bind. now destruct (m p) as [[a p1]| |]. Qed.

Lemma blank_spaces n : forallb is_blank (spaces n) = true.
Proof. induction n; simpl; auto. Qed.

Lemma at_token_is p ty lexeme rest :
  at_token p ty lexeme rest -> forall ty',
  Parser.currentIs ty' p = TokenType.eqb ty ty'.
Proof. intros (T & _) ty'. unfold Parser.currentIs. now rewrite T. Qed.

(** At a token of the type asked for, [consume] is [advance]. *)
Lemma bind_consume A ty msg (k : unit -> Parser.M A) p :
  Parser.currentIs ty p = true ->
  Parser.bind (Parser.consume ty msg) k p = Parser.bind Parser.advance k p.
Proof. intros C. unfold Parser.bind, Parser.consume. now rewrite C. Qed.

Lemma at_token_current p ty lexeme rest :
  at_token p ty lexeme rest -> Parser.currentIs ty p = true.
Proof. intros (T & _). now apply currentIs_true. Qed.

(** [advance] at the end of a value, then [return]. *)
Lemma advance_ret A (a : A) p text ty lexeme rest :
  next_is text ty lexeme rest -> ty <> TokenType.Unknown ->
  unread (Parser.lexer p) = text ->
  exists p', Parser.bind Parser.advance (fun _ => Parser.ret a) p = Ok (a, p')
             /\ at_token p' ty lexeme rest.
Proof.
  intros N K H. destruct (advance_next p _ _ _ _ N K H) as (p' & E & At & _).
  exists p'. unfold Parser.bind. rewrite E. auto.
Qed.

(** [parseValue] returns from a token that starts a value only. *)
Lemma parseValue_start fuel p r :
  Parser.parseValue fuel p = Ok r ->
  Parser.currentIs TokenType.RightBracket p = false
  /\ Parser.currentIs TokenType.RightBrace p = false.
Proof.
  destruct fuel; [discriminate|]. simpl. unfold Parser.currentIs.
  destruct (Token.type (Parser.currentToken p)); try discriminate; auto.
Qed.

Lemma substr_quoted s :
  Std.substr (quoted s) 1 (length (quoted s) - 2) = s.
Proof.
  unfold Std.substr, quoted. simpl. rewrite length_app. simpl.
  replace (length s + 1 - 1) with (length s + 0) by lia.
  rewrite firstn_app_2. simpl. apply app_nil_r.
Qed.

Lemma next_is_close_bracket indent tail :
  next_is (LF :: spaces indent ++ chars "]" ++ tail)
    TokenType.RightBracket (chars "]") tail.
Proof.
  apply (next_is_blanks (LF :: spaces indent)).
  - simpl. apply blank_spaces.
  - now apply next_is_punct.
Qed.

Lemma next_is_close_brace indent tail :
  next_is (LF :: spaces indent ++ chars "}" ++ tail)
    TokenType.RightBrace (chars "}") tail.
Proof.
  apply (next_is_blanks (LF :: spaces indent)).
  - simpl. apply blank_spaces.
  - now apply next_is_punct.
Qed.

(** Two texts that differ in the nesting of [++] and [::] only. *)
Ltac same_text :=
  cbn [members elements];
  repeat (rewrite <- app_assoc || rewrite <- app_comm_cons);
  reflexivity.

(** The loop of [parseArray] over the lines of the elements. *)
Lemma array_loop indent tail l : forall x acc fuel w p,
  Forall parses (x :: l) ->
  forallb is_blank w = true ->
  list_sum (map (fun y => S (need y)) (x :: l)) <= fuel ->
  unread (Parser.lexer p)
  = w ++ elements indent (x :: l) ++ spaces indent ++ chars "]" ++ tail ->
  exists p',
    Parser.bind Parser.advance (fun _ => Parser.parseArray_loop fuel acc) p
    = Ok (acc ++ x :: l, p')
    /\ at_token p' TokenType.RightBracket (chars "]") tail.
Proof.
  induction l as [|y l IH]; intros x acc fuel w p F B L H;
    inversion_clear F as [|? ? Px Pl];
    (destruct fuel as [|fuel]; [simpl in L; lia|]);
    cbn [Parser.parseArray_loop]; rewrite <- bind_assoc.
  - simpl in L.
    destruct (Px (indent + 2) (w ++ spaces (indent + 2))
                (LF :: spaces indent ++ chars "]" ++ tail)
                TokenType.RightBracket (chars "]") tail fuel p)
      as (p2 & E & At); auto.
    + rewrite forallb_app, B. apply blank_spaces.
    + apply next_is_close_bracket.
    + discriminate.
    + lia.
    + rewrite H. cbn [elements].
      rewrite <- !app_assoc. reflexivity.
    + unfold Parser.bind at 1. rewrite E.
      rewrite (at_token_is _ _ _ _ At). simpl.
      exists p2. split; [reflexivity|exact At].
  - simpl in L.
    set (rest := LF :: elements indent (y :: l) ++ spaces indent
                 ++ chars "]" ++ tail).
    destruct (Px (indent + 2) (w ++ spaces (indent + 2))
                ("," :: rest)%char TokenType.Comma (chars ",") rest fuel p)
      as (p2 & E & At); auto.
    + rewrite forallb_app, B. apply blank_spaces.
    + now apply next_is_punct.
    + discriminate.
    + lia.
    + rewrite H. subst rest. cbn [elements].
      rewrite <- !app_assoc. reflexivity.
    + unfold Parser.bind at 1. rewrite E.
      rewrite (at_token_is _ _ _ _ At).
      cbn [TokenType.eqb TokenType.tag Nat.eqb].
      rewrite (bind_consume _ _ _ _ _ (at_token_current _ _ _ _ At)).
      destruct (IH y (acc ++ [x]) fuel [LF] p2) as (p3 & E3 & At3); auto.
      * simpl. lia.
      * destruct At as (_ & _ & U). rewrite U. reflexivity.
      * rewrite <- app_assoc in E3. simpl in E3. eauto.
Qed.

Lemma increasing_below acc k x l :
  increasing (map fst (acc ++ (k, x) :: l)) = true -> below k acc.
Proof.
  rewrite map_app. simpl. intros H.
  apply increasing_app_below in H. unfold below.
  rewrite Forall_map in H. exact H.
Qed.

(** The loop of [parseObject] over the lines of the members. *)
Lemma object_loop indent tail l : forall k x acc fuel w p,
  Forall (fun kv => parses (snd kv)) ((k, x) :: l) ->
  forallb (fun kv => string_ok (fst kv)) ((k, x) :: l) = true ->
  increasing (map fst (acc ++ (k, x) :: l)) = true ->
  forallb is_blank w = true ->
  list_sum (map (fun kv => let '(_, y) := kv in S (need y)) ((k, x) :: l))
  <= fuel ->
  unread (Parser.lexer p)
  = w ++ members indent ((k, x) :: l) ++ spaces indent ++ chars "}" ++ tail ->
  exists p',
    Parser.bind Parser.advance (fun _ => Parser.parseObject_loop fuel acc) p
    = Ok (acc ++ (k, x) :: l, p')
    /\ at_token p' TokenType.RightBrace (chars "}") tail.
Proof.
  induction l as [|[k' y] l IH]; intros k x acc fuel w p F K I B L H;
    inversion_clear F as [|? ? Px Pl]; simpl in Px;
    (destruct fuel as [|fuel]; [simpl in L; lia|]);
    simpl in K; apply andb_prop in K as [Kk Kl];
    pose proof (closed_plain _ (string_ok_plain _ Kk)) as Ck;
    pose proof (increasing_below _ _ _ _ I) as Bk;
    cbn [members] in H.
  - (* the last member *)
    set (after_key := ":"%char :: chars " " ++ serialise x (indent + 2)
                      ++ [] ++ [LF] ++ members indent []
                      ++ spaces indent ++ chars "}" ++ tail).
    destruct (advance_next p
                ((w ++ spaces (indent + 2)) ++ DQUOTE :: k ++ DQUOTE :: after_key)
                TokenType.String (quoted k) after_key) as (p1 & E1 & At1 & _).
    { apply next_is_blanks; [rewrite forallb_app, B; apply blank_spaces|].
      now apply next_is_string. }
    { discriminate. }
    { rewrite H. subst after_key. same_text. }
    unfold Parser.bind at 1. rewrite E1. cbn [Parser.parseObject_loop].
    rewrite (at_token_is _ _ _ _ At1). cbn [TokenType.eqb TokenType.tag Nat.eqb negb].
    destruct At1 as (T1 & X1 & U1). rewrite X1, substr_quoted.
    destruct (advance_next p1 after_key TokenType.Colon (chars ":")
                (chars " " ++ serialise x (indent + 2)
                 ++ LF :: spaces indent ++ chars "}" ++ tail))
      as (p2 & E2 & At2 & _); auto.
    { now apply next_is_punct. }
    { discriminate. }
    unfold Parser.bind at 1. rewrite E2.
    rewrite (bind_consume _ _ _ _ _ (at_token_current _ _ _ _ At2)).
    rewrite <- bind_assoc.
    destruct (Px (indent + 2) (chars " ")
                (LF :: spaces indent ++ chars "}" ++ tail)
                TokenType.RightBrace (chars "}") tail fuel p2)
      as (p3 & E3 & At3); auto.
    { apply next_is_close_brace. }
    { discriminate. }
    { simpl in L. lia. }
    { destruct At2 as (_ & _ & U2). rewrite U2. reflexivity. }
    unfold Parser.bind at 1. rewrite E3.
    rewrite (at_token_is _ _ _ _ At3). simpl.
    exists p3. split; [|exact At3]. unfold Parser.ret.
    now rewrite (map_assign_last k x acc Bk).
  - (* a member before another *)
    set (rest := LF :: members indent ((k', y) :: l) ++ spaces indent
                 ++ chars "}" ++ tail).
    set (after_key := ":"%char :: chars " " ++ serialise x (indent + 2)
                      ++ ","%char :: rest).
    destruct (advance_next p
                ((w ++ spaces (indent + 2)) ++ DQUOTE :: k ++ DQUOTE :: after_key)
                TokenType.String (quoted k) after_key) as (p1 & E1 & At1 & _).
    { apply next_is_blanks; [rewrite forallb_app, B; apply blank_spaces|].
      now apply next_is_string. }
    { discriminate. }
    { rewrite H. subst after_key rest. same_text. }
    unfold Parser.bind at 1. rewrite E1. cbn [Parser.parseObject_loop].
    rewrite (at_token_is _ _ _ _ At1). cbn [TokenType.eqb TokenType.tag Nat.eqb negb].
    destruct At1 as (T1 & X1 & U1). rewrite X1, substr_quoted.
    destruct (advance_next p1 after_key TokenType.Colon (chars ":")
                (chars " " ++ serialise x (indent + 2) ++ ","%char :: rest))
      as (p2 & E2 & At2 & _); auto.
    { now apply next_is_punct. }
    { discriminate. }
    unfold Parser.bind at 1. rewrite E2.
    rewrite (bind_consume _ _ _ _ _ (at_token_current _ _ _ _ At2)).
    rewrite <- bind_assoc.
    destruct (Px (indent + 2) (chars " ") (","%char :: rest)
                TokenType.Comma (chars ",") rest fuel p2)
      as (p3 & E3 & At3); auto.
    { now apply next_is_punct. }
    { discriminate. }
    { simpl in L. lia. }
    { destruct At2 as (_ & _ & U2). rewrite U2. reflexivity. }
    unfold Parser.bind at 1. rewrite E3.
    rewrite (at_token_is _ _ _ _ At3).
    cbn [TokenType.eqb TokenType.tag Nat.eqb].
    rewrite (bind_consume _ _ _ _ _ (at_token_current _ _ _ _ At3)).
    rewrite (map_assign_last k x acc Bk).
    destruct (IH k' y (acc ++ [(k, x)]) fuel [LF] p3) as (p4 & E4 & At4);
      auto.
    + rewrite <- app_assoc. exact I.
    + simpl in L. simpl. lia.
    + destruct At3 as (_ & _ & U3). rewrite U3. reflexivity.
    + rewrite <- app_assoc in E4. simpl in E4. eauto.
Qed.

Lemma delimiter_alpha c : delimiter c = true -> Std.isalpha c = false.
Proof.
  unfold delimiter. intros H. repeat (apply andb_prop in H as [H ?]).
  now apply negb_true_iff.
Qed.

Lemma bind_eq A B (m : Parser.M A) (k : A -> Parser.M B) p a p' :
  m p = Ok (a, p') -> Parser.bind m k p = k a p'.
Proof. intros E. unfold Parser.bind. now rewrite E. Qed.

(** The closing bracket or brace of a value, and the token after it. *)
Lemma close_value A (items : A) (wrap : A -> JsonValue) close msg p
    tail ty lexeme rest :
  Parser.currentIs close p = true ->
  next_is tail ty lexeme rest -> ty <> TokenType.Unknown ->
  unread (Parser.lexer p) = tail ->
  exists p',
    Parser.bind
      (Parser.bind (Parser.consume close msg) (fun _ => Parser.ret items))
      (fun x => Parser.ret (wrap x)) p
    = Ok (wrap items, p')
    /\ at_token p' ty lexeme rest.
Proof.
  intros C N K U. rewrite bind_assoc, (bind_consume _ _ _ _ _ C).
  destruct (advance_next p tail ty lexeme rest N K U) as (p' & E & At & _).
  exists p'. split; auto. now rewrite (bind_eq _ _ _ _ _ _ _ E).
Qed.

Lemma parses_word (a : JsonValue) c w ty :
  Std.isalpha c = true -> forallb Std.isalpha w = true ->
  word_type (c :: w) = ty -> ty <> TokenType.Unknown ->
  (forall indent, serialise a indent = c :: w) ->
  (forall fuel p, Token.type (Parser.currentToken p) = ty ->
     Parser.parseValue (S fuel) p
     = Parser.bind Parser.advance (fun _ => Parser.ret a) p) ->
  parses a.
Proof.
  intros C W T K S V indent b tail ty' lexeme rest fuel p B D N K' L H.
  rewrite S in H. destruct fuel as [|fuel]; [destruct a; simpl in L; lia|].
  destruct (advance_next p (b ++ c :: w ++ tail) ty (c :: w) tail)
    as (p1 & E1 & At1 & _); auto.
  { apply next_is_blanks; auto. rewrite <- T.
    apply next_is_word; auto. now apply delimiter_alpha. }
  unfold Parser.bind at 1. rewrite E1.
  destruct At1 as (T1 & X1 & U1). rewrite (V fuel p1 T1).
  now apply advance_ret with (text := tail).
Qed.

(** The text of a value is parsed back to the value. *)
Lemma parses_serialised v :
  payloads number_ok v = true -> well_formed v = true -> parses v.
Proof.
  induction v as [|b|d|s|a IH|o IH] using JsonValue_induction;
    intros Pay Wf.
  - apply (parses_word JNull "n"%char (chars "ull") TokenType.Null); auto.
    + discriminate.
    + intros fuel p T. simpl. now rewrite T.
  - destruct b.
    + apply (parses_word (JBool true) "t"%char (chars "rue") TokenType.True);
        auto; [discriminate|]. intros fuel p T. simpl. now rewrite T.
    + apply (parses_word (JBool false) "f"%char (chars "alse")
               TokenType.False);
        auto; [discriminate|]. intros fuel p T. simpl. now rewrite T.
  - (* a number *)
    simpl in Pay. destruct (number_ok_spec d Pay) as (c & t & Ed & Dc & Sc & St).
    intros indent w tail ty lexeme rest fuel p B D N K L H.
    simpl in H. rewrite Ed in H.
    destruct fuel as [|fuel]; [simpl in L; lia|].
    destruct (advance_next p (w ++ c :: t ++ tail) TokenType.Number
                (c :: t) tail) as (p1 & E1 & At1 & _); auto.
    { apply next_is_blanks; auto. apply next_is_number; auto.
      now apply number_scan_whole. }
    { discriminate. }
    unfold Parser.bind at 1. rewrite E1.
    destruct At1 as (T1 & X1 & U1). simpl. rewrite T1.
    unfold Parser.parseNumber. rewrite X1, St, Nat.eqb_refl. simpl negb.
    cbv iota. now apply advance_ret with (text := tail).
  - (* a string *)
    simpl in Pay. pose proof (string_ok_plain _ Pay) as Pl.
    intros indent w tail ty lexeme rest fuel p B D N K L H.
    simpl in H. destruct fuel as [|fuel]; [simpl in L; lia|].
    destruct (advance_next p (w ++ DQUOTE :: s ++ DQUOTE :: tail)
                TokenType.String (quoted s) tail) as (p1 & E1 & At1 & _);
      auto.
    { apply next_is_blanks; auto. apply next_is_string.
      now apply closed_plain. }
    { discriminate. }
    { rewrite H. now rewrite <- app_assoc. }
    unfold Parser.bind at 1. rewrite E1.
    destruct At1 as (T1 & X1 & U1). simpl. rewrite T1.
    unfold Parser.parseString. rewrite X1, parseString_quoted, decode_plain by auto.
    now apply advance_ret with (text := tail).
  - (* an array *)
    simpl in Pay, Wf.
    assert (Pa : Forall parses a).
    { rewrite Forall_forall in *. rewrite forallb_forall in Pay, Wf. auto. }
    clear IH Pay Wf.
    intros indent w tail ty lexeme rest fuel p B D N K L H.
    rewrite serialise_elements in H.
    destruct fuel as [|[|fuel]]; try (simpl in L; lia).
    destruct (advance_next p
                (w ++ "["%char :: LF :: elements indent a ++ spaces indent
                 ++ chars "]" ++ tail)
                TokenType.LeftBracket (chars "[")
                (LF :: elements indent a ++ spaces indent ++ chars "]" ++ tail))
      as (p1 & E1 & At1 & _); auto.
    { apply next_is_blanks; auto. now apply next_is_punct. }
    { discriminate. }
    { rewrite H. same_text. }
    unfold Parser.bind at 1. rewrite E1.
    cbn [Parser.parseValue]. destruct At1 as (T1 & X1 & U1). rewrite T1.
    cbn [Parser.parseArray Parser.parseObject]. rewrite bind_assoc.
    rewrite (bind_consume _ _ _ _ _ (proj2 (currentIs_true _ _) T1)).
    assert (E2 : exists p2, Parser.advance p1 = Ok (tt, p2)).
    { destruct a as [|x l].
      - destruct (advance_next p1 _ _ _ _
                    (next_is_close_bracket indent tail)
                    ltac:(discriminate) U1) as (p2 & E2 & _). eauto.
      - destruct (array_loop indent tail l x [] fuel [LF] p1 Pa eq_refl)
          as (p3 & E3 & At3); auto.
        { simpl in L. simpl. lia. }
        apply bind_Ok in E3 as ([] & p2 & E3 & _). eauto. }
    destruct E2 as (p2 & E2). pose proof U1 as E2'.
    rewrite (bind_eq _ _ _ _ _ _ _ E2), bind_assoc.
    destruct a as [|x l].
    + apply advance_next
        with (ty := TokenType.RightBracket) (lexeme := chars "]")
             (rest := tail) in E2' as (q & E2' & At2 & _);
        [|apply next_is_close_bracket|discriminate].
      rewrite E2 in E2'. injection E2' as <-.
      assert (Ck : (fun p =>
                      if negb (Parser.currentIs TokenType.RightBracket p)
                      then Parser.parseArray_loop fuel [] p
                      else Parser.ret [] p) p2 = Ok ([], p2)).
      { cbv beta. now rewrite (at_token_current _ _ _ _ At2). }
      rewrite (bind_eq _ _ _ _ _ _ _ Ck).
      apply close_value with (tail := tail); auto;
        [apply (at_token_current _ _ _ _ At2)|apply At2].
    + destruct (array_loop indent tail l x [] fuel [LF] p1 Pa eq_refl)
        as (p3 & E3 & At3); auto.
      { simpl in L. simpl. lia. }
      rewrite (bind_eq _ _ _ _ _ _ _ E2) in E3.
      assert (Hs : Parser.currentIs TokenType.RightBracket p2 = false).
      { destruct fuel as [|fuel]; [discriminate|].
        cbn [Parser.parseArray_loop] in E3.
        apply bind_Ok in E3 as (y & q & E3 & _).
        eapply parseValue_start; eauto. }
      assert (Ck : (fun p =>
                      if negb (Parser.currentIs TokenType.RightBracket p)
                      then Parser.parseArray_loop fuel [] p
                      else Parser.ret [] p) p2 = Ok (x :: l, p3)).
      { cbv beta. now rewrite Hs. }
      rewrite (bind_eq _ _ _ _ _ _ _ Ck).
      apply close_value with (tail := tail); auto;
        [apply (at_token_current _ _ _ _ At3)|apply At3].
  - (* an object *)
    simpl in Pay, Wf. apply andb_prop in Wf as [Wf Inc].
    assert (Po : Forall (fun kv => parses (snd kv)) o).
    { rewrite Forall_forall in *. rewrite forallb_forall in Pay, Wf.
      intros [k x] I. specialize (IH _ I). specialize (Pay _ I).
      specialize (Wf _ I). simpl in *.
      apply andb_prop in Pay as [_ Pay]. auto. }
    assert (Ko : forallb (fun kv => string_ok (fst kv)) o = true).
    { rewrite forallb_forall in *. intros [k x] I. specialize (Pay _ I).
      simpl in *. now apply andb_prop in Pay as [Pay _]. }
    clear IH Pay Wf.
    intros indent w tail ty lexeme rest fuel p B D N K L H.
    rewrite serialise_members in H.
    destruct fuel as [|[|fuel]]; try (simpl in L; lia).
    destruct (advance_next p
                (w ++ "{"%char :: LF :: members indent o ++ spaces indent
                 ++ chars "}" ++ tail)
                TokenType.LeftBrace (chars "{")
                (LF :: members indent o ++ spaces indent ++ chars "}" ++ tail))
      as (p1 & E1 & At1 & _); auto.
    { apply next_is_blanks; auto. now apply next_is_punct. }
    { discriminate. }
    { rewrite H. same_text. }
    unfold Parser.bind at 1. rewrite E1.
    cbn [Parser.parseValue]. destruct At1 as (T1 & X1 & U1). rewrite T1.
    cbn [Parser.parseArray Parser.parseObject]. rewrite bind_assoc.
    rewrite (bind_consume _ _ _ _ _ (proj2 (currentIs_true _ _) T1)).
    assert (E2 : exists p2, Parser.advance p1 = Ok (tt, p2)).
    { destruct o as [|[k x] l].
      - destruct (advance_next p1 _ _ _ _
                    (next_is_close_brace indent tail)
                    ltac:(discriminate) U1) as (p2 & E2 & _). eauto.
      - destruct (object_loop indent tail l k x [] fuel [LF] p1 Po Ko Inc
                    eq_refl) as (p3 & E3 & At3); auto.
        { simpl in L. simpl. lia. }
        apply bind_Ok in E3 as ([] & p2 & E3 & _). eauto. }
    destruct E2 as (p2 & E2). pose proof U1 as E2'.
    rewrite (bind_eq _ _ _ _ _ _ _ E2), bind_assoc.
    destruct o as [|[k x] l].
    + apply advance_next
        with (ty := TokenType.RightBrace) (lexeme := chars "}")
             (rest := tail) in E2' as (q & E2' & At2 & _);
        [|apply next_is_close_brace|discriminate].
      rewrite E2 in E2'. injection E2' as <-.
      assert (Ck : (fun p =>
                      if negb (Parser.currentIs TokenType.RightBrace p)
                      then Parser.parseObject_loop fuel [] p
                      else Parser.ret [] p) p2 = Ok ([], p2)).
      { cbv beta. now rewrite (at_token_current _ _ _ _ At2). }
      rewrite (bind_eq _ _ _ _ _ _ _ Ck).
      apply close_value with (tail := tail); auto;
        [apply (at_token_current _ _ _ _ At2)|apply At2].
    + destruct (object_loop indent tail l k x [] fuel [LF] p1 Po Ko Inc
                  eq_refl) as (p3 & E3 & At3); auto.
      { simpl in L. simpl. lia. }
      rewrite (bind_eq _ _ _ _ _ _ _ E2) in E3.
      assert (Hs : Parser.currentIs TokenType.RightBrace p2 = false).
      { destruct fuel as [|fuel]; [discriminate|].
        cbn [Parser.parseObject_loop] in E3.
        destruct (negb (Parser.currentIs TokenType.String p2)) eqn:Q;
          [discriminate|].
        apply negb_false_iff, currentIs_true in Q.
        apply currentIs_false. rewrite Q. discriminate. }
      assert (Ck : (fun p =>
                      if negb (Parser.currentIs TokenType.RightBrace p)
                      then Parser.parseObject_loop fuel [] p
                      else Parser.ret [] p) p2 = Ok ((k, x) :: l, p3)).
      { cbv beta. now rewrite Hs. }
      rewrite (bind_eq _ _ _ _ _ _ _ Ck).
      apply close_value with (tail := tail); auto;
        [apply (at_token_current _ _ _ _ At3)|apply At3].
Qed.

(** ** From [parseValue] to [parse] *)

Lemma run_value source fuel p r :
  Parser.advance (initial (Parser.stripBOM source)) = Ok (tt, p) ->
  Parser.parseValue fuel p = Ok r ->
  Parser.run source = Ok r.
Proof.
  intros A V. pose proof (run_total source) as T. unfold Parser.run in *.
  unfold Parser.new in *. fold (initial (Parser.stripBOM source)) in *.
  rewrite A in *. rewrite <- V. apply parseValue_fuel_any; congruence.
Qed.

Lemma run_bind source fuel r :
  Parser.bind Parser.advance (fun _ => Parser.parseValue fuel)
    (initial (Parser.stripBOM source)) = Ok r ->
  Parser.run source = Ok r.
Proof.
  destruct r as [v p']. intros H.
  apply bind_Ok in H as ([] & p & A & V). eapply run_value; eauto.
Qed.

Lemma parse_run source v p :
  Parser.run source = Ok (v, p) -> parse source = Ok v.
Proof. intros H. unfold parse, Parser.parse. now rewrite H. Qed.

(** The text of a value does not start with a byte order mark. *)
Lemma serialise_first v indent :
  payloads number_ok v = true ->
  exists c t, serialise v indent = c :: t /\ nat_of_ascii c <> 239.
Proof.
  destruct v as [|[]|d|s|a|o]; simpl; intros H;
    try (eexists _, _; split; [reflexivity|discriminate]).
  destruct (number_ok_spec d H) as (c & t & E & D & _).
  exists c, t. split; auto. intros N.
  rewrite <- (ascii_nat_embedding c), N in D. discriminate.
Qed.

Lemma stripBOM_serialise v indent :
  payloads number_ok v = true ->
  Parser.stripBOM (serialise v indent) = serialise v indent.
Proof.
  intros H. destruct (serialise_first v indent H) as (c & t & E & N).
  unfold Parser.stripBOM, Parser.hasBOM. rewrite E.
  destruct t as [|b [|c' t]]; auto.
  apply Nat.eqb_neq in N. now rewrite N.
Qed.

(** ** Objects stay sorted *)

Lemma increasing_two k k' keys :
  increasing (k :: k' :: keys)
  = match Std.string_compare k k' with
    | Lt => increasing (k' :: keys)
    | _ => false
    end.
Proof. reflexivity. Qed.

Lemma map_assign_above k (v : JsonValue) : forall (o : JsonObject) k0,
  Std.string_compare k0 k = Lt ->
  increasing (k0 :: map fst o) = true ->
  increasing (k0 :: map fst (map_assign k v o)) = true.
Proof.
  induction o as [|[k' v'] o IH]; intros k0 L I.
  - simpl. now rewrite L.
  - cbn [map_assign]. cbn [map fst] in I. rewrite increasing_two in I.
    destruct (Std.string_compare k0 k') eqn:C0; try discriminate.
    destruct (Std.string_compare k k') eqn:C; cbn [map fst];
      rewrite !increasing_two.
    + now rewrite C0.
    + now rewrite L, C.
    + rewrite C0. apply IH; auto.
      now rewrite string_compare_antisym, C.
Qed.

(** [object[key] = value] keeps the keys increasing. *)
Lemma map_assign_increasing k (v : JsonValue) (o : JsonObject) :
  increasing (map fst o) = true ->
  increasing (map fst (map_assign k v o)) = true.
Proof.
  destruct o as [|[k' v'] o]; intros I; [reflexivity|].
  cbn [map_assign]. destruct (Std.string_compare k k') eqn:C.
  - exact I.
  - cbn [map fst]. rewrite increasing_two, C. exact I.
  - apply (map_assign_above k v o k'); auto.
    now rewrite string_compare_antisym, C.
Qed.

Lemma map_assign_values (P : JsonValue -> bool) k v o :
  forallb (fun kv : list ascii * JsonValue => let '(_, x) := kv in P x) o
  = true ->
  P v = true ->
  forallb (fun kv : list ascii * JsonValue => let '(_, x) := kv in P x)
    (map_assign k v o) = true.
Proof.
  intros F Pv. induction o as [|[k' v'] o IH]; simpl in *.
  - now rewrite Pv.
  - apply andb_prop in F as [F1 F2].
    destruct (Std.string_compare k k'); simpl; rewrite ?Pv, ?F1, ?F2; auto.
Qed.

Lemma map_assign_well_formed k v o :
  well_formed (JObject o) = true -> well_formed v = true ->
  well_formed (JObject (map_assign k v o)) = true.
Proof.
  simpl. intros H Wv. apply andb_prop in H as [F I].
  rewrite (map_assign_values well_formed k v o F Wv).
  now rewrite map_assign_increasing.
Qed.

Lemma push_back_well_formed a v :
  well_formed (JArray a) = true -> well_formed v = true ->
  well_formed (JArray (a ++ [v])) = true.
Proof. simpl. intros A V. rewrite forallb_app, A. simpl. now rewrite V. Qed.

(** Whatever the parser builds is a well formed value. *)
Lemma parse_well_formed fuel :
  (forall p v p', Parser.parseValue fuel p = Ok (v, p') ->
     well_formed v = true)
  /\ (forall p o p', Parser.parseObject fuel p = Ok (o, p') ->
        well_formed (JObject o) = true)
  /\ (forall acc p o p', well_formed (JObject acc) = true ->
        Parser.parseObject_loop fuel acc p = Ok (o, p') ->
        well_formed (JObject o) = true)
  /\ (forall p a p', Parser.parseArray fuel p = Ok (a, p') ->
        well_formed (JArray a) = true)
  /\ (forall acc p a p', well_formed (JArray acc) = true ->
        Parser.parseArray_loop fuel acc p = Ok (a, p') ->
        well_formed (JArray a) = true).
Proof.
  induction fuel as [|fuel (IHv & IHo & IHol & IHa & IHal)].
  { repeat split; intros; discriminate. }
  split; [|split; [|split; [|split]]].
  - intros p v p' H. simpl in H.
    destruct (Token.type (Parser.currentToken p)); try discriminate.
    + apply bind_Ok in H as (o & p1 & H1 & H2). injection H2; intros; subst.
      apply (IHo _ _ _ H1).
    + apply bind_Ok in H as (o & p1 & H1 & H2). injection H2; intros; subst.
      apply (IHa _ _ _ H1).
    + unfold Parser.parseString in H.
      apply bind_Ok in H as (o & p1 & H1 & H2). injection H2; intros; subst; auto.
    + unfold Parser.parseNumber in H.
      destruct (Std.stod _); try discriminate.
      destruct (negb _); try discriminate.
      apply bind_Ok in H as (o & p1 & H1 & H2). injection H2; intros; subst; auto.
    + apply bind_Ok in H as (o & p1 & H1 & H2). injection H2; intros; subst; auto.
    + apply bind_Ok in H as (o & p1 & H1 & H2). injection H2; intros; subst; auto.
    + apply bind_Ok in H as (o & p1 & H1 & H2). injection H2; intros; subst; auto.
  - intros p o p' H. simpl in H.
    apply bind_Ok in H as (u & p1 & H1 & H).
    apply bind_Ok in H as (o' & p2 & H2 & H).
    apply bind_Ok in H as (u' & p3 & H3 & H). injection H; intros; subst.
    destruct (negb _).
    + apply (IHol [] _ _ _ eq_refl H2).
    + injection H2; intros; subst; auto.
  - intros acc p o p' W H. simpl in H.
    destruct (negb (Parser.currentIs TokenType.String p)); [discriminate|].
    apply bind_Ok in H as (u & p1 & H1 & H).
    apply bind_Ok in H as (u' & p2 & H2 & H).
    apply bind_Ok in H as (val & p3 & H3 & H).
    apply IHv in H3.
    pose proof (map_assign_well_formed
                  (Std.substr (Token.lexeme (Parser.currentToken p)) 1
                     (length (Token.lexeme (Parser.currentToken p)) - 2))
                  val acc W H3) as W'.
    destruct (Parser.currentIs TokenType.RightBrace p3).
    + now injection H; intros; subst.
    + apply bind_Ok in H as (u3 & p4 & H4 & H). apply (IHol _ _ _ _ W' H).
  - intros p a p' H. simpl in H.
    apply bind_Ok in H as (u & p1 & H1 & H).
    apply bind_Ok in H as (o' & p2 & H2 & H).
    apply bind_Ok in H as (u' & p3 & H3 & H). injection H; intros; subst.
    destruct (negb _).
    + apply (IHal [] _ _ _ eq_refl H2).
    + injection H2; intros; subst; auto.
  - intros acc p a p' W H. simpl in H.
    apply bind_Ok in H as (val & p3 & H3 & H).
    apply IHv in H3. pose proof (push_back_well_formed acc val W H3) as W'.
    destruct (Parser.currentIs TokenType.RightBracket p3).
    + now injection H; intros; subst.
    + apply bind_Ok in H as (u3 & p4 & H4 & H). apply (IHal _ _ _ _ W' H).
Qed.

Lemma run_well_formed source v p :
  Parser.run source = Ok (v, p) -> well_formed v = true.
Proof.
  unfold Parser.run. destruct (Parser.new _); try discriminate.
  apply parse_well_formed.
Qed.

(** ** String literals and errors at the top level *)

Lemma parses_literal s w tail ty lexeme rest fuel p :
  closed_body s = true -> forallb is_blank w = true ->
  next_is tail ty lexeme rest -> ty <> TokenType.Unknown ->
  1 <= fuel ->
  unread (Parser.lexer p) = w ++ quoted s ++ tail ->
  exists p',
    Parser.bind Parser.advance (fun _ => Parser.parseValue fuel) p
    = Ok (JString (decode s), p')
    /\ at_token p' ty lexeme rest.
Proof.
  intros C B N K L H. destruct fuel as [|fuel]; [lia|].
  destruct (advance_next p (w ++ DQUOTE :: s ++ DQUOTE :: tail)
              TokenType.String (quoted s) tail) as (p1 & E1 & At1 & _);
    auto.
  { apply next_is_blanks; auto. now apply next_is_string. }
  { discriminate. }
  { rewrite H. unfold quoted. now rewrite <- app_comm_cons, <- app_assoc. }
  rewrite (bind_eq _ _ _ _ _ _ _ E1).
  destruct At1 as (T1 & X1 & U1). simpl. rewrite T1.
  unfold Parser.parseString. rewrite X1, parseString_quoted.
  now apply advance_ret with (text := tail).
Qed.

Lemma stripBOM_first c t :
  nat_of_ascii c <> 239 -> Parser.stripBOM (c :: t) = c :: t.
Proof.
  intros N. unfold Parser.stripBOM, Parser.hasBOM.
  destruct t as [|b [|c' t]]; auto.
  apply Nat.eqb_neq in N. now rewrite N.
Qed.

(** A closed string literal alone is parsed to what [decode] makes of its
    inside. *)
Lemma parse_literal s :
  closed_body s = true -> parse (quoted s) = Ok (JString (decode s)).
Proof.
  intros C.
  destruct (parses_literal s [] [] TokenType.EndOfFile [] [] 1
              (initial (Parser.stripBOM (quoted s))) C eq_refl next_is_end)
    as (p' & E & _); auto.
  - discriminate.
  - unfold quoted at 1. rewrite stripBOM_first by discriminate.
    simpl. now rewrite app_nil_r.
  - apply run_bind in E. now apply parse_run in E.
Qed.

Lemma run_throw_advance source e :
  Parser.advance (initial (Parser.stripBOM source)) = Throw e ->
  Parser.run source = Throw e.
Proof.
  intros A. unfold Parser.run, Parser.new.
  fold (initial (Parser.stripBOM source)). now rewrite A.
Qed.

Lemma run_throw_value source fuel p e :
  Parser.advance (initial (Parser.stripBOM source)) = Ok (tt, p) ->
  Parser.parseValue fuel p = Throw e ->
  Parser.run source = Throw e.
Proof.
  intros A V. pose proof (run_total source) as T. unfold Parser.run in *.
  unfold Parser.new in *. fold (initial (Parser.stripBOM source)) in *.
  rewrite A in *. rewrite <- V. apply parseValue_fuel_any; congruence.
Qed.

Lemma parse_throw source e : Parser.run source = Throw e -> parse source = Throw e.
Proof. intros H. unfold parse, Parser.parse. now rewrite H. Qed.

(** White space before the first token hides no byte order mark. *)
Lemma stripBOM_blank w c t :
  forallb is_blank w = true -> nat_of_ascii c <> 239 ->
  Parser.stripBOM (w ++ c :: t) = w ++ c :: t.
Proof.
  intros B N. destruct w as [|b w]; [now apply stripBOM_first|].
  simpl in *. apply andb_prop in B as [B _]. apply stripBOM_first.
  intros E. rewrite <- (ascii_nat_embedding b), E in B. discriminate.
Qed.


(** ** A number as the whole input *)

Lemma first_token_number c t :
  Std.isdigit c || (c =? "-")%char = true -> snd (number_scan t) = [] ->
  exists lx,
    Lexer.nextToken (Lexer.new (c :: t))
    = (Token.mk TokenType.Number (c :: t) 1 1, lx)
    /\ unread lx = [].
Proof.
  intros D S.
  assert (T : token_start c = true).
  { destruct c as [[] [] [] [] [] [] [] []]; try discriminate D; reflexivity. }
  rewrite nextToken_at by (rewrite unread_new; exact T).
  pose proof (scan_number (mark (Lexer.new (c :: t))) c t eq_refl D) as Sc.
  pose proof (number_scan_split t) as Sp.
  destruct (number_scan t) as [a b]. simpl in S, Sp. subst b.
  rewrite app_nil_r in Sp. subst a. destruct Sc as (_ & ->).
  eexists. split.
  - f_equal.
    pose proof (lexeme_moved (mark (Lexer.new (c :: t)))
                  (advanced (1 + length t) (mark (Lexer.new (c :: t))))
                  TokenType.Number (c :: t) []
                  (fresh_mark _) (moved_advanced _ _)) as L.
    rewrite app_nil_r in L. specialize (L (unread_new _)).
    unfold Lexer.makeToken in *. cbn [Token.lexeme] in L. rewrite L.
    reflexivity.
  - apply (unread_advanced (mark (Lexer.new (c :: t))) (c :: t) []).
    rewrite app_nil_r. apply unread_new.
Qed.

Lemma number_first_no_bom c :
  Std.isdigit c || (c =? "-")%char = true -> nat_of_ascii c <> 239.
Proof.
  intros D N. rewrite <- (ascii_nat_embedding c), N in D. discriminate.
Qed.

(** [parse] on a text that is one Number token. *)
Lemma parse_number_text c t :
  Std.isdigit c || (c =? "-")%char = true -> snd (number_scan t) = [] ->
  parse (c :: t) = number_outcome (Std.stod (c :: t)) (length (c :: t)).
Proof.
  intros D S. destruct (first_token_number c t D S) as (lx & E & U).
  unfold parse, Parser.parse, Parser.run.
  rewrite (stripBOM_first c t (number_first_no_bom c D)).
  unfold Parser.new, Parser.advance. cbn [Parser.lexer Parser.currentToken].
  rewrite E. cbn [Parser.currentIs Parser.currentToken Token.type
                  TokenType.eqb TokenType.tag Nat.eqb Parser.ret].
  unfold Parser.fuelFor. rewrite Nat.add_succ_r.
  cbn [Parser.parseValue Parser.currentToken Token.type].
  unfold Parser.parseNumber. cbn [Parser.currentToken Token.lexeme].
  unfold number_outcome.
  destruct (Std.stod (c :: t)) as [value pos| |]; try reflexivity.
  destruct (pos =? length (c :: t)); [|reflexivity]. cbn [negb].
  destruct (advance_ret JsonValue (JNumber value)
              (Parser.mk lx (Token.mk TokenType.Number (c :: t) 1 1)
                 Parser.noToken)
              [] TokenType.EndOfFile [] [] next_is_end
              ltac:(discriminate) U) as (p' & R & _).
  now rewrite R.
Qed.

Lemma span_digits_all ds :
  forallb Std.isdigit ds = true -> Std.span_digits ds = (ds, []).
Proof.
  induction ds as [|c ds IH]; simpl; auto.
  intros A. apply andb_prop in A as [A1 A2]. now rewrite A1, IH.
Qed.

Lemma number_scan_digits ds :
  forallb Std.isdigit ds = true -> number_scan ds = (ds, []).
Proof.
  intros A. unfold number_scan. rewrite (span_digits_all ds A). simpl.
  now rewrite app_nil_r.
Qed.

Lemma stod_digits c t :
  forallb Std.isdigit (c :: t) = true ->
  Std.stod (c :: t)
  = match Std.digits_value (c :: t) with
    | N0 => Std.StodOk (S754_zero false) (length (c :: t))
    | Npos m =>
        if Std.erange (Std.round_decimal m 0) m 0 then Std.StodOutOfRange
        else Std.StodOk (Std.round_decimal m 0) (length (c :: t))
    end.
Proof.
  intros A. pose proof (span_digits_all (c :: t) A) as S.
  simpl in A. apply andb_prop in A as [A1 A2].
  assert (Sk : Std.skip_spaces (c :: t) = c :: t).
  { simpl. destruct c as [[] [] [] [] [] [] [] []];
      try discriminate A1; reflexivity. }
  assert (Sg : match c :: t with
               | "-"%char :: r => (true, r)
               | "+"%char :: r => (false, r)
               | _ => (false, c :: t)
               end = (false, c :: t)).
  { destruct c as [[] [] [] [] [] [] [] []];
      try discriminate A1; reflexivity. }
  unfold Std.stod. rewrite Sk, Sg, S. cbn [app]. rewrite app_nil_r.
  change (Std.read_exponent []) with (0%Z, @nil ascii).
  cbn [length Nat.sub Z.of_nat Z.sub Z.opp Z.add].
  reflexivity.
Qed.

(** [stod] on a minus sign and digits, from [stod] on the digits. *)
Lemma stod_minus c t :
  forallb Std.isdigit (c :: t) = true ->
  Std.stod ("-"%char :: c :: t)
  = match Std.stod (c :: t) with
    | Std.StodOk value pos => Std.StodOk (SFopp value) (S pos)
    | r => r
    end.
Proof.
  intros A. rewrite (stod_digits c t A).
  pose proof (span_digits_all (c :: t) A) as S.
  unfold Std.stod.
  change (Std.skip_spaces ("-"%char :: c :: t)) with ("-"%char :: c :: t).
  cbv beta iota zeta. rewrite S. cbn [app]. rewrite app_nil_r.
  change (Std.read_exponent []) with (0%Z, @nil ascii).
  cbn [length Nat.sub Z.of_nat Z.sub Z.opp Z.add].
  destruct (Std.digits_value (c :: t)) as [|m]; [reflexivity|].
  destruct (Std.erange _ _ _); reflexivity.
Qed.

Lemma round_decimal_0 m : Std.round_decimal m 0 = Std.of_Z (Zpos m).
Proof.
  unfold Std.round_decimal, Std.of_Z. change (10 ^ 0)%Z with 1%Z.
  now rewrite Z.mul_1_r.
Qed.

(** [parse] on digits, and on a minus sign and the same digits. *)
Lemma parse_digits (neg : bool) ds :
  ds <> [] -> forallb Std.isdigit ds = true ->
  parse ((if neg then ["-"%char] else []) ++ ds)
  = let d := Std.of_Z (Z.of_N (Std.digits_value ds)) in
    match Std.digits_value ds with
    | Npos m =>
        if Std.erange d m 0
        then Throw (ParsingError.mk "Number is out of range for a double." 1 1)
        else Ok (JNumber (if neg then SFopp d else d))
    | N0 => Ok (JNumber (if neg then SFopp d else d))
    end.
Proof.
  intros N A. destruct ds as [|c t]; [contradiction|]. clear N.
  pose proof (stod_digits c t A) as Sd.
  assert (Sm := stod_minus c t A). rewrite Sd in Sm.
  assert (D : Std.isdigit c || (c =? "-")%char = true).
  { simpl in A. apply andb_prop in A as [-> _]. reflexivity. }
  destruct neg; cbn [app].
  - rewrite (parse_number_text "-"%char (c :: t) eq_refl)
      by now rewrite (number_scan_digits (c :: t) A).
    rewrite Sm. clear Sm Sd. cbv zeta.
    destruct (Std.digits_value (c :: t)) as [|m]; cbn [Z.of_N].
    + unfold number_outcome. now rewrite Nat.eqb_refl.
    + rewrite round_decimal_0. destruct (Std.erange _ _ _); [reflexivity|].
      unfold number_outcome. now rewrite Nat.eqb_refl.
  - simpl in A. apply andb_prop in A as [_ A].
    rewrite (parse_number_text c t D)
      by now rewrite (number_scan_digits t A).
    rewrite Sd. clear Sm Sd. cbv zeta.
    destruct (Std.digits_value (c :: t)) as [|m]; cbn [Z.of_N].
    + unfold number_outcome. now rewrite Nat.eqb_refl.
    + rewrite round_decimal_0. destruct (Std.erange _ _ _); [reflexivity|].
      unfold number_outcome. now rewrite Nat.eqb_refl.
Qed.

(** The minus sign changes the sign of the value and nothing else: digits
    beyond the range of a double are refused with and without it. *)
Lemma parse_minus ds :
  ds <> [] -> forallb Std.isdigit ds = true ->
  parse ("-"%char :: ds)
  = match parse ds with
    | Ok (JNumber m) => Ok (JNumber (SFopp m))
    | r => r
    end.
Proof.
  intros N A. pose proof (parse_digits true ds N A) as M.
  pose proof (parse_digits false ds N A) as P. cbn [app] in M, P.
  rewrite M, P. cbv zeta.
  destruct (Std.digits_value ds) as [|m]; [reflexivity|].
  destruct (Std.erange _ _ _); reflexivity.
Qed.

(** ** The lexer reads no further than two characters past [current] *)

Lemma agree_le n m s s' : agree n s s' -> m <= n -> agree m s s'.
Proof.
  unfold agree. intros A L.
  rewrite <- (Nat.min_l m n L), <- !firstn_firstn. now rewrite A.
Qed.

Lemma agree_end n s s' i :
  agree n s s' -> i < n -> (length s' <=? i) = (length s <=? i).
Proof.
  unfold agree. intros A L. apply (f_equal (@length ascii)) in A.
  rewrite !length_firstn in A.
  destruct (Nat.leb_spec (length s') i), (Nat.leb_spec (length s) i);
    auto; lia.
Qed.

Lemma agree_nth n s s' i :
  agree n s s' -> i < n -> nth i s' NUL = nth i s NUL.
Proof.
  unfold agree. intros A L.
  pose proof (nth_firstn n s' i NUL) as E'.
  pose proof (nth_firstn n s i NUL) as E.
  apply Nat.ltb_lt in L. rewrite L in E, E'. now rewrite <- E, <- E', A.
Qed.

Lemma agree_substr n s s' st c :
  agree n s s' -> c <= n -> Std.substr s' st (c - st) = Std.substr s st (c - st).
Proof.
  intros A L. unfold Std.substr.
  destruct (Nat.le_gt_cases st c) as [H|H].
  - rewrite !firstn_skipn_comm. replace (st + (c - st)) with c by lia.
    now rewrite (agree_le _ _ _ _ A L).
  - now replace (c - st) with 0 by lia.
Qed.

Lemma advance_at_most lx :
  Lexer.source (Lexer.advance_ lx) = Lexer.source lx
  /\ Lexer.current (Lexer.advance_ lx) <= S (Lexer.current lx).
Proof.
  unfold Lexer.advance_, Lexer.advance.
  destruct (Lexer.isAtEnd lx); simpl; auto.
Qed.

Section Lexer_local.

Variables (s' : list ascii) (n : nat).

Local Abbreviation on := (lexer_on s').

Lemma isAtEnd_on lx :
  agree n (Lexer.source lx) s' -> Lexer.current lx < n ->
  Lexer.isAtEnd (on lx) = Lexer.isAtEnd lx.
Proof. intros A L. unfold Lexer.isAtEnd. simpl. eapply agree_end; eauto. Qed.

Lemma peek_on lx :
  agree n (Lexer.source lx) s' -> Lexer.current lx < n ->
  Lexer.peek (on lx) = Lexer.peek lx.
Proof.
  intros A L. unfold Lexer.peek. rewrite isAtEnd_on by auto. simpl.
  now rewrite (agree_nth _ _ _ _ A L).
Qed.

Lemma peekNext_on lx :
  agree n (Lexer.source lx) s' -> Lexer.current lx + 1 < n ->
  Lexer.peekNext (on lx) = Lexer.peekNext lx.
Proof.
  intros A L. unfold Lexer.peekNext. simpl.
  now rewrite (agree_end _ _ _ _ A L), (agree_nth _ _ _ _ A L).
Qed.

Lemma advance_on lx :
  agree n (Lexer.source lx) s' -> Lexer.current lx < n ->
  Lexer.advance (on lx)
  = (fst (Lexer.advance lx), on (snd (Lexer.advance lx))).
Proof.
  intros A L. unfold Lexer.advance. rewrite isAtEnd_on by auto.
  destruct (Lexer.isAtEnd lx); simpl; [reflexivity|].
  now rewrite (agree_nth _ _ _ _ A L).
Qed.

Lemma advance__on lx :
  agree n (Lexer.source lx) s' -> Lexer.current lx < n ->
  Lexer.advance_ (on lx) = on (Lexer.advance_ lx).
Proof. intros A L. unfold Lexer.advance_. now rewrite advance_on. Qed.

Lemma makeToken_on lx ty :
  agree n (Lexer.source lx) s' -> Lexer.current lx <= n ->
  Lexer.makeToken (on lx) ty = Lexer.makeToken lx ty.
Proof.
  intros A L. unfold Lexer.makeToken. simpl.
  now rewrite (agree_substr _ _ _ _ _ A L).
Qed.

(** A loop whose condition and body look no further than the character
    after the next. *)
Section While_local.

Variables (cond : Lexer.t -> bool) (body : Lexer.t -> Lexer.t).
Hypothesis progress : forall lx, cond lx = true -> step lx (body lx).
Hypothesis cond_on :
  forall lx, agree n (Lexer.source lx) s' -> Lexer.current lx + 2 <= n ->
    cond (on lx) = cond lx.
Hypothesis body_on :
  forall lx, agree n (Lexer.source lx) s' -> Lexer.current lx + 2 <= n ->
    body (on lx) = on (body lx).

Lemma while_on_fuel k :
  forall lx,
    length (Lexer.source lx) - Lexer.current lx <= k ->
    agree n (Lexer.source lx) s' ->
    Lexer.current (Lexer.while cond body lx) + 2 <= n ->
    Lexer.while cond body (on lx) = on (Lexer.while cond body lx).
Proof.
  induction k as [|k IH]; intros lx K A L;
    rewrite (while_unfold cond body progress lx) in L |- *;
    rewrite (while_unfold cond body progress (on lx));
    destruct (cond lx) eqn:C.
  - destruct (progress _ C) as (_ & C1 & B1). lia.
  - now rewrite cond_on, C.
  - destruct (progress _ C) as (S1 & C1 & B1).
    destruct (while_forward cond body progress (body lx)) as (_ & C2 & _).
    rewrite cond_on, C, body_on by (auto; lia).
    apply IH; rewrite ?S1; auto. lia.
  - now rewrite cond_on, C.
Qed.

Lemma while_on lx :
  agree n (Lexer.source lx) s' ->
  Lexer.current (Lexer.while cond body lx) + 2 <= n ->
  Lexer.while cond body (on lx) = on (Lexer.while cond body lx).
Proof. apply (while_on_fuel _ lx (Nat.le_refl _)). Qed.

End While_local.

Ltac local_tac :=
  repeat first
    [ rewrite peek_on by (auto; lia)
    | rewrite peekNext_on by (auto; lia)
    | rewrite isAtEnd_on by (auto; lia)
    | rewrite advance__on by (auto; lia) ];
  try reflexivity.

Lemma lineComment_on lx :
  agree n (Lexer.source lx) s' ->
  Lexer.current (Lexer.lineComment_loop lx) + 2 <= n ->
  Lexer.lineComment_loop (on lx) = on (Lexer.lineComment_loop lx).
Proof.
  apply while_on; [exact lineComment_progress| |].
  - intros l A L. unfold Lexer.lineComment_cond. local_tac.
  - intros l A L. local_tac.
Qed.

Lemma blockComment_on lx :
  agree n (Lexer.source lx) s' ->
  Lexer.current (Lexer.blockComment_loop lx) + 2 <= n ->
  Lexer.blockComment_loop (on lx) = on (Lexer.blockComment_loop lx).
Proof.
  apply while_on; [exact blockComment_progress| |].
  - intros l A L. unfold Lexer.blockComment_cond. local_tac.
  - intros l A L. unfold Lexer.blockComment_body. cbv zeta.
    rewrite peek_on by (auto; lia).
    destruct (Lexer.peek l =? LF)%char; [|local_tac].
    change (Lexer.newline (on l)) with (on (Lexer.newline l)).
    apply advance__on; simpl; auto; lia.
Qed.

Lemma stringToken_loop_on lx :
  agree n (Lexer.source lx) s' ->
  Lexer.current (Lexer.stringToken_loop lx) + 2 <= n ->
  Lexer.stringToken_loop (on lx) = on (Lexer.stringToken_loop lx).
Proof.
  apply while_on; [exact stringToken_progress| |].
  - intros l A L. unfold Lexer.stringToken_cond. local_tac.
  - intros l A L. unfold Lexer.stringToken_body. cbv zeta.
    assert (E : forall l0, agree n (Lexer.source l0) s' ->
                  Lexer.current l0 + 2 <= n ->
                  Lexer.advance_
                    (if (Lexer.peek (on l0) =? BACKSLASH)%char
                     then Lexer.advance_ (on l0) else on l0)
                  = on (Lexer.advance_
                          (if (Lexer.peek l0 =? BACKSLASH)%char
                           then Lexer.advance_ l0 else l0))).
    { intros l0 A0 L0. rewrite peek_on by (auto; lia).
      destruct (Lexer.peek l0 =? BACKSLASH)%char.
      - rewrite advance__on by (auto; lia).
        destruct (advance_at_most l0) as (S1 & C1).
        apply advance__on; [now rewrite S1|lia].
      - apply advance__on; auto; lia. }
    rewrite (peek_on l) by (auto; lia).
    destruct (Lexer.peek l =? LF)%char; [|now apply E].
    apply (E (Lexer.newline l)); auto.
Qed.

Lemma digit_on lx :
  agree n (Lexer.source lx) s' ->
  Lexer.current (Lexer.digit_loop lx) + 2 <= n ->
  Lexer.digit_loop (on lx) = on (Lexer.digit_loop lx).
Proof.
  apply while_on; [exact digit_progress| |].
  - intros l A L. unfold Lexer.digit_cond. local_tac.
  - intros l A L. local_tac.
Qed.

Lemma alpha_on lx :
  agree n (Lexer.source lx) s' ->
  Lexer.current (Lexer.alpha_loop lx) + 2 <= n ->
  Lexer.alpha_loop (on lx) = on (Lexer.alpha_loop lx).
Proof.
  apply while_on; [exact alpha_progress| |].
  - intros l A L. unfold Lexer.alpha_cond. local_tac.
  - intros l A L. local_tac.
Qed.

End Lexer_local.

(** ** Every token is read without looking further *)

Section Token_local.

Variables (s' : list ascii) (n : nat).

Local Abbreviation on := (lexer_on s').

Lemma near_comp f g : near s' n f -> near s' n g -> near s' n (fun lx => g (f lx)).
Proof.
  intros (Ff & Lf) (Fg & Lg). split.
  - intros lx. eapply forward_trans; [apply Ff|apply Fg].
  - intros lx A L. destruct (Ff lx) as (S1 & C1 & _).
    destruct (Fg (f lx)) as (S2 & C2 & _).
    rewrite Lf by (auto; lia). apply Lg; [now rewrite S1|auto].
Qed.

Lemma near_advance : near s' n Lexer.advance_.
Proof.
  split; [apply forward_advance|]. intros lx A L.
  destruct (forward_advance lx) as (_ & C1 & _).
  apply (advance__on s' n); auto; lia.
Qed.

Lemma near_newline : near s' n Lexer.newline.
Proof. split; [apply forward_newline|reflexivity]. Qed.

Lemma near_cond_advance :
  near s' n (fun lx => if negb (Lexer.isAtEnd lx) then Lexer.advance_ lx else lx).
Proof.
  split; [apply forward_cond_advance|]. intros lx A L.
  pose proof (forward_cond_advance lx) as (_ & C1 & _).
  rewrite (isAtEnd_on s' n) by (auto; lia).
  destruct (negb (Lexer.isAtEnd lx)); [|reflexivity].
  apply (advance__on s' n); auto; lia.
Qed.

Lemma near_lineComment : near s' n Lexer.lineComment_loop.
Proof. split; [apply forward_lineComment|apply lineComment_on]. Qed.

Lemma near_blockComment : near s' n Lexer.blockComment_loop.
Proof. split; [apply forward_blockComment|apply blockComment_on]. Qed.

Lemma near_stringToken_loop : near s' n Lexer.stringToken_loop.
Proof. split; [apply forward_stringToken_loop|apply stringToken_loop_on]. Qed.

Lemma near_digit : near s' n Lexer.digit_loop.
Proof. split; [apply forward_digit|apply digit_on]. Qed.

Lemma near_alpha : near s' n Lexer.alpha_loop.
Proof. split; [apply forward_alpha|apply alpha_on]. Qed.

Lemma near_id : near s' n (fun lx => lx).
Proof. split; [apply forward_refl|reflexivity]. Qed.

(** A branch on what [peek] and [peekNext] show. *)
Lemma near_if (test : Lexer.t -> bool) f g :
  (forall lx, agree n (Lexer.source lx) s' -> Lexer.current lx + 2 <= n ->
     test (on lx) = test lx) ->
  near s' n f -> near s' n g -> near s' n (fun lx => if test lx then f lx else g lx).
Proof.
  intros T (Ff & Lf) (Fg & Lg). split.
  - intros lx. destruct (test lx); auto.
  - intros lx A L.
    assert (L0 : Lexer.current lx + 2 <= n).
    { destruct (test lx); [destruct (Ff lx) as (_ & C & _)
                          |destruct (Fg lx) as (_ & C & _)]; lia. }
    rewrite T by auto. destruct (test lx); auto.
Qed.

Lemma skip_next_on lx :
  agree n (Lexer.source lx) s' ->
  match skip_next lx with
  | Some lx' => Lexer.current lx' + 2 <= n
  | None => Lexer.current lx + 2 <= n
  end ->
  skip_next (on lx) = option_map on (skip_next lx).
Proof.
  intros A L.
  assert (L0 : Lexer.current lx + 2 <= n).
  { destruct (skip_next lx) as [lx'|] eqn:E; auto.
    destruct (skip_next_step _ _ E) as (_ & C & _). lia. }
  revert L. unfold skip_next.
  rewrite (peek_on s' n), (peekNext_on s' n) by (auto; lia).
  destruct (_ || _); simpl.
  { intros L. f_equal. now apply near_advance. }
  destruct (Lexer.peek lx =? LF)%char; simpl.
  { intros L. f_equal.
    now apply (near_comp _ _ near_advance near_newline). }
  destruct (Lexer.peek lx =? "/")%char; [|reflexivity].
  destruct (Lexer.peekNext lx =? "/")%char; simpl.
  { intros L. f_equal. now apply near_lineComment. }
  destruct (Lexer.peekNext lx =? "*")%char; [|reflexivity]. simpl.
  intros L. f_equal.
  pose proof (near_comp _ _ near_advance
                (near_comp _ _ near_advance
                   (near_comp _ _ near_blockComment
                      (near_comp _ _ near_cond_advance near_cond_advance))))
    as (_ & N).
  now apply N.
Qed.

Lemma skip_on_fuel k :
  forall lx,
    length (Lexer.source lx) - Lexer.current lx <= k ->
    agree n (Lexer.source lx) s' ->
    Lexer.current (Lexer.skipWhitespaceAndComments lx) + 2 <= n ->
    Lexer.skipWhitespaceAndComments (on lx)
    = on (Lexer.skipWhitespaceAndComments lx).
Proof.
  induction k as [|k IH]; intros lx K A L;
    rewrite (skip_unfold lx) in L |- *; rewrite (skip_unfold (on lx));
    destruct (skip_next lx) as [lx'|] eqn:E.
  - destruct (skip_next_step _ _ E) as (_ & C1 & B1). lia.
  - rewrite skip_next_on by (rewrite ?E; auto). now rewrite E.
  - destruct (skip_next_step _ _ E) as (S1 & C1 & B1).
    destruct (forward_skip lx') as (_ & C2 & _).
    rewrite skip_next_on by (rewrite ?E; auto; lia). rewrite E. simpl.
    apply IH; rewrite ?S1; auto. lia.
  - rewrite skip_next_on by (rewrite ?E; auto). now rewrite E.
Qed.

Lemma near_skip : near s' n Lexer.skipWhitespaceAndComments.
Proof.
  split; [apply forward_skip|]. intros lx.
  apply (skip_on_fuel _ lx (Nat.le_refl _)).
Qed.

Lemma near_mark : near s' n mark.
Proof. split; [apply forward_mark|reflexivity]. Qed.

Lemma near_stringToken : near_token s' n Lexer.stringToken.
Proof.
  intros lx A L. pose proof (forward_stringToken_loop lx) as (S1 & C1 & _).
  revert L. unfold Lexer.stringToken. cbv zeta.
  destruct (Lexer.isAtEnd (Lexer.stringToken_loop lx)) eqn:E; simpl;
    intros L.
  - rewrite (stringToken_loop_on s' n), (isAtEnd_on s' n), E
      by (rewrite ?S1; auto; lia).
    reflexivity.
  - destruct (forward_advance (Lexer.stringToken_loop lx)) as (S2 & C2 & _).
    rewrite (stringToken_loop_on s' n), (isAtEnd_on s' n), E
      by (rewrite ?S1; auto; lia).
    rewrite (advance__on s' n) by (rewrite ?S1; auto; lia).
    rewrite (makeToken_on s' n) by (rewrite ?S2, ?S1; auto; lia).
    reflexivity.
Qed.

Lemma near_frac :
  near s' n (fun lx =>
          if (Lexer.peek lx =? ".")%char && Std.isdigit (Lexer.peekNext lx)
          then Lexer.digit_loop (Lexer.advance_ lx)
          else lx).
Proof.
  apply (near_if
           (fun lx => (Lexer.peek lx =? ".")%char
                      && Std.isdigit (Lexer.peekNext lx))
           (fun lx => Lexer.digit_loop (Lexer.advance_ lx))
           (fun lx => lx)).
  - intros lx A L.
    now rewrite (peek_on s' n), (peekNext_on s' n) by (auto; lia).
  - apply (near_comp _ _ near_advance near_digit).
  - apply near_id.
Qed.

Lemma near_sign :
  near s' n (fun lx =>
          if (Lexer.peek lx =? "+")%char || (Lexer.peek lx =? "-")%char
          then Lexer.advance_ lx else lx).
Proof.
  apply (near_if
           (fun lx => (Lexer.peek lx =? "+")%char
                      || (Lexer.peek lx =? "-")%char)
           Lexer.advance_ (fun lx => lx)).
  - intros lx A L. now rewrite (peek_on s' n) by (auto; lia).
  - apply near_advance.
  - apply near_id.
Qed.

Lemma near_exp :
  near s' n (fun lx =>
          if (Lexer.peek lx =? "e")%char || (Lexer.peek lx =? "E")%char
          then
            Lexer.digit_loop
              (if (Lexer.peek (Lexer.advance_ lx) =? "+")%char
                  || (Lexer.peek (Lexer.advance_ lx) =? "-")%char
               then Lexer.advance_ (Lexer.advance_ lx)
               else Lexer.advance_ lx)
          else lx).
Proof.
  apply (near_if
           (fun lx => (Lexer.peek lx =? "e")%char
                      || (Lexer.peek lx =? "E")%char)
           (fun lx =>
              Lexer.digit_loop
                (if (Lexer.peek (Lexer.advance_ lx) =? "+")%char
                    || (Lexer.peek (Lexer.advance_ lx) =? "-")%char
                 then Lexer.advance_ (Lexer.advance_ lx)
                 else Lexer.advance_ lx))
           (fun lx => lx)).
  - intros lx A L. now rewrite (peek_on s' n) by (auto; lia).
  - apply (near_comp _ _ near_advance (near_comp _ _ near_sign near_digit)).
  - apply near_id.
Qed.

Lemma near_numberToken : near_token s' n Lexer.numberToken.
Proof.
  intros lx A L.
  destruct (near_comp _ _ near_digit (near_comp _ _ near_frac near_exp))
    as (F & N).
  specialize (F lx). specialize (N lx A).
  unfold Lexer.numberToken in *. cbv beta zeta in *. cbn [fst snd] in *.
  destruct F as (S1 & C1 & _).
  rewrite N by auto.
  now rewrite (makeToken_on s' n) by (rewrite ?S1; auto; lia).
Qed.

Lemma near_identifierToken : near_token s' n Lexer.identifierToken.
Proof.
  intros lx A L. pose proof (forward_alpha lx) as (S1 & C1 & _).
  assert (L1 : Lexer.current (Lexer.alpha_loop lx) + 2 <= n).
  { revert L. unfold Lexer.identifierToken. cbv zeta.
    repeat match goal with
           | |- context [if ?b then _ else _] => destruct b
           end; simpl; auto. }
  unfold Lexer.identifierToken. cbv zeta.
  rewrite (alpha_on s' n) by auto.
  rewrite !(makeToken_on s' n) by (rewrite ?S1; auto; lia).
  change (Std.substr (Lexer.source (on (Lexer.alpha_loop lx)))
            (Lexer.start (on (Lexer.alpha_loop lx)))
            (Lexer.current (on (Lexer.alpha_loop lx))
             - Lexer.start (on (Lexer.alpha_loop lx))))
    with (Token.lexeme
            (Lexer.makeToken (on (Lexer.alpha_loop lx)) TokenType.Unknown)).
  rewrite (makeToken_on s' n) by (rewrite ?S1; auto; lia).
  cbn [Token.lexeme Lexer.makeToken].
  repeat match goal with
         | |- context [if ?b then _ else _] => destruct b
         end; reflexivity.
Qed.

Lemma near_scanToken : near_token s' n scanToken.
Proof.
  intros lx A L.
  assert (L0 : Lexer.isAtEnd lx = false -> Lexer.current lx + 3 <= n).
  { intros E. revert L. unfold scanToken. rewrite E.
    destruct (advance_progress lx E) as (S1 & C1 & B1).
    unfold Lexer.advance_ in S1, C1.
    destruct (Lexer.advance lx) as [c l1]. simpl in S1, C1.
    pose proof (forward_stringToken l1) as (_ & F1 & _).
    pose proof (forward_numberToken l1) as (_ & F2 & _).
    pose proof (forward_identifierToken l1) as (_ & F3 & _).
    repeat match goal with
           | |- context [if ?b then _ else _] => destruct b
           end; cbn [fst snd]; intros; lia. }
  revert L. unfold scanToken.
  destruct (Lexer.isAtEnd lx) eqn:E.
  - simpl. intros L. rewrite (isAtEnd_on s' n), E by (auto; lia).
    now rewrite (makeToken_on s' n) by (auto; lia).
  - specialize (L0 eq_refl).
    rewrite (isAtEnd_on s' n), E by (auto; lia).
    rewrite (advance_on s' n) by (auto; lia).
    destruct (advance_progress lx E) as (S1 & C1 & B1).
    unfold Lexer.advance_ in S1, C1.
    destruct (Lexer.advance lx) as [c l1]. simpl in S1, C1 |- *.
    repeat match goal with
           | |- context [if ?b then _ else _] => destruct b
           end; simpl; intros L;
      try (now rewrite (makeToken_on s' n) by (rewrite ?S1; auto; lia)).
    + apply near_stringToken; rewrite ?S1; auto.
    + apply near_numberToken; rewrite ?S1; auto.
    + apply near_identifierToken; rewrite ?S1; auto.
Qed.

Lemma near_nextToken : near_token s' n Lexer.nextToken.
Proof.
  intros lx A L. rewrite !nextToken_scan in *.
  pose proof (forward_skip lx) as (S1 & C1 & _).
  pose proof (forward_scanToken (mark (Lexer.skipWhitespaceAndComments lx)))
    as (S2 & C2 & _).
  simpl in S2, C2.
  destruct near_skip as (_ & N). rewrite N by (auto; lia).
  change (mark (on (Lexer.skipWhitespaceAndComments lx)))
    with (on (mark (Lexer.skipWhitespaceAndComments lx))).
  apply near_scanToken; simpl; rewrite ?S1; auto.
Qed.

End Token_local.

(** ** The parser reads one token past the value and no further *)

Lemma reads_ret A (a : A) : reads_near A (Parser.ret a).
Proof.
  intros p a' p1 E. injection E as <- <-.
  split; [apply forward_refl|]. split; auto.
Qed.

Lemma reads_throw A msg : reads_near A (Parser.throw msg).
Proof. intros p a p1 E. discriminate E. Qed.

Lemma reads_bind A B (m : Parser.M A) (k : A -> Parser.M B) :
  reads_near A m -> (forall a, reads_near B (k a)) ->
  reads_near B (Parser.bind m k).
Proof.
  intros Hm Hk p b p2 E. apply bind_Ok in E as (a & p1 & E1 & E2).
  destruct (Hm _ _ _ E1) as (F1 & K1 & N1).
  destruct (Hk a _ _ _ E2) as (F2 & K2 & N2).
  split; [eapply forward_trans; eauto|]. split; [auto|].
  intros s' n A' L. destruct F1 as (S1 & C1 & _). destruct F2 as (S2 & C2 & _).
  unfold Parser.bind. rewrite (N1 s' n) by (auto; lia).
  apply (N2 s' n); [now rewrite S1|auto].
Qed.

Lemma reads_advance : reads_near unit Parser.advance.
Proof.
  intros p [] p1 E. unfold Parser.advance in *.
  pose proof (forward_nextToken (Parser.lexer p)) as F.
  pose proof (near_nextToken) as N.
  destruct (Lexer.nextToken (Parser.lexer p)) as [tok lx] eqn:T.
  simpl in F.
  destruct (Parser.currentIs TokenType.Unknown
              (Parser.mk lx tok (Parser.currentToken p))) eqn:U;
    [discriminate E|].
  injection E as <-. simpl. split; [exact F|]. split.
  - intros _. now apply currentIs_false in U.
  - intros s' n A L. rewrite (N s' n (Parser.lexer p) A) by now rewrite T.
    rewrite T. simpl.
    change (Parser.currentIs TokenType.Unknown
              (Parser.mk (lexer_on s' lx) tok (Parser.currentToken p)))
      with (Parser.currentIs TokenType.Unknown
              (Parser.mk lx tok (Parser.currentToken p))).
    now rewrite U.
Qed.

Lemma reads_consume ty msg : reads_near unit (Parser.consume ty msg).
Proof.
  intros p a p1 E. unfold Parser.consume in *.
  destruct (Parser.currentIs ty p) eqn:C; [|discriminate E].
  destruct (reads_advance _ _ _ E) as (F & K & N).
  split; [auto|]. split; [auto|]. intros s' n A L.
  change (Parser.currentIs ty (parser_on s' p)) with (Parser.currentIs ty p).
  rewrite C. now apply (N s' n).
Qed.

(** A branch on the tokens the parser holds. *)
Lemma reads_if A (test : Parser.t -> bool) (m1 m2 : Parser.M A) :
  (forall s' p, test (parser_on s' p) = test p) ->
  reads_near A m1 -> reads_near A m2 ->
  reads_near A (fun p => if test p then m1 p else m2 p).
Proof.
  intros T H1 H2 p a p1 E.
  destruct (test p) eqn:C;
    [destruct (H1 _ _ _ E) as (F & K & N)
    |destruct (H2 _ _ _ E) as (F & K & N)];
    (split; [auto|]; split; [auto|]; intros s' n A' L; rewrite T, C;
     now apply (N s' n)).
Qed.

Lemma reads_parseString : reads_near JsonValue Parser.parseString.
Proof.
  intros p a p1 E. unfold Parser.parseString in E. cbv zeta in E.
  destruct (reads_bind _ _ _ _ reads_advance
              (fun _ => reads_ret _ _) _ _ _ E) as (F & K & N).
  split; [auto|]. split; [auto|]. intros s' n A L.
  unfold Parser.parseString. cbv zeta. now apply (N s' n).
Qed.

Lemma reads_parseNumber : reads_near JsonValue Parser.parseNumber.
Proof.
  intros p a p1 E. unfold Parser.parseNumber in E. cbv zeta in E.
  destruct (Std.stod (Token.lexeme (Parser.currentToken p)))
    as [value pos| |] eqn:S; try discriminate E.
  destruct (negb _) eqn:C; [discriminate E|].
  destruct (reads_bind _ _ _ _ reads_advance
              (fun _ => reads_ret _ _) _ _ _ E) as (F & K & N).
  split; [auto|]. split; [auto|]. intros s' n A L.
  unfold Parser.parseNumber. cbv zeta.
  change (Parser.currentToken (parser_on s' p)) with (Parser.currentToken p).
  rewrite S, C. now apply (N s' n).
Qed.

Lemma reads_parse fuel :
  reads_near JsonValue (Parser.parseValue fuel)
  /\ reads_near JsonObject (Parser.parseObject fuel)
  /\ (forall o, reads_near JsonObject (Parser.parseObject_loop fuel o))
  /\ reads_near JsonArray (Parser.parseArray fuel)
  /\ (forall a, reads_near JsonArray (Parser.parseArray_loop fuel a)).
Proof.
  induction fuel as [|fuel (IHv & IHo & IHol & IHa & IHal)].
  { repeat split; intros; discriminate. }
  assert (Adv : forall A (a : A),
             reads_near A (Parser.bind Parser.advance
                                (fun _ => Parser.ret a))).
  { intros A a. apply reads_bind; [apply reads_advance|].
    intros _. apply reads_ret. }
  split; [|split; [|split; [|split]]].
  - intros p v p1 E. simpl in E.
    assert (R : forall m : Parser.M JsonValue,
               reads_near JsonValue m -> m p = Ok (v, p1) ->
               (forall s', Parser.parseValue (S fuel) (parser_on s' p)
                           = m (parser_on s' p)) ->
               forward (Parser.lexer p) (Parser.lexer p1)
               /\ (Token.type (Parser.currentToken p) <> TokenType.Unknown ->
                   Token.type (Parser.currentToken p1) <> TokenType.Unknown)
               /\ (forall s' n,
                     agree n (Lexer.source (Parser.lexer p)) s' ->
                     Lexer.current (Parser.lexer p1) + 2 <= n ->
                     Parser.parseValue (S fuel) (parser_on s' p)
                     = Ok (v, parser_on s' p1))).
    { intros m Hm Em Eq. destruct (Hm _ _ _ Em) as (F & K & N).
      split; [auto|]. split; [auto|]. intros s' n A L. rewrite Eq.
      now apply (N s' n). }
    destruct (Token.type (Parser.currentToken p)) eqn:T; try discriminate E.
    + apply (R _ (reads_bind _ _ _ _ IHo (fun o => reads_ret _ _)) E).
      intros s'. simpl.
      change (Parser.currentToken (parser_on s' p))
        with (Parser.currentToken p).
      now rewrite T.
    + apply (R _ (reads_bind _ _ _ _ IHa (fun o => reads_ret _ _)) E).
      intros s'. simpl.
      change (Parser.currentToken (parser_on s' p))
        with (Parser.currentToken p).
      now rewrite T.
    + apply (R _ reads_parseString E).
      intros s'. simpl.
      change (Parser.currentToken (parser_on s' p))
        with (Parser.currentToken p).
      now rewrite T.
    + apply (R _ reads_parseNumber E).
      intros s'. simpl.
      change (Parser.currentToken (parser_on s' p))
        with (Parser.currentToken p).
      now rewrite T.
    + apply (R _ (Adv _ _) E).
      intros s'. simpl.
      change (Parser.currentToken (parser_on s' p))
        with (Parser.currentToken p).
      now rewrite T.
    + apply (R _ (Adv _ _) E).
      intros s'. simpl.
      change (Parser.currentToken (parser_on s' p))
        with (Parser.currentToken p).
      now rewrite T.
    + apply (R _ (Adv _ _) E).
      intros s'. simpl.
      change (Parser.currentToken (parser_on s' p))
        with (Parser.currentToken p).
      now rewrite T.
  - cbn [Parser.parseObject]. apply reads_bind; [apply reads_consume|].
    intros _. apply reads_bind.
    + apply (reads_if _
               (fun p => negb (Parser.currentIs TokenType.RightBrace p))
               (Parser.parseObject_loop fuel []) (Parser.ret []));
        [reflexivity|apply IHol|apply reads_ret].
    + intros o. apply reads_bind; [apply reads_consume|].
      intros _. apply reads_ret.
  - intros o p v p1 E. cbn [Parser.parseObject_loop] in E.
    destruct (negb (Parser.currentIs TokenType.String p)) eqn:C;
      [discriminate E|].
    cbv zeta in E.
    match type of E with
    | ?m p = _ =>
        assert (Hm : reads_near JsonObject m)
    end.
    { apply reads_bind; [apply reads_advance|]. intros _.
      apply reads_bind; [apply reads_consume|]. intros _.
      apply reads_bind; [apply IHv|]. intros value.
      apply (reads_if _
               (fun p => Parser.currentIs TokenType.RightBrace p)
               (Parser.ret _)
               (Parser.bind (Parser.consume TokenType.Comma _)
                  (fun _ => Parser.parseObject_loop fuel _)));
        [reflexivity|apply reads_ret|].
      apply reads_bind; [apply reads_consume|]. intros _. apply IHol. }
    destruct (Hm _ _ _ E) as (F & K & N).
    split; [auto|]. split; [auto|]. intros s' n A L.
    cbn [Parser.parseObject_loop].
    change (Parser.currentIs TokenType.String (parser_on s' p))
      with (Parser.currentIs TokenType.String p).
    rewrite C. cbv zeta.
    change (Parser.currentToken (parser_on s' p))
      with (Parser.currentToken p).
    now apply (N s' n).
  - cbn [Parser.parseArray]. apply reads_bind; [apply reads_consume|].
    intros _. apply reads_bind.
    + apply (reads_if _
               (fun p => negb (Parser.currentIs TokenType.RightBracket p))
               (Parser.parseArray_loop fuel []) (Parser.ret []));
        [reflexivity|apply IHal|apply reads_ret].
    + intros o. apply reads_bind; [apply reads_consume|].
      intros _. apply reads_ret.
  - intros a. cbn [Parser.parseArray_loop].
    apply reads_bind; [apply IHv|]. intros value. cbv zeta.
    apply (reads_if _
             (fun p => Parser.currentIs TokenType.RightBracket p)
             (Parser.ret _)
             (Parser.bind (Parser.consume TokenType.Comma _)
                (fun _ => Parser.parseArray_loop fuel _)));
      [reflexivity|apply reads_ret|].
    apply reads_bind; [apply reads_consume|]. intros _. apply IHal.
Qed.

(** ** [parse] reads one token past the value *)

Lemma advance_known p u p1 :
  Parser.advance p = Ok (u, p1) ->
  Token.type (Parser.currentToken p1) <> TokenType.Unknown.
Proof.
  unfold Parser.advance.
  destruct (Lexer.nextToken (Parser.lexer p)) as [tok lx].
  destruct (Parser.currentIs TokenType.Unknown _) eqn:U; [discriminate|].
  intros E. injection E as _ <-. now apply currentIs_false in U.
Qed.

(** The first token is read, and it is not EndOfFile when a value
    follows. *)
Lemma first_token_read fuel p0 p1 v p :
  Parser.advance p0 = Ok (tt, p1) ->
  Parser.parseValue fuel p1 = Ok (v, p) ->
  Lexer.current (Parser.lexer p0) < Lexer.current (Parser.lexer p1).
Proof.
  intros A V.
  assert (T : Token.type (Parser.currentToken p1) <> TokenType.EndOfFile).
  { intros T. destruct fuel as [|fuel]; [discriminate V|]. simpl in V.
    rewrite T in V. discriminate V. }
  unfold Parser.advance in A.
  pose proof (nextToken_progress (Parser.lexer p0)) as S.
  destruct (Lexer.nextToken (Parser.lexer p0)) as [tok lx].
  destruct (Parser.currentIs TokenType.Unknown _); [discriminate A|].
  injection A as <-. simpl in *. now destruct (S T) as (_ & C & _).
Qed.

Lemma hasBOM_agree n s s' :
  agree n s s' -> 3 <= n -> Parser.hasBOM s' = Parser.hasBOM s.
Proof.
  intros A L. apply (agree_le _ 3) in A; [|exact L]. unfold agree in A.
  destruct s as [|a [|b [|c s]]], s' as [|a' [|b' [|c' s']]];
    try discriminate A; try reflexivity.
  simpl in A. now injection A as -> -> ->.
Qed.

Lemma stripBOM_agree s s' p :
  agree (read s p + 2) s s' -> 1 <= Lexer.current (Parser.lexer p) ->
  agree (Lexer.current (Parser.lexer p) + 2)
    (Parser.stripBOM s) (Parser.stripBOM s').
Proof.
  unfold read. intros A L. unfold Parser.stripBOM.
  rewrite (hasBOM_agree _ _ _ A) by lia.
  destruct (Parser.hasBOM s); [|exact A].
  unfold agree in *. rewrite !firstn_skipn_comm.
  rewrite Nat.add_assoc. now rewrite A.
Qed.

(** What [parse] returns is settled by the characters its lexer has gone
    past and the two after them. *)
Lemma run_reads_near source v p :
  Parser.run source = Ok (v, p) ->
  Token.type (Parser.currentToken p) <> TokenType.Unknown
  /\ forall source',
       agree (read source p + 2) source source' ->
       Parser.run source' = Ok (v, parser_on (Parser.stripBOM source') p).
Proof.
  intros R. unfold Parser.run, Parser.new in R.
  fold (initial (Parser.stripBOM source)) in R.
  destruct (Parser.advance (initial (Parser.stripBOM source)))
    as [[[] p1]| |] eqn:A; try discriminate R.
  destruct (reads_advance _ _ _ A) as (F1 & _ & N1).
  destruct (reads_parse (Parser.fuelFor (Parser.stripBOM source)))
    as (Hv & _).
  destruct (Hv _ _ _ R) as (F2 & K2 & N2).
  split; [apply K2; eapply advance_known; eauto|].
  intros source' Ag.
  pose proof (first_token_read _ _ _ _ _ A R) as C1. simpl in C1.
  destruct F1 as (S1 & _). destruct F2 as (_ & C2 & _).
  apply stripBOM_agree in Ag; [|lia].
  eapply run_value.
  - change (initial (Parser.stripBOM source'))
      with (parser_on (Parser.stripBOM source')
              (initial (Parser.stripBOM source))).
    apply (N1 _ _ Ag). lia.
  - apply (N2 _ (Lexer.current (Parser.lexer p) + 2)); [|lia].
    now rewrite S1.
Qed.

(** The text of a value, then a delimiter, then anything that starts with
    a token the parser accepts: the value. *)
Lemma trailing_after_value v tail ty lexeme rest :
  payloads number_ok v = true -> well_formed v = true ->
  delimiter (hd NUL tail) = true ->
  next_is tail ty lexeme rest -> ty <> TokenType.Unknown ->
  parse (serialise v 0 ++ tail) = Ok v.
Proof.
  intros Pay Wf D N U.
  destruct (parses_serialised v Pay Wf 0 [] tail ty lexeme rest (need v)
              (initial (Parser.stripBOM (serialise v 0 ++ tail))))
    as (p' & E & _); auto.
  - destruct (serialise_first v 0 Pay) as (c & t & S & F).
    rewrite S. simpl app. rewrite stripBOM_first by auto. reflexivity.
  - apply run_bind in E. now apply parse_run in E.
Qed.

(** ** The start of the token under construction *)

Lemma start_advance lx : Lexer.start (Lexer.advance_ lx) = Lexer.start lx.
Proof.
  unfold Lexer.advance_, Lexer.advance. now destruct (Lexer.isAtEnd lx).
Qed.

Lemma start_while cond body lx :
  (forall l, Lexer.start (body l) = Lexer.start l) ->
  Lexer.start (Lexer.while cond body lx) = Lexer.start lx.
Proof.
  intros B. unfold Lexer.while.
  apply (while_fuel_inv cond body
           (fun l => Lexer.start l = Lexer.start lx)); auto.
  intros l _ H. now rewrite B.
Qed.

Lemma start_digit lx : Lexer.start (Lexer.digit_loop lx) = Lexer.start lx.
Proof. apply start_while, start_advance. Qed.

Lemma start_alpha lx : Lexer.start (Lexer.alpha_loop lx) = Lexer.start lx.
Proof. apply start_while, start_advance. Qed.

Lemma start_stringToken_loop lx :
  Lexer.start (Lexer.stringToken_loop lx) = Lexer.start lx.
Proof.
  apply start_while. intros l. unfold Lexer.stringToken_body. cbv zeta.
  rewrite start_advance.
  destruct (Lexer.peek _ =? BACKSLASH)%char; rewrite ?start_advance;
    now destruct (Lexer.peek l =? LF)%char.
Qed.

Lemma start_scanToken lx :
  Lexer.start (snd (scanToken lx)) = Lexer.start lx.
Proof.
  unfold scanToken. destruct (Lexer.isAtEnd lx); [reflexivity|].
  pose proof (start_advance lx) as A. unfold Lexer.advance_ in A.
  destruct (Lexer.advance lx) as [c l1]. simpl in A.
  unfold Lexer.stringToken, Lexer.numberToken, Lexer.identifierToken.
  cbv zeta.
  repeat match goal with
         | |- context [if ?b then _ else _] => destruct b
         end;
    cbn [snd];
    rewrite ?start_advance, ?start_digit, ?start_alpha,
      ?start_stringToken_loop, ?start_advance, ?start_digit, ?start_advance,
      ?start_digit;
    exact A.
Qed.

(** [nextToken] keeps [start] and [current] in order and inside the
    buffer. *)
Lemma nextToken_bounds lx :
  Lexer.current lx <= length (Lexer.source lx) ->
  Lexer.source (snd (Lexer.nextToken lx)) = Lexer.source lx
  /\ Lexer.current lx <= Lexer.start (snd (Lexer.nextToken lx))
  /\ Lexer.start (snd (Lexer.nextToken lx))
     <= Lexer.current (snd (Lexer.nextToken lx))
  /\ Lexer.current (snd (Lexer.nextToken lx)) <= length (Lexer.source lx).
Proof.
  intros B. destruct (forward_nextToken lx) as (S1 & C1 & B1).
  rewrite nextToken_scan in *. rewrite start_scanToken.
  destruct (forward_skip lx) as (S2 & C2 & B2).
  destruct (forward_scanToken (mark (Lexer.skipWhitespaceAndComments lx)))
    as (S3 & C3 & B3).
  simpl in *. repeat split; auto.
Qed.

(** At the end of the input [nextToken] changes nothing any more. *)
Lemma nextToken_again lx :
  Token.type (fst (Lexer.nextToken lx)) = TokenType.EndOfFile ->
  Lexer.nextToken (snd (Lexer.nextToken lx)) = Lexer.nextToken lx.
Proof.
  intros T. pose proof (nextToken_end lx T) as E.
  assert (M : snd (Lexer.nextToken lx)
              = mark (Lexer.skipWhitespaceAndComments lx)).
  { rewrite nextToken_scan in *. revert T E. unfold scanToken.
    destruct (Lexer.isAtEnd (mark _)) eqn:A; [reflexivity|].
    intros T. exfalso. revert T.
    destruct (Lexer.advance (mark _)) as [c l1].
    unfold Lexer.stringToken, Lexer.numberToken, Lexer.identifierToken.
    cbv zeta.
    repeat match goal with
           | |- context [if ?b then _ else _] => destruct b
           end; cbn [fst Token.type Lexer.makeToken]; discriminate. }
  rewrite M in E |- *.
  set (l := Lexer.skipWhitespaceAndComments lx) in *.
  assert (U : unread (mark l) = []) by now apply isAtEnd_unread.
  rewrite (nextToken_scan (mark l)), skip_unfold.
  assert (N : skip_next (mark l) = None).
  { unfold skip_next. rewrite peek_unread, U. reflexivity. }
  rewrite N. rewrite (nextToken_scan lx). reflexivity.
Qed.

(** ** White space and comments *)

Lemma moved_counted body : forall lx, moved (length body) lx (counted body lx).
Proof.
  induction body as [|c body IH]; intros lx; [apply moved_refl|].
  simpl. change (S (length body)) with (1 + length body).
  eapply moved_trans; [|apply IH].
  destruct (c =? LF)%char.
  - apply (moved_trans _ _ _ _ _ (moved_newline lx) (moved_advanced 1 _)).
  - apply moved_advanced.
Qed.

Lemma counted_one_line body : forall lx,
  no_LF body = true -> counted body lx = advanced (length body) lx.
Proof.
  induction body as [|c body IH]; intros lx N; simpl in *.
  - now rewrite advanced_0.
  - apply andb_prop in N as [N1 N2]. apply negb_true_iff in N1.
    rewrite N1, IH by auto. now rewrite advanced_advanced.
Qed.

(** The loop of a block comment stops at the first [*/]. *)
Lemma blockComment_closed body : forall lx rest,
  unread lx = body ++ "*"%char :: "/"%char :: rest ->
  no_block_end body = true ->
  Lexer.blockComment_loop lx = counted body lx.
Proof.
  induction body as [|c body IH]; intros lx rest H N;
    rewrite blockComment_unfold; unfold Lexer.blockComment_cond.
  - simpl in H. rewrite (peek_cons _ _ _ H), (peekNext_cons _ _ _ H).
    reflexivity.
  - simpl in N. apply andb_prop in N as [N1 N2]. simpl in H.
    rewrite (peek_cons _ _ _ H), (peekNext_cons _ _ _ H),
      (isAtEnd_false _ _ _ H).
    assert (C : negb (c =? "*")%char
                || negb (hd NUL (body ++ "*"%char :: "/"%char :: rest)
                         =? "/")%char = true).
    { apply negb_true_iff, andb_false_iff in N1 as [N1|N1].
      - now rewrite N1.
      - destruct body; simpl in *; rewrite ?N1; apply orb_true_r. }
    rewrite C. cbn [andb negb]. unfold Lexer.blockComment_body.
    rewrite (peek_cons _ _ _ H). simpl counted.
    assert (E : Lexer.advance_
                  (if (c =? LF)%char then Lexer.newline lx else lx)
                = advanced 1
                    (if (c =? LF)%char then Lexer.newline lx else lx)).
    { destruct (c =? LF)%char.
      - apply (advance_cons (Lexer.newline lx) _ _ H).
      - apply (advance_cons _ _ _ H). }
    rewrite E. apply (IH _ rest); auto.
    apply (unread_after 1 lx _ [c] _); auto.
    destruct (c =? LF)%char.
    + apply (moved_trans _ _ _ _ _ (moved_newline lx) (moved_advanced 1 _)).
    + apply moved_advanced.
Qed.

(** The loop of a line comment stops at the line feed. *)
Lemma lineComment_closed body lx rest :
  unread lx = body ++ LF :: rest -> no_LF body = true ->
  Lexer.lineComment_loop lx = advanced (length body) lx.
Proof.
  revert lx. induction body as [|c body IH]; intros lx H N;
    rewrite lineComment_unfold; unfold Lexer.lineComment_cond;
    simpl in H; rewrite (peek_cons _ _ _ H).
  - simpl. now rewrite advanced_0.
  - simpl in N. apply andb_prop in N as [N1 N2].
    rewrite N1, (isAtEnd_false _ _ _ H). simpl.
    rewrite (advance_cons _ _ _ H), IH, advanced_advanced; auto.
    apply (unread_advanced lx [c] _ H).
Qed.

(** Without a line feed it runs to the end of the buffer. *)
Lemma lineComment_open body : forall lx,
  unread lx = body -> no_LF body = true ->
  Lexer.lineComment_loop lx = advanced (length body) lx.
Proof.
  induction body as [|c body IH]; intros lx H N;
    rewrite lineComment_unfold; unfold Lexer.lineComment_cond.
  - rewrite (isAtEnd_true _ H), andb_false_r. now rewrite advanced_0.
  - simpl in N. apply andb_prop in N as [N1 N2].
    rewrite (peek_cons _ _ _ H), N1, (isAtEnd_false _ _ _ H). simpl.
    rewrite (advance_cons _ _ _ H), IH, advanced_advanced; auto.
    apply (unread_advanced lx [c] _ H).
Qed.

Lemma unread_passed g lx rest :
  unread lx = gap_text g ++ rest -> unread (passed lx g) = rest.
Proof.
  intros H. apply (unread_moved lx _ _ _ H);
    destruct g as [c|body|body]; cbn [passed gap_text];
    try (now destruct (c =? LF)%char);
    try reflexivity.
  - apply (moved_counted body (advanced 2 lx)).
  - cbn [length]. rewrite length_app. simpl. lia.
  - destruct (moved_counted body (advanced 2 lx)) as (_ & _ & C & _).
    cbn [length]. rewrite length_app. simpl in *. lia.
Qed.

Lemma source_passed g lx : Lexer.source (passed lx g) = Lexer.source lx.
Proof.
  destruct g as [c|body|body]; simpl.
  - now destruct (c =? LF)%char.
  - reflexivity.
  - apply (moved_counted body (advanced 2 lx)).
Qed.

(** [skipWhitespaceAndComments] passes a gap and goes on. *)
Lemma skip_gap g lx rest :
  gap_ok g = true -> unread lx = gap_text g ++ rest ->
  Lexer.skipWhitespaceAndComments lx
  = Lexer.skipWhitespaceAndComments (passed lx g).
Proof.
  intros K H. destruct g as [c|body|body]; simpl in K, H.
  - rewrite skip_unfold. unfold skip_next.
    rewrite (peek_cons _ _ _ H), (advance_cons _ _ _ H).
    unfold is_blank in K. simpl.
    destruct (c =? LF)%char eqn:L.
    + apply Ascii.eqb_eq in L. subst c. reflexivity.
    + rewrite orb_false_r in K. now rewrite K.
  - rewrite skip_unfold. unfold skip_next.
    rewrite (peek_cons _ _ _ H), (peekNext_cons _ _ _ H). simpl.
    assert (E : Lexer.lineComment_loop lx = advanced (2 + length body) lx).
    { apply (lineComment_closed ("/"%char :: "/"%char :: body) lx rest).
      - rewrite H. simpl. now rewrite <- app_assoc.
      - exact K. }
    rewrite E.
    assert (U : unread (advanced (2 + length body) lx) = LF :: rest).
    { apply (unread_advanced lx ("/"%char :: "/"%char :: body)).
      rewrite H. simpl. now rewrite <- app_assoc. }
    rewrite skip_unfold. unfold skip_next.
    rewrite (peek_cons _ _ _ U), (advance_cons _ _ _ U). reflexivity.
  - rewrite skip_unfold. unfold skip_next.
    rewrite (peek_cons _ _ _ H), (peekNext_cons _ _ _ H). simpl.
    rewrite (advance_cons _ _ _ H).
    assert (H1 : unread (advanced 1 lx)
                 = "*"%char :: body ++ [ "*"%char; "/"%char ] ++ rest).
    { apply (unread_advanced lx ["/"%char]). rewrite H. simpl.
      now rewrite <- app_assoc. }
    rewrite (advance_cons _ _ _ H1), advanced_advanced.
    change (1 + 1) with 2.
    assert (H2 : unread (advanced 2 lx)
                 = body ++ "*"%char :: "/"%char :: rest).
    { apply (unread_advanced lx ["/"%char; "*"%char]). rewrite H. simpl.
      now rewrite <- app_assoc. }
    rewrite (blockComment_closed _ _ _ H2 K).
    assert (H3 : unread (counted body (advanced 2 lx))
                 = "*"%char :: "/"%char :: rest)
      by apply (unread_after _ _ _ body _ (moved_counted body _) H2 eq_refl).
    rewrite (isAtEnd_false _ _ _ H3). simpl.
    rewrite (advance_cons _ _ _ H3).
    assert (H4 : unread (advanced 1 (counted body (advanced 2 lx)))
                 = "/"%char :: rest)
      by apply (unread_advanced _ ["*"%char] _ H3).
    rewrite (isAtEnd_false _ _ _ H4). simpl.
    rewrite (advance_cons _ _ _ H4), advanced_advanced. reflexivity.
Qed.

Lemma skip_gaps gs : forall lx rest,
  forallb gap_ok gs = true -> unread lx = gaps_text gs ++ rest ->
  Lexer.skipWhitespaceAndComments lx
  = Lexer.skipWhitespaceAndComments (fold_left passed gs lx)
  /\ Lexer.source (fold_left passed gs lx) = Lexer.source lx
  /\ unread (fold_left passed gs lx) = rest.
Proof.
  induction gs as [|g gs IH]; intros lx rest K H; [simpl in *; auto|].
  simpl in K. apply andb_prop in K as [K1 K2].
  unfold gaps_text in H. simpl in H. rewrite <- app_assoc in H.
  fold (gaps_text gs) in H.
  destruct (IH (passed lx g) rest K2 (unread_passed _ _ _ H))
    as (E & S1 & U).
  simpl. rewrite (skip_gap g lx _ K1 H), E, S1, source_passed. auto.
Qed.

Lemma next_is_gaps gs text ty lexeme rest :
  forallb gap_ok gs = true ->
  next_is text ty lexeme rest ->
  next_is (gaps_text gs ++ text) ty lexeme rest.
Proof.
  intros K N lx H. destruct (skip_gaps gs lx text K H) as (E & S1 & U).
  destruct (N _ U) as (tok & l2 & E2 & T & X & S2 & U2).
  exists tok, l2. rewrite nextToken_scan, E, <- nextToken_scan, E2, S2, S1.
  auto.
Qed.

(** A line comment that no line feed ends is read to the end of the
    buffer. *)
Lemma next_is_open_line body :
  no_LF body = true ->
  next_is ("/"%char :: "/"%char :: body) TokenType.EndOfFile [] [].
Proof.
  intros N lx H. rewrite nextToken_scan, skip_unfold. unfold skip_next.
  rewrite (peek_cons _ _ _ H), (peekNext_cons _ _ _ H). simpl.
  rewrite (lineComment_open _ lx H N).
  assert (U : unread (advanced (length ("/"%char :: "/"%char :: body)) lx)
              = []).
  { apply (unread_advanced lx _ []). now rewrite app_nil_r. }
  rewrite skip_stop by now rewrite U.
  rewrite scan_end by now rewrite unread_mark.
  eexists _, _. split; [reflexivity|]. repeat split; auto.
  apply lexeme_end, fresh_mark.
Qed.

(** ** Lines and columns *)

Lemma origin_advance lx : origin (Lexer.advance_ lx) = origin lx.
Proof.
  unfold Lexer.advance_, Lexer.advance. now destruct (Lexer.isAtEnd lx).
Qed.

Lemma origin_while cond body lx :
  (forall l, origin (body l) = origin l) ->
  origin (Lexer.while cond body lx) = origin lx.
Proof.
  intros B. unfold Lexer.while.
  apply (while_fuel_inv cond body (fun l => origin l = origin lx)); auto.
  intros l _ H. now rewrite B.
Qed.

Lemma origin_digit lx : origin (Lexer.digit_loop lx) = origin lx.
Proof. apply origin_while, origin_advance. Qed.

Lemma origin_alpha lx : origin (Lexer.alpha_loop lx) = origin lx.
Proof. apply origin_while, origin_advance. Qed.

Lemma origin_stringToken_loop lx :
  origin (Lexer.stringToken_loop lx) = origin lx.
Proof.
  apply origin_while. intros l. unfold Lexer.stringToken_body. cbv zeta.
  rewrite origin_advance.
  destruct (Lexer.peek _ =? BACKSLASH)%char; rewrite ?origin_advance;
    now destruct (Lexer.peek l =? LF)%char.
Qed.

(** Every token carries the line and the column [nextToken] noted before
    it read the token. *)
Lemma scanToken_position lx :
  Token.line (fst (scanToken lx)) = Lexer.lineStart lx
  /\ Token.col (fst (scanToken lx)) = Lexer.colStart lx.
Proof.
  assert (O : forall l, origin l = origin lx ->
                Lexer.lineStart l = Lexer.lineStart lx
                /\ Lexer.colStart l = Lexer.colStart lx).
  { unfold origin. intros l E. now injection E. }
  unfold scanToken. destruct (Lexer.isAtEnd lx); [split; reflexivity|].
  pose proof (origin_advance lx) as A. unfold Lexer.advance_ in A.
  destruct (Lexer.advance lx) as [c l1]. simpl in A.
  unfold Lexer.stringToken, Lexer.numberToken, Lexer.identifierToken.
  cbv zeta.
  repeat match goal with
         | |- context [if ?b then _ else _] => destruct b
         end;
    cbn [fst Token.line Token.col Lexer.makeToken];
    apply O;
    rewrite ?origin_advance, ?origin_digit, ?origin_alpha,
      ?origin_stringToken_loop, ?origin_advance, ?origin_digit,
      ?origin_advance, ?origin_digit;
    exact A.
Qed.

Lemma position_from_app a : forall b n line col,
  position_from (a ++ b) (length a + n) line col
  = position_from b n (fst (position_from a (length a) line col))
      (snd (position_from a (length a) line col)).
Proof.
  induction a as [|c a IH]; intros b n line col; [reflexivity|].
  simpl. destruct (c =? LF)%char; apply IH.
Qed.

Lemma position_from_one_line a : forall line col,
  no_LF a = true ->
  position_from a (length a) line col = (line, col + length a).
Proof.
  induction a as [|c a IH]; intros line col N; simpl in *.
  - now rewrite Nat.add_0_r.
  - apply andb_prop in N as [N1 N2]. apply negb_true_iff in N1.
    rewrite N1, IH by auto. f_equal. lia.
Qed.

(** Over white space, line comments and block comments of one line the
    lexer counts lines and columns as they are. *)
Lemma passed_position g lx :
  gap_ok g = true -> one_line g = true ->
  (Lexer.lineNum (passed lx g), Lexer.colNum (passed lx g))
  = position_from (gap_text g) (length (gap_text g))
      (Lexer.lineNum lx) (Lexer.colNum lx).
Proof.
  intros K O. destruct g as [c|body|body]; simpl in K, O.
  - simpl. destruct (c =? LF)%char; [reflexivity|].
    simpl. now rewrite Nat.add_1_r.
  - cbn [passed gap_text].
    change ("/"%char :: "/"%char :: body ++ [LF])
      with (("/"%char :: "/"%char :: body) ++ [LF]).
    rewrite length_app. rewrite position_from_app.
    rewrite (position_from_one_line ("/"%char :: "/"%char :: body))
      by exact K.
    reflexivity.
  - cbn [passed gap_text]. rewrite counted_one_line by exact O.
    rewrite position_from_one_line.
    + simpl. rewrite length_app. simpl. f_equal. lia.
    + simpl. unfold no_LF in *. rewrite forallb_app, O. reflexivity.
Qed.

Lemma passed_positions gs : forall lx,
  forallb gap_ok gs = true -> forallb one_line gs = true ->
  (Lexer.lineNum (fold_left passed gs lx),
   Lexer.colNum (fold_left passed gs lx))
  = position_from (gaps_text gs) (length (gaps_text gs))
      (Lexer.lineNum lx) (Lexer.colNum lx).
Proof.
  induction gs as [|g gs IH]; intros lx K O; [reflexivity|].
  simpl in K, O. apply andb_prop in K as [K1 K2].
  apply andb_prop in O as [O1 O2].
  unfold gaps_text. simpl. fold (gaps_text gs).
  rewrite length_app, <- (Nat.add_0_r (length (gaps_text gs))).
  rewrite position_from_app, <- passed_position by auto.
  cbn [fst snd]. rewrite Nat.add_0_r.
  rewrite <- IH by auto. reflexivity.
Qed.

(** The first token after such gaps is where the lexer says it is. *)
Lemma first_token_position gs text :
  forallb gap_ok gs = true -> forallb one_line gs = true ->
  token_start (hd NUL text) = true ->
  (Token.line (fst (Lexer.nextToken (Lexer.new (gaps_text gs ++ text)))),
   Token.col (fst (Lexer.nextToken (Lexer.new (gaps_text gs ++ text)))))
  = position (gaps_text gs ++ text) (length (gaps_text gs)).
Proof.
  intros K O T.
  destruct (skip_gaps gs (Lexer.new (gaps_text gs ++ text)) text K
              (unread_new _)) as (E & S1 & U).
  rewrite nextToken_scan, E, skip_stop by now rewrite U.
  destruct (scanToken_position
              (mark (fold_left passed gs (Lexer.new (gaps_text gs ++ text)))))
    as (-> & ->).
  cbn [mark Lexer.lineStart Lexer.colStart].
  rewrite passed_positions by auto. unfold position.
  rewrite <- (Nat.add_0_r (length (gaps_text gs))) at 2.
  rewrite position_from_app. simpl.
  now destruct (position_from (gaps_text gs) _ 1 1), text.
Qed.

Lemma stripBOM_gaps gs text :
  forallb gap_ok gs = true -> nat_of_ascii (hd NUL text) <> 239 ->
  Parser.stripBOM (gaps_text gs ++ text) = gaps_text gs ++ text.
Proof.
  intros K T. destruct gs as [|g gs].
  - simpl. destruct text as [|c t]; [reflexivity|]. now apply stripBOM_first.
  - unfold gaps_text. simpl. simpl in K. apply andb_prop in K as [K _].
    destruct g as [c|body|body]; simpl; apply stripBOM_first;
      try discriminate.
    intros E. simpl in K. rewrite <- (ascii_nat_embedding c), E in K.
    discriminate.
Qed.

(** An input of white space and comments only: there is no value, and the
    error is placed at the end of the input. *)
Lemma parse_gaps_only gs :
  forallb gap_ok gs = true -> forallb one_line gs = true ->
  parse (gaps_text gs)
  = Throw (ParsingError.mk expected_value
             (fst (position (gaps_text gs) (length (gaps_text gs))))
             (snd (position (gaps_text gs) (length (gaps_text gs))))).
Proof.
  intros K O.
  pose proof (first_token_position gs [] K O eq_refl) as P.
  rewrite app_nil_r in P.
  pose proof (stripBOM_gaps gs [] K ltac:(discriminate)) as B.
  rewrite app_nil_r in B.
  destruct (skip_gaps gs (Lexer.new (gaps_text gs)) [] K) as (E & S1 & U).
  { now rewrite app_nil_r. }
  unfold parse, Parser.parse, Parser.run, Parser.new. rewrite B.
  unfold Parser.advance. cbn [Parser.lexer Parser.currentToken].
  revert P. rewrite nextToken_scan, E, skip_stop by now rewrite U.
  rewrite scan_end by now rewrite unread_mark.
  cbn [fst]. intros P. cbn [Parser.currentIs Parser.currentToken Token.type
                          Lexer.makeToken TokenType.eqb TokenType.tag Nat.eqb
                          Parser.ret].
  unfold Parser.fuelFor. rewrite Nat.add_succ_r.
  cbn [Parser.parseValue Parser.currentToken Token.type Lexer.makeToken].
  unfold Parser.throw. cbn [Parser.currentToken].
  cbn [Lexer.makeToken Token.line Token.col] in P |- *.
  now rewrite <- P.
Qed.

(** ** The first token of the input *)

(** The first token after gaps of one line each: its type and text as
    [next_is] has them, its line and column as they are. *)
Lemma first_token gs text ty lexeme rest :
  forallb gap_ok gs = true -> forallb one_line gs = true ->
  token_start (hd NUL text) = true ->
  next_is text ty lexeme rest ->
  exists lx,
    Lexer.nextToken (Lexer.new (gaps_text gs ++ text))
    = (Token.mk ty lexeme
         (fst (position (gaps_text gs ++ text) (length (gaps_text gs))))
         (snd (position (gaps_text gs ++ text) (length (gaps_text gs)))),
       lx)
    /\ Lexer.source lx = gaps_text gs ++ text
    /\ unread lx = rest.
Proof.
  intros K O T N.
  pose proof (first_token_position gs text K O T) as P.
  destruct (next_is_gaps gs text ty lexeme rest K N
              (Lexer.new (gaps_text gs ++ text)) (unread_new _))
    as (tok & lx & E & Ty & X & S1 & U).
  rewrite E in P |- *. exists lx. split; [|split; auto].
  destruct tok as [ty' lexeme' line col]. simpl in *.
  rewrite <- P. simpl. now subst.
Qed.

(** An Unknown token at the start of the input is refused where it
    stands. *)
Lemma parse_first_unknown gs text lexeme rest :
  forallb gap_ok gs = true -> forallb one_line gs = true ->
  token_start (hd NUL text) = true ->
  Parser.hasBOM (gaps_text gs ++ text) = false ->
  next_is text TokenType.Unknown lexeme rest ->
  parse (gaps_text gs ++ text)
  = Throw (ParsingError.mk unexpected
             (fst (position (gaps_text gs ++ text) (length (gaps_text gs))))
             (snd (position (gaps_text gs ++ text) (length (gaps_text gs))))).
Proof.
  intros K O T B N.
  destruct (first_token gs text _ _ _ K O T N) as (lx & E & _).
  unfold parse, Parser.parse, Parser.run, Parser.new, Parser.stripBOM.
  rewrite B. unfold Parser.advance. cbn [Parser.lexer]. rewrite E.
  reflexivity.
Qed.

Lemma stray_spec c :
  stray c = true ->
  token_start c = true /\ punct_type c = None
  /\ (c =? DQUOTE)%char = false
  /\ Std.isdigit c || (c =? "-")%char = false
  /\ Std.isalpha c = false.
Proof.
  unfold stray. intros H.
  apply andb_prop in H as [H H5]. apply andb_prop in H as [H H4].
  apply andb_prop in H as [H H3]. apply andb_prop in H as [H1 H2].
  apply negb_true_iff in H3, H4, H5.
  destruct (punct_type c); [discriminate|]. auto.
Qed.

Lemma next_is_stray c rest :
  stray c = true -> next_is (c :: rest) TokenType.Unknown [c] rest.
Proof.
  intros S lx H. destruct (stray_spec c S) as (T & P & Q & D & A).
  rewrite nextToken_at by now rewrite H.
  rewrite (scan_other (mark lx) c rest H P), Q, D, A.
  eexists _, _. split; [reflexivity|]. repeat split; auto.
  - apply (lexeme_moved (mark lx) _ _ [c] rest (fresh_mark lx)
             (moved_advanced 1 _) H).
  - apply (unread_advanced (mark lx) [c] rest H).
Qed.

(** A slash that starts no comment. *)
Lemma next_is_slash rest :
  (hd NUL rest =? "/")%char = false -> (hd NUL rest =? "*")%char = false ->
  next_is ("/"%char :: rest) TokenType.Unknown ["/"%char] rest.
Proof.
  intros A B lx H. rewrite nextToken_scan, skip_unfold.
  assert (N : skip_next lx = None).
  { unfold skip_next.
    rewrite (peek_cons _ _ _ H), (peekNext_cons _ _ _ H), A, B. reflexivity. }
  rewrite N.
  rewrite (scan_other (mark lx) "/"%char rest H eq_refl).
  cbn [Ascii.eqb Bool.eqb Std.isdigit Std.isalpha orb andb].
  eexists _, _. split; [reflexivity|]. repeat split; auto.
  - apply (lexeme_moved (mark lx) _ _ ["/"%char] rest (fresh_mark lx)
             (moved_advanced 1 _) H).
  - apply (unread_advanced (mark lx) ["/"%char] rest H).
Qed.

Lemma hasBOM_first s :
  nat_of_ascii (hd NUL s) <> 239 -> Parser.hasBOM s = false.
Proof.
  intros N. destruct s as [|a [|b [|c s]]]; try reflexivity.
  simpl in *. apply Nat.eqb_neq in N. now rewrite N.
Qed.

Lemma hasBOM_gaps gs text :
  forallb gap_ok gs = true -> nat_of_ascii (hd NUL text) <> 239 ->
  Parser.hasBOM (gaps_text gs ++ text) = false.
Proof.
  intros K T. apply hasBOM_first. destruct gs as [|g gs]; [exact T|].
  unfold gaps_text. simpl. simpl in K. apply andb_prop in K as [K _].
  destruct g as [c|body|body]; simpl; try discriminate.
  intros E. simpl in K. rewrite <- (ascii_nat_embedding c), E in K.
  discriminate.
Qed.

Lemma alpha_no_BOM c : Std.isalpha c = true -> nat_of_ascii c <> 239.
Proof.
  intros A E. rewrite <- (ascii_nat_embedding c), E in A. discriminate.
Qed.

Lemma alpha_token_start c : Std.isalpha c = true -> token_start c = true.
Proof.
  destruct c as [[] [] [] [] [] [] [] []]; intros H; try discriminate H;
    reflexivity.
Qed.

(** A slash that starts no comment, first in the input. *)
Lemma parse_slash rest :
  (hd NUL rest =? "/")%char = false -> (hd NUL rest =? "*")%char = false ->
  parse ("/"%char :: rest) = Throw (ParsingError.mk unexpected 1 1).
Proof.
  intros A B.
  unfold parse, Parser.parse, Parser.run, Parser.new.
  rewrite stripBOM_first by discriminate.
  unfold Parser.advance. cbn [Parser.lexer].
  rewrite nextToken_scan, skip_unfold.
  assert (N : skip_next (Lexer.new ("/"%char :: rest)) = None).
  { unfold skip_next.
    rewrite (peek_cons _ _ _ (unread_new _)),
      (peekNext_cons _ _ _ (unread_new _)), A, B.
    reflexivity. }
  rewrite N.
  rewrite (scan_other (mark (Lexer.new ("/"%char :: rest))) "/"%char rest
             eq_refl eq_refl).
  reflexivity.
Qed.

(** ** The text of a value between gaps *)

(** [Parser::advance] from in front of gaps is [advance] from behind
    them. *)
Lemma advance_gaps gs p rest :
  forallb gap_ok gs = true ->
  unread (Parser.lexer p) = gaps_text gs ++ rest ->
  Parser.advance p
  = Parser.advance
      (Parser.mk (fold_left passed gs (Parser.lexer p))
         (Parser.currentToken p) (Parser.previousToken p)).
Proof.
  intros K H. destruct (skip_gaps gs _ rest K H) as (E & _).
  unfold Parser.advance. cbn [Parser.lexer Parser.currentToken].
  now rewrite !nextToken_scan, E.
Qed.

Lemma delimiter_gaps gs tail :
  forallb gap_ok gs = true -> delimiter (hd NUL tail) = true ->
  delimiter (hd NUL (gaps_text gs ++ tail)) = true.
Proof.
  intros K D. destruct gs as [|g gs]; [exact D|].
  unfold gaps_text. simpl. simpl in K. apply andb_prop in K as [K _].
  destruct g as [c|body|body]; simpl; try reflexivity.
  simpl in K. destruct c as [[] [] [] [] [] [] [] []]; try discriminate K;
    reflexivity.
Qed.

(** The text [serialise] writes for a value, at any indent, with gaps
    before it and after it, and then a token the parser accepts. *)
Lemma parse_between_gaps v indent before after tail ty lexeme rest :
  payloads number_ok v = true -> well_formed v = true ->
  forallb gap_ok before = true -> forallb gap_ok after = true ->
  delimiter (hd NUL tail) = true ->
  next_is tail ty lexeme rest -> ty <> TokenType.Unknown ->
  parse (gaps_text before ++ serialise v indent ++ gaps_text after ++ tail)
  = Ok v.
Proof.
  intros Pay Wf Kb Ka D N U.
  set (source := gaps_text before ++ serialise v indent
                 ++ gaps_text after ++ tail).
  destruct (serialise_first v indent Pay) as (c & t & S & F).
  assert (B : Parser.stripBOM source = source).
  { subst source. apply stripBOM_gaps; [exact Kb|]. now rewrite S. }
  destruct (parses_serialised v Pay Wf indent [] (gaps_text after ++ tail)
              ty lexeme rest (need v)
              (Parser.mk (fold_left passed before (Lexer.new source))
                 Parser.noToken Parser.noToken))
    as (p' & E & _); auto.
  - now apply delimiter_gaps.
  - now apply next_is_gaps.
  - cbn [Parser.lexer app].
    now destruct (skip_gaps before (Lexer.new source) _ Kb eq_refl)
      as (_ & _ & ->).
  - apply parse_run with (p := p'). apply run_bind with (fuel := need v).
    rewrite B. unfold Parser.bind in *.
    rewrite (advance_gaps before (initial source) _ Kb eq_refl). exact E.
Qed.

(** ** Every JSON text is parsed to its value *)

Lemma gaps_text_app a b : gaps_text (a ++ b) = gaps_text a ++ gaps_text b.
Proof. unfold gaps_text. now rewrite map_app, concat_app. Qed.

Lemma doc_text_array inner items :
  doc_text (DArray inner items)
  = "["%char :: gaps_text inner ++ items_text items ++ chars "]".
Proof. reflexivity. Qed.

Lemma doc_text_object inner members :
  doc_text (DObject inner members)
  = "{"%char :: gaps_text inner ++ members_text members ++ chars "}".
Proof. reflexivity. Qed.

Lemma reads_word d c w ty :
  Std.isalpha c = true -> forallb Std.isalpha w = true ->
  word_type (c :: w) = ty -> ty <> TokenType.Unknown ->
  doc_text d = c :: w -> doc_need d = 1 ->
  (forall fuel p, Token.type (Parser.currentToken p) = ty ->
     Parser.parseValue (S fuel) p
     = Parser.bind Parser.advance (fun _ => Parser.ret (doc_value d)) p) ->
  reads d.
Proof.
  intros C W T K S Nd V gs tail ty' lexeme rest fuel p B D N K' L H.
  rewrite S in H. destruct fuel as [|fuel]; [lia|].
  destruct (advance_next p (gaps_text gs ++ c :: w ++ tail) ty (c :: w) tail)
    as (p1 & E1 & At1 & _); auto.
  { apply next_is_gaps; auto. rewrite <- T.
    apply next_is_word; auto. now apply delimiter_alpha. }
  unfold Parser.bind at 1. rewrite E1.
  destruct At1 as (T1 & X1 & U1). rewrite (V fuel p1 T1).
  now apply advance_ret with (text := tail).
Qed.

Lemma reads_number text : doc_ok (DNumber text) = true -> reads (DNumber text).
Proof.
  intros Ok gs tail ty lexeme rest fuel p B D N K L H.
  destruct text as [|c t]; [discriminate Ok|]. cbn [doc_ok] in Ok.
  apply andb_prop in Ok as [Ok St]. apply andb_prop in Ok as [Dc Sc].
  assert (Sc' : snd (number_scan t) = []).
  { destruct (number_scan t) as [a [|? ?]]; [reflexivity|discriminate]. }
  cbn [doc_text] in H. cbn [doc_value].
  destruct (Std.stod (c :: t)) as [value pos| |] eqn:Sd; try discriminate St.
  destruct fuel as [|fuel]; [simpl in L; lia|].
  destruct (advance_next p (gaps_text gs ++ c :: t ++ tail) TokenType.Number
              (c :: t) tail) as (p1 & E1 & At1 & _); auto.
  { apply next_is_gaps; auto. apply next_is_number; auto.
    now apply number_scan_whole. }
  { discriminate. }
  unfold Parser.bind at 1. rewrite E1.
  destruct At1 as (T1 & X1 & U1). simpl. rewrite T1.
  unfold Parser.parseNumber. rewrite X1, Sd, St. simpl negb.
  cbv iota. now apply advance_ret with (text := tail).
Qed.

Lemma reads_string body : doc_ok (DString body) = true -> reads (DString body).
Proof.
  intros Ok gs tail ty lexeme rest fuel p B D N K L H.
  cbn [doc_ok] in Ok. cbn [doc_text] in H. cbn [doc_value].
  destruct fuel as [|fuel]; [simpl in L; lia|].
  destruct (advance_next p (gaps_text gs ++ DQUOTE :: body ++ DQUOTE :: tail)
              TokenType.String (quoted body) tail) as (p1 & E1 & At1 & _);
    auto.
  { apply next_is_gaps; auto. now apply next_is_string. }
  { discriminate. }
  { rewrite H. unfold quoted. now rewrite <- app_comm_cons, <- app_assoc. }
  unfold Parser.bind at 1. rewrite E1.
  destruct At1 as (T1 & X1 & U1). simpl. rewrite T1.
  unfold Parser.parseString. rewrite X1, parseString_quoted.
  now apply advance_ret with (text := tail).
Qed.

Lemma reads_gap before d after :
  forallb gap_ok before = true -> forallb gap_ok after = true ->
  reads d -> reads (DGap before d after).
Proof.
  intros Kb Ka R gs tail ty lexeme rest fuel p B D N K L H.
  cbn [doc_text doc_value doc_need] in *.
  apply (R (gs ++ before) (gaps_text after ++ tail) ty lexeme rest fuel p);
    auto.
  - now rewrite forallb_app, B.
  - now apply delimiter_gaps.
  - now apply next_is_gaps.
  - rewrite H, gaps_text_app, <- !app_assoc. reflexivity.
Qed.

Lemma next_is_bracket tail :
  next_is (chars "]" ++ tail) TokenType.RightBracket (chars "]") tail.
Proof. now apply next_is_punct. Qed.

Lemma next_is_brace tail :
  next_is (chars "}" ++ tail) TokenType.RightBrace (chars "}") tail.
Proof. now apply next_is_punct. Qed.

(** The loop of [parseArray] over the elements of a text. *)
Lemma items_loop tail l : forall x acc fuel gs p,
  Forall reads (x :: l) ->
  forallb gap_ok gs = true ->
  list_sum (map (fun y => S (doc_need y)) (x :: l)) <= fuel ->
  unread (Parser.lexer p)
  = gaps_text gs ++ items_text (x :: l) ++ chars "]" ++ tail ->
  exists p',
    Parser.bind Parser.advance (fun _ => Parser.parseArray_loop fuel acc) p
    = Ok (acc ++ map doc_value (x :: l), p')
    /\ at_token p' TokenType.RightBracket (chars "]") tail.
Proof.
  induction l as [|y l IH]; intros x acc fuel gs p F B L H;
    inversion_clear F as [|? ? Rx Rl];
    (destruct fuel as [|fuel]; [simpl in L; lia|]);
    cbn [Parser.parseArray_loop]; rewrite <- bind_assoc.
  - simpl in L.
    destruct (Rx gs (chars "]" ++ tail) TokenType.RightBracket (chars "]")
                tail fuel p) as (p2 & E & At); auto.
    + apply next_is_bracket.
    + discriminate.
    + lia.
    + rewrite H. cbn [items_text]. now rewrite <- !app_assoc.
    + unfold Parser.bind at 1. rewrite E.
      rewrite (at_token_is _ _ _ _ At). simpl.
      exists p2. split; [reflexivity|exact At].
  - simpl in L.
    set (more := items_text (y :: l) ++ chars "]" ++ tail).
    destruct (Rx gs (","%char :: more) TokenType.Comma (chars ",") more
                fuel p) as (p2 & E & At); auto.
    + now apply next_is_punct.
    + discriminate.
    + lia.
    + rewrite H. subst more. cbn [items_text]. same_text.
    + unfold Parser.bind at 1. rewrite E.
      rewrite (at_token_is _ _ _ _ At).
      cbn [TokenType.eqb TokenType.tag Nat.eqb].
      rewrite (bind_consume _ _ _ _ _ (at_token_current _ _ _ _ At)).
      destruct (IH y (acc ++ [doc_value x]) fuel [] p2) as (p3 & E3 & At3);
        auto.
      * simpl. lia.
      * destruct At as (_ & _ & U). rewrite U. reflexivity.
      * rewrite <- app_assoc in E3. simpl in E3. eauto.
Qed.

(** The loop of [parseObject] over the members of a text. *)
Lemma members_loop tail l : forall m acc fuel gs p,
  Forall (fun m => reads (snd m)) (m :: l) ->
  forallb member_ok (m :: l) = true ->
  forallb gap_ok gs = true ->
  list_sum (map (fun m => let '(_, _, _, y) := m in S (doc_need y)) (m :: l))
  <= fuel ->
  unread (Parser.lexer p)
  = gaps_text gs ++ members_text (m :: l) ++ chars "}" ++ tail ->
  exists p',
    Parser.bind Parser.advance (fun _ => Parser.parseObject_loop fuel acc) p
    = Ok (fold_left member_assign (m :: l) acc, p')
    /\ at_token p' TokenType.RightBrace (chars "}") tail.
Proof.
  induction l as [|m' l IH]; intros [[[b k] mid] x] acc fuel gs p F K B L H;
    inversion_clear F as [|? ? Rx Rl]; simpl in Rx;
    (destruct fuel as [|fuel]; [simpl in L; lia|]);
    cbn [forallb member_ok] in K; apply andb_prop in K as [Km Kl];
    apply andb_prop in Km as [Km Kx]; apply andb_prop in Km as [Km Kmid];
    apply andb_prop in Km as [Kb Kk];
    cbn [members_text] in H.
  - (* the last member *)
    set (value_on := doc_text x ++ [] ++ chars "}" ++ tail).
    set (after_key := gaps_text mid ++ ":"%char :: value_on).
    destruct (advance_next p
                (gaps_text (gs ++ b) ++ DQUOTE :: k ++ DQUOTE :: after_key)
                TokenType.String (quoted k) after_key) as (p1 & E1 & At1 & _).
    { apply next_is_gaps; [now rewrite forallb_app, B|].
      now apply next_is_string. }
    { discriminate. }
    { rewrite H, gaps_text_app. subst after_key value_on. unfold quoted.
      same_text. }
    unfold Parser.bind at 1. rewrite E1. cbn [Parser.parseObject_loop].
    rewrite (at_token_is _ _ _ _ At1).
    cbn [TokenType.eqb TokenType.tag Nat.eqb negb].
    destruct At1 as (T1 & X1 & U1). rewrite X1, substr_quoted.
    destruct (advance_next p1 after_key TokenType.Colon (chars ":") value_on)
      as (p2 & E2 & At2 & _); auto.
    { apply next_is_gaps; auto. now apply next_is_punct. }
    { discriminate. }
    unfold Parser.bind at 1. rewrite E2.
    rewrite (bind_consume _ _ _ _ _ (at_token_current _ _ _ _ At2)).
    rewrite <- bind_assoc.
    destruct (Rx [] (chars "}" ++ tail) TokenType.RightBrace (chars "}") tail
                fuel p2) as (p3 & E3 & At3); auto.
    { apply next_is_brace. }
    { discriminate. }
    { simpl in L. lia. }
    { destruct At2 as (_ & _ & U2). rewrite U2. reflexivity. }
    unfold Parser.bind at 1. rewrite E3.
    rewrite (at_token_is _ _ _ _ At3). simpl.
    exists p3. split; [reflexivity|exact At3].
  - (* a member before another *)
    set (more := members_text (m' :: l) ++ chars "}" ++ tail).
    set (value_on := doc_text x ++ ","%char :: more).
    set (after_key := gaps_text mid ++ ":"%char :: value_on).
    destruct (advance_next p
                (gaps_text (gs ++ b) ++ DQUOTE :: k ++ DQUOTE :: after_key)
                TokenType.String (quoted k) after_key) as (p1 & E1 & At1 & _).
    { apply next_is_gaps; [now rewrite forallb_app, B|].
      now apply next_is_string. }
    { discriminate. }
    { rewrite H, gaps_text_app. subst after_key value_on more. unfold quoted.
      same_text. }
    unfold Parser.bind at 1. rewrite E1. cbn [Parser.parseObject_loop].
    rewrite (at_token_is _ _ _ _ At1).
    cbn [TokenType.eqb TokenType.tag Nat.eqb negb].
    destruct At1 as (T1 & X1 & U1). rewrite X1, substr_quoted.
    destruct (advance_next p1 after_key TokenType.Colon (chars ":") value_on)
      as (p2 & E2 & At2 & _); auto.
    { apply next_is_gaps; auto. now apply next_is_punct. }
    { discriminate. }
    unfold Parser.bind at 1. rewrite E2.
    rewrite (bind_consume _ _ _ _ _ (at_token_current _ _ _ _ At2)).
    rewrite <- bind_assoc.
    destruct (Rx [] (","%char :: more) TokenType.Comma (chars ",") more
                fuel p2) as (p3 & E3 & At3); auto.
    { now apply next_is_punct. }
    { discriminate. }
    { simpl in L. lia. }
    { destruct At2 as (_ & _ & U2). rewrite U2. reflexivity. }
    unfold Parser.bind at 1. rewrite E3.
    rewrite (at_token_is _ _ _ _ At3).
    cbn [TokenType.eqb TokenType.tag Nat.eqb].
    rewrite (bind_consume _ _ _ _ _ (at_token_current _ _ _ _ At3)).
    destruct (IH m' (map_assign k (doc_value x) acc) fuel [] p3)
      as (p4 & E4 & At4); auto.
    + destruct m' as [[[? ?] ?] ?]. simpl in L. simpl. lia.
    + destruct At3 as (_ & _ & U3). rewrite U3. reflexivity.
    + eauto.
Qed.

Lemma doc_reads d : doc_ok d = true -> reads d.
Proof.
  induction d as [| | |text|body|inner items IH|inner members IH
                 |before d after IH] using Doc_induction; intros Hok.
  - apply (reads_word DNull "n"%char (chars "ull") TokenType.Null); auto.
    + discriminate.
    + intros fuel p T. simpl. now rewrite T.
  - apply (reads_word DTrue "t"%char (chars "rue") TokenType.True); auto.
    + discriminate.
    + intros fuel p T. simpl. now rewrite T.
  - apply (reads_word DFalse "f"%char (chars "alse") TokenType.False); auto.
    + discriminate.
    + intros fuel p T. simpl. now rewrite T.
  - now apply reads_number.
  - now apply reads_string.
  - (* an array *)
    cbn [doc_ok] in Hok. apply andb_prop in Hok as [Ki Hok].
    assert (Ra : Forall reads items).
    { rewrite Forall_forall in *. rewrite forallb_forall in Hok. auto. }
    clear IH Hok.
    intros gs tail ty lexeme rest fuel p B D N K L H.
    rewrite doc_text_array in H. cbn [doc_value].
    destruct fuel as [|[|fuel]]; try (simpl in L; lia).
    set (inside := gaps_text inner ++ items_text items ++ chars "]" ++ tail).
    destruct (advance_next p (gaps_text gs ++ "["%char :: inside)
                TokenType.LeftBracket (chars "[") inside)
      as (p1 & E1 & At1 & _); auto.
    { apply next_is_gaps; auto. now apply next_is_punct. }
    { discriminate. }
    { rewrite H. subst inside. same_text. }
    unfold Parser.bind at 1. rewrite E1.
    cbn [Parser.parseValue]. destruct At1 as (T1 & X1 & U1). rewrite T1.
    cbn [Parser.parseArray Parser.parseObject]. rewrite bind_assoc.
    rewrite (bind_consume _ _ _ _ _ (proj2 (currentIs_true _ _) T1)).
    assert (Nb : next_is (gaps_text inner ++ chars "]" ++ tail)
                   TokenType.RightBracket (chars "]") tail).
    { apply next_is_gaps; auto. apply next_is_bracket. }
    assert (E2 : exists p2, Parser.advance p1 = Ok (tt, p2)).
    { destruct items as [|x l].
      - destruct (advance_next p1 _ _ _ _ Nb ltac:(discriminate) U1)
          as (p2 & E2 & _). eauto.
      - destruct (items_loop tail l x [] fuel inner p1 Ra Ki)
          as (p3 & E3 & At3); auto.
        { simpl in L. simpl. lia. }
        apply bind_Ok in E3 as ([] & p2 & E3 & _). eauto. }
    destruct E2 as (p2 & E2). pose proof U1 as E2'.
    rewrite (bind_eq _ _ _ _ _ _ _ E2), bind_assoc.
    destruct items as [|x l].
    + apply advance_next
        with (ty := TokenType.RightBracket) (lexeme := chars "]")
             (rest := tail) in E2' as (q & E2' & At2 & _);
        [|exact Nb|discriminate].
      rewrite E2 in E2'. injection E2' as <-.
      assert (Ck : (fun p =>
                      if negb (Parser.currentIs TokenType.RightBracket p)
                      then Parser.parseArray_loop fuel [] p
                      else Parser.ret [] p) p2 = Ok ([], p2)).
      { cbv beta. now rewrite (at_token_current _ _ _ _ At2). }
      rewrite (bind_eq _ _ _ _ _ _ _ Ck).
      apply close_value with (tail := tail); auto;
        [apply (at_token_current _ _ _ _ At2)|apply At2].
    + destruct (items_loop tail l x [] fuel inner p1 Ra Ki)
        as (p3 & E3 & At3); auto.
      { simpl in L. simpl. lia. }
      rewrite (bind_eq _ _ _ _ _ _ _ E2) in E3.
      assert (Hs : Parser.currentIs TokenType.RightBracket p2 = false).
      { destruct fuel as [|fuel]; [discriminate|].
        cbn [Parser.parseArray_loop] in E3.
        apply bind_Ok in E3 as (y & q & E3 & _).
        eapply parseValue_start; eauto. }
      assert (Ck : (fun p =>
                      if negb (Parser.currentIs TokenType.RightBracket p)
                      then Parser.parseArray_loop fuel [] p
                      else Parser.ret [] p) p2
                   = Ok (map doc_value (x :: l), p3)).
      { cbv beta. now rewrite Hs. }
      rewrite (bind_eq _ _ _ _ _ _ _ Ck).
      apply close_value with (tail := tail); auto;
        [apply (at_token_current _ _ _ _ At3)|apply At3].
  - (* an object *)
    cbn [doc_ok] in Hok. apply andb_prop in Hok as [Ki Hok].
    assert (Ro : Forall (fun m => reads (snd m)) members).
    { rewrite Forall_forall in *. rewrite forallb_forall in Hok.
      intros [[[b k] mid] x] I. specialize (IH _ I). specialize (Hok _ I).
      simpl in *. apply andb_prop in Hok as [_ Hok]. auto. }
    change (forallb member_ok members = true) in Hok.
    clear IH.
    intros gs tail ty lexeme rest fuel p B D N K L H.
    rewrite doc_text_object in H. cbn [doc_value].
    change (fold_left _ members [])
      with (fold_left member_assign members []).
    destruct fuel as [|[|fuel]]; try (simpl in L; lia).
    set (inside := gaps_text inner ++ members_text members
                   ++ chars "}" ++ tail).
    destruct (advance_next p (gaps_text gs ++ "{"%char :: inside)
                TokenType.LeftBrace (chars "{") inside)
      as (p1 & E1 & At1 & _); auto.
    { apply next_is_gaps; auto. now apply next_is_punct. }
    { discriminate. }
    { rewrite H. subst inside. same_text. }
    unfold Parser.bind at 1. rewrite E1.
    cbn [Parser.parseValue]. destruct At1 as (T1 & X1 & U1). rewrite T1.
    cbn [Parser.parseArray Parser.parseObject]. rewrite bind_assoc.
    rewrite (bind_consume _ _ _ _ _ (proj2 (currentIs_true _ _) T1)).
    assert (Nb : next_is (gaps_text inner ++ chars "}" ++ tail)
                   TokenType.RightBrace (chars "}") tail).
    { apply next_is_gaps; auto. apply next_is_brace. }
    assert (E2 : exists p2, Parser.advance p1 = Ok (tt, p2)).
    { destruct members as [|m l].
      - destruct (advance_next p1 _ _ _ _ Nb ltac:(discriminate) U1)
          as (p2 & E2 & _). eauto.
      - destruct (members_loop tail l m [] fuel inner p1 Ro Hok Ki)
          as (p3 & E3 & At3); auto.
        { simpl in L. simpl. lia. }
        apply bind_Ok in E3 as ([] & p2 & E3 & _). eauto. }
    destruct E2 as (p2 & E2). pose proof U1 as E2'.
    rewrite (bind_eq _ _ _ _ _ _ _ E2), bind_assoc.
    destruct members as [|m l].
    + apply advance_next
        with (ty := TokenType.RightBrace) (lexeme := chars "}")
             (rest := tail) in E2' as (q & E2' & At2 & _);
        [|exact Nb|discriminate].
      rewrite E2 in E2'. injection E2' as <-.
      assert (Ck : (fun p =>
                      if negb (Parser.currentIs TokenType.RightBrace p)
                      then Parser.parseObject_loop fuel [] p
                      else Parser.ret [] p) p2 = Ok ([], p2)).
      { cbv beta. now rewrite (at_token_current _ _ _ _ At2). }
      rewrite (bind_eq _ _ _ _ _ _ _ Ck).
      apply close_value with (tail := tail); auto;
        [apply (at_token_current _ _ _ _ At2)|apply At2].
    + destruct (members_loop tail l m [] fuel inner p1 Ro Hok Ki)
        as (p3 & E3 & At3); auto.
      { simpl in L. simpl. lia. }
      rewrite (bind_eq _ _ _ _ _ _ _ E2) in E3.
      assert (Hs : Parser.currentIs TokenType.RightBrace p2 = false).
      { destruct fuel as [|fuel]; [discriminate|].
        cbn [Parser.parseObject_loop] in E3.
        destruct (negb (Parser.currentIs TokenType.String p2)) eqn:Q;
          [discriminate|].
        apply negb_false_iff, currentIs_true in Q.
        apply currentIs_false. rewrite Q. discriminate. }
      assert (Ck : (fun p =>
                      if negb (Parser.currentIs TokenType.RightBrace p)
                      then Parser.parseObject_loop fuel [] p
                      else Parser.ret [] p) p2
                   = Ok (fold_left member_assign (m :: l) [], p3)).
      { cbv beta. now rewrite Hs. }
      rewrite (bind_eq _ _ _ _ _ _ _ Ck).
      apply close_value with (tail := tail); auto;
        [apply (at_token_current _ _ _ _ At3)|apply At3].
  - cbn [doc_ok] in Hok. apply andb_prop in Hok as [Hok Ka].
    apply andb_prop in Hok as [Kb Hok]. apply reads_gap; auto.
Qed.

Lemma doc_first d :
  doc_ok d = true ->
  forall tail, nat_of_ascii (hd NUL (doc_text d ++ tail)) <> 239.
Proof.
  induction d as [| | |text|body|inner items IH|inner members IH
                 |before d after IH] using Doc_induction;
    intros Hok tail; try discriminate.
  - destruct text as [|c t]; [discriminate Hok|]. cbn [doc_ok] in Hok.
    apply andb_prop in Hok as [Hok _]. apply andb_prop in Hok as [Dc _].
    now apply number_first_no_bom.
  - cbn [doc_ok] in Hok. apply andb_prop in Hok as [Hok Ka].
    apply andb_prop in Hok as [Kb Hok]. cbn [doc_text].
    destruct before as [|g gs].
    + simpl. rewrite <- app_assoc. now apply IH.
    + unfold gaps_text. simpl. simpl in Kb. apply andb_prop in Kb as [Kb _].
      destruct g as [c|b|b]; simpl; try discriminate.
      intros E. simpl in Kb. rewrite <- (ascii_nat_embedding c), E in Kb.
      discriminate.
Qed.

(** A JSON text, and after it a delimiter and a token the parser
    accepts: the value of the text. *)
Lemma parse_doc d tail ty lexeme rest :
  doc_ok d = true -> delimiter (hd NUL tail) = true ->
  next_is tail ty lexeme rest -> ty <> TokenType.Unknown ->
  parse (doc_text d ++ tail) = Ok (doc_value d).
Proof.
  intros Hok D N K.
  destruct (doc_reads d Hok [] tail ty lexeme rest (doc_need d)
              (initial (Parser.stripBOM (doc_text d ++ tail))))
    as (p' & E & _); auto.
  - unfold Parser.stripBOM.
    now rewrite (hasBOM_first _ (doc_first d Hok tail)).
  - apply run_bind in E. now apply parse_run in E.
Qed.

Lemma parse_doc_whole d :
  doc_ok d = true -> parse (doc_text d) = Ok (doc_value d).
Proof.
  intros Hok. rewrite <- (app_nil_r (doc_text d)).
  apply (parse_doc d [] TokenType.EndOfFile [] [] Hok eq_refl next_is_end).
  discriminate.
Qed.

(** ** Assignment and lookup *)

Lemma string_eqb_refl a : Std.string_eqb a a = true.
Proof. unfold Std.string_eqb. now rewrite string_compare_refl. Qed.

Lemma string_eqb_eq a b : Std.string_eqb a b = true -> a = b.
Proof.
  unfold Std.string_eqb. intros H. apply string_compare_eq.
  now destruct (Std.string_compare a b).
Qed.

Lemma string_eqb_sym a b : Std.string_eqb a b = Std.string_eqb b a.
Proof.
  unfold Std.string_eqb. rewrite (string_compare_antisym a b).
  now destruct (Std.string_compare a b).
Qed.

(** After [object[key] = value], [object.at(key)] is the value. *)
Lemma map_at_assign key value (object : JsonObject) :
  map_at key (map_assign key value object) = Got value.
Proof.
  induction object as [|[k v] o IH]; simpl.
  - now rewrite string_eqb_refl.
  - destruct (Std.string_compare key k) eqn:C; simpl.
    + apply string_compare_eq in C. subst k. now rewrite string_eqb_refl.
    + now rewrite string_eqb_refl.
    + unfold Std.string_eqb at 1. rewrite (string_compare_antisym key k), C.
      simpl. exact IH.
Qed.

(** And every other key is where it was. *)
Lemma map_at_assign_other key key' value (object : JsonObject) :
  Std.string_eqb key key' = false ->
  map_at key' (map_assign key value object) = map_at key' object.
Proof.
  intros N. induction object as [|[k v] o IH]; simpl.
  - now rewrite N.
  - destruct (Std.string_compare key k) eqn:C; simpl.
    + apply string_compare_eq in C. subst k. now rewrite N.
    + now rewrite N.
    + now rewrite IH.
Qed.

Lemma map_at_members key members : forall acc,
  map_at key (fold_left member_assign members acc)
  = match last_member key members with
    | Some v => Got v
    | None => map_at key acc
    end.
Proof.
  induction members as [|[[[b k] mid] x] l IH]; intros acc; [reflexivity|].
  cbn [fold_left last_member]. rewrite IH.
  destruct (last_member key l); [reflexivity|].
  unfold member_assign.
  destruct (Std.string_eqb k key) eqn:E.
  - apply string_eqb_eq in E. subst k. apply map_at_assign.
  - now apply map_at_assign_other.
Qed.

(** ** Elements and members, and what follows them *)

(** The loop of [parseArray] through the elements of a text, up to the
    token after the last of them. *)
Lemma items_prefix tail ty lexeme rest l : forall x acc fuel gs p,
  Forall reads (x :: l) ->
  forallb gap_ok gs = true ->
  delimiter (hd NUL tail) = true ->
  next_is tail ty lexeme rest -> ty <> TokenType.Unknown ->
  list_sum (map (fun y => S (doc_need y)) (x :: l)) <= fuel ->
  unread (Parser.lexer p) = gaps_text gs ++ items_text (x :: l) ++ tail ->
  exists p',
    at_token p' ty lexeme rest
    /\ Parser.bind Parser.advance
         (fun _ => Parser.parseArray_loop fuel acc) p
       = after_element (fuel - length (x :: l))
           (acc ++ map doc_value (x :: l)) p'.
Proof.
  induction l as [|y l IH]; intros x acc fuel gs p F B D N U L H;
    inversion_clear F as [|? ? Rx Rl];
    (destruct fuel as [|fuel]; [simpl in L; lia|]);
    cbn [Parser.parseArray_loop]; rewrite <- bind_assoc.
  - simpl in L.
    destruct (Rx gs tail ty lexeme rest fuel p) as (p2 & E & At); auto.
    + lia.
    + rewrite H. cbn [items_text]. now rewrite <- !app_assoc.
    + unfold Parser.bind at 1. rewrite E. exists p2. split; [exact At|].
      replace (S fuel - length [x]) with fuel by (simpl; lia). reflexivity.
  - simpl in L.
    set (more := items_text (y :: l) ++ tail).
    destruct (Rx gs (","%char :: more) TokenType.Comma (chars ",") more
                fuel p) as (p2 & E & At); auto.
    + now apply next_is_punct.
    + discriminate.
    + lia.
    + rewrite H. subst more. cbn [items_text]. same_text.
    + unfold Parser.bind at 1. rewrite E.
      rewrite (at_token_is _ _ _ _ At).
      cbn [TokenType.eqb TokenType.tag Nat.eqb].
      rewrite (bind_consume _ _ _ _ _ (at_token_current _ _ _ _ At)).
      destruct (IH y (acc ++ [doc_value x]) fuel [] p2) as (p3 & At3 & E3);
        auto.
      * simpl. lia.
      * destruct At as (_ & _ & U2). rewrite U2. reflexivity.
      * exists p3. split; [exact At3|]. rewrite E3.
        rewrite <- app_assoc. reflexivity.
Qed.

(** The same for the loop of [parseObject]. *)
Lemma members_prefix tail ty lexeme rest l : forall m acc fuel gs p,
  Forall (fun m => reads (snd m)) (m :: l) ->
  forallb member_ok (m :: l) = true ->
  forallb gap_ok gs = true ->
  delimiter (hd NUL tail) = true ->
  next_is tail ty lexeme rest -> ty <> TokenType.Unknown ->
  list_sum (map (fun m => let '(_, _, _, y) := m in S (doc_need y)) (m :: l))
  <= fuel ->
  unread (Parser.lexer p) = gaps_text gs ++ members_text (m :: l) ++ tail ->
  exists p',
    at_token p' ty lexeme rest
    /\ Parser.bind Parser.advance
         (fun _ => Parser.parseObject_loop fuel acc) p
       = after_member (fuel - length (m :: l))
           (fold_left member_assign (m :: l) acc) p'.
Proof.
  induction l as [|m' l IH];
    intros [[[b k] mid] x] acc fuel gs p F K B D N U L H;
    inversion_clear F as [|? ? Rx Rl]; simpl in Rx;
    (destruct fuel as [|fuel]; [simpl in L; lia|]);
    cbn [forallb member_ok] in K; apply andb_prop in K as [Km Kl];
    apply andb_prop in Km as [Km Kx]; apply andb_prop in Km as [Km Kmid];
    apply andb_prop in Km as [Kb Kk];
    cbn [members_text] in H.
  - set (value_on := doc_text x ++ [] ++ tail).
    set (after_key := gaps_text mid ++ ":"%char :: value_on).
    destruct (advance_next p
                (gaps_text (gs ++ b) ++ DQUOTE :: k ++ DQUOTE :: after_key)
                TokenType.String (quoted k) after_key) as (p1 & E1 & At1 & _).
    { apply next_is_gaps; [now rewrite forallb_app, B|].
      now apply next_is_string. }
    { discriminate. }
    { rewrite H, gaps_text_app. subst after_key value_on. unfold quoted.
      same_text. }
    unfold Parser.bind at 1. rewrite E1. cbn [Parser.parseObject_loop].
    rewrite (at_token_is _ _ _ _ At1).
    cbn [TokenType.eqb TokenType.tag Nat.eqb negb].
    destruct At1 as (T1 & X1 & U1). rewrite X1, substr_quoted.
    destruct (advance_next p1 after_key TokenType.Colon (chars ":") value_on)
      as (p2 & E2 & At2 & _); auto.
    { apply next_is_gaps; auto. now apply next_is_punct. }
    { discriminate. }
    unfold Parser.bind at 1. rewrite E2.
    rewrite (bind_consume _ _ _ _ _ (at_token_current _ _ _ _ At2)).
    rewrite <- bind_assoc.
    destruct (Rx [] tail ty lexeme rest fuel p2) as (p3 & E3 & At3); auto.
    { simpl in L. lia. }
    { destruct At2 as (_ & _ & U2). rewrite U2. reflexivity. }
    unfold Parser.bind at 1. rewrite E3.
    exists p3. split; [exact At3|].
    replace (S fuel - length [(b, k, mid, x)]) with fuel by (simpl; lia).
    reflexivity.
  - set (more := members_text (m' :: l) ++ tail).
    set (value_on := doc_text x ++ ","%char :: more).
    set (after_key := gaps_text mid ++ ":"%char :: value_on).
    destruct (advance_next p
                (gaps_text (gs ++ b) ++ DQUOTE :: k ++ DQUOTE :: after_key)
                TokenType.String (quoted k) after_key) as (p1 & E1 & At1 & _).
    { apply next_is_gaps; [now rewrite forallb_app, B|].
      now apply next_is_string. }
    { discriminate. }
    { rewrite H, gaps_text_app. subst after_key value_on more. unfold quoted.
      same_text. }
    unfold Parser.bind at 1. rewrite E1. cbn [Parser.parseObject_loop].
    rewrite (at_token_is _ _ _ _ At1).
    cbn [TokenType.eqb TokenType.tag Nat.eqb negb].
    destruct At1 as (T1 & X1 & U1). rewrite X1, substr_quoted.
    destruct (advance_next p1 after_key TokenType.Colon (chars ":") value_on)
      as (p2 & E2 & At2 & _); auto.
    { apply next_is_gaps; auto. now apply next_is_punct. }
    { discriminate. }
    unfold Parser.bind at 1. rewrite E2.
    rewrite (bind_consume _ _ _ _ _ (at_token_current _ _ _ _ At2)).
    rewrite <- bind_assoc.
    destruct (Rx [] (","%char :: more) TokenType.Comma (chars ",") more
                fuel p2) as (p3 & E3 & At3); auto.
    { now apply next_is_punct. }
    { discriminate. }
    { simpl in L. lia. }
    { destruct At2 as (_ & _ & U2). rewrite U2. reflexivity. }
    unfold Parser.bind at 1. rewrite E3.
    rewrite (at_token_is _ _ _ _ At3).
    cbn [TokenType.eqb TokenType.tag Nat.eqb].
    rewrite (bind_consume _ _ _ _ _ (at_token_current _ _ _ _ At3)).
    destruct (IH m' (map_assign k (doc_value x) acc) fuel [] p3)
      as (p4 & At4 & E4); auto.
    + destruct m' as [[[? ?] ?] ?]. simpl in L. simpl. lia.
    + destruct At3 as (_ & _ & U3). rewrite U3. reflexivity.
    + exists p4. split; [exact At4|]. exact E4.
Qed.

(** ** Errors inside an array *)

Lemma items_first tail ty lexeme rest l x gs p :
  Forall reads (x :: l) ->
  forallb gap_ok gs = true ->
  delimiter (hd NUL tail) = true ->
  next_is tail ty lexeme rest -> ty <> TokenType.Unknown ->
  unread (Parser.lexer p) = gaps_text gs ++ items_text (x :: l) ++ tail ->
  exists p2,
    Parser.advance p = Ok (tt, p2)
    /\ Parser.currentIs TokenType.RightBracket p2 = false.
Proof.
  intros F B D N U H. inversion_clear F as [|? ? Rx Rl].
  assert (R : exists tail' v p',
             Parser.bind Parser.advance
               (fun _ => Parser.parseValue (doc_need x)) p = Ok (v, p')
             /\ unread (Parser.lexer p)
                = gaps_text gs ++ doc_text x ++ tail').
  { destruct l as [|y l].
    - destruct (Rx gs tail ty lexeme rest (doc_need x) p) as (p' & E & _);
        auto.
      + rewrite H. cbn [items_text]. now rewrite <- !app_assoc.
      + exists tail, (doc_value x), p'. split; [exact E|].
        rewrite H. cbn [items_text]. now rewrite <- !app_assoc.
    - destruct (Rx gs (","%char :: items_text (y :: l) ++ tail)
                  TokenType.Comma (chars ",") (items_text (y :: l) ++ tail)
                  (doc_need x) p) as (p' & E & _); auto.
      + now apply next_is_punct.
      + discriminate.
      + rewrite H. cbn [items_text]. same_text.
      + eexists _, (doc_value x), p'. split; [exact E|].
        rewrite H. cbn [items_text]. same_text. }
  destruct R as (tail' & v & p' & E & _).
  apply bind_Ok in E as ([] & p2 & E & V).
  exists p2. split; [exact E|]. eapply parseValue_start; eauto.
Qed.

(** [parseValue] at an opening bracket, when the loop of [parseArray]
    throws. *)
Lemma enter_array fuel p1 p2 e :
  Parser.currentIs TokenType.LeftBracket p1 = true ->
  Parser.advance p1 = Ok (tt, p2) ->
  Parser.currentIs TokenType.RightBracket p2 = false ->
  Parser.parseArray_loop fuel [] p2 = Throw e ->
  Parser.parseValue (S (S fuel)) p1 = Throw e.
Proof.
  intros C A R L. apply currentIs_true in C.
  cbn [Parser.parseValue]. rewrite C. cbn [Parser.parseArray].
  unfold Parser.bind, Parser.consume.
  rewrite (proj2 (currentIs_true _ _) C), A, R. cbn [negb]. now rewrite L.
Qed.

Lemma enter_object fuel p1 p2 e :
  Parser.currentIs TokenType.LeftBrace p1 = true ->
  Parser.advance p1 = Ok (tt, p2) ->
  Parser.currentIs TokenType.RightBrace p2 = false ->
  Parser.parseObject_loop fuel [] p2 = Throw e ->
  Parser.parseValue (S (S fuel)) p1 = Throw e.
Proof.
  intros C A R L. apply currentIs_true in C.
  cbn [Parser.parseValue]. rewrite C. cbn [Parser.parseObject].
  unfold Parser.bind, Parser.consume.
  rewrite (proj2 (currentIs_true _ _) C), A, R. cbn [negb]. now rewrite L.
Qed.

Lemma bind_Throw A B (m : Parser.M A) (k : A -> Parser.M B) p a p' e :
  m p = Ok (a, p') -> Parser.bind m k p = Throw e -> k a p' = Throw e.
Proof. unfold Parser.bind. now intros ->. Qed.

(** The first token of the input is an opening bracket or brace. *)
Lemma open_first c ty inside :
  punct_type c = Some ty ->
  exists p1,
    Parser.advance (initial (Parser.stripBOM (c :: inside))) = Ok (tt, p1)
    /\ at_token p1 ty [c] inside.
Proof.
  intros P.
  assert (B : Parser.stripBOM (c :: inside) = c :: inside).
  { apply stripBOM_first. intros E.
    rewrite <- (ascii_nat_embedding c), E in P. discriminate. }
  rewrite B.
  destruct (advance_next (initial (c :: inside)) (c :: inside) ty [c] inside)
    as (p1 & E1 & At1 & _); eauto.
  - now apply next_is_punct.
  - intros E. subst ty. unfold punct_type in P.
    repeat match type of P with
           | (if ?b then _ else _) = _ => destruct b; [discriminate P|]
           end.
    discriminate.
Qed.

(** An array whose elements are followed by something else than a comma
    or the closing bracket. *)
Lemma array_wrong_end inner x l tail ty lexeme rest :
  forallb gap_ok inner = true -> forallb doc_ok (x :: l) = true ->
  delimiter (hd NUL tail) = true ->
  next_is tail ty lexeme rest -> ty <> TokenType.Unknown ->
  ty <> TokenType.Comma -> ty <> TokenType.RightBracket ->
  exists line col,
    parse ("["%char :: gaps_text inner ++ items_text (x :: l) ++ tail)
    = Throw (ParsingError.mk "Expected ',' or ']' after array element."
               line col).
Proof.
  intros Ki Hok D N U NC NB.
  assert (Ra : Forall reads (x :: l)).
  { rewrite Forall_forall. rewrite forallb_forall in Hok.
    intros y I. apply doc_reads. auto. }
  set (inside := gaps_text inner ++ items_text (x :: l) ++ tail).
  destruct (open_first "["%char TokenType.LeftBracket inside eq_refl)
    as (p1 & E1 & At1).
  set (fuel := list_sum (map (fun y => S (doc_need y)) (x :: l))).
  destruct At1 as (T1 & X1 & U1).
  destruct (items_prefix tail ty lexeme rest l x [] fuel inner p1 Ra Ki D N U
              (le_n _) U1) as (p3 & At3 & E3).
  destruct (items_first tail ty lexeme rest l x inner p1 Ra Ki D N U U1)
    as (p2 & A2 & R2).
  unfold after_element in E3.
  rewrite (at_token_is _ _ _ _ At3) in E3.
  rewrite (proj2 (TokenType_eqb_neq _ _) NB) in E3.
  unfold Parser.bind at 2, Parser.consume in E3.
  rewrite (at_token_is _ _ _ _ At3) in E3.
  rewrite (proj2 (TokenType_eqb_neq _ _) NC) in E3.
  unfold Parser.throw in E3.
  apply (bind_Throw _ _ _ _ _ _ _ _ A2) in E3.
  eexists _, _. apply parse_throw.
  apply (run_throw_value _ (S (S fuel)) p1 _ E1).
  apply (enter_array fuel p1 p2); auto.
  - now apply currentIs_true.
  - exact E3.
Qed.

(** Where the next element is expected: after the opening bracket or
    after the comma that follows the elements read.  What the loop of
    [parseArray] throws there, [parse] throws. *)
Lemma element_position inner xs tail ty lexeme rest msg :
  forallb gap_ok inner = true -> forallb doc_ok xs = true ->
  next_is tail ty lexeme rest -> ty <> TokenType.Unknown ->
  (xs = [] -> ty <> TokenType.RightBracket) ->
  (forall p' f, at_token p' ty lexeme rest ->
     exists line col,
       Parser.parseArray_loop (S (S f)) (map doc_value xs) p'
       = Throw (ParsingError.mk msg line col)) ->
  exists line col,
    parse ("["%char :: gaps_text inner ++ items_then xs ++ tail)
    = Throw (ParsingError.mk msg line col).
Proof.
  intros Ki Hok N U NB L.
  set (inside := gaps_text inner ++ items_then xs ++ tail).
  destruct (open_first "["%char TokenType.LeftBracket inside eq_refl)
    as (p1 & E1 & At1).
  pose proof (at_token_current _ _ _ _ At1) as C1.
  destruct At1 as (T1 & X1 & U1).
  destruct xs as [|x l].
  - destruct (advance_next p1 inside ty lexeme rest) as (p2 & E2 & At2 & _);
      auto.
    { now apply next_is_gaps. }
    destruct (L p2 0 At2) as (line & col & E).
    exists line, col. apply parse_throw.
    apply (run_throw_value _ 4 p1 _ E1).
    apply (enter_array 2 p1 p2); auto.
    rewrite (at_token_is _ _ _ _ At2). apply TokenType_eqb_neq. auto.
  - assert (Ra : Forall reads (x :: l)).
    { rewrite Forall_forall. rewrite forallb_forall in Hok.
      intros y I. apply doc_reads. auto. }
    set (n := list_sum (map (fun y => S (doc_need y)) (x :: l))).
    set (fuel := S (S n) + length (x :: l)).
    assert (U1' : unread (Parser.lexer p1)
                  = gaps_text inner ++ items_text (x :: l)
                    ++ ","%char :: tail).
    { rewrite U1. unfold inside, items_then. now rewrite <- app_assoc. }
    assert (NC : next_is (","%char :: tail) TokenType.Comma (chars ",") tail).
    { now apply next_is_punct. }
    destruct (items_prefix (","%char :: tail) _ _ _ l x [] fuel inner p1 Ra Ki
                eq_refl NC)
      as (p3 & At3 & E3); auto.
    { discriminate. }
    { unfold fuel. fold n. lia. }
    destruct (items_first (","%char :: tail) _ _ _ l x inner p1 Ra Ki eq_refl NC)
      as (p2 & A2 & R2); auto.
    { discriminate. }
    replace (fuel - length (x :: l)) with (S (S n)) in E3 by (unfold fuel; lia).
    unfold after_element in E3.
    rewrite (at_token_is _ _ _ _ At3) in E3.
    change (TokenType.eqb TokenType.Comma TokenType.RightBracket)
      with false in E3.
    rewrite bind_consume in E3 by apply (at_token_current _ _ _ _ At3).
    destruct At3 as (_ & _ & U3).
    destruct (advance_next p3 tail ty lexeme rest N U U3)
      as (p4 & E4 & At4 & _).
    unfold Parser.bind at 2 in E3. rewrite E4 in E3.
    destruct (L p4 n At4) as (line & col & E).
    cbn [app] in E3. rewrite E in E3.
    apply (bind_Throw _ _ _ _ _ _ _ _ A2) in E3.
    exists line, col. apply parse_throw.
    apply (run_throw_value _ (S (S fuel)) p1 _ E1).
    apply (enter_array fuel p1 p2); auto.
Qed.

Lemma starts_no_value_throws ty p fuel :
  Token.type (Parser.currentToken p) = ty -> starts_no_value ty = true ->
  Parser.parseValue (S fuel) p = Parser.throw expected_value p.
Proof.
  intros T S. cbn [Parser.parseValue]. rewrite T.
  destruct ty; try discriminate S; reflexivity.
Qed.

(** Where an element is expected, a token that starts no value. *)
Lemma array_no_element inner xs tail ty lexeme rest :
  forallb gap_ok inner = true -> forallb doc_ok xs = true ->
  next_is tail ty lexeme rest -> starts_no_value ty = true ->
  (xs = [] -> ty <> TokenType.RightBracket) ->
  exists line col,
    parse ("["%char :: gaps_text inner ++ items_then xs ++ tail)
    = Throw (ParsingError.mk expected_value line col).
Proof.
  intros Ki Hok N S NB.
  apply (element_position inner xs tail ty lexeme rest); auto.
  - intros ->. discriminate.
  - intros p' f (T & _). eexists _, _.
    cbn [Parser.parseArray_loop]. unfold Parser.bind.
    rewrite (starts_no_value_throws ty p' f T S). reflexivity.
Qed.

(** ** Errors inside an object *)

Lemma member_reads l :
  forallb member_ok l = true ->
  Forall (fun m : list Gap * list ascii * list Gap * Doc => reads (snd m)) l.
Proof.
  intros K. rewrite Forall_forall. rewrite forallb_forall in K.
  intros [[[b k] mid] x] I. apply K in I. simpl in I.
  apply andb_prop in I as [_ I]. simpl. now apply doc_reads.
Qed.

Lemma members_first tail m l gs p :
  forallb member_ok (m :: l) = true ->
  forallb gap_ok gs = true ->
  unread (Parser.lexer p) = gaps_text gs ++ members_text (m :: l) ++ tail ->
  exists p2,
    Parser.advance p = Ok (tt, p2)
    /\ Parser.currentIs TokenType.RightBrace p2 = false.
Proof.
  destruct m as [[[b k] mid] x]. intros K B H.
  cbn [forallb member_ok] in K. apply andb_prop in K as [Km _].
  apply andb_prop in Km as [Km _]. apply andb_prop in Km as [Km _].
  apply andb_prop in Km as [Kb Kk].
  cbn [members_text] in H.
  set (after := gaps_text mid
                ++ ":"%char :: doc_text x
                ++ match l with
                   | [] => []
                   | _ :: _ => ","%char :: members_text l
                   end ++ tail).
  assert (H' : unread (Parser.lexer p)
               = gaps_text (gs ++ b) ++ DQUOTE :: k ++ DQUOTE :: after).
  { rewrite H, gaps_text_app. unfold after, quoted. same_text. }
  assert (G : forallb gap_ok (gs ++ b) = true).
  { now rewrite forallb_app, B, Kb. }
  destruct (advance_next p _ TokenType.String (quoted k) after
              (next_is_gaps (gs ++ b) _ _ _ _ G (next_is_string k after Kk)))
    as (p2 & E2 & At2 & _); auto.
  - discriminate.
  - exists p2. split; [exact E2|].
    now rewrite (at_token_is _ _ _ _ At2).
Qed.

(** An object whose members are followed by something else than a comma
    or the closing brace. *)
Lemma object_wrong_end inner m l tail ty lexeme rest :
  forallb gap_ok inner = true -> forallb member_ok (m :: l) = true ->
  delimiter (hd NUL tail) = true ->
  next_is tail ty lexeme rest -> ty <> TokenType.Unknown ->
  ty <> TokenType.Comma -> ty <> TokenType.RightBrace ->
  exists line col,
    parse ("{"%char :: gaps_text inner ++ members_text (m :: l) ++ tail)
    = Throw (ParsingError.mk "Expected ',' or '}' after object member."
               line col).
Proof.
  intros Ki Hok D N U NC NB.
  pose proof (member_reads _ Hok) as Ra.
  set (inside := gaps_text inner ++ members_text (m :: l) ++ tail).
  destruct (open_first "{"%char TokenType.LeftBrace inside eq_refl)
    as (p1 & E1 & At1).
  set (fuel := list_sum (map (fun m : list Gap * list ascii * list Gap * Doc =>
                                let '(_, _, _, y) := m in S (doc_need y))
                           (m :: l))).
  pose proof (at_token_current _ _ _ _ At1) as C1.
  destruct At1 as (T1 & X1 & U1).
  destruct (members_prefix tail ty lexeme rest l m [] fuel inner p1 Ra Hok Ki
              D N U (le_n _) U1) as (p3 & At3 & E3).
  destruct (members_first tail m l inner p1 Hok Ki U1) as (p2 & A2 & R2).
  unfold after_member in E3.
  rewrite (at_token_is _ _ _ _ At3) in E3.
  rewrite (proj2 (TokenType_eqb_neq _ _) NB) in E3.
  unfold Parser.bind at 2, Parser.consume in E3.
  rewrite (at_token_is _ _ _ _ At3) in E3.
  rewrite (proj2 (TokenType_eqb_neq _ _) NC) in E3.
  unfold Parser.throw in E3.
  apply (bind_Throw _ _ _ _ _ _ _ _ A2) in E3.
  eexists _, _. apply parse_throw.
  apply (run_throw_value _ (S (S fuel)) p1 _ E1).
  apply (enter_object fuel p1 p2); auto. exact E3.
Qed.

(** Where the next key is expected: after the opening brace or after the
    comma that follows the members read. *)
Lemma member_position inner ms tail ty lexeme rest msg :
  forallb gap_ok inner = true -> forallb member_ok ms = true ->
  next_is tail ty lexeme rest -> ty <> TokenType.Unknown ->
  (ms = [] -> ty <> TokenType.RightBrace) ->
  (forall p' f, at_token p' ty lexeme rest ->
     exists line col,
       Parser.parseObject_loop (S (S f)) (fold_left member_assign ms []) p'
       = Throw (ParsingError.mk msg line col)) ->
  exists line col,
    parse ("{"%char :: gaps_text inner ++ members_then ms ++ tail)
    = Throw (ParsingError.mk msg line col).
Proof.
  intros Ki Hok N U NB L.
  set (inside := gaps_text inner ++ members_then ms ++ tail).
  destruct (open_first "{"%char TokenType.LeftBrace inside eq_refl)
    as (p1 & E1 & At1).
  pose proof (at_token_current _ _ _ _ At1) as C1.
  destruct At1 as (T1 & X1 & U1).
  destruct ms as [|m l].
  - destruct (advance_next p1 inside ty lexeme rest) as (p2 & E2 & At2 & _);
      auto.
    { now apply next_is_gaps. }
    destruct (L p2 0 At2) as (line & col & E).
    exists line, col. apply parse_throw.
    apply (run_throw_value _ 4 p1 _ E1).
    apply (enter_object 2 p1 p2); auto.
    rewrite (at_token_is _ _ _ _ At2). apply TokenType_eqb_neq. auto.
  - pose proof (member_reads _ Hok) as Ra.
    set (n := list_sum (map (fun m : list Gap * list ascii * list Gap * Doc =>
                                let '(_, _, _, y) := m in S (doc_need y))
                          (m :: l))).
    set (fuel := S (S n) + length (m :: l)).
    assert (U1' : unread (Parser.lexer p1)
                  = gaps_text inner ++ members_text (m :: l)
                    ++ ","%char :: tail).
    { rewrite U1. unfold inside, members_then. now rewrite <- app_assoc. }
    assert (NC : next_is (","%char :: tail) TokenType.Comma (chars ",") tail).
    { now apply next_is_punct. }
    destruct (members_prefix (","%char :: tail) _ _ _ l m [] fuel inner p1 Ra Hok
                Ki eq_refl NC)
      as (p3 & At3 & E3); auto.
    { discriminate. }
    { unfold fuel. fold n. lia. }
    destruct (members_first _ m l inner p1 Hok Ki U1') as (p2 & A2 & R2).
    replace (fuel - length (m :: l)) with (S (S n)) in E3 by (unfold fuel; lia).
    unfold after_member in E3.
    rewrite (at_token_is _ _ _ _ At3) in E3.
    change (TokenType.eqb TokenType.Comma TokenType.RightBrace)
      with false in E3.
    rewrite bind_consume in E3 by apply (at_token_current _ _ _ _ At3).
    destruct At3 as (_ & _ & U3).
    destruct (advance_next p3 tail ty lexeme rest N U U3)
      as (p4 & E4 & At4 & _).
    unfold Parser.bind at 2 in E3. rewrite E4 in E3.
    destruct (L p4 n At4) as (line & col & E).
    rewrite E in E3.
    apply (bind_Throw _ _ _ _ _ _ _ _ A2) in E3.
    exists line, col. apply parse_throw.
    apply (run_throw_value _ (S (S fuel)) p1 _ E1).
    apply (enter_object fuel p1 p2); auto.
Qed.

(** Where a key is expected, a token that is no string. *)
Lemma object_no_key inner ms tail ty lexeme rest :
  forallb gap_ok inner = true -> forallb member_ok ms = true ->
  next_is tail ty lexeme rest -> ty <> TokenType.Unknown ->
  ty <> TokenType.String ->
  (ms = [] -> ty <> TokenType.RightBrace) ->
  exists line col,
    parse ("{"%char :: gaps_text inner ++ members_then ms ++ tail)
    = Throw (ParsingError.mk expected_key line col).
Proof.
  intros Ki Hok N U NS NB.
  apply (member_position inner ms tail ty lexeme rest); auto.
  intros p' f At. eexists _, _.
  cbn [Parser.parseObject_loop].
  rewrite (at_token_is _ _ _ _ At).
  rewrite (proj2 (TokenType_eqb_neq _ _) NS). reflexivity.
Qed.

(** After a key, a token that is no colon. *)
Lemma object_no_colon inner ms before key tail ty lexeme rest :
  forallb gap_ok inner = true -> forallb member_ok ms = true ->
  forallb gap_ok before = true -> closed_body key = true ->
  next_is tail ty lexeme rest -> ty <> TokenType.Unknown ->
  ty <> TokenType.Colon ->
  exists line col,
    parse ("{"%char :: gaps_text inner ++ members_then ms
           ++ gaps_text before ++ quoted key ++ tail)
    = Throw (ParsingError.mk "Expected ':' after object key." line col).
Proof.
  intros Ki Hok Kb Kk N U NC.
  apply (member_position inner ms (gaps_text before ++ quoted key ++ tail)
           TokenType.String (quoted key) tail); auto.
  - apply next_is_gaps; auto. unfold quoted.
    replace ((DQUOTE :: key ++ [DQUOTE]) ++ tail)
      with (DQUOTE :: key ++ DQUOTE :: tail) by same_text.
    now apply next_is_string.
  - discriminate.
  - discriminate.
  - intros p' f At.
    pose proof (at_token_current _ _ _ _ At) as C.
    destruct At as (_ & _ & U').
    destruct (advance_next p' tail ty lexeme rest N U U')
      as (p2 & E2 & At2 & _).
    eexists _, _. cbn [Parser.parseObject_loop]. rewrite C. cbn [negb].
    unfold Parser.bind at 1. rewrite E2.
    unfold Parser.bind at 1, Parser.consume.
    rewrite (at_token_is _ _ _ _ At2).
    rewrite (proj2 (TokenType_eqb_neq _ _) NC). reflexivity.
Qed.

(** After a key and its colon, a token that starts no value. *)
Lemma object_no_value inner ms before key mid tail ty lexeme rest :
  forallb gap_ok inner = true -> forallb member_ok ms = true ->
  forallb gap_ok before = true -> closed_body key = true ->
  forallb gap_ok mid = true ->
  next_is tail ty lexeme rest -> starts_no_value ty = true ->
  exists line col,
    parse ("{"%char :: gaps_text inner ++ members_then ms
           ++ gaps_text before ++ quoted key ++ gaps_text mid
           ++ ":"%char :: tail)
    = Throw (ParsingError.mk expected_value line col).
Proof.
  intros Ki Hok Kb Kk Km N S.
  apply (member_position inner ms
           (gaps_text before ++ quoted key ++ gaps_text mid
            ++ ":"%char :: tail)
           TokenType.String (quoted key)
           (gaps_text mid ++ ":"%char :: tail)); auto.
  - apply next_is_gaps; auto. unfold quoted.
    replace ((DQUOTE :: key ++ [DQUOTE]) ++ gaps_text mid ++ ":"%char :: tail)
      with (DQUOTE :: key ++ DQUOTE :: gaps_text mid ++ ":"%char :: tail)
      by same_text.
    now apply next_is_string.
  - discriminate.
  - discriminate.
  - intros p' f At.
    pose proof (at_token_current _ _ _ _ At) as C.
    destruct At as (_ & _ & U').
    destruct (advance_next p' (gaps_text mid ++ ":"%char :: tail)
                TokenType.Colon (chars ":") tail)
      as (p2 & E2 & At2 & _); auto.
    { apply next_is_gaps; auto. now apply next_is_punct. }
    { discriminate. }
    pose proof (at_token_current _ _ _ _ At2) as C2.
    destruct At2 as (_ & _ & U2).
    destruct (advance_next p2 tail ty lexeme rest N) as (p3 & E3 & At3 & _);
      auto.
    { intros ->. discriminate. }
    destruct At3 as (T3 & _).
    eexists _, _. cbn [Parser.parseObject_loop]. rewrite C. cbn [negb].
    unfold Parser.bind at 1. rewrite E2.
    rewrite bind_consume by exact C2.
    unfold Parser.bind at 1. rewrite E3.
    unfold Parser.bind at 1.
    rewrite (starts_no_value_throws ty p3 f T3 S). reflexivity.
Qed.

(** ** The counters stay within the text *)

Lemma count_LF_firstn_S s : forall n,
  n < length s ->
  count_LF (firstn (S n) s)
  = count_LF (firstn n s) + (if (nth n s NUL =? LF)%char then 1 else 0).
Proof.
  unfold count_LF. induction s as [|c s IH]; intros n L; [simpl in L; lia|].
  destruct n as [|n].
  - simpl. destruct (c =? LF)%char; reflexivity.
  - simpl in L. change (firstn (S (S n)) (c :: s)) with (c :: firstn (S n) s).
    change (firstn (S n) (c :: s)) with (c :: firstn n s).
    cbn [filter nth]. specialize (IH n ltac:(lia)).
    destruct (c =? LF)%char; cbn [length]; rewrite IH; lia.
Qed.

Lemma count_LF_firstn s : forall n, count_LF (firstn n s) <= count_LF s.
Proof.
  unfold count_LF. induction s as [|c s IH]; intros [|n]; simpl; try lia.
  specialize (IH n). destruct (c =? LF)%char; simpl; lia.
Qed.

Lemma count_LF_skipn s n : count_LF (skipn n s) <= count_LF s.
Proof.
  rewrite <- (firstn_skipn n s) at 2. unfold count_LF.
  rewrite filter_app, length_app. lia.
Qed.

Lemma placed_new source : placed (Lexer.new source).
Proof. unfold placed. simpl. lia. Qed.

Lemma placed_advance lx : placed lx -> placed (Lexer.advance_ lx).
Proof.
  unfold placed, Lexer.advance_, Lexer.advance.
  destruct (Lexer.isAtEnd lx) eqn:E; [auto|].
  cbn [Lexer.lineNum Lexer.colNum Lexer.current Lexer.source snd].
  unfold Lexer.isAtEnd in E. apply Nat.leb_gt in E.
  rewrite (count_LF_firstn_S _ _ E). lia.
Qed.

(** At a line feed: [lineNum++; colNum = 1;] before or after the
    [advance()] that reads it. *)
Lemma placed_newline lx :
  Lexer.peek lx = LF -> placed lx ->
  placed (Lexer.advance_ (Lexer.newline lx))
  /\ placed (Lexer.newline (Lexer.advance_ lx)).
Proof.
  intros P.
  assert (E : Lexer.isAtEnd lx = false).
  { apply peek_not_end. rewrite P. discriminate. }
  unfold Lexer.peek in P. rewrite E in P.
  unfold placed, Lexer.advance_, Lexer.advance, Lexer.newline.
  change (Lexer.isAtEnd (Lexer.mk _ _ _ _ _ _ _)) with (Lexer.isAtEnd lx).
  rewrite E.
  cbn [Lexer.lineNum Lexer.colNum Lexer.current Lexer.source snd].
  unfold Lexer.isAtEnd in E. apply Nat.leb_gt in E.
  rewrite (count_LF_firstn_S _ _ E), P.
  change (LF =? LF)%char with true. cbv iota. lia.
Qed.

Lemma placed_while cond body lx :
  (forall l, cond l = true -> placed l -> placed (body l)) ->
  placed lx -> placed (Lexer.while cond body lx).
Proof. intros B. unfold Lexer.while. now apply while_fuel_inv. Qed.

Lemma placed_blockComment_body lx :
  placed lx -> placed (Lexer.blockComment_body lx).
Proof.
  intros H. unfold Lexer.blockComment_body.
  destruct (Lexer.peek lx =? LF)%char eqn:P.
  - apply Ascii.eqb_eq in P. now apply placed_newline.
  - now apply placed_advance.
Qed.

Lemma placed_stringToken_body lx :
  placed lx -> placed (Lexer.stringToken_body lx).
Proof.
  intros H. unfold Lexer.stringToken_body. cbv zeta.
  destruct (Lexer.peek lx =? LF)%char eqn:P.
  - apply Ascii.eqb_eq in P.
    change (Lexer.peek (Lexer.newline lx)) with (Lexer.peek lx).
    rewrite P. change (LF =? BACKSLASH)%char with false. cbv iota.
    now apply placed_newline.
  - destruct (Lexer.peek lx =? BACKSLASH)%char; auto using placed_advance.
Qed.

Lemma placed_skip_next lx lx' :
  skip_next lx = Some lx' -> placed lx -> placed lx'.
Proof.
  unfold skip_next. intros H K.
  destruct (_ || _).
  { injection H as <-. now apply placed_advance. }
  destruct (Lexer.peek lx =? LF)%char eqn:P.
  { injection H as <-. apply Ascii.eqb_eq in P. now apply placed_newline. }
  destruct (Lexer.peek lx =? "/")%char; [|discriminate].
  destruct (Lexer.peekNext lx =? "/")%char.
  { injection H as <-. apply placed_while; auto.
    intros l _. apply placed_advance. }
  destruct (Lexer.peekNext lx =? "*")%char; [|discriminate].
  injection H as <-. cbv zeta.
  assert (B : placed (Lexer.blockComment_loop
                        (Lexer.advance_ (Lexer.advance_ lx)))).
  { apply placed_while; auto using placed_advance.
    intros l _. apply placed_blockComment_body. }
  repeat match goal with
         | |- context [if ?b then _ else _] => destruct b
         end; auto using placed_advance.
Qed.

Lemma placed_skip lx :
  placed lx -> placed (Lexer.skipWhitespaceAndComments lx).
Proof.
  unfold Lexer.skipWhitespaceAndComments.
  generalize (length (Lexer.source lx) - Lexer.current lx). intros n.
  revert lx. induction n as [|n IH]; intros lx K; [exact K|].
  rewrite skip_fuel_S. destruct (skip_next lx) as [lx'|] eqn:C; [|exact K].
  apply IH. eapply placed_skip_next; eauto.
Qed.

Lemma placed_mark lx : placed lx -> placed (mark lx).
Proof. unfold placed, mark. simpl. auto. Qed.

Lemma placed_scanToken lx : placed lx -> placed (snd (scanToken lx)).
Proof.
  intros K. unfold scanToken. destruct (Lexer.isAtEnd lx); [exact K|].
  pose proof (placed_advance lx K) as A. unfold Lexer.advance_ in A.
  destruct (Lexer.advance lx) as [c l1]. simpl in A.
  assert (D : forall l, placed l -> placed (Lexer.digit_loop l)).
  { intros l. apply placed_while. intros l' _. apply placed_advance. }
  unfold Lexer.stringToken, Lexer.numberToken, Lexer.identifierToken.
  cbv zeta.
  assert (St : placed (Lexer.stringToken_loop l1)).
  { apply placed_while; auto. intros l _. apply placed_stringToken_body. }
  assert (Al : placed (Lexer.alpha_loop l1)).
  { apply placed_while; auto. intros l' _. apply placed_advance. }
  repeat match goal with
         | |- context [if ?b then _ else _] => destruct b
         end; cbn [snd]; auto 7 using placed_advance.
Qed.

(** [nextToken] on a lexer whose counters are within the text: the token
    lies in the text, and the counters stay within it. *)
Lemma placed_nextToken lx :
  placed lx ->
  placed (snd (Lexer.nextToken lx))
  /\ Lexer.source (snd (Lexer.nextToken lx)) = Lexer.source lx
  /\ in_text (Lexer.source lx) (Token.line (fst (Lexer.nextToken lx)))
       (Token.col (fst (Lexer.nextToken lx))).
Proof.
  intros K. destruct (forward_nextToken lx) as (S1 & _).
  rewrite nextToken_scan in *.
  pose proof (placed_mark _ (placed_skip lx K)) as M.
  split; [now apply placed_scanToken|]. split; [exact S1|].
  destruct (scanToken_position (mark (Lexer.skipWhitespaceAndComments lx)))
    as (-> & ->).
  destruct (forward_skip lx) as (S2 & _).
  destruct M as (L1 & L2 & C1 & C2 & B). simpl in *. rewrite S2 in *.
  pose proof (count_LF_firstn (Lexer.source lx)
                (Lexer.current (Lexer.skipWhitespaceAndComments lx))).
  unfold in_text. lia.
Qed.

(** ** Every error lies in the text and carries a message of [parse] *)

Lemma outcome_bind A B (m : Parser.M A) (k : A -> Parser.M B) p Q R E :
  outcome (m p) Q E ->
  (forall a p1, m p = Ok (a, p1) -> Q p1 -> outcome (k a p1) R E) ->
  outcome (Parser.bind m k p) R E.
Proof.
  unfold Parser.bind, outcome. intros H K.
  destruct (m p) as [[a p1]| |]; auto. now apply K.
Qed.

Lemma outcome_weaken A (r : result (A * Parser.t)) (Q Q' : Parser.t -> Prop) E :
  (forall p, Q p -> Q' p) -> outcome r Q E -> outcome r Q' E.
Proof. unfold outcome. destruct r as [[a p]| |]; auto. Qed.

Lemma outcome_throw A msg source p Q :
  In msg parse_messages -> sited source p ->
  outcome (@Parser.throw A msg p) Q (sound source).
Proof.
  intros I (_ & _ & T). unfold Parser.throw, outcome, sound. simpl. auto.
Qed.

Lemma outcome_advance_from p :
  placed (Parser.lexer p) ->
  outcome (Parser.advance p) (sited (Lexer.source (Parser.lexer p)))
    (sound (Lexer.source (Parser.lexer p))).
Proof.
  intros K. destruct (placed_nextToken _ K) as (K1 & S1 & T1).
  unfold Parser.advance.
  destruct (Lexer.nextToken (Parser.lexer p)) as [tok lx]. simpl in *.
  destruct (Parser.currentIs TokenType.Unknown _).
  - unfold Parser.throw, outcome, sound. simpl. split; [|exact T1].
    left. reflexivity.
  - unfold Parser.ret, outcome, sited. simpl. auto.
Qed.

Lemma outcome_advance source p :
  sited source p ->
  outcome (Parser.advance p) (sited source) (sound source).
Proof. intros (<- & K & _). now apply outcome_advance_from. Qed.

(** [consume] with a message of the list, and [consume] at the token it
    asks for, where its message is never thrown. *)
Lemma outcome_consume source ty msg p :
  sited source p ->
  In msg parse_messages \/ Parser.currentIs ty p = true ->
  outcome (Parser.consume ty msg p) (sited source) (sound source).
Proof.
  intros K H. unfold Parser.consume.
  destruct (Parser.currentIs ty p).
  - now apply outcome_advance.
  - destruct H as [H|H]; [|discriminate]. now apply outcome_throw.
Qed.

Lemma outcome_advance_ret A (a : A) source p :
  sited source p ->
  outcome (Parser.bind Parser.advance (fun _ => Parser.ret a) p)
    (sited source) (sound source).
Proof.
  intros K. eapply outcome_bind; [now apply outcome_advance|].
  intros _ p1 _ K1. exact K1.
Qed.

Lemma outcome_parseNumber source p :
  sited source p ->
  outcome (Parser.parseNumber p) (sited source) (sound source).
Proof.
  intros K. unfold Parser.parseNumber.
  destruct (Std.stod _).
  - destruct (negb _).
    + apply outcome_throw; auto. simpl. tauto.
    + now apply outcome_advance_ret.
  - apply outcome_throw; auto. simpl. tauto.
  - apply outcome_throw; auto. simpl. tauto.
Qed.

(** [parseObject] and [parseArray] are entered at their opening token,
    and their loops are left at the closing one: the four messages for a
    missing opening or closing token are never thrown. *)
Lemma outcome_parse source fuel :
  triple (sited source) (Parser.parseValue fuel) (sited source) (sound source)
  /\ triple
       (fun p => sited source p
                 /\ Parser.currentIs TokenType.LeftBrace p = true)
       (Parser.parseObject fuel) (sited source) (sound source)
  /\ (forall o,
        triple (sited source) (Parser.parseObject_loop fuel o)
          (fun p => sited source p
                    /\ Parser.currentIs TokenType.RightBrace p = true)
          (sound source))
  /\ triple
       (fun p => sited source p
                 /\ Parser.currentIs TokenType.LeftBracket p = true)
       (Parser.parseArray fuel) (sited source) (sound source)
  /\ (forall a,
        triple (sited source) (Parser.parseArray_loop fuel a)
          (fun p => sited source p
                    /\ Parser.currentIs TokenType.RightBracket p = true)
          (sound source)).
Proof.
  induction fuel as [|fuel (IHv & IHo & IHol & IHa & IHal)].
  { repeat split; intros; exact I. }
  split; [|split; [|split; [|split]]].
  - intros p K. cbn [Parser.parseValue].
    destruct (Token.type (Parser.currentToken p)) eqn:T;
      try (apply outcome_throw; [simpl; tauto | exact K]);
      try (now apply outcome_advance_ret).
    + eapply outcome_bind.
      * apply IHo. split; [exact K|]. now apply currentIs_true.
      * intros o p1 _ K1. exact K1.
    + eapply outcome_bind.
      * apply IHa. split; [exact K|]. now apply currentIs_true.
      * intros a p1 _ K1. exact K1.
    + now apply outcome_parseNumber.
  - intros p (K & C). cbn [Parser.parseObject].
    eapply outcome_bind; [apply outcome_consume; auto|].
    intros _ p1 _ K1.
    apply (outcome_bind _ _ _ _ _
             (fun p => sited source p
                       /\ Parser.currentIs TokenType.RightBrace p = true)).
    + destruct (Parser.currentIs TokenType.RightBrace p1) eqn:R; cbn [negb].
      * unfold Parser.ret, outcome. auto.
      * now apply IHol.
    + intros o p2 _ (K2 & R2).
      eapply outcome_bind; [apply outcome_consume; auto|].
      intros _ p3 _ K3. exact K3.
  - intros o p K. cbn [Parser.parseObject_loop].
    destruct (negb (Parser.currentIs TokenType.String p)).
    { apply outcome_throw; [simpl; tauto | exact K]. }
    eapply outcome_bind; [now apply outcome_advance|].
    intros _ p1 _ K1.
    eapply outcome_bind; [apply outcome_consume; auto; left; simpl; tauto|].
    intros _ p2 _ K2.
    eapply outcome_bind; [now apply IHv|].
    intros value p3 _ K3.
    destruct (Parser.currentIs TokenType.RightBrace p3) eqn:R.
    { unfold Parser.ret, outcome. auto. }
    eapply outcome_bind; [apply outcome_consume; auto; left; simpl; tauto|].
    intros _ p4 _ K4. now apply IHol.
  - intros p (K & C). cbn [Parser.parseArray].
    eapply outcome_bind; [apply outcome_consume; auto|].
    intros _ p1 _ K1.
    apply (outcome_bind _ _ _ _ _
             (fun p => sited source p
                       /\ Parser.currentIs TokenType.RightBracket p = true)).
    + destruct (Parser.currentIs TokenType.RightBracket p1) eqn:R; cbn [negb].
      * unfold Parser.ret, outcome. auto.
      * now apply IHal.
    + intros o p2 _ (K2 & R2).
      eapply outcome_bind; [apply outcome_consume; auto|].
      intros _ p3 _ K3. exact K3.
  - intros a p K. cbn [Parser.parseArray_loop].
    eapply outcome_bind; [now apply IHv|].
    intros value p3 _ K3.
    destruct (Parser.currentIs TokenType.RightBracket p3) eqn:R.
    { unfold Parser.ret, outcome. auto. }
    eapply outcome_bind; [apply outcome_consume; auto; left; simpl; tauto|].
    intros _ p4 _ K4. now apply IHal.
Qed.

Lemma sound_stripBOM source e :
  sound (Parser.stripBOM source) e -> sound source e.
Proof.
  unfold sound, in_text, Parser.stripBOM. intros (M & L1 & L2 & C1 & C2).
  split; [exact M|]. destruct (Parser.hasBOM source); [|auto].
  pose proof (count_LF_skipn source 3). rewrite length_skipn in C2. lia.
Qed.

(** Every error of [parse] carries one of its nine messages, a line
    between 1 and the number of lines of the input, and a column between
    1 and the length of the input and one. *)
Lemma parse_sound source e : parse source = Throw e -> sound source e.
Proof.
  intros H. apply sound_stripBOM.
  unfold parse, Parser.parse, Parser.run in H.
  set (s := Parser.stripBOM source) in *.
  unfold Parser.new in H. fold (initial s) in H.
  pose proof (outcome_advance_from (initial s) (placed_new s)) as A.
  cbn [initial Parser.lexer Lexer.new Lexer.source] in A.
  destruct (Parser.advance (initial s)) as [[[] p]| |] eqn:E.
  - pose proof (proj1 (outcome_parse s (Parser.fuelFor s)) p A) as V.
    destruct (Parser.parseValue _ p) as [[v p']| |]; try discriminate.
    injection H as <-. exact V.
  - injection H as <-. exact A.
  - discriminate.
Qed.

(** ** The column after a block comment of several lines *)

Lemma counted_position body : forall lx c d,
  Lexer.colNum lx = c + ahead_by d ->
  Lexer.lineNum (counted body lx)
  = fst (position_from body (length body) (Lexer.lineNum lx) c)
  /\ Lexer.colNum (counted body lx)
     = snd (position_from body (length body) (Lexer.lineNum lx) c)
       + ahead_by (if no_LF body then d else true).
Proof.
  induction body as [|c0 body IH]; intros lx c d H.
  - simpl. auto.
  - cbn [counted length position_from no_LF forallb].
    destruct (c0 =? LF)%char eqn:E; cbn [negb andb].
    + destruct (IH (advanced 1 (Lexer.newline lx)) 1 true eq_refl)
        as (L & C).
      rewrite L, C. cbn [advanced Lexer.newline Lexer.lineNum].
      split; [reflexivity|]. now destruct (no_LF body).
    + destruct (IH (advanced 1 lx) (S c) d) as (L & C).
      { cbn [advanced Lexer.colNum]. rewrite H. lia. }
      rewrite L, C. cbn [advanced Lexer.lineNum]. split; reflexivity.
Qed.

Lemma position_from_whole a b line col :
  position_from (a ++ b) (length (a ++ b)) line col
  = position_from b (length b)
      (fst (position_from a (length a) line col))
      (snd (position_from a (length a) line col)).
Proof. rewrite length_app. apply position_from_app. Qed.

Lemma passed_drift g lx c d :
  gap_ok g = true -> Lexer.colNum lx = c + ahead_by d ->
  Lexer.lineNum (passed lx g)
  = fst (position_from (gap_text g) (length (gap_text g))
           (Lexer.lineNum lx) c)
  /\ Lexer.colNum (passed lx g)
     = snd (position_from (gap_text g) (length (gap_text g))
              (Lexer.lineNum lx) c)
       + ahead_by (drift d g).
Proof.
  intros K H. destruct g as [b|body|body]; simpl in K.
  - simpl. destruct (b =? LF)%char; simpl; [auto|]. rewrite H. split; lia.
  - cbn [passed gap_text drift].
    change ("/"%char :: "/"%char :: body ++ [LF])
      with (("/"%char :: "/"%char :: body) ++ [LF]).
    rewrite length_app, position_from_app.
    rewrite (position_from_one_line ("/"%char :: "/"%char :: body))
      by exact K.
    simpl. auto.
  - cbn [passed gap_text drift].
    destruct (counted_position body (advanced 2 lx) (S (S c)) d) as (L & C).
    { cbn [advanced Lexer.colNum]. rewrite H. lia. }
    cbn [advanced Lexer.lineNum Lexer.colNum] in *. rewrite L, C.
    rewrite (position_from_whole
               ["/"%char; "*"%char] (body ++ ["*"%char; "/"%char])).
    rewrite (position_from_whole body ["*"%char; "/"%char]).
    cbn [fst snd position_from length].
    change ("/" =? LF)%char with false. change ("*" =? LF)%char with false.
    cbv iota. cbn [fst snd].
    destruct (position_from body (length body) (Lexer.lineNum lx) (S (S c)))
      as [l k].
    cbn [fst snd]. split; [reflexivity|lia].
Qed.

Lemma passed_drifts gs : forall lx c d,
  forallb gap_ok gs = true -> Lexer.colNum lx = c + ahead_by d ->
  Lexer.lineNum (fold_left passed gs lx)
  = fst (position_from (gaps_text gs) (length (gaps_text gs))
           (Lexer.lineNum lx) c)
  /\ Lexer.colNum (fold_left passed gs lx)
     = snd (position_from (gaps_text gs) (length (gaps_text gs))
              (Lexer.lineNum lx) c)
       + ahead_by (fold_left drift gs d).
Proof.
  induction gs as [|g gs IH]; intros lx c d K H.
  - simpl. auto.
  - simpl in K. apply andb_prop in K as [K1 K2].
    unfold gaps_text. simpl. fold (gaps_text gs).
    rewrite length_app, <- (Nat.add_0_r (length (gaps_text gs))).
    rewrite position_from_app.
    destruct (passed_drift g lx c d K1 H) as (L & C).
    destruct (IH (passed lx g) _ _ K2 C) as (L' & C').
    rewrite L', C', L, Nat.add_0_r. auto.
Qed.

(** The first token after any white space and comments: its line is the
    line of its first character, and its column the column of that
    character, or one more when the last line feed before it stands in a
    block comment. *)
Lemma first_token_drift gs text :
  forallb gap_ok gs = true ->
  token_start (hd NUL text) = true ->
  (Token.line (fst (Lexer.nextToken (Lexer.new (gaps_text gs ++ text)))),
   Token.col (fst (Lexer.nextToken (Lexer.new (gaps_text gs ++ text)))))
  = (fst (position (gaps_text gs ++ text) (length (gaps_text gs))),
     snd (position (gaps_text gs ++ text) (length (gaps_text gs)))
     + ahead_by (fold_left drift gs false)).
Proof.
  intros K T.
  destruct (skip_gaps gs (Lexer.new (gaps_text gs ++ text)) text K
              (unread_new _)) as (E & S1 & U).
  rewrite nextToken_scan, E, skip_stop by now rewrite U.
  destruct (scanToken_position
              (mark (fold_left passed gs (Lexer.new (gaps_text gs ++ text)))))
    as (-> & ->).
  cbn [mark Lexer.lineStart Lexer.colStart].
  destruct (passed_drifts gs (Lexer.new (gaps_text gs ++ text)) 1 false K
              eq_refl) as (L & C).
  rewrite L, C. unfold position.
  rewrite <- (Nat.add_0_r (length (gaps_text gs))) at 3 4.
  rewrite position_from_app. simpl.
  now destruct (position_from (gaps_text gs) _ 1 1), text.
Qed.

(** An Unknown token after the gaps: the error of [Parser::advance] at
    that line and column. *)
Lemma parse_drift_unknown gs text lexeme rest :
  forallb gap_ok gs = true ->
  token_start (hd NUL text) = true ->
  Parser.hasBOM (gaps_text gs ++ text) = false ->
  next_is text TokenType.Unknown lexeme rest ->
  parse (gaps_text gs ++ text)
  = Throw (ParsingError.mk unexpected
             (fst (position (gaps_text gs ++ text) (length (gaps_text gs))))
             (snd (position (gaps_text gs ++ text) (length (gaps_text gs)))
              + ahead_by (fold_left drift gs false))).
Proof.
  intros K T B N.
  pose proof (first_token_drift gs text K T) as P.
  destruct (next_is_gaps gs text _ _ _ K N
              (Lexer.new (gaps_text gs ++ text)) (unread_new _))
    as (tok & lx & E & Ty & _).
  rewrite E in P. cbn [fst] in P. injection P as Pl Pc.
  unfold parse, Parser.parse, Parser.run, Parser.new, Parser.stripBOM.
  rewrite B. unfold Parser.advance. cbn [Parser.lexer]. rewrite E.
  unfold Parser.currentIs. cbn [Parser.currentToken]. rewrite Ty.
  cbn [TokenType.eqb]. unfold Parser.throw. cbn [Parser.currentToken].
  now rewrite Pl, Pc.
Qed.

(** ** The byte order mark *)

(** One mark is dropped, and the lexer is made over what follows it:
    lines and columns count from there. *)
Lemma parse_BOM s : Parser.hasBOM s = false -> parse (BOM ++ s) = parse s.
Proof.
  intros H. unfold parse, Parser.parse, Parser.run.
  change (Parser.stripBOM (BOM ++ s)) with s.
  unfold Parser.stripBOM. now rewrite H.
Qed.

(** A second mark is not dropped: it is a character that starts no
    token. *)
Lemma parse_BOM_twice s :
  parse (BOM ++ BOM ++ s) = Throw (ParsingError.mk unexpected 1 1).
Proof.
  destruct (first_token [] (BOM ++ s) TokenType.Unknown [ascii_of_nat 239]
              (ascii_of_nat 187 :: ascii_of_nat 191 :: s))
    as (lx & E & _); [reflexivity|reflexivity|reflexivity| |].
  { now apply (next_is_stray (ascii_of_nat 239)). }
  unfold parse, Parser.parse, Parser.run, Parser.new.
  change (Parser.stripBOM (BOM ++ BOM ++ s)) with (BOM ++ s).
  change (gaps_text [] ++ BOM ++ s) with (BOM ++ s) in E.
  unfold Parser.advance. cbn [Parser.lexer]. rewrite E. reflexivity.
Qed.

(** ** An Unknown token after a JSON text *)

Lemma advance_ret_unknown A (a : A) p text lexeme rest :
  next_is text TokenType.Unknown lexeme rest ->
  unread (Parser.lexer p) = text ->
  exists line col,
    Parser.bind Parser.advance (fun _ => Parser.ret a) p
    = Throw (ParsingError.mk unexpected line col).
Proof.
  intros N H. destruct (advance_unknown p _ _ _ N H) as (line & col & E).
  exists line, col. unfold Parser.bind. now rewrite E.
Qed.

(** A text of one token. *)
Lemma refused_token d text ty :
  doc_text d = text -> 1 <= doc_need d -> ty <> TokenType.Unknown ->
  (forall tail, delimiter (hd NUL tail) = true ->
     next_is (text ++ tail) ty text tail) ->
  (forall fuel p, Token.type (Parser.currentToken p) = ty ->
     Token.lexeme (Parser.currentToken p) = text ->
     Parser.parseValue (S fuel) p
     = Parser.bind Parser.advance (fun _ => Parser.ret (doc_value d)) p) ->
  refused d.
Proof.
  intros S Nd K Nx V gs tail lexeme rest fuel p B D N L H.
  rewrite S in H. destruct fuel as [|fuel]; [lia|].
  destruct (advance_next p (gaps_text gs ++ text ++ tail) ty text tail)
    as (p1 & E1 & At1 & _); auto.
  { apply next_is_gaps; auto. }
  unfold Parser.bind at 1. rewrite E1.
  destruct At1 as (T1 & X1 & U1). rewrite (V fuel p1 T1 X1).
  now apply advance_ret_unknown with (text := tail) (lexeme := lexeme)
                                     (rest := rest).
Qed.

Lemma refused_word d c w ty :
  Std.isalpha c = true -> forallb Std.isalpha w = true ->
  word_type (c :: w) = ty -> ty <> TokenType.Unknown ->
  doc_text d = c :: w -> doc_need d = 1 ->
  (forall fuel p, Token.type (Parser.currentToken p) = ty ->
     Parser.parseValue (S fuel) p
     = Parser.bind Parser.advance (fun _ => Parser.ret (doc_value d)) p) ->
  refused d.
Proof.
  intros C W T K S Nd V.
  apply (refused_token d (c :: w) ty); auto; try lia.
  intros tail D. rewrite <- T. apply next_is_word; auto.
  now apply delimiter_alpha.
Qed.

Lemma refused_number text :
  doc_ok (DNumber text) = true -> refused (DNumber text).
Proof.
  intros Hok. destruct text as [|c t]; [discriminate Hok|].
  cbn [doc_ok] in Hok.
  apply andb_prop in Hok as [Hok St]. apply andb_prop in Hok as [Dc Sc].
  assert (Sc' : snd (number_scan t) = []).
  { destruct (number_scan t) as [a [|? ?]]; [reflexivity|discriminate]. }
  destruct (Std.stod (c :: t)) as [value pos| |] eqn:Sd; try discriminate St.
  apply (refused_token (DNumber (c :: t)) (c :: t) TokenType.Number); auto.
  - discriminate.
  - intros tail D. apply next_is_number; auto. now apply number_scan_whole.
  - intros fuel p T X. cbn [Parser.parseValue doc_value]. rewrite T.
    unfold Parser.parseNumber. rewrite X, Sd, St. reflexivity.
Qed.

Lemma refused_string body :
  doc_ok (DString body) = true -> refused (DString body).
Proof.
  intros Hok. cbn [doc_ok] in Hok.
  apply (refused_token (DString body) (quoted body) TokenType.String); auto.
  - discriminate.
  - intros tail D. unfold quoted.
    replace ((DQUOTE :: body ++ [DQUOTE]) ++ tail)
      with (DQUOTE :: body ++ DQUOTE :: tail) by same_text.
    now apply next_is_string.
  - intros fuel p T X. cbn [Parser.parseValue doc_value]. rewrite T.
    unfold Parser.parseString. now rewrite X, parseString_quoted.
Qed.

(** The closing bracket or brace of a value, and an Unknown token after
    it. *)
Lemma close_refused A (items : A) (wrap : A -> JsonValue) close msg p
    tail lexeme rest :
  Parser.currentIs close p = true ->
  next_is tail TokenType.Unknown lexeme rest ->
  unread (Parser.lexer p) = tail ->
  exists line col,
    Parser.bind
      (Parser.bind (Parser.consume close msg) (fun _ => Parser.ret items))
      (fun x => Parser.ret (wrap x)) p
    = Throw (ParsingError.mk unexpected line col).
Proof.
  intros C N U. rewrite bind_assoc, (bind_consume _ _ _ _ _ C).
  destruct (advance_unknown p _ _ _ N U) as (line & col & E).
  exists line, col. unfold Parser.bind. now rewrite E.
Qed.

Lemma doc_refused d : doc_ok d = true -> refused d.
Proof.
  induction d as [| | |text|body|inner items|inner members
                 |before d IH after]; intros Hok.
  - apply (refused_word DNull "n"%char (chars "ull") TokenType.Null); auto.
    + discriminate.
    + intros fuel p T. simpl. now rewrite T.
  - apply (refused_word DTrue "t"%char (chars "rue") TokenType.True); auto.
    + discriminate.
    + intros fuel p T. simpl. now rewrite T.
  - apply (refused_word DFalse "f"%char (chars "alse") TokenType.False); auto.
    + discriminate.
    + intros fuel p T. simpl. now rewrite T.
  - now apply refused_number.
  - now apply refused_string.
  - (* an array *)
    cbn [doc_ok] in Hok. apply andb_prop in Hok as [Ki Hok].
    assert (Ra : Forall reads items).
    { rewrite Forall_forall. rewrite forallb_forall in Hok.
      intros y I. apply doc_reads. auto. }
    clear Hok.
    intros gs tail lexeme rest fuel p B D N L H.
    rewrite doc_text_array in H.
    destruct fuel as [|[|fuel]]; try (simpl in L; lia).
    set (inside := gaps_text inner ++ items_text items ++ chars "]" ++ tail).
    destruct (advance_next p (gaps_text gs ++ "["%char :: inside)
                TokenType.LeftBracket (chars "[") inside)
      as (p1 & E1 & At1 & _); auto.
    { apply next_is_gaps; auto. now apply next_is_punct. }
    { discriminate. }
    { rewrite H. subst inside. same_text. }
    unfold Parser.bind at 1. rewrite E1.
    cbn [Parser.parseValue]. destruct At1 as (T1 & X1 & U1). rewrite T1.
    cbn [Parser.parseArray Parser.parseObject]. rewrite bind_assoc.
    rewrite (bind_consume _ _ _ _ _ (proj2 (currentIs_true _ _) T1)).
    assert (Nb : next_is (gaps_text inner ++ chars "]" ++ tail)
                   TokenType.RightBracket (chars "]") tail).
    { apply next_is_gaps; auto. apply next_is_bracket. }
    destruct items as [|x l].
    + destruct (advance_next p1 _ _ _ _ Nb ltac:(discriminate) U1)
        as (p2 & E2 & At2 & _).
      rewrite (bind_eq _ _ _ _ _ _ _ E2), bind_assoc.
      assert (Ck : (fun p =>
                      if negb (Parser.currentIs TokenType.RightBracket p)
                      then Parser.parseArray_loop fuel [] p
                      else Parser.ret [] p) p2 = Ok ([], p2)).
      { cbv beta. now rewrite (at_token_current _ _ _ _ At2). }
      rewrite (bind_eq _ _ _ _ _ _ _ Ck).
      apply close_refused with (tail := tail) (lexeme := lexeme)
                               (rest := rest); auto;
        [apply (at_token_current _ _ _ _ At2)|apply At2].
    + destruct (items_loop tail l x [] fuel inner p1 Ra Ki)
        as (p3 & E3 & At3); auto.
      { simpl in L. simpl. lia. }
      pose proof E3 as E2.
      apply bind_Ok in E2 as ([] & p2 & E2 & _).
      rewrite (bind_eq _ _ _ _ _ _ _ E2), bind_assoc.
      rewrite (bind_eq _ _ _ _ _ _ _ E2) in E3.
      assert (Hs : Parser.currentIs TokenType.RightBracket p2 = false).
      { destruct fuel as [|fuel]; [discriminate|].
        cbn [Parser.parseArray_loop] in E3.
        apply bind_Ok in E3 as (y & q & E3 & _).
        eapply parseValue_start; eauto. }
      assert (Ck : (fun p =>
                      if negb (Parser.currentIs TokenType.RightBracket p)
                      then Parser.parseArray_loop fuel [] p
                      else Parser.ret [] p) p2
                   = Ok (map doc_value (x :: l), p3)).
      { cbv beta. now rewrite Hs. }
      rewrite (bind_eq _ _ _ _ _ _ _ Ck).
      apply close_refused with (tail := tail) (lexeme := lexeme)
                               (rest := rest); auto;
        [apply (at_token_current _ _ _ _ At3)|apply At3].
  - (* an object *)
    cbn [doc_ok] in Hok. apply andb_prop in Hok as [Ki Hok].
    change (forallb member_ok members = true) in Hok.
    pose proof (member_reads _ Hok) as Ro.
    intros gs tail lexeme rest fuel p B D N L H.
    rewrite doc_text_object in H.
    destruct fuel as [|[|fuel]]; try (simpl in L; lia).
    set (inside := gaps_text inner ++ members_text members
                   ++ chars "}" ++ tail).
    destruct (advance_next p (gaps_text gs ++ "{"%char :: inside)
                TokenType.LeftBrace (chars "{") inside)
      as (p1 & E1 & At1 & _); auto.
    { apply next_is_gaps; auto. now apply next_is_punct. }
    { discriminate. }
    { rewrite H. subst inside. same_text. }
    unfold Parser.bind at 1. rewrite E1.
    cbn [Parser.parseValue]. destruct At1 as (T1 & X1 & U1). rewrite T1.
    cbn [Parser.parseArray Parser.parseObject]. rewrite bind_assoc.
    rewrite (bind_consume _ _ _ _ _ (proj2 (currentIs_true _ _) T1)).
    assert (Nb : next_is (gaps_text inner ++ chars "}" ++ tail)
                   TokenType.RightBrace (chars "}") tail).
    { apply next_is_gaps; auto. apply next_is_brace. }
    destruct members as [|m l].
    + destruct (advance_next p1 _ _ _ _ Nb ltac:(discriminate) U1)
        as (p2 & E2 & At2 & _).
      rewrite (bind_eq _ _ _ _ _ _ _ E2), bind_assoc.
      assert (Ck : (fun p =>
                      if negb (Parser.currentIs TokenType.RightBrace p)
                      then Parser.parseObject_loop fuel [] p
                      else Parser.ret [] p) p2 = Ok ([], p2)).
      { cbv beta. now rewrite (at_token_current _ _ _ _ At2). }
      rewrite (bind_eq _ _ _ _ _ _ _ Ck).
      apply close_refused with (tail := tail) (lexeme := lexeme)
                               (rest := rest); auto;
        [apply (at_token_current _ _ _ _ At2)|apply At2].
    + destruct (members_loop tail l m [] fuel inner p1 Ro Hok Ki)
        as (p3 & E3 & At3); auto.
      { simpl in L. simpl. lia. }
      pose proof E3 as E2.
      apply bind_Ok in E2 as ([] & p2 & E2 & _).
      rewrite (bind_eq _ _ _ _ _ _ _ E2), bind_assoc.
      rewrite (bind_eq _ _ _ _ _ _ _ E2) in E3.
      assert (Hs : Parser.currentIs TokenType.RightBrace p2 = false).
      { destruct fuel as [|fuel]; [discriminate|].
        cbn [Parser.parseObject_loop] in E3.
        destruct (negb (Parser.currentIs TokenType.String p2)) eqn:Q;
          [discriminate|].
        apply negb_false_iff, currentIs_true in Q.
        apply currentIs_false. rewrite Q. discriminate. }
      assert (Ck : (fun p =>
                      if negb (Parser.currentIs TokenType.RightBrace p)
                      then Parser.parseObject_loop fuel [] p
                      else Parser.ret [] p) p2
                   = Ok (fold_left member_assign (m :: l) [], p3)).
      { cbv beta. now rewrite Hs. }
      rewrite (bind_eq _ _ _ _ _ _ _ Ck).
      apply close_refused with (tail := tail) (lexeme := lexeme)
                               (rest := rest); auto;
        [apply (at_token_current _ _ _ _ At3)|apply At3].
  - cbn [doc_ok] in Hok. apply andb_prop in Hok as [Hok Ka].
    apply andb_prop in Hok as [Kb Hok].
    intros gs tail lexeme rest fuel p B D N L H.
    cbn [doc_text doc_need] in *.
    apply (IH Hok (gs ++ before) (gaps_text after ++ tail) lexeme rest
             fuel p); auto.
    + now rewrite forallb_app, B.
    + now apply delimiter_gaps.
    + now apply next_is_gaps.
    + rewrite H, gaps_text_app, <- !app_assoc. reflexivity.
Qed.

Lemma run_bind_throw source fuel e :
  Parser.bind Parser.advance (fun _ => Parser.parseValue fuel)
    (initial (Parser.stripBOM source)) = Throw e ->
  Parser.run source = Throw e.
Proof.
  unfold Parser.bind. intros H.
  destruct (Parser.advance (initial (Parser.stripBOM source)))
    as [[[] p]| |] eqn:A; try discriminate.
  - now apply (run_throw_value source fuel p).
  - injection H as <-. unfold Parser.run, Parser.new.
    fold (initial (Parser.stripBOM source)). now rewrite A.
Qed.

(** A JSON text, and after it a delimiter and an Unknown token: the error
    of [Parser::advance]. *)
Lemma parse_doc_unknown d tail lexeme rest :
  doc_ok d = true -> delimiter (hd NUL tail) = true ->
  next_is tail TokenType.Unknown lexeme rest ->
  exists line col,
    parse (doc_text d ++ tail) = Throw (ParsingError.mk unexpected line col).
Proof.
  intros Hok D N.
  destruct (doc_refused d Hok [] tail lexeme rest (doc_need d)
              (initial (Parser.stripBOM (doc_text d ++ tail))))
    as (line & col & E); auto.
  - unfold Parser.stripBOM.
    now rewrite (hasBOM_first _ (doc_first d Hok tail)).
  - exists line, col. now apply parse_throw, (run_bind_throw _ (doc_need d)).
Qed.

(** ** Objects whatever the order of the input *)

Lemma string_eqb_true a b : Std.string_eqb a b = true <-> a = b.
Proof.
  split; [apply string_eqb_eq|]. intros ->. apply string_eqb_refl.
Qed.

Lemma string_eqb_false a b : Std.string_eqb a b = false <-> a <> b.
Proof.
  rewrite <- string_eqb_true. destruct (Std.string_eqb a b); split; congruence.
Qed.

(** [at] finds the keys of the map, and no other. *)
Lemma map_at_In key (o : JsonObject) :
  map_at key o <> OutOfRange <-> In key (map fst o).
Proof.
  induction o as [|[k v] o IH]; simpl.
  - split; [congruence|tauto].
  - destruct (Std.string_eqb k key) eqn:E.
    + apply string_eqb_true in E. split; [auto|discriminate].
    + apply string_eqb_false in E. rewrite IH. tauto.
Qed.

Lemma last_member_In key members :
  last_member key members <> None <-> In key (map member_key members).
Proof.
  induction members as [|[[[b k] mid] x] l IH]; simpl.
  - split; [congruence|tauto].
  - destruct (last_member key l).
    + split; [|discriminate]. intros _. right. apply IH. discriminate.
    + destruct (Std.string_eqb k key) eqn:E.
      * apply string_eqb_true in E. split; [auto|discriminate].
      * apply string_eqb_false in E. split; [congruence|].
        intros [H|H]; [contradiction|]. apply IH in H. congruence.
Qed.

(** The assignments of the members of a text keep the keys increasing. *)
Lemma fold_members_increasing members : forall acc : JsonObject,
  increasing (map fst acc) = true ->
  increasing (map fst (fold_left member_assign members acc)) = true.
Proof.
  induction members as [|[[[b k] mid] x] l IH]; intros acc I; [exact I|].
  cbn [fold_left]. apply IH. unfold member_assign.
  now apply map_assign_increasing.
Qed.

(** A key below all the keys of a map is not in it. *)
Lemma map_at_above key (o : JsonObject) :
  Forall (fun k => Std.string_compare key k = Lt) (map fst o) ->
  map_at key o = OutOfRange.
Proof.
  induction o as [|[k v] o IH]; intros F; [reflexivity|].
  simpl in *. inversion_clear F as [|? ? L F'].
  unfold Std.string_eqb. rewrite (string_compare_antisym key k), L.
  simpl. auto.
Qed.

(** Two maps with the same value, or none, at every key are the same
    map: there is one order for the nodes. *)
Lemma increasing_ext (o1 : JsonObject) : forall o2 : JsonObject,
  increasing (map fst o1) = true -> increasing (map fst o2) = true ->
  (forall key, map_at key o1 = map_at key o2) ->
  o1 = o2.
Proof.
  induction o1 as [|[k1 v1] o1 IH]; intros [|[k2 v2] o2] I1 I2 H.
  - reflexivity.
  - specialize (H k2). simpl in H. rewrite string_eqb_refl in H.
    discriminate.
  - specialize (H k1). simpl in H. rewrite string_eqb_refl in H.
    discriminate.
  - cbn [map fst] in I1, I2.
    destruct (increasing_cons _ _ I1) as (I1' & A1).
    destruct (increasing_cons _ _ I2) as (I2' & A2).
    destruct (Std.string_compare k1 k2) eqn:C.
    + apply string_compare_eq in C. subst k2.
      pose proof (H k1) as Hk. simpl in Hk. rewrite string_eqb_refl in Hk.
      injection Hk as <-. f_equal. apply IH; auto.
      intros key. destruct (Std.string_eqb k1 key) eqn:E.
      * apply string_eqb_true in E. subst key.
        now rewrite !map_at_above.
      * specialize (H key). simpl in H. now rewrite E in H.
    + exfalso. specialize (H k1). simpl in H.
      rewrite string_eqb_refl in H.
      unfold Std.string_eqb in H. rewrite (string_compare_antisym k1 k2), C in H.
      simpl in H. rewrite map_at_above in H; [discriminate|].
      eapply Forall_impl; [|exact A2]. intros k' L. simpl in L.
      eapply string_compare_trans; eauto.
    + exfalso. specialize (H k2). simpl in H.
      rewrite string_eqb_refl in H.
      unfold Std.string_eqb in H. rewrite C in H.
      rewrite map_at_above in H; [discriminate|].
      eapply Forall_impl; [|exact A1]. intros k' L. simpl in L.
      eapply string_compare_trans; [|exact L].
      now rewrite string_compare_antisym, C.
Qed.

(** With no key twice, the member of a key is the same in whatever order
    the members stand. *)
Lemma last_member_unique key b k mid x l :
  ~ In k (map member_key l) ->
  last_member key ((b, k, mid, x) :: l)
  = if Std.string_eqb k key then Some (doc_value x) else last_member key l.
Proof.
  intros N. cbn [last_member].
  destruct (Std.string_eqb k key) eqn:E.
  - apply string_eqb_true in E. subst key.
    destruct (last_member k l) eqn:L; [|reflexivity].
    exfalso. apply N. apply last_member_In. congruence.
  - now destruct (last_member key l).
Qed.

Lemma last_member_Permutation key l l' :
  Permutation l l' -> NoDup (map member_key l) ->
  last_member key l = last_member key l'.
Proof.
  induction 1 as [|[[[b k] mid] x] l l' P IH
                 |[[[b2 k2] mid2] x2] [[[b1 k1] mid1] x1] l
                 |l l' l'' P1 IH1 P2 IH2]; intros N.
  - reflexivity.
  - cbn [map member_key] in N. inversion_clear N as [|? ? N1 N2].
    rewrite !last_member_unique; auto.
    + now rewrite IH.
    + intros I. apply N1. eapply Permutation_in; [|exact I].
      apply Permutation_map. now apply Permutation_sym.
  - cbn [map member_key] in N. inversion_clear N as [|? ? N1 N2].
    inversion_clear N2 as [|? ? N3 N4]. simpl in N1.
    rewrite (last_member_unique key b1 k1 mid1 x1 ((b2, k2, mid2, x2) :: l))
      by exact N1.
    rewrite (last_member_unique key b2 k2 mid2 x2 ((b1, k1, mid1, x1) :: l)).
    2:{ simpl. intros [E|I]; [|contradiction]. apply N1. left.
        now symmetry. }
    assert (N1' : ~ In k1 (map member_key l)) by tauto.
    rewrite !last_member_unique by assumption.
    destruct (Std.string_eqb k1 key) eqn:E1;
      destruct (Std.string_eqb k2 key) eqn:E2; try reflexivity.
    apply string_eqb_true in E1, E2. exfalso. apply N1. left. congruence.
  - rewrite IH1 by assumption. apply IH2.
    eapply Permutation_NoDup; [|exact N]. now apply Permutation_map.
Qed.

(** The members of a text in another order, no key twice: the same
    object. *)
Lemma fold_members_Permutation l l' :
  Permutation l l' -> NoDup (map member_key l) ->
  fold_left member_assign l [] = fold_left member_assign l' [].
Proof.
  intros P N. apply increasing_ext.
  - now apply fold_members_increasing.
  - now apply fold_members_increasing.
  - intros key. rewrite !map_at_members.
    now rewrite (last_member_Permutation key l l' P N).
Qed.

Lemma doc_value_object inner members :
  doc_value (DObject inner members)
  = JObject (fold_left member_assign members []).
Proof. reflexivity. Qed.

(** The text of an object in another order of its members is parsed to
    the same value. *)
Lemma parse_object_Permutation inner inner' members members' :
  doc_ok (DObject inner members) = true ->
  doc_ok (DObject inner' members') = true ->
  Permutation members members' -> NoDup (map member_key members) ->
  parse (doc_text (DObject inner members))
  = parse (doc_text (DObject inner' members')).
Proof.
  intros K K' P N. rewrite (parse_doc_whole _ K), (parse_doc_whole _ K').
  rewrite !doc_value_object. now rewrite (fold_members_Permutation _ _ P N).
Qed.

(** The keys of the object of a text: the keys of the text, in
    increasing order. *)
Lemma parse_object_keys inner members :
  doc_ok (DObject inner members) = true ->
  exists o,
    parse (doc_text (DObject inner members)) = Ok (JObject o)
    /\ increasing (map fst o) = true
    /\ forall key, In key (map fst o) <-> In key (map member_key members).
Proof.
  intros K. exists (fold_left member_assign members []).
  split; [exact (parse_doc_whole _ K)|].
  split; [now apply fold_members_increasing|].
  intros key. rewrite <- map_at_In, <- last_member_In, map_at_members.
  destruct (last_member key members); simpl; split; congruence.
Qed.

(** After [object[key] = value] the key has the value and every other
    key what it had. *)
Lemma map_at_map_assign key key' value (o : JsonObject) :
  map_at key' (map_assign key value o)
  = if Std.string_eqb key key' then Got value else map_at key' o.
Proof.
  destruct (Std.string_eqb key key') eqn:E.
  - apply string_eqb_true in E. subst key'. apply map_at_assign.
  - now apply map_at_assign_other.
Qed.

(** [serialise] writes the members in the order of the map. *)
Lemma members_joined indent (o : JsonObject) :
  members indent o = joined (map (member_line indent) o).
Proof.
  induction o as [|[k v] o IH]; [reflexivity|].
  cbn [members]. rewrite IH. destruct o as [|[k' v'] o].
  - unfold joined, member_line, quoted. cbn [map concat fst snd app].
    rewrite <- !app_assoc. cbn [app]. rewrite <- !app_assoc. reflexivity.
  - cbn [map joined concat].
    generalize (member_line indent (k', v')). intros B.
    generalize (concat (map (fun l : list ascii => ","%char :: LF :: l)
                          (map (member_line indent) o))). intros C.
    unfold member_line, quoted. cbn [fst snd].
    change (chars ",") with [","%char].
    rewrite <- !app_assoc. cbn [app]. rewrite <- !app_assoc. reflexivity.
Qed.

Lemma serialise_object (o : JsonObject) indent :
  serialise (JObject o) indent
  = chars "{" ++ [LF] ++ joined (map (member_line indent) o)
    ++ spaces indent ++ chars "}".
Proof. now rewrite serialise_members, members_joined. Qed.

(** * The claims *)

(** ** C1: parsing what [serialise] wrote *)

(** C1 as the specification has it, with finite numbers, fails: the
    finite double 1234567 is written as 1.23457e+06, which is read back as
    the double 1234570. *)
Lemma C1_counterexample :
  payloads Std.is_finite (JNumber d1234567) = true
  /\ well_formed (JNumber d1234567) = true
  /\ serialise (JNumber d1234567) 0 = chars "1.23457e+06"
  /\ parse (serialise (JNumber d1234567) 0) = Ok (JNumber (Std.of_Z 1234570))
  /\ parse (serialise (JNumber d1234567) 0) <> Ok (JNumber d1234567).
Proof. vm_compute. repeat split; try reflexivity. discriminate. Qed.

(** C1, amended: for every value whose strings and keys hold no control
    character, backslash or double quote, and whose numbers are each read
    back from the text written for them ([number_ok]), parsing the text
    [serialise] writes at indent 0 returns the value. *)
Theorem C1_parse_serialise v :
  payloads number_ok v = true -> well_formed v = true ->
  parse (serialise v 0) = Ok v.
Proof.
  intros Pay Wf.
  destruct (parses_serialised v Pay Wf 0 [] [] TokenType.EndOfFile [] []
              (need v)
              (initial (Parser.stripBOM (serialise v 0))))
    as (p' & E & _); auto.
  - exact next_is_end.
  - discriminate.
  - rewrite stripBOM_serialise by auto. simpl. now rewrite app_nil_r.
  - apply run_bind in E. now apply parse_run in E.
Qed.

Lemma C1_witness :
  payloads number_ok sample = true /\ well_formed sample = true
  /\ parse (serialise sample 0) = Ok sample.
Proof.
  split; [vm_compute; reflexivity|].
  split; [vm_compute; reflexivity|].
  apply (C1_parse_serialise sample); vm_compute; reflexivity.
Defined.

(** ** C2: what follows the top-level value *)

(** C2, as stated, fails: [1] is a complete value, and the at sign after
    it makes [parse] throw. *)
Lemma C2_counterexample :
  parse (chars "1") = Ok (JNumber (Std.of_Z 1))
  /\ parse (chars "1 @") = Throw (ParsingError.mk unexpected 1 3)
  /\ parse (chars "1 @") <> Ok (JNumber (Std.of_Z 1)).
Proof.
  vm_compute. split; [reflexivity|]. split; [reflexivity|]. discriminate.
Qed.

(** C2, amended: [parse] reads one token past the top-level value.  An
    input that is a JSON text and then more, the character after the text
    being no digit, letter, point or sign (which would go on with its
    last token): when the first token of what follows is not Unknown,
    [parse] returns the value of the text, whatever follows that token;
    when it is Unknown, [parse] throws the error of [Parser::advance].
    And whenever [parse] returns a value, its lexer has read the value
    and the one token after it, which is no Unknown token, and nothing
    behind: every other input with the same characters up to two past
    the place the lexer stopped at is parsed to the same value. *)
Theorem C2_trailing_content :
  (forall d tail ty lexeme rest,
     doc_ok d = true -> delimiter (hd NUL tail) = true ->
     next_is tail ty lexeme rest -> ty <> TokenType.Unknown ->
     parse (doc_text d ++ tail) = Ok (doc_value d))
  /\ (forall d tail lexeme rest,
        doc_ok d = true -> delimiter (hd NUL tail) = true ->
        next_is tail TokenType.Unknown lexeme rest ->
        exists line col,
          parse (doc_text d ++ tail)
          = Throw (ParsingError.mk unexpected line col))
  /\ (forall source v p,
        Parser.run source = Ok (v, p) ->
        Token.type (Parser.currentToken p) <> TokenType.Unknown
        /\ forall source',
             firstn (read source p + 2) source'
             = firstn (read source p + 2) source ->
             parse source' = Ok v).
Proof.
  split; [exact parse_doc|]. split; [exact parse_doc_unknown|].
  intros source v p R. destruct (run_reads_near _ _ _ R) as (K & N).
  split; [exact K|]. intros source' A. eapply parse_run. now apply N.
Qed.

Lemma C2_witness :
  parse (doc_text (DArray [] [DNumber (chars "1"); DTrue])
         ++ chars ", @ and more")
  = Ok (JArray [JNumber (Std.of_Z 1); JBool true])
  /\ (exists line col,
        parse (doc_text (DArray [] [DNumber (chars "1"); DTrue])
               ++ chars " @ and more")
        = Throw (ParsingError.mk unexpected line col))
  /\ parse (chars "1 2  @ and more") = Ok (JNumber (Std.of_Z 1)).
Proof.
  split; [|split].
  - apply (proj1 C2_trailing_content
             (DArray [] [DNumber (chars "1"); DTrue])
             (chars ", @ and more") TokenType.Comma (chars ",")
             (chars " @ and more")).
    + reflexivity.
    + reflexivity.
    + now apply next_is_punct.
    + discriminate.
  - apply (proj1 (proj2 C2_trailing_content)
             (DArray [] [DNumber (chars "1"); DTrue])
             (chars " @ and more") (chars "@") (chars " and more")).
    + reflexivity.
    + reflexivity.
    + apply (next_is_blanks [" "%char]); [reflexivity|].
      now apply (next_is_stray "@"%char).
  - refine (proj2 (proj2 (proj2 C2_trailing_content) (chars "1 2  3")
                     (JNumber (Std.of_Z 1))
                     (Parser.mk (Lexer.mk (chars "1 2  3") 2 3 1 4 1 3)
                        (Token.mk TokenType.Number (chars "2") 1 3)
                        (Token.mk TokenType.Number (chars "1") 1 1))
                     _) _ _); reflexivity.
Defined.

(** ** C3: objects iterate in the order of their keys *)

(** C3: every object in a value that [parse] returns has its members in
    strictly increasing order of the keys, bytes compared as
    [std::string] compares them; an assignment [object[key] = value]
    keeps that order, gives the key its value and leaves every other key
    what it had, so every object built that way has the order and all
    its members.  The object of a text has the keys of the text, each with
    the value of its last member, and is the same object in whatever
    order the members stand in the text when no key is there twice.
    [serialise] writes the members line after line in the order of the
    map, so in the order of the keys; the text [{"b":1,"a":2}] is parsed
    to the object with [a] before [b]. *)
Theorem C3_object_order :
  (forall source v, parse source = Ok v -> well_formed v = true)
  /\ (forall o key value,
        well_formed (JObject o) = true -> well_formed value = true ->
        well_formed (JObject (map_assign key value o)) = true)
  /\ (forall (o : JsonObject) key value key',
        map_at key' (map_assign key value o)
        = if Std.string_eqb key key' then Got value else map_at key' o)
  /\ (forall inner members,
        doc_ok (DObject inner members) = true ->
        exists o,
          parse (doc_text (DObject inner members)) = Ok (JObject o)
          /\ increasing (map fst o) = true
          /\ (forall key,
                In key (map fst o) <-> In key (map member_key members))
          /\ (forall key,
                map_at key o
                = match last_member key members with
                  | Some v => Got v
                  | None => OutOfRange
                  end))
  /\ (forall inner inner' members members',
        doc_ok (DObject inner members) = true ->
        doc_ok (DObject inner' members') = true ->
        Permutation members members' ->
        NoDup (map member_key members) ->
        parse (doc_text (DObject inner members))
        = parse (doc_text (DObject inner' members')))
  /\ (forall (o : JsonObject) indent,
        indent_fits (JObject o) indent ->
        serialise (JObject o) indent
        = chars "{" ++ [LF] ++ joined (map (member_line indent) o)
          ++ spaces indent ++ chars "}")
  /\ parse text_b_a
     = Ok (JObject [(chars "a", JNumber (Std.of_Z 2));
                    (chars "b", JNumber (Std.of_Z 1))])
  /\ serialise
       (JObject [(chars "a", JNumber (Std.of_Z 2));
                 (chars "b", JNumber (Std.of_Z 1))]) 0
     = chars "{" ++ LF :: chars "  " ++ quoted (chars "a") ++ chars ": 2,"
       ++ LF :: chars "  " ++ quoted (chars "b") ++ chars ": 1"
       ++ LF :: chars "}".
Proof.
  split; [|split; [|split; [|split; [|split; [|split; [|split]]]]]].
  - intros source v H. unfold parse, Parser.parse in H.
    destruct (Parser.run source) as [[v' p]| |] eqn:R; try discriminate.
    injection H as <-. exact (run_well_formed source v' p R).
  - intros o key value. apply map_assign_well_formed.
  - intros o key value key'. apply map_at_map_assign.
  - intros inner members K.
    destruct (parse_object_keys inner members K) as (o & P & I & Keys).
    exists o. split; [exact P|]. split; [exact I|]. split; [exact Keys|].
    intros key. rewrite (parse_doc_whole _ K), doc_value_object in P.
    injection P as <-. apply map_at_members.
  - intros inner inner' members members'. apply parse_object_Permutation.
  - intros o indent _. apply serialise_object.
  - vm_compute. reflexivity.
  - vm_compute. reflexivity.
Qed.

Lemma C3_witness :
  parse text_b_a
  = Ok (JObject [(chars "a", JNumber (Std.of_Z 2));
                 (chars "b", JNumber (Std.of_Z 1))])
  /\ well_formed
       (JObject [(chars "a", JNumber (Std.of_Z 2));
                 (chars "b", JNumber (Std.of_Z 1))]) = true.
Proof.
  split; [vm_compute; reflexivity|].
  apply (proj1 C3_object_order text_b_a). vm_compute. reflexivity.
Defined.

(** ** C4: the escapes of [parseString] *)

(** C4: the [switch] of [parseString] maps an escaped character as the
    table of the eight escapes says and every other character to itself;
    a string literal that holds one escaped character, whichever it is,
    is parsed to the string of that one character; every closed string
    literal is parsed to its inside with each backslash dropped and the
    character after it mapped that way; the literal of a backslash and
    [u0041] is parsed to the five characters [u0041]. *)
Theorem C4_escapes :
  (forall c, Parser.unescape c = escaped c)
  /\ (forall c,
        parse (quoted [BACKSLASH; c]) = Ok (JString [escaped c]))
  /\ (forall s, closed_body s = true ->
        parse (quoted s) = Ok (JString (decode s)))
  /\ parse (quoted u0041) = Ok (JString (chars "u0041"))
  /\ length (chars "u0041") = 5.
Proof.
  assert (U : forall c, Parser.unescape c = escaped c).
  { intros c. destruct c as [[] [] [] [] [] [] [] []]; reflexivity. }
  split; [exact U|]. split; [|split; [|split]].
  - intros c. rewrite <- U. now rewrite (parse_literal [BACKSLASH; c]).
  - exact parse_literal.
  - now rewrite (parse_literal u0041).
  - reflexivity.
Qed.

Lemma C4_witness :
  closed_body (chars "a" ++ BACKSLASH :: chars "n" ++ BACKSLASH :: [DQUOTE])
  = true
  /\ parse (quoted (chars "a" ++ BACKSLASH :: chars "n"
                    ++ BACKSLASH :: [DQUOTE]))
     = Ok (JString [ "a"%char; LF; DQUOTE ]).
Proof.
  split; [reflexivity|].
  apply (proj1 (proj2 (proj2 C4_escapes))
           (chars "a" ++ BACKSLASH :: chars "n" ++ BACKSLASH :: [DQUOTE])).
  reflexivity.
Defined.

(** ** C5: trailing commas *)

(** C5: in the loop of [parseArray] a comma followed by the closing
    bracket throws, at the bracket, the error of [parseValue] for a token
    that starts no value; in the loop of [parseObject] a comma followed by
    the closing brace throws, at the brace, the error for a missing key.
    So [[1,2,]] and [{"a":1,}] are rejected, and no value is returned. *)
Theorem C5_trailing_comma :
  (forall fuel message array p p1,
     Parser.currentIs TokenType.Comma p = true ->
     Parser.advance p = Ok (tt, p1) ->
     Token.type (Parser.currentToken p1) = TokenType.RightBracket ->
     Parser.bind (Parser.consume TokenType.Comma message)
       (fun _ => Parser.parseArray_loop (2 + fuel) array) p
     = Throw (ParsingError.mk expected_value
                (Token.line (Parser.currentToken p1))
                (Token.col (Parser.currentToken p1))))
  /\ (forall fuel message object p p1,
        Parser.currentIs TokenType.Comma p = true ->
        Parser.advance p = Ok (tt, p1) ->
        Token.type (Parser.currentToken p1) = TokenType.RightBrace ->
        Parser.bind (Parser.consume TokenType.Comma message)
          (fun _ => Parser.parseObject_loop (1 + fuel) object) p
        = Throw (ParsingError.mk expected_key
                   (Token.line (Parser.currentToken p1))
                   (Token.col (Parser.currentToken p1))))
  /\ parse (chars "[1,2,]") = Throw (ParsingError.mk expected_value 1 6)
  /\ parse text_a_comma = Throw (ParsingError.mk expected_key 1 8).
Proof.
  split; [|split; [|split]].
  - intros fuel message array p p1 C A T.
    rewrite (bind_consume _ _ _ _ _ C), (bind_eq _ _ _ _ _ _ _ A).
    simpl. unfold Parser.bind. simpl. now rewrite T.
  - intros fuel message object p p1 C A T.
    rewrite (bind_consume _ _ _ _ _ C), (bind_eq _ _ _ _ _ _ _ A).
    simpl. unfold Parser.currentIs. now rewrite T.
  - vm_compute. reflexivity.
  - vm_compute. reflexivity.
Qed.

Lemma C5_witness :
  Parser.bind
    (Parser.consume TokenType.Comma "Expected ',' or ']' after array element.")
    (fun _ => Parser.parseArray_loop 2 [JNumber (Std.of_Z 1)])
    (at_comma "]")
  = Throw (ParsingError.mk expected_value 1 2)
  /\ Parser.bind
       (Parser.consume TokenType.Comma
          "Expected ',' or '}' after object member.")
       (fun _ => Parser.parseObject_loop 1 [(chars "a", JNumber (Std.of_Z 1))])
       (at_comma "}")
     = Throw (ParsingError.mk expected_key 1 2).
Proof.
  split.
  - apply (proj1 C5_trailing_comma 0 _ _ (at_comma "]")
             (Parser.mk (Lexer.mk (chars ",]") 1 2 1 3 1 2)
                (Token.mk TokenType.RightBracket (chars "]") 1 2)
                (Token.mk TokenType.Comma (chars ",") 1 1)));
      vm_compute; reflexivity.
  - apply (proj1 (proj2 C5_trailing_comma) 0 _ _ (at_comma "}")
             (Parser.mk (Lexer.mk (chars ",}") 1 2 1 3 1 2)
                (Token.mk TokenType.RightBrace (chars "}") 1 2)
                (Token.mk TokenType.Comma (chars ",") 1 1)));
      vm_compute; reflexivity.
Defined.

(** ** C6: a string literal that nothing closes *)

(** C6 as stated fails.  A literal that nothing closes is not always
    fatal: behind the token after a complete value the lexer is never
    asked for it, and [parse] returns the value.  Where it is fatal, the
    message is the one of every Unknown token (an at sign in the same
    place gives the same), and the lexeme of the token is no part of
    it. *)
Lemma C6_counterexample :
  unterminated (chars "abc") = true
  /\ parse text_beyond = Ok (JNumber (Std.of_Z 1))
  /\ parse text_no_close = Throw (ParsingError.mk unexpected 1 7)
  /\ parse text_at_sign = Throw (ParsingError.mk unexpected 1 7).
Proof. vm_compute. repeat split; reflexivity. Qed.

(** C6, amended: where the end of the input comes before a double quote
    that closes the literal, [nextToken] returns an Unknown token with
    the text [Unterminated string.] for its lexeme; [Parser::advance]
    pulling that token throws the error of an Unknown token, and so does
    [parse] when the literal is the first token of the input. *)
Theorem C6_unterminated s :
  unterminated s = true ->
  next_is (DQUOTE :: s) TokenType.Unknown (chars "Unterminated string.") []
  /\ (forall w p,
        forallb is_blank w = true ->
        unread (Parser.lexer p) = w ++ DQUOTE :: s ->
        exists line col,
          Parser.advance p = Throw (ParsingError.mk unexpected line col))
  /\ (forall w,
        forallb is_blank w = true ->
        exists line col,
          parse (w ++ DQUOTE :: s)
          = Throw (ParsingError.mk unexpected line col)).
Proof.
  intros U. pose proof (next_is_unterminated s U) as N.
  assert (A : forall w p,
             forallb is_blank w = true ->
             unread (Parser.lexer p) = w ++ DQUOTE :: s ->
             exists line col,
               Parser.advance p = Throw (ParsingError.mk unexpected line col)).
  { intros w p B H.
    apply (advance_unknown p (w ++ DQUOTE :: s)
             (chars "Unterminated string.") []); auto.
    now apply next_is_blanks. }
  split; [exact N|]. split; [exact A|].
  intros w B.
  destruct (A w (initial (Parser.stripBOM (w ++ DQUOTE :: s))) B)
    as (line & col & E).
  - now rewrite stripBOM_blank by (auto; discriminate).
  - exists line, col. now apply parse_throw, run_throw_advance.
Qed.

Lemma C6_witness :
  unterminated (chars "no close") = true
  /\ exists line col,
       parse (chars " " ++ DQUOTE :: chars "no close")
       = Throw (ParsingError.mk unexpected line col).
Proof.
  split; [reflexivity|].
  apply (proj2 (proj2 (C6_unterminated (chars "no close") eq_refl))
           (chars " ") eq_refl).
Defined.

(** ** C7: a block comment that nothing closes *)

(** C7: a block comment without its [*/] is no error.  The lexer reads it
    to the end of the input and returns the EndOfFile token; so the text
    of a value (as in C1) with such a comment after it, white space or
    none between them, is parsed to the value. *)
Theorem C7_open_block_comment body :
  no_block_end body = true ->
  (forall w,
     forallb is_blank w = true ->
     next_is (w ++ "/"%char :: "*"%char :: body) TokenType.EndOfFile [] [])
  /\ (forall v w,
        payloads number_ok v = true -> well_formed v = true ->
        forallb is_blank w = true ->
        parse (serialise v 0 ++ w ++ "/"%char :: "*"%char :: body) = Ok v).
Proof.
  intros C.
  assert (N : forall w,
             forallb is_blank w = true ->
             next_is (w ++ "/"%char :: "*"%char :: body)
               TokenType.EndOfFile [] []).
  { intros w B. apply next_is_blanks; auto. now apply next_is_open_comment. }
  split; [exact N|]. intros v w Pay Wf B.
  set (tail := w ++ "/"%char :: "*"%char :: body).
  assert (D : delimiter (hd NUL tail) = true).
  { subst tail. destruct w as [|c w]; [reflexivity|]. simpl in *.
    apply andb_prop in B as [B _].
    destruct c as [[] [] [] [] [] [] [] []]; try discriminate B; reflexivity. }
  destruct (parses_serialised v Pay Wf 0 [] tail TokenType.EndOfFile [] []
              (need v)
              (initial (Parser.stripBOM (serialise v 0 ++ tail))))
    as (p' & E & _); auto.
  - now apply N.
  - discriminate.
  - destruct (serialise_first v 0 Pay) as (c & t & S & F).
    rewrite S. simpl app. rewrite stripBOM_first by auto. reflexivity.
  - apply run_bind in E. now apply parse_run in E.
Qed.

Lemma C7_witness :
  no_block_end (chars " abc") = true
  /\ parse (chars "1 /* abc") = Ok (JNumber (Std.of_Z 1)).
Proof.
  split; [reflexivity|].
  apply (proj2 (C7_open_block_comment (chars " abc") eq_refl)
           (JNumber (Std.of_Z 1)) (chars " "));
    vm_compute; reflexivity.
Defined.

(** ** C8: the place of an error *)

(** C8 does not hold of the code.  In a block comment and in a string
    literal the lexer sets the column to 1 at a line feed before
    [advance()] adds one for the line feed itself, so every column on the
    line after it is one too high (in white space it does it the other way
    round, and right); and a line feed after a backslash in a string
    literal is not counted as a line at all.  The error of the text of the
    specification is on line 2, as the claim says. *)
Theorem C8_position_off :
  nth 5 text_comment_at NUL = "@"%char
  /\ position text_comment_at 5 = (2, 3)
  /\ parse text_comment_at = Throw (ParsingError.mk unexpected 2 4)
  /\ nth 7 text_string_at NUL = "@"%char
  /\ position text_string_at 7 = (2, 4)
  /\ parse text_string_at = Throw (ParsingError.mk unexpected 1 8)
  /\ nth 9 text_line_2 NUL = "}"%char
  /\ position text_line_2 9 = (2, 8)
  /\ parse text_line_2 = Throw (ParsingError.mk expected_value 2 8).
Proof. vm_compute. repeat split; reflexivity. Qed.

(** ** C9: negative numbers *)

(** C9: a minus sign starts a Number token, whatever follows it: the token
    runs as far as a number without the sign would.  For digits [ds] that
    [parse] reads as the number [m], which is then the double nearest to
    the integer they write, [parse] on the minus sign and [ds] returns
    the number [- m]. *)
Theorem C9_negative_number ds m :
  ds <> [] -> forallb Std.isdigit ds = true ->
  parse ds = Ok (JNumber m) ->
  (forall s,
     next_is ("-"%char :: s) TokenType.Number
       ("-"%char :: fst (number_scan s)) (snd (number_scan s)))
  /\ m = Std.of_Z (Z.of_N (Std.digits_value ds))
  /\ parse ("-"%char :: ds) = Ok (JNumber (SFopp m)).
Proof.
  intros N A P. split; [|split].
  - intros s. apply next_is_number; [reflexivity|].
    now destruct (number_scan s).
  - pose proof (parse_digits false ds N A) as D. cbn [app] in D.
    rewrite P in D. cbv zeta in D.
    destruct (Std.digits_value ds) as [|k].
    + now injection D.
    + destruct (Std.erange _ _ _); [discriminate D|]. now injection D.
  - now rewrite (parse_minus ds N A), P.
Qed.

Lemma C9_witness :
  parse (chars "5") = Ok (JNumber (Std.of_Z 5))
  /\ parse (chars "-5") = Ok (JNumber (SFopp (Std.of_Z 5))).
Proof.
  split; [reflexivity|].
  apply (C9_negative_number (chars "5") (Std.of_Z 5));
    [discriminate | reflexivity | reflexivity].
Defined.

(** ** C10: a line feed inside a string literal *)

(** C10: a line feed between the quotes of a string literal ends neither
    the token nor the parse.  For all [before] and [after] without double
    quote and backslash, the lexer reads the literal as one String token
    that holds the line feed, and [parse] returns the string with the line
    feed in it; the literal of [a], a line feed and [b] gives the string
    of these three characters. *)
Theorem C10_raw_newline before after :
  plain before = true -> plain after = true ->
  (forall rest,
     next_is (quoted (before ++ LF :: after) ++ rest) TokenType.String
       (quoted (before ++ LF :: after)) rest)
  /\ parse (quoted (before ++ LF :: after))
     = Ok (JString (before ++ LF :: after)).
Proof.
  intros B A.
  assert (P : plain (before ++ LF :: after) = true).
  { unfold plain in *. rewrite forallb_app, B. simpl. exact A. }
  split.
  - intros rest. unfold quoted. rewrite <- app_comm_cons, <- app_assoc.
    apply next_is_string. now apply closed_plain.
  - rewrite parse_literal by now apply closed_plain.
    now rewrite decode_plain.
Qed.

Lemma C10_witness :
  parse (quoted a_LF_b) = Ok (JString a_LF_b) /\ length a_LF_b = 3.
Proof.
  split; [|reflexivity].
  apply (C10_raw_newline (chars "a") (chars "b")); reflexivity.
Defined.

(** * Further properties *)

(** ** The parser comes to an end *)

(** X1: the parser has no loop and no recursion without end.  Every call
    of [parseValue] that returns has taken at least one token from the
    lexer; and on an input of [n] characters no chain of nested calls of
    [parseValue], [parseObject] and [parseArray] and of turns of their
    loops is longer than [3 * n + 4]: with room for that many, the parser
    returns a value or throws, and more room changes nothing.  (The code
    sets no limit of its own on the nesting, and the call stack, which
    has to hold the chain, is not modelled.) *)
Theorem X1_calls_bounded :
  (forall fuel p v p',
     Parser.parseValue fuel p = Ok (v, p') ->
     Lexer.source (Parser.lexer p') = Lexer.source (Parser.lexer p)
     /\ weight p' < weight p)
  /\ (forall source p fuel,
        Parser.new (Parser.stripBOM source) = Ok p ->
        3 * length source + 4 <= fuel ->
        Parser.parseValue fuel p <> OutOfFuel
        /\ Parser.parseValue fuel p
           = Parser.parseValue (3 * length source + 4) p).
Proof.
  split.
  - intros fuel p v p' H. exact (proj1 (parse_shrinks fuel) p v p' H).
  - intros source p fuel N L.
    apply new_weight in N as (_ & W).
    assert (B : length (Parser.stripBOM source) <= length source).
    { unfold Parser.stripBOM. destruct (Parser.hasBOM source); [|lia].
      rewrite length_skipn. lia. }
    assert (F : forall f, 3 * length source + 4 <= f ->
                  Parser.parseValue f p <> OutOfFuel).
    { intros f Lf. apply (proj1 (parse_fuel f)). lia. }
    split; [now apply F|]. apply parseValue_fuel_any; apply F; lia.
Qed.

Lemma X1_witness :
  Parser.parseValue 100
    (Parser.mk (Lexer.mk (chars "[[]]") 0 1 1 2 1 1)
       (Token.mk TokenType.LeftBracket (chars "[") 1 1) Parser.noToken)
  <> OutOfFuel
  /\ Parser.parseValue 100
       (Parser.mk (Lexer.mk (chars "[[]]") 0 1 1 2 1 1)
          (Token.mk TokenType.LeftBracket (chars "[") 1 1) Parser.noToken)
     = Parser.parseValue (3 * length (chars "[[]]") + 4)
         (Parser.mk (Lexer.mk (chars "[[]]") 0 1 1 2 1 1)
            (Token.mk TokenType.LeftBracket (chars "[") 1 1) Parser.noToken).
Proof.
  apply (proj2 X1_calls_bounded (chars "[[]]")
           (Parser.mk (Lexer.mk (chars "[[]]") 0 1 1 2 1 1)
              (Token.mk TokenType.LeftBracket (chars "[") 1 1)
              Parser.noToken) 100).
  - vm_compute. reflexivity.
  - vm_compute. lia.
Defined.

(** ** The lexer stays inside its buffer *)

(** X2: after any number of calls of [nextToken] on the lexer of a
    source, [start] is not behind [current] and [current] is not behind the
    end of the buffer: the lexeme [string_view(start, current - start)]
    lies inside the source. *)
Theorem X2_lexer_in_bounds source n :
  Lexer.source (lexer_after n (Lexer.new source)) = source
  /\ Lexer.start (lexer_after n (Lexer.new source))
     <= Lexer.current (lexer_after n (Lexer.new source))
  /\ Lexer.current (lexer_after n (Lexer.new source)) <= length source.
Proof.
  induction n as [|n (S1 & C1 & B1)]; [simpl; repeat split; lia|].
  cbn [lexer_after].
  destruct (nextToken_bounds (lexer_after n (Lexer.new source)))
    as (S2 & _ & C2 & B2); [now rewrite S1|].
  rewrite S1 in *. auto.
Qed.

(** ** The end of the input *)

(** X3: once [nextToken] has returned the EndOfFile token, every further
    call returns the same token and leaves the lexer as it is. *)
Theorem X3_end_of_file_again lx :
  Token.type (fst (Lexer.nextToken lx)) = TokenType.EndOfFile ->
  Lexer.nextToken (snd (Lexer.nextToken lx)) = Lexer.nextToken lx.
Proof. exact (nextToken_again lx). Qed.

Lemma X3_witness :
  Lexer.nextToken (snd (Lexer.nextToken (Lexer.new (chars "  // end"))))
  = Lexer.nextToken (Lexer.new (chars "  // end")).
Proof.
  apply (X3_end_of_file_again (Lexer.new (chars "  // end"))). reflexivity.
Defined.

(** ** Comments are white space *)

(** X4: white space, line comments up to their line feed and block
    comments up to their first [*/] are passed over, in any number and
    order: [nextToken] on a lexer in front of them returns what it returns
    on the lexer behind them.  A line comment that no line feed ends
    reaches the end of the input, and the token is EndOfFile. *)
Theorem X4_gaps_skipped :
  (forall gs lx rest,
     forallb gap_ok gs = true ->
     unread lx = gaps_text gs ++ rest ->
     Lexer.nextToken lx = Lexer.nextToken (fold_left passed gs lx)
     /\ Lexer.source (fold_left passed gs lx) = Lexer.source lx
     /\ unread (fold_left passed gs lx) = rest)
  /\ (forall body,
        no_LF body = true ->
        next_is ("/"%char :: "/"%char :: body) TokenType.EndOfFile [] []).
Proof.
  split; [|exact next_is_open_line].
  intros gs lx rest K H. destruct (skip_gaps gs lx rest K H) as (E & S1 & U).
  split; [|split; assumption].
  now rewrite !nextToken_scan, E.
Qed.

Lemma X4_witness :
  fst (Lexer.nextToken
         (Lexer.new (chars " // one" ++ LF :: chars "/* two */ [1]")))
  = Token.mk TokenType.LeftBracket (chars "[") 2 11.
Proof.
  rewrite (proj1 (proj1 X4_gaps_skipped
                    [Blank " "; LineComment (chars " one");
                     BlockComment (chars " two "); Blank " "]
                    (Lexer.new
                       (chars " // one" ++ LF :: chars "/* two */ [1]"))
                    (chars "[1]") eq_refl eq_refl)).
  reflexivity.
Defined.

(** ** Where the first token is *)

(** X5: when the input starts with white space, line comments and block
    comments that each stay on one line, its first token carries the line
    and the column, counted from 1, of the token's first character; the
    EndOfFile token carries those of the end of the input, and an input
    of nothing but such gaps is refused there for want of a value. *)
Theorem X5_first_token_position gs :
  forallb gap_ok gs = true -> forallb one_line gs = true ->
  (forall text,
     token_start (hd NUL text) = true ->
     (Token.line (fst (Lexer.nextToken (Lexer.new (gaps_text gs ++ text)))),
      Token.col (fst (Lexer.nextToken (Lexer.new (gaps_text gs ++ text)))))
     = position (gaps_text gs ++ text) (length (gaps_text gs)))
  /\ parse (gaps_text gs)
     = Throw (ParsingError.mk expected_value
                (fst (position (gaps_text gs) (length (gaps_text gs))))
                (snd (position (gaps_text gs) (length (gaps_text gs))))).
Proof.
  intros K O. split.
  - intros text. now apply first_token_position.
  - now apply parse_gaps_only.
Qed.

Lemma X5_witness :
  parse (LF :: chars "  // nothing" ++ LF :: chars " /* here */ ")
  = Throw (ParsingError.mk expected_value 3 13).
Proof.
  apply (proj2 (X5_first_token_position
                  [Blank LF; Blank " "; Blank " ";
                   LineComment (chars " nothing"); Blank " ";
                   BlockComment (chars " here "); Blank " "]
                  eq_refl eq_refl)).
Defined.

(** ** Words *)

(** X6: a run of letters that is not exactly [true], [false] or [null]
    ([True], [nil], [truth], ...) is an Unknown token: at the start of the
    input, after white space and comments of one line each, [parse] throws
    the error of [Parser::advance] at the line and column of its first
    letter. *)
Theorem X6_unknown_word gs c a rest :
  forallb gap_ok gs = true -> forallb one_line gs = true ->
  Std.isalpha c = true -> forallb Std.isalpha a = true ->
  Std.isalpha (hd NUL rest) = false ->
  word_type (c :: a) = TokenType.Unknown ->
  parse (gaps_text gs ++ c :: a ++ rest)
  = Throw (ParsingError.mk unexpected
             (fst (position (gaps_text gs ++ c :: a ++ rest)
                     (length (gaps_text gs))))
             (snd (position (gaps_text gs ++ c :: a ++ rest)
                     (length (gaps_text gs))))).
Proof.
  intros K O C A R W.
  apply (parse_first_unknown gs (c :: a ++ rest) (c :: a) rest K O).
  - now apply alpha_token_start.
  - apply hasBOM_gaps; [exact K|]. now apply alpha_no_BOM.
  - rewrite <- W. now apply next_is_word.
Qed.

Lemma X6_witness :
  parse (chars "  True, false") = Throw (ParsingError.mk unexpected 1 3).
Proof.
  apply (X6_unknown_word [Blank " "%char; Blank " "%char] "T"%char (chars "rue")
           (chars ", false")); reflexivity.
Defined.

(** ** Characters that start no token *)

(** X7: a character that is no white space and starts no token (a plus
    sign, a point, a single quote, a control character, a byte above 127,
    ...) is an Unknown token of its own: at the start of the input, after
    white space and comments of one line each, [parse] throws the error of
    [Parser::advance] at its line and column.  So is a slash that is
    followed by neither a slash nor a star. *)
Theorem X7_stray_character :
  (forall gs c rest,
     forallb gap_ok gs = true -> forallb one_line gs = true ->
     stray c = true ->
     Parser.hasBOM (gaps_text gs ++ c :: rest) = false ->
     parse (gaps_text gs ++ c :: rest)
     = Throw (ParsingError.mk unexpected
                (fst (position (gaps_text gs ++ c :: rest)
                        (length (gaps_text gs))))
                (snd (position (gaps_text gs ++ c :: rest)
                        (length (gaps_text gs))))))
  /\ (forall rest,
        (hd NUL rest =? "/")%char = false ->
        (hd NUL rest =? "*")%char = false ->
        parse ("/"%char :: rest) = Throw (ParsingError.mk unexpected 1 1)).
Proof.
  split; [|exact parse_slash].
  intros gs c rest K O S B.
  apply (parse_first_unknown gs (c :: rest) [c] rest K O); auto.
  - apply (stray_spec c S).
  - now apply next_is_stray.
Qed.

Lemma X7_witness :
  parse (LF :: chars " +1") = Throw (ParsingError.mk unexpected 2 2)
  /\ parse (chars "/ 2") = Throw (ParsingError.mk unexpected 1 1).
Proof.
  split.
  - apply (proj1 X7_stray_character [Blank LF; Blank " "%char] "+"%char (chars "1"));
      reflexivity.
  - apply (proj2 X7_stray_character (chars " 2")); reflexivity.
Defined.

(** ** Numbers *)

(** X8: an input that [numberToken] reads whole, as one token, is parsed
    to what [std::stod] makes of that text: its value when [stod] converts
    all of it; [Invalid characters in number literal.] when [stod] stops
    before the end, as after [1e] or [-1e+]; [Invalid number format.] when
    it converts nothing, as for a minus sign alone; [Number is out of
    range for a double.] when it reports a range error, on overflow and
    for a tiny value that is not exact, also where the result is the
    least normal double.  Each error is at line 1, column 1. *)
Theorem X8_number_input c t :
  Std.isdigit c || (c =? "-")%char = true ->
  snd (number_scan t) = [] ->
  parse (c :: t) = number_outcome (Std.stod (c :: t)) (length (c :: t)).
Proof. exact (parse_number_text c t). Qed.

Lemma X8_witness :
  parse (chars "-12.5e1") = Ok (JNumber (Std.of_Z (-125)))
  /\ parse (chars "1e")
     = Throw (ParsingError.mk "Invalid characters in number literal." 1 1)
  /\ parse (chars "-") = Throw (ParsingError.mk "Invalid number format." 1 1)
  /\ parse (chars "1e999")
     = Throw (ParsingError.mk "Number is out of range for a double." 1 1)
  /\ parse (chars "2.2250738585072012e-308")
     = Throw (ParsingError.mk "Number is out of range for a double." 1 1)
  /\ parse (chars "2.2250738585072014e-308")
     = Ok (JNumber (S754_finite false 4503599627370496 (-1074))).
Proof.
  split; [|split; [|split; [|split; [|split]]]].
  - change (chars "-12.5e1") with ("-"%char :: chars "12.5e1").
    rewrite (X8_number_input "-"%char (chars "12.5e1")); reflexivity.
  - change (chars "1e") with ("1"%char :: chars "e").
    rewrite (X8_number_input "1"%char (chars "e")); reflexivity.
  - change (chars "-") with ["-"%char].
    rewrite (X8_number_input "-"%char []); reflexivity.
  - change (chars "1e999") with ("1"%char :: chars "e999").
    rewrite (X8_number_input "1"%char (chars "e999")); reflexivity.
  - change (chars "2.2250738585072012e-308")
      with ("2"%char :: chars ".2250738585072012e-308").
    rewrite (X8_number_input "2"%char (chars ".2250738585072012e-308"));
      [|reflexivity|reflexivity].
    vm_compute. reflexivity.
  - change (chars "2.2250738585072014e-308")
      with ("2"%char :: chars ".2250738585072014e-308").
    rewrite (X8_number_input "2"%char (chars ".2250738585072014e-308"));
      [|reflexivity|reflexivity].
    vm_compute. reflexivity.
Defined.

(** ** Digits *)

(** X9: every input of decimal digits only, with leading zeros or
    without, is one number: [parse] returns the double nearest to the
    integer the digits write, and throws [Number is out of range for a
    double.] when [strtod] reports a range error for it. *)
Theorem X9_digits ds :
  ds <> [] -> forallb Std.isdigit ds = true ->
  parse ds
  = match Std.digits_value ds with
    | Npos m =>
        if Std.erange (Std.of_Z (Zpos m)) m 0
        then Throw (ParsingError.mk "Number is out of range for a double." 1 1)
        else Ok (JNumber (Std.of_Z (Zpos m)))
    | N0 => Ok (JNumber (Std.of_Z 0))
    end.
Proof.
  intros N A. pose proof (parse_digits false ds N A) as P.
  cbn [app] in P. rewrite P. cbv zeta.
  now destruct (Std.digits_value ds).
Qed.

Lemma X9_witness : parse (chars "007") = Ok (JNumber (Std.of_Z 7)).
Proof.
  rewrite (X9_digits (chars "007")); [reflexivity|discriminate|reflexivity].
Defined.

(** ** Values in context *)

(** X10: the text [serialise] writes for a value (as in C1) at an indent
    that is not negative and stays an [int] through the nesting of the
    value is parsed to the value wherever it stands as the top-level
    value: after any white space and comments, and before any white space
    and comments and then either the end of the input or a token that is
    not Unknown, if the character after the text is no digit, letter,
    point or sign. *)
Theorem X10_value_between_gaps v indent before after tail ty lexeme rest :
  indent_fits v indent ->
  payloads number_ok v = true -> well_formed v = true ->
  forallb gap_ok before = true -> forallb gap_ok after = true ->
  delimiter (hd NUL tail) = true ->
  next_is tail ty lexeme rest -> ty <> TokenType.Unknown ->
  parse (gaps_text before ++ serialise v indent ++ gaps_text after ++ tail)
  = Ok v.
Proof.
  intros _. exact (parse_between_gaps v indent before after tail ty lexeme rest).
Qed.

Lemma X10_witness :
  parse (gaps_text [BlockComment (chars " the sample "); Blank " "%char]
         ++ serialise sample 4
         ++ gaps_text [Blank " "%char; LineComment (chars " and more")]
         ++ chars "]")
  = Ok sample.
Proof.
  apply (X10_value_between_gaps sample 4
           [BlockComment (chars " the sample "); Blank " "%char]
           [Blank " "%char; LineComment (chars " and more")]
           (chars "]") TokenType.RightBracket (chars "]") []).
  - vm_compute. discriminate.
  - vm_compute. reflexivity.
  - vm_compute. reflexivity.
  - reflexivity.
  - reflexivity.
  - reflexivity.
  - now apply next_is_punct.
  - discriminate.
Defined.

(** ** Every JSON text is accepted *)

(** X11: [parse] accepts every JSON text and returns its value: the words
    [true], [false] and [null]; a number that is one token and that
    [std::stod] converts whole; a string closed by its second quote, with
    its escapes decoded; an array of texts and an object of members, key
    and colon and text, separated by commas; with white space and comments
    in any number between the tokens, before the first and after the
    last.  The members of an object are assigned in their order, a later
    one over an earlier one of the same key. *)
Theorem X11_json_text d :
  doc_ok d = true -> parse (doc_text d) = Ok (doc_value d).
Proof. exact (parse_doc_whole d). Qed.

Lemma X11_witness :
  parse (doc_text example_doc) = Ok (doc_value example_doc)
  /\ doc_value example_doc
     = JObject
         [ (chars "address", JNull);
           (chars "age", JNumber (Std.of_Z 30));
           (chars "courses",
            JArray
              [ JObject [ (chars "credits", JNumber (Std.of_Z 3));
                          (chars "title", JString (chars "History")) ];
                JArray [] ]);
           (chars "isStudent", JBool false);
           (chars "name", JString (chars "John Doe")) ].
Proof.
  split; [|vm_compute; reflexivity].
  apply (X11_json_text example_doc). vm_compute. reflexivity.
Defined.

(** ** Keys are taken as they are written *)

(** X13: [parseObject] takes a key from between the quotes of its token
    without decoding anything: a backslash and the character after it stay
    in the key, while [parseString] decodes them in a string value. *)
Theorem X13_keys_as_written key x :
  closed_body key = true -> doc_ok x = true ->
  parse ("{"%char :: quoted key ++ ":"%char :: doc_text x ++ chars "}")
  = Ok (JObject [(key, doc_value x)])
  /\ parse (quoted key) = Ok (JString (decode key)).
Proof.
  intros Ck Hok. split; [|now apply parse_literal].
  assert (D : doc_ok (DObject [] [([], key, [], x)]) = true).
  { cbn [doc_ok forallb andb]. now rewrite Ck, Hok. }
  assert (T : "{"%char :: quoted key ++ ":"%char :: doc_text x ++ chars "}"
              = doc_text (DObject [] [([], key, [], x)])).
  { rewrite doc_text_object.
    cbn [members_text gaps_text map concat app].
    rewrite app_nil_r. same_text. }
  rewrite T. exact (parse_doc_whole _ D).
Qed.

Lemma X13_witness :
  parse ("{"%char :: quoted (chars "a" ++ BACKSLASH :: chars "nb")
         ++ ":"%char :: doc_text (DString (chars "a" ++ BACKSLASH :: chars "nb"))
         ++ chars "}")
  = Ok (JObject [(chars "a" ++ BACKSLASH :: chars "nb",
                  JString [ "a"%char; LF; "b"%char ])]).
Proof.
  apply (proj1 (X13_keys_as_written (chars "a" ++ BACKSLASH :: chars "nb")
                  (DString (chars "a" ++ BACKSLASH :: chars "nb"))
                  eq_refl eq_refl)).
Defined.

(** ** Looking a member up *)

(** X14: the value [parse] returns for the text of an object is an
    object, and [at(key)] on it gives the value of the last member of the
    text with that key (a repeated key keeps the later value), and throws
    [std::out_of_range] when no member has the key. *)
Theorem X14_member_lookup inner members key :
  doc_ok (DObject inner members) = true ->
  exists object,
    parse (doc_text (DObject inner members)) = Ok (JObject object)
    /\ asObject (JObject object) = Got object
    /\ map_at key object
       = match last_member key members with
         | Some v => Got v
         | None => OutOfRange
         end.
Proof.
  intros Hok. eexists. split; [exact (parse_doc_whole _ Hok)|].
  split; [reflexivity|]. apply map_at_members.
Qed.

Lemma X14_witness :
  exists object,
    parse (doc_text
             (DObject []
                [ ([], chars "a", [], DNumber (chars "1"));
                  ([], chars "b", [], DNumber (chars "2"));
                  ([], chars "a", [], DNumber (chars "3")) ]))
    = Ok (JObject object)
    /\ asObject (JObject object) = Got object
    /\ map_at (chars "a") object = Got (JNumber (Std.of_Z 3)).
Proof.
  apply (X14_member_lookup []
           [ ([], chars "a", [], DNumber (chars "1"));
             ([], chars "b", [], DNumber (chars "2"));
             ([], chars "a", [], DNumber (chars "3")) ]
           (chars "a")).
  reflexivity.
Defined.

(** ** Errors inside an array and an object *)

(** X15: an array whose elements, each a JSON text, are followed by a
    token that is neither a comma nor the closing bracket (a missing
    comma, the end of the input) is refused with the message of
    [parseArray] for that place, whatever comes after the token. *)
Theorem X15_array_wrong_end inner x l tail ty lexeme rest :
  forallb gap_ok inner = true -> forallb doc_ok (x :: l) = true ->
  delimiter (hd NUL tail) = true ->
  next_is tail ty lexeme rest -> ty <> TokenType.Unknown ->
  ty <> TokenType.Comma -> ty <> TokenType.RightBracket ->
  exists line col,
    parse ("["%char :: gaps_text inner ++ items_text (x :: l) ++ tail)
    = Throw (ParsingError.mk "Expected ',' or ']' after array element."
               line col).
Proof. exact (array_wrong_end inner x l tail ty lexeme rest). Qed.

Lemma X15_witness :
  exists line col,
    parse ("["%char :: gaps_text [Blank " "]
           ++ items_text [DNumber (chars "1"); DGap [Blank " "] DTrue []]
           ++ chars " [2], 3]")
    = Throw (ParsingError.mk "Expected ',' or ']' after array element."
               line col).
Proof.
  apply (X15_array_wrong_end [Blank " "] (DNumber (chars "1"))
           [DGap [Blank " "] DTrue []] (chars " [2], 3]")
           TokenType.LeftBracket (chars "[") (chars "2], 3]")).
  - reflexivity.
  - vm_compute. reflexivity.
  - reflexivity.
  - apply (next_is_blanks [" "%char]); [reflexivity|].
    now apply next_is_punct.
  - discriminate.
  - discriminate.
  - discriminate.
Defined.

(** X16: in an array, where an element is expected (after the opening
    bracket, or after the comma that follows elements read), a token that
    starts no value (a comma, a colon, a closing brace, the end of the
    input; the closing bracket after a comma) is refused with the message
    of [parseValue]: no trailing comma, no empty element. *)
Theorem X16_array_no_element inner xs tail ty lexeme rest :
  forallb gap_ok inner = true -> forallb doc_ok xs = true ->
  next_is tail ty lexeme rest -> starts_no_value ty = true ->
  (xs = [] -> ty <> TokenType.RightBracket) ->
  exists line col,
    parse ("["%char :: gaps_text inner ++ items_then xs ++ tail)
    = Throw (ParsingError.mk expected_value line col).
Proof. exact (array_no_element inner xs tail ty lexeme rest). Qed.

Lemma X16_witness :
  exists line col,
    parse ("["%char :: gaps_text []
           ++ items_then [DNumber (chars "1"); DArray [] []]
           ++ chars " ]")
    = Throw (ParsingError.mk expected_value line col).
Proof.
  apply (X16_array_no_element [] [DNumber (chars "1"); DArray [] []]
           (chars " ]") TokenType.RightBracket (chars "]") []).
  - reflexivity.
  - vm_compute. reflexivity.
  - apply (next_is_blanks [" "%char]); [reflexivity|].
    now apply next_is_punct.
  - reflexivity.
  - discriminate.
Defined.

(** X17: an object whose members, each a key, a colon and a JSON text,
    are followed by a token that is neither a comma nor the closing brace
    (a missing comma as in the second example of [main], the end of the
    input) is refused with the message of [parseObject] for that place. *)
Theorem X17_object_wrong_end inner m l tail ty lexeme rest :
  forallb gap_ok inner = true -> forallb member_ok (m :: l) = true ->
  delimiter (hd NUL tail) = true ->
  next_is tail ty lexeme rest -> ty <> TokenType.Unknown ->
  ty <> TokenType.Comma -> ty <> TokenType.RightBrace ->
  exists line col,
    parse ("{"%char :: gaps_text inner ++ members_text (m :: l) ++ tail)
    = Throw (ParsingError.mk "Expected ',' or '}' after object member."
               line col).
Proof. exact (object_wrong_end inner m l tail ty lexeme rest). Qed.

Lemma X17_witness :
  exists line col,
    parse ("{"%char :: gaps_text [Blank LF; Blank " "]
           ++ members_text
                [([], chars "key1", [],
                  DGap [Blank " "] (DString (chars "value1")) [])]
           ++ [LF; " "%char] ++ DQUOTE :: chars "key2" ++ DQUOTE
              :: chars ": 2}")
    = Throw (ParsingError.mk "Expected ',' or '}' after object member."
               line col).
Proof.
  apply (X17_object_wrong_end [Blank LF; Blank " "]
           ([], chars "key1", [],
            DGap [Blank " "] (DString (chars "value1")) [])
           [] _ TokenType.String (quoted (chars "key2")) (chars ": 2}")).
  - reflexivity.
  - vm_compute. reflexivity.
  - reflexivity.
  - apply (next_is_blanks [LF; " "%char]); [reflexivity|].
    now apply (next_is_string (chars "key2")).
  - discriminate.
  - discriminate.
  - discriminate.
Defined.

(** X18: in an object, where a key is expected (after the opening brace,
    or after the comma that follows members read), a token that is no
    string is refused with the message for a missing key: a number or a
    word as a key, and the closing brace after a comma, the trailing comma
    of the fourth example of [main]. *)
Theorem X18_object_no_key inner ms tail ty lexeme rest :
  forallb gap_ok inner = true -> forallb member_ok ms = true ->
  next_is tail ty lexeme rest -> ty <> TokenType.Unknown ->
  ty <> TokenType.String ->
  (ms = [] -> ty <> TokenType.RightBrace) ->
  exists line col,
    parse ("{"%char :: gaps_text inner ++ members_then ms ++ tail)
    = Throw (ParsingError.mk expected_key line col).
Proof. exact (object_no_key inner ms tail ty lexeme rest). Qed.

Lemma X18_witness :
  exists line col,
    parse ("{"%char :: gaps_text [Blank " "]
           ++ members_then
                [([], chars "key", [],
                  DGap [Blank " "] (DString (chars "value")) [])]
           ++ chars " }")
    = Throw (ParsingError.mk expected_key line col).
Proof.
  apply (X18_object_no_key [Blank " "]
           [([], chars "key", [],
             DGap [Blank " "] (DString (chars "value")) [])]
           (chars " }") TokenType.RightBrace (chars "}") []).
  - reflexivity.
  - vm_compute. reflexivity.
  - apply (next_is_blanks [" "%char]); [reflexivity|].
    now apply next_is_punct.
  - discriminate.
  - discriminate.
  - discriminate.
Defined.

(** X19: in an object, a key that is followed by a token other than a
    colon is refused with the message for a missing colon, and a key and
    its colon that are followed by a token that starts no value are
    refused with the message of [parseValue]. *)
Theorem X19_object_member_cut inner ms before key :
  forallb gap_ok inner = true -> forallb member_ok ms = true ->
  forallb gap_ok before = true -> closed_body key = true ->
  (forall tail ty lexeme rest,
     next_is tail ty lexeme rest -> ty <> TokenType.Unknown ->
     ty <> TokenType.Colon ->
     exists line col,
       parse ("{"%char :: gaps_text inner ++ members_then ms
              ++ gaps_text before ++ quoted key ++ tail)
       = Throw (ParsingError.mk "Expected ':' after object key." line col))
  /\ (forall mid tail ty lexeme rest,
        forallb gap_ok mid = true ->
        next_is tail ty lexeme rest -> starts_no_value ty = true ->
        exists line col,
          parse ("{"%char :: gaps_text inner ++ members_then ms
                 ++ gaps_text before ++ quoted key ++ gaps_text mid
                 ++ ":"%char :: tail)
          = Throw (ParsingError.mk expected_value line col)).
Proof.
  intros Ki Hok Kb Kk. split.
  - intros tail ty lexeme rest.
    now apply (object_no_colon inner ms before key tail ty lexeme rest).
  - intros mid tail ty lexeme rest.
    now apply (object_no_value inner ms before key mid tail ty lexeme rest).
Qed.

Lemma X19_witness :
  (exists line col,
     parse ("{"%char :: gaps_text [] ++ members_then []
            ++ gaps_text [] ++ quoted (chars "a") ++ chars " 1}")
     = Throw (ParsingError.mk "Expected ':' after object key." line col))
  /\ (exists line col,
        parse ("{"%char :: gaps_text [] ++ members_then []
               ++ gaps_text [] ++ quoted (chars "a") ++ gaps_text [Blank " "]
               ++ ":"%char :: chars "}")
        = Throw (ParsingError.mk expected_value line col)).
Proof.
  split.
  - apply (proj1 (X19_object_member_cut [] [] [] (chars "a")
                    eq_refl eq_refl eq_refl eq_refl)
             (chars " 1}") TokenType.Number (chars "1") (chars "}")).
    + apply (next_is_blanks [" "%char]); [reflexivity|].
      apply (next_is_number "1"%char (chars "}") [] (chars "}")); reflexivity.
    + discriminate.
    + discriminate.
  - apply (proj2 (X19_object_member_cut [] [] [] (chars "a")
                    eq_refl eq_refl eq_refl eq_refl)
             [Blank " "] (chars "}") TokenType.RightBrace (chars "}") []).
    + reflexivity.
    + now apply next_is_punct.
    + reflexivity.
Defined.

(** ** What an error carries *)

(** X20: every error [parse] throws carries one of nine messages, a line
    between 1 and the number of lines of the input, and a column between
    1 and one more than the length of the input.  The messages of
    [parseObject] and [parseArray] for a missing opening or closing token
    are not among them: the two functions are entered at their opening
    token only, and their loops are left at the closing one only. *)
Theorem X20_errors_in_text source e :
  parse source = Throw e ->
  In (ParsingError.message e) parse_messages
  /\ 1 <= ParsingError.line e /\ ParsingError.line e <= 1 + count_LF source
  /\ 1 <= ParsingError.col e /\ ParsingError.col e <= 1 + length source.
Proof. exact (parse_sound source e). Qed.

Lemma X20_witness :
  In "Expected ',' or ']' after array element."%string parse_messages
  /\ 1 <= 2 /\ 2 <= 1 + count_LF ("["%char :: LF :: chars "1 2]")
  /\ 1 <= 3 /\ 3 <= 1 + length ("["%char :: LF :: chars "1 2]").
Proof.
  apply (X20_errors_in_text ("["%char :: LF :: chars "1 2]")
           (ParsingError.mk "Expected ',' or ']' after array element." 2 3)).
  vm_compute. reflexivity.
Defined.

(** ** The byte order mark *)

(** X21: one byte order mark in front of the input is dropped before the
    lexer is made, so the result, and the lines and columns of an error,
    are those of the input without it; a second mark is not dropped, and
    is refused as a character that starts no token. *)
Theorem X21_byte_order_mark :
  (forall s, Parser.hasBOM s = false -> parse (BOM ++ s) = parse s)
  /\ (forall s,
        parse (BOM ++ BOM ++ s) = Throw (ParsingError.mk unexpected 1 1)).
Proof. split; [exact parse_BOM | exact parse_BOM_twice]. Qed.

Lemma X21_witness :
  parse (BOM ++ chars "[1, @]") = parse (chars "[1, @]")
  /\ parse (chars "[1, @]") = Throw (ParsingError.mk unexpected 1 5).
Proof.
  split.
  - apply (proj1 X21_byte_order_mark (chars "[1, @]")). reflexivity.
  - vm_compute. reflexivity.
Defined.

(** ** The column after a block comment *)

(** X22: the first token after any white space and comments carries the
    line of its first character; its column is that of the character
    when the last line feed before it stands in white space or ends a
    line comment (or there is none), and one more when that line feed
    stands in a block comment.  An Unknown token there is refused at that
    line and column. *)
Theorem X22_column_after_comment gs text :
  forallb gap_ok gs = true ->
  token_start (hd NUL text) = true ->
  (Token.line (fst (Lexer.nextToken (Lexer.new (gaps_text gs ++ text)))),
   Token.col (fst (Lexer.nextToken (Lexer.new (gaps_text gs ++ text)))))
  = (fst (position (gaps_text gs ++ text) (length (gaps_text gs))),
     snd (position (gaps_text gs ++ text) (length (gaps_text gs)))
     + ahead_by (fold_left drift gs false))
  /\ (forall lexeme rest,
        Parser.hasBOM (gaps_text gs ++ text) = false ->
        next_is text TokenType.Unknown lexeme rest ->
        parse (gaps_text gs ++ text)
        = Throw (ParsingError.mk unexpected
                   (fst (position (gaps_text gs ++ text)
                           (length (gaps_text gs))))
                   (snd (position (gaps_text gs ++ text)
                           (length (gaps_text gs)))
                    + ahead_by (fold_left drift gs false)))).
Proof.
  intros K T. split.
  - now apply first_token_drift.
  - intros lexeme rest. now apply parse_drift_unknown.
Qed.

Lemma X22_witness :
  parse (gaps_text [Blank " "; BlockComment (chars "a" ++ LF :: chars "b");
                    Blank " "]
         ++ chars "@")
  = Throw (ParsingError.mk unexpected
             (fst (position
                     (gaps_text [Blank " ";
                                 BlockComment (chars "a" ++ LF :: chars "b");
                                 Blank " "]
                      ++ chars "@")
                     (length
                        (gaps_text
                           [Blank " ";
                            BlockComment (chars "a" ++ LF :: chars "b");
                            Blank " "]))))
             (snd (position
                     (gaps_text [Blank " ";
                                 BlockComment (chars "a" ++ LF :: chars "b");
                                 Blank " "]
                      ++ chars "@")
                     (length
                        (gaps_text
                           [Blank " ";
                            BlockComment (chars "a" ++ LF :: chars "b");
                            Blank " "])))
              + ahead_by
                  (fold_left drift
                     [Blank " "; BlockComment (chars "a" ++ LF :: chars "b");
                      Blank " "] false)))
  /\ position (chars " /*a" ++ LF :: chars "b*/ @") 9 = (2, 5)
  /\ ahead_by
       (fold_left drift
          [Blank " "; BlockComment (chars "a" ++ LF :: chars "b"); Blank " "]
          false) = 1.
Proof.
  split; [|split; reflexivity].
  apply (proj2 (X22_column_after_comment
                  [Blank " "; BlockComment (chars "a" ++ LF :: chars "b");
                   Blank " "]
                  (chars "@") eq_refl eq_refl) (chars "@") []).
  - reflexivity.
  - now apply (next_is_stray "@"%char).
Defined.
